(* ===== verification/_CoqProject ===== *)
-Q . S2P
Prelude.v
BitMap.v
HashStream.v
FreeList.v
Node.v
Hamt.v
NodeRepr.v
NodeDebug.v
WordHeap.v
WordInsert.v
WordMap.v
Scenarios.v
