(* ===== verification/Prelude.v ===== *)
(** * A verification development for the [hamt] crate (WaDelma/hamt)

    The crate is a Hash Array Mapped Trie written in unsafe Rust.  Five
    source files make up the program; each one is modelled by one file of
    this library (node.rs by three: its constructors, its word layout
    and its Debug printer), the map is modelled a second time on the
    word layout (three files: the heap, [insert], then [new], [get] and
    the runs of the map), and concrete scenarios close the list, in
    dependency order:

    - [Prelude] (this file): the outcome monad [outcome] that every
      fallible operation returns (a value, or a [fault]: a Rust panic, an
      out-of-bounds access, a use after free, a read of uninitialised
      memory, or running out of the fuel that bounds an unbounded loop),
      its notation in [hamt_scope], the machine-word helpers, the
      association-list lookup [assoc] that serves as the abstract map, and
      the hint database [hamt].

    - [BitMap] models src/map.rs: [BitMap] is a [usize] kept as a [Z]
      below 2^64; [is_empty], [is_set], [set_bits] ([count_ones]),
      [set_bits_under] (the rank query) and [set] are translated
      operation by operation.  The theorems relate them to the list
      [ones] of set positions: rank = number of set bits below, the list
      after [set] is the old one with the new index inserted at its rank.

    - [HashStream] models src/hash_stream.rs: the [Hasher] trait is a type
      class (finish may change the hasher state, which covers the Cell
      counter of the crate's own mock hasher), [HashStream] is the record
      (hasher, reservoy, eaten) and [next] is the Iterator::next body with
      its u64/u8 arithmetic; [Skip] models Iterator::skip.  The main
      theorem shows that the n-th index equals bits [bits*n, bits*n+bits)
      of the concatenation of the successive digests, for any index width
      up to 8 bits (6 on 64-bit targets, 5 on 32-bit ones), and that the
      u8 counter never leaves [0, 64].  The crate's mock hasher of the
      unit test is modelled and instantiates the main theorem.

    - [FreeList] models src/free_list.rs: the pool is a list of 64
      [Link] stacks of buffers; a buffer is a slot array whose slots may
      be uninitialised ([None]), or a dangling buffer.  [singleton],
      [pair], [push], [free_internal] and [free] are translated with
      their asserts (panics), the slice index (out of range panics) and
      the raw writes.  The pool invariant (stack i holds live buffers of
      length i+1) is preserved by every operation but [free], and the
      results are exactly [x], [a; b] and [s ++ [x]].  [free] drops the
      box before pooling it; the model shows the next reuse is a use
      after free.

    - [Node] models src/node.rs at the level of its two variants: a
      [Leaf] owning a key and a value, a [Branch] owning a bitmap and a
      child array (the empty branch has an empty array, the null base).
      The accessors [inner], [set_base], [get_map] and [set_value] are
      translated with their Leaf/Branch guards.  The [Drop] impl is
      modelled as the list of leaves it releases: it reconstructs a
      single [Box<Node>] from the base, so it releases only the first
      child of each branch and faults on the null base of an empty one.

    - [Hamt] models src/lib.rs: [get] walks the trie drawing one index
      per branch; [insert] walks it the same way and ends in one of the
      four terminal cases of the source (overwrite at an empty root,
      replace the value of an equal key, grow a branch by one child with
      [FreeList.push] and the swap loop, or split a leaf with the
      [split] loop).  The split loop has no bound in the source; the model
      gives it fuel.  The trie invariant [wf_node] says that the children
      of a branch are in the order of its set bits and every key below
      child i draws index i at that depth.  The theorems show that [get]
      is the association-list lookup of the trie's [elements], that
      [insert] returns the previous value, updates exactly one key and
      keeps the invariant and the pool invariant, and that it never
      faults when the fuel exceeds the depth at which the new key's
      index stream first differs from every other key's.

    - [NodeRepr] models the two-word layout of node.rs: the unions
      [MapKey] and [BaseValue] as 64-bit words, the tag in the low bit of
      the second word, every function of node.rs on the words, and a heap
      of key boxes, value boxes and child arrays.  The relation [repr]
      ties words to the constructors of [Node]; the accessors refine
      those of Node.v when value boxes are at even addresses, and the
      loop of [Hamt::get] on the words ([get_repr], with fuel above the
      trie depth) computes what [Hamt.get_node] computes; the [Drop] impl
      on the words ([drop_repr]) releases what [Node.drop_node] releases.
      A zero-sized value type breaks the tag: its box is at the odd
      address 1.

    - [NodeDebug] models the [fmt::Debug] impl of node.rs on the words:
      a leaf prints its key and its value address in hex, a branch its
      bitmap in binary and one [i->child] entry per set bit, reading the
      child at [base.offset(ones)] with a running counter; Rust's integer
      formatting is [fmt_radix].  The loop prints exactly the (set bit,
      child at its rank) pairs, the printer never faults on well-formed
      words, and the digits read back.

    - [WordHeap] gives [insert] on the words its heap: an allocator
      interface ([Alloc], [AllocLaws]: fresh, even, non-null addresses)
      with a first-fit instance, the cells ([loc]) and the footprint
      [fp] the words of a node own (with the frame lemma [repr_frame]),
      and the free list of free_list.rs on buffer addresses ([WPool];
      [wsingleton], [wpair], [wpush], [wfree_internal] writing the
      buffers in the heap).

    - [WordInsert] models [Hamt::insert] as lib.rs writes it: the
      mutable reference [cur] is a [place] (the root or a slot of a child
      array), the key and value are boxed on the heap, [ptr::read] and
      [ptr::write] move words, and each terminal case ([woverwrite],
      [wfill], [wgrow], [wsplit_leaf] with the loop [wsplit]) is one
      definition, composed by the walk [wloop].  The ownership invariant
      [wrepr] says that the words stand for the trie and that the cells
      every node owns and the pooled buffers are pairwise distinct.  Each
      case is proved against a pre/post-condition pair ([step_pre],
      [step_post]) that frames everything outside [cur]'s node; the
      descent composes them ([step_post_descend], [step_post_trans]).
      The same file bounds the heap growth of an insert with no
      invariant (each arm's cells counted) and proves the backward
      simulation: a word-level insert that returns has an abstract
      insert that returns, found by a second walk
      ([wloop_done_insert_node]), and the walk's fuel is monotone
      ([wloop_mono]).

    - [WordMap] completes the map on the words: [Hamt::new] ([wnew],
      over whatever heap the allocator holds) and [Hamt::get] ([wget],
      the walk of [get_repr] and the final [&*v]).  It bounds the depth
      an insert adds to the trie ([insert_depth]: at most the split
      loop's fuel) and defines the runs of the program on the words as
      the inductive [wreachable].

    - [Scenarios] instantiates the classes with a deterministic
      FNV-style hasher over [i32] keys, builds concrete maps, applies the
      Hamt theorems to them (two keys sharing two index levels for the
      collision chain; pair keys hashed by their first component for the
      endless split loop), and proves the crate's [insert_get] test loop
      correct for any number of separated keys, then runs it at the
      test's own size, 5000 keys, with a sort-based separation check.
      It also runs the word-level insert from [Hamt::new()] on the words
      ([wempty], that is [wnew] on the empty heap) with the first-fit
      allocator, applies the theorems of WordMap.v to these runs, and
      runs the [insert_get] test on the words ([winsert_get_loop]).

    How the parts interact: [Hamt.insert] calls [Node]'s accessors,
    [BitMap]'s rank queries, [HashStream]'s [next] (and [skip] for the
    displaced key of a split) and [FreeList]'s [singleton], [pair] and
    [push].  The pool is reached through the interface [FreeList.Pool]
    and its laws [FreeList.PoolLaws] (exact results, invariant kept):
    Hamt.v is generic over any lawful pool, and FreeList.v proves that
    [FreeList] is one.  The other components are used through their
    lemmas against their invariants ([bm_wf], [stream_inv]).  The
    hashing interface is the pair of classes [Hamt.BuildHasher] and
    [Hamt.Hash] over [HashStream.Hasher], so every theorem holds for any
    hash function.

    The main theorems:
    - refinement of the operations against the abstract association
      list: [Hamt.get_spec] ([get] is the lookup) and [Hamt.insert_spec]
      ([insert] terminates, returns the old [get] result, and changes
      [get] at exactly one key), proved as partial correctness
      ([Hamt.insert_done]) plus termination under the separation
      hypothesis ([Hamt.insert_node_terminates]);
    - the invariant by rule induction: every map reachable from [new] by
      inserts that return is well formed and [get] on it never faults,
      [Hamt.reachable_wf];
    - sequences and collisions: [Hamt.insert_all_spec] (round trip of a
      sequence of inserts), [Hamt.insert_collision_chain] (keys sharing
      [k] index levels give exactly [k] single-child branches) and
      [Hamt.insert_full_collision_diverges] (keys sharing every level make
      the split loop run forever);
    - liveness: [Hamt.insert_eventually_returns] (when some index
      position tells the new key apart from each key present, there is
      a number of rounds after which the source's unbounded split loop
      has ended, and every run with that many rounds returns the
      specified result);
    - equivalences of optimised routines with a reference:
      [HashStream.take_stream_spec] (bit slicing of the digests) and
      [Hamt.shift_into_place_insert_at] (the swap loop is an insertion);
    - refinement of the word layout: [NodeRepr.get_repr_refines],
      [NodeRepr.drop_repr_refines] and [NodeRepr.node_ops_refine];
    - insert on the words: [WordInsert.winsert_refines] (whenever
      [Hamt.insert] returns, the word-level insert returns the same old
      value and words standing for the new trie, with the ownership
      invariant kept), [WordInsert.winsert_correct] (its contents
      after the insert, under the separation hypothesis) and
      [WordInsert.winsert_get] (the loop of [get] on the words after the
      word-level insert finds the new value, and the old ones elsewhere:
      the two word-level operations composed); the leak of a split,
      [WordInsert.winsert_split_leaks] (an insert that splits the
      root leaf of any map leaves the leaf's key and value boxes
      allocated, with their contents, and owned by neither the new
      trie nor the pool);
    - the map on the words as a whole: [WordInsert.winsert_back] (the
      converse of [winsert_refines]: a word-level insert that returns is
      an abstract insert with the same result, so the two return
      together), [WordMap.wreachable_inv] (every state reached by [wnew]
      and inserts stands for a reachable, well-formed trie, keeps the
      ownership invariant, and [wget] returns its lookup; rule induction
      on [wreachable]) and [WordInsert.winsert_heap_bound] (an insert adds
      at most [fuel + 4] cells, the boxes a split leaks included);
    - the Debug printer: [NodeDebug.fmt_repr_branch],
      [NodeDebug.fmt_repr_total];
    - pool behaviour: [FreeList.push_recycles] and
      [singleton_pair_recycle] (exact results, invariant, size-class
      accounting),
      [push_panics];
    - bounds and bit operations: [HashStream.stream_bounds],
      [BitMap.set_bits_under_rank], [BitMap.set_spec];
    - defects of the source: [FreeList.free_then_singleton_use_after_free],
      [Node.drop_node_faults], [Node.drop_node_at_most_one],
      [NodeRepr.zst_leaf_unreachable] ([drop_node_faults] covers the
      empty map's root, whose drop dereferences the null base, as well
      as every node with two or more entries);
    - the crate's [insert_get] test: [Scenarios.insert_get_loop_ok]
      (at the test's 5000 keys), and the
      [insert_get] test on the words, [Scenarios.winsert_get_loop_ok]
      (every word-level insert returns and every [get] on the words finds
      its key, given walk fuel above the depth [n] inserts can reach,
      [WordMap.insert_depth], and heap room; applied at 5000 keys);
    - the empty map, on the trie and on the words: [WordMap.wnew_get].

    Fuel and bounds: only the split loop of [insert] needs fuel; one unit
    per level of the single-child chain it builds, so fuel larger than
    the first position where the two index streams differ is enough.
    [Hamt.keys_separated] states exactly that hypothesis, and the boolean
    [keys_separatedb] decides it on concrete keys.  The source loop does
    not terminate when two keys' streams agree forever (the spec accepts
    unbounded depth), and [insert_full_collision_diverges] shows that no
    fuel is then enough.  The walks of [get] and [insert] are structural
    on the trie.  The walks on words ([get_repr], [drop_repr]) follow
    addresses in a heap that could be cyclic, so they take fuel; fuel
    above the depth of the trie the words stand for is enough; the same
    holds for the walk of the word-level insert ([wfuel]) and for the
    Debug printer; [WordInsert.wloop_mono] shows that more walk fuel never
    changes a result.  The word-level split loop shares the fuel of
    [Hamt.insert].  The heap must have room: fewer than
    2^62 - fuel - 5 cells ([ALLOC_LIMIT] is 2^62), since a split
    allocates one array per chained level and five cells at the end,
    so that the allocator's addresses stay even [usize] values.  Bit indices are below 64
    wherever the source shifts by them,
    which [stream_bounds] guarantees for every drawn index; the replayed
    [insert_get] test uses fuel 10 for 5000 keys: their first ten indices (60 bits of
    the first digest) already differ pairwise, which a sort of one code
    per key checks ([Scenarios.prefix_codes_separate]); the separation of
    the 40-key scenario is checked pairwise by [keys_separatedb].

    Not modelled: the hash function itself (RandomState/SipHash is a
    library capability; the model is generic over any [Hasher]); the
    global allocator (an interface with laws; any lawful allocator
    gives the theorems); [get] through [&V] references after an insert
    (the model returns the value, not a borrow); the module imports, the
    [impl] headers and
    the unused TODO constants [BLOCK_SIZE] and [DEFRAG_TRESHOLD]. *)

From stdpp Require Export base list options sets.
From Stdlib Require Export ZArith Lia.

Declare Scope hamt_scope.
Delimit Scope hamt_scope with hamt.
Open Scope hamt_scope.

(** ** Faults and the outcome monad *)

(** What can go wrong when the Rust code runs: an explicit panic (an
    [assert!], an index out of range, [unwrap] of [None]), an access
    outside an allocation, a use of freed memory, a read of memory that
    was never written, a dereference of a null pointer, a deallocation
    with a layout other than the allocation's, and (for the model only)
    running out of the fuel that bounds a loop the source does not
    bound. *)
Inductive fault :=
| Panic
| OutOfBounds
| UseAfterFree
| UninitRead
| NullDeref
| BadDealloc
| OutOfFuel.

#[export] Instance fault_eq_dec : EqDecision fault.
Proof. solve_decision. Defined.

Inductive outcome (A : Type) :=
| Done (a : A)
| Fault (f : fault).
Arguments Done {A} a.
Arguments Fault {A} f.

#[export] Instance outcome_eq_dec {A} `{EqDecision A} : EqDecision (outcome A).
Proof. solve_decision. Defined.

Definition obind {A B} (m : outcome A) (k : A -> outcome B) : outcome B :=
  match m with
  | Done a => k a
  | Fault f => Fault f
  end.

Notation "'let?' x := m 'in' k" := (obind m (fun x => k))
  (at level 10, x pattern, m at level 100, k at level 200) : hamt_scope.

(** [Option::unwrap]: panics on [None]. *)
Definition unwrap {A} (o : option A) : outcome A :=
  match o with
  | Some a => Done a
  | None => Fault Panic
  end.

(** [assert!(b)]. *)
Definition assert (b : bool) : outcome unit :=
  if b then Done tt else Fault Panic.

Lemma obind_done {A B} (m : outcome A) (k : A -> outcome B) b :
  obind m k = Done b <-> exists a, m = Done a /\ k a = Done b.
Proof. destruct m; simpl; split; intros; naive_solver. Qed.

Lemma obind_ret {A B} (a : A) (k : A -> outcome B) : obind (Done a) k = k a.
Proof. reflexivity. Qed.

(** ** Machine words *)

Open Scope Z_scope.

(** A value of an unsigned w-bit Rust integer type. *)
Definition in_width (w : Z) (x : Z) : Prop := 0 <= x < 2 ^ w.

(** [as u8]: truncation to the low 8 bits. *)
Definition as_u8 (x : Z) : Z := Z.land x (Z.ones 8).

(** [x << n] on [u64] (for [n < 64]): the bits shifted past bit 63 are lost. *)
Definition u64_shl (x n : Z) : Z := Z.land (Z.shiftl x n) (Z.ones 64).

(** u8 addition and subtraction as compiled without overflow checks. *)
Definition u8_add (a b : Z) : Z := (a + b) mod 2 ^ 8.
Definition u8_sub (a b : Z) : Z := (a - b) mod 2 ^ 8.

Lemma u8_add_small a b : 0 <= a + b < 2 ^ 8 -> u8_add a b = a + b.
Proof. intros. unfold u8_add. apply Z.mod_small. lia. Qed.

Lemma u8_sub_small a b : 0 <= a - b < 2 ^ 8 -> u8_sub a b = a - b.
Proof. intros. unfold u8_sub. apply Z.mod_small. lia. Qed.

Lemma as_u8_small x : 0 <= x < 2 ^ 8 -> as_u8 x = x.
Proof.
  intros. unfold as_u8. rewrite Z.land_ones by lia. apply Z.mod_small. lia.
Qed.

(** Bits of a value below [2^w] vanish from position [w] on. *)
Lemma testbit_above (x w n : Z) :
  0 <= x < 2 ^ w -> 0 <= w <= n -> Z.testbit x n = false.
Proof.
  intros Hx Hn. destruct (Z.eq_dec x 0) as [->|]; [apply Z.testbit_0_l|].
  apply Z.bits_above_log2; [lia|].
  assert (Z.log2 x < w) by (apply Z.log2_lt_pow2; lia). lia.
Qed.

(** A value all of whose bits from [w] on are clear lies below [2^w]. *)
Lemma bound_of_testbit (x w : Z) :
  0 <= x -> 0 <= w -> (forall n, w <= n -> Z.testbit x n = false) -> x < 2 ^ w.
Proof.
  intros Hx Hw Hb. destruct (Z.eq_dec x 0) as [->|]; [apply Z.pow_pos_nonneg; lia|].
  apply Z.log2_lt_pow2; [lia|].
  destruct (Z.lt_ge_cases (Z.log2 x) w) as [|Hge]; [lia|].
  pose proof (Hb _ Hge) as Hf. rewrite Z.bit_log2 in Hf by lia. discriminate.
Qed.

Lemma testbit_ones_land (x n t : Z) :
  0 <= n -> Z.testbit (Z.land x (Z.ones n)) t = (t <? n) && Z.testbit x t.
Proof.
  intros Hn. destruct (Z.ltb_spec t 0).
  - rewrite !Z.testbit_neg_r by lia. symmetry; apply andb_false_r.
  - rewrite Z.land_spec. destruct (Z.ltb_spec t n).
    + rewrite Z.ones_spec_low by lia. apply andb_true_r.
    + rewrite Z.ones_spec_high by lia. apply andb_false_r.
Qed.

Lemma testbit_u64_shl x n t :
  0 <= n -> 0 <= t -> Z.testbit (u64_shl x n) t = (t <? 64) && ((n <=? t) && Z.testbit x (t - n)).
Proof.
  intros Hn Ht. unfold u64_shl. rewrite testbit_ones_land by lia. f_equal.
  destruct (Z.leb_spec n t).
  - apply Z.shiftl_spec_high; lia.
  - apply Z.shiftl_spec_low; lia.
Qed.

(** [(1 << n) - 1], the mask of the low [n] bits. *)
Lemma shiftl_one_sub_one (n : Z) : 0 <= n -> Z.shiftl 1 n - 1 = Z.ones n.
Proof.
  intros. rewrite Z.shiftl_1_l, Z.ones_equiv. lia.
Qed.

Lemma u64_shl_one_sub_one (n : Z) : 0 <= n < 64 -> u64_shl 1 n - 1 = Z.ones n.
Proof.
  intros Hn. unfold u64_shl. rewrite Z.land_ones, Z.shiftl_1_l by lia.
  rewrite Z.mod_small.
  - rewrite Z.ones_equiv. lia.
  - split; [lia|]. apply Z.pow_lt_mono_r; lia.
Qed.

(** Two integers with the same bits at every natural position are equal. *)
Lemma Z_bits_eq_nat (a b : Z) :
  (forall t : nat, Z.testbit a (Z.of_nat t) = Z.testbit b (Z.of_nat t)) -> a = b.
Proof.
  intros Hab. apply Z.bits_inj'. intros n Hn.
  rewrite <- (Z2Nat.id n Hn). apply Hab.
Qed.

Close Scope Z_scope.

(** ** Association lists: the abstract map *)

Fixpoint assoc {K V} `{EqDecision K} (k : K) (l : list (K * V)) : option V :=
  match l with
  | [] => None
  | (k', v) :: l' => if decide (k' = k) then Some v else assoc k l'
  end.

Section Assoc.
Context {K V : Type} `{EqDecision K}.
Implicit Types (l : list (K * V)) (k : K).

Lemma assoc_app k l1 l2 :
  assoc k (l1 ++ l2) = match assoc k l1 with Some v => Some v | None => assoc k l2 end.
Proof.
  induction l1 as [|[k' v] l1 IH]; simpl; [done|].
  case_decide; [done | apply IH].
Qed.

Lemma assoc_not_in k l : k ∉ l.*1 -> assoc k l = None.
Proof.
  induction l as [|[k' v] l IH]; simpl; [done|].
  rewrite not_elem_of_cons. intros [Hne Hn]. case_decide; [congruence | auto].
Qed.

Lemma assoc_in k l v : assoc k l = Some v -> k ∈ l.*1.
Proof.
  induction l as [|[k' v'] l IH]; simpl; [done|].
  case_decide; subst; intros; [left | right; auto].
Qed.
Lemma assoc_is_some k l : k ∈ l.*1 -> is_Some (assoc k l).
Proof.
  induction l as [|[k' v] l IH]; simpl; [by intros ?%not_elem_of_nil|].
  rewrite elem_of_cons. intros Hk. case_decide; [by eexists|].
  apply IH. destruct Hk as [Hk|]; [simpl in Hk; congruence | done].
Qed.

Lemma assoc_app_rev_cons k (x : K * V) l :
  assoc k (rev (x :: l)) = match assoc k (rev l) with Some v => Some v | None => assoc k [x] end.
Proof. simpl. apply assoc_app. Qed.

(** A block without key [k] in the middle of a list does not change
    the lookup of [k]. *)
Lemma assoc_app_mid k l1 x l2 :
  k ∉ x.*1 -> assoc k (l1 ++ x ++ l2) = assoc k (l1 ++ l2).
Proof.
  intros Hk. rewrite !assoc_app, (assoc_not_in k x Hk). reflexivity.
Qed.
End Assoc.

(** ** Lists updated by index *)

(** Insertion of [x] at position [n], the reference for the in-place
    shifting loops of the source. *)
Definition insert_at {A} (n : nat) (x : A) (l : list A) : list A :=
  take n l ++ x :: drop n l.

Lemma length_insert_at {A} n (x : A) l :
  n <= length l -> length (insert_at n x l) = S (length l).
Proof.
  intros. unfold insert_at. rewrite length_app, length_take. simpl. rewrite length_drop. lia.
Qed.

Lemma Forall2_insert_at {A B} (P : A -> B -> Prop) n a b la lb :
  Forall2 P la lb -> P a b -> Forall2 P (insert_at n a la) (insert_at n b lb).
Proof.
  intros HF HP. unfold insert_at.
  apply Forall2_app; [by apply Forall2_take|].
  constructor; [done|]. by apply Forall2_drop.
Qed.

(** ** [flat_map] over lists changed at one position *)

Lemma flat_map_insert_at {A B} (g : A -> list B) n x l :
  flat_map g (insert_at n x l) = flat_map g (take n l) ++ g x ++ flat_map g (drop n l).
Proof. unfold insert_at. by rewrite flat_map_app. Qed.

Lemma flat_map_take_drop {A B} (g : A -> list B) n l :
  flat_map g l = flat_map g (take n l) ++ flat_map g (drop n l).
Proof. by rewrite <- flat_map_app, take_drop. Qed.

Lemma flat_map_split_at {A B} (g : A -> list B) l r x :
  l !! r = Some x -> flat_map g l = flat_map g (take r l) ++ g x ++ flat_map g (drop (S r) l).
Proof.
  intros Hx. rewrite <- (take_drop_middle l r x Hx) at 1.
  rewrite flat_map_app. reflexivity.
Qed.

Lemma flat_map_list_insert {A B} (g : A -> list B) l r x y :
  l !! r = Some x ->
  flat_map g (<[r := y]> l) = flat_map g (take r l) ++ g y ++ flat_map g (drop (S r) l).
Proof.
  intros Hx. rewrite insert_take_drop by (by apply lookup_lt_Some in Hx).
  rewrite flat_map_app. reflexivity.
Qed.

(** ** Maxima of lists changed at one position *)

Lemma max_list_le (ns : list nat) b : (forall x, x ∈ ns -> x <= b) -> max_list ns <= b.
Proof.
  induction ns as [|n ns IH]; intros Hb; simpl; [lia|].
  apply Nat.max_lub; [apply Hb; left | apply IH; intros x Hx; apply Hb; by right].
Qed.

Lemma elem_of_list_insert_inv {A} (l : list A) i x y : y ∈ <[i := x]> l -> y = x \/ y ∈ l.
Proof.
  intros (j & Hj)%list_elem_of_lookup. destruct (decide (i = j)) as [->|Hne].
  - left. apply lookup_lt_Some in Hj as Hlt. rewrite length_insert in Hlt.
    rewrite list_lookup_insert_eq in Hj by done. congruence.
  - right. rewrite list_lookup_insert_ne in Hj by done. by eapply list_elem_of_lookup_2.
Qed.

Lemma elem_of_insert_at_inv {A} n (x y : A) l : y ∈ insert_at n x l -> y = x \/ y ∈ l.
Proof.
  unfold insert_at. rewrite <- (take_drop n l) at 3.
  intros [Hy | [-> | Hy]%elem_of_cons]%elem_of_app; [right | left | right]; [|done|];
    apply elem_of_app; auto.
Qed.

(** A map whose image of [l] has no duplicates is injective on [l]. *)
Lemma NoDup_fmap_inj_on {A B} (f : A -> B) l x y :
  NoDup (f <$> l) -> x ∈ l -> y ∈ l -> f x = f y -> x = y.
Proof.
  induction l as [|a l IH]; intros Hnd Hx Hy Hf; [by apply elem_of_nil in Hx|].
  apply NoDup_cons in Hnd as [Ha Hnd].
  apply elem_of_cons in Hx as [->|Hx]; apply elem_of_cons in Hy as [->|Hy]; [done| | |by apply IH].
  - destruct Ha. rewrite Hf. by apply list_elem_of_fmap_2.
  - destruct Ha. rewrite <- Hf. by apply list_elem_of_fmap_2.
Qed.

(** Two functions on [0 .. n) agree everywhere or differ somewhere. *)
Lemma nat_fun_agree_or_differ (f g : nat -> nat) n :
  (forall m, m < n -> f m = g m) \/ exists m, m < n /\ f m <> g m.
Proof.
  induction n as [|n [IH | (m & Hm & Hfm)]]; [left; lia | |right; exists m; split; [lia|done]].
  destruct (decide (f n = g n)) as [Heq|Hne]; [left | right; exists n; split; [lia|done]].
  intros m Hm. destruct (decide (m = n)) as [->|]; [done|]. apply IH. lia.
Qed.

Create HintDb hamt.
#[export] Hint Resolve Forall2_insert_at : hamt.

(** Peel one [obind] of a hypothesis [m >>= k = Done b]. *)
Ltac obind_inv H :=
  let a := fresh "a" in
  let Ha := fresh "Ha" in
  apply obind_done in H; destruct H as (a & Ha & H).

Example obind_pattern_example :
  (let? (a, b) := Done (1, 2) in Done (a + b)) = Done 3.
Proof. reflexivity. Qed.
