(* ===== verification/BitMap.v ===== *)
(** * BitMap: the presence bitmap of a branch (src/map.rs)

    [BitMap(usize)] is a record holding one 64-bit word as a [Z].  Each
    method of map.rs is one definition.  The list [ones_in a len x] of
    the set positions in [a, a+len) is the abstraction the theorems use:
    [set_bits] is the length of the whole list, [set_bits_under i] the
    length of the part below [i] (the rank), and [set i] inserts [i] into
    the list at its rank.  Indices are below 64: every caller passes an
    index drawn from a [HashStream], which the HashStream theorems bound. *)

From S2P Require Import Prelude.

Module BitMap.
Local Open Scope Z_scope.

(** [pub struct BitMap(usize)] *)
Record BitMap := mk_bitmap { bits : Z }.

(** The word width of [usize] on the modelled 64-bit target. *)
Definition USIZE_BITS : nat := 64.

(** [u64::count_ones] / [usize::count_ones]: the number of set bits
    among positions [a .. a+len). *)
Fixpoint popcount_in (a len : nat) (x : Z) : nat :=
  match len with
  | O => O
  | S l => (if Z.testbit x (Z.of_nat a) then 1 else 0) + popcount_in (S a) l x
  end%nat.

Definition count_ones (x : Z) : nat := popcount_in 0 USIZE_BITS x.

Definition empty : BitMap := mk_bitmap 0.

Definition is_empty (m : BitMap) : bool := bits m =? 0.

(** [(self.0 >> i) & 1 == 1] *)
Definition is_set (m : BitMap) (i : nat) : bool :=
  Z.land (Z.shiftr (bits m) (Z.of_nat i)) 1 =? 1.

Definition set_bits (m : BitMap) : nat := count_ones (bits m).

(** [let mask = (1 << i) - 1; (self.0 & mask).count_ones()] *)
Definition set_bits_under (m : BitMap) (i : nat) : nat :=
  let mask := Z.shiftl 1 (Z.of_nat i) - 1 in
  count_ones (Z.land (bits m) mask).

(** [self.0 |= 1 << i] *)
Definition set (m : BitMap) (i : nat) : BitMap :=
  mk_bitmap (Z.lor (bits m) (Z.shiftl 1 (Z.of_nat i))).

Definition get (m : BitMap) : Z := bits m.

(** A [usize] value. *)
Definition bm_wf (m : BitMap) : Prop := in_width 64 (bits m).

(** ** The list of set positions *)

Fixpoint ones_in (a len : nat) (x : Z) : list nat :=
  match len with
  | O => []
  | S l => (if Z.testbit x (Z.of_nat a) then [a] else []) ++ ones_in (S a) l x
  end.

(** The set positions of the whole word, in ascending order. *)
Definition ones (m : BitMap) : list nat := ones_in 0 USIZE_BITS (bits m).

(** ** Lemmas on [ones_in] *)

Lemma popcount_in_ones a len x : popcount_in a len x = length (ones_in a len x).
Proof.
  revert a. induction len as [|len IH]; intros a; simpl; [done|].
  rewrite IH. destruct (Z.testbit _ _); reflexivity.
Qed.

Lemma ones_in_filter a len x :
  ones_in a len x = filter (fun j => Z.testbit x (Z.of_nat j) = true) (seq a len).
Proof.
  revert a. induction len as [|len IH]; intros a; simpl; [done|].
  rewrite filter_cons, IH. destruct (Z.testbit _ _); reflexivity.
Qed.

Lemma ones_in_app a l1 l2 x :
  ones_in a (l1 + l2) x = ones_in a l1 x ++ ones_in (a + l1) l2 x.
Proof.
  revert a. induction l1 as [|l1 IH]; intros a; simpl.
  - by rewrite Nat.add_0_r.
  - rewrite IH, app_assoc. do 2 f_equal. lia.
Qed.

Lemma ones_in_ext a len x y :
  (forall j, (a <= j < a + len)%nat -> Z.testbit x (Z.of_nat j) = Z.testbit y (Z.of_nat j)) ->
  ones_in a len x = ones_in a len y.
Proof.
  revert a. induction len as [|len IH]; intros a Hxy; simpl; [done|].
  rewrite (Hxy a) by lia. f_equal. apply IH. intros j Hj. apply Hxy. lia.
Qed.

Lemma ones_in_nil a len x :
  (forall j, (a <= j < a + len)%nat -> Z.testbit x (Z.of_nat j) = false) ->
  ones_in a len x = [].
Proof.
  revert a. induction len as [|len IH]; intros a Hx; simpl; [done|].
  rewrite (Hx a) by lia. apply IH. intros j Hj. apply Hx. lia.
Qed.

Lemma elem_of_ones_in j a len x :
  j ∈ ones_in a len x <-> (a <= j < a + len)%nat /\ Z.testbit x (Z.of_nat j) = true.
Proof.
  rewrite ones_in_filter, list_elem_of_filter, elem_of_seq. tauto.
Qed.

Lemma ones_in_one a x :
  ones_in a 1 x = if Z.testbit x (Z.of_nat a) then [a] else [].
Proof. simpl. by rewrite app_nil_r. Qed.

(** ** Bit-level behaviour of the operations *)

Lemma is_set_spec m i : is_set m i = Z.testbit (bits m) (Z.of_nat i).
Proof.
  unfold is_set. change 1 with (Z.ones 1) at 1.
  rewrite Z.land_ones, Z.shiftr_div_pow2 by lia.
  pose proof (Z.testbit_spec' (bits m) (Z.of_nat i) ltac:(lia)) as Hs.
  rewrite Z.pow_1_r, <- Hs. by destruct (Z.testbit _ _).
Qed.

Lemma testbit_set m i j :
  Z.testbit (bits (set m i)) (Z.of_nat j) = (j =? i)%nat || Z.testbit (bits m) (Z.of_nat j).
Proof.
  unfold set; simpl. rewrite Z.lor_spec, Z.shiftl_1_l, Z.pow2_bits_eqb by lia.
  rewrite orb_comm. f_equal. apply eq_iff_eq_true.
  rewrite Z.eqb_eq, Nat.eqb_eq. lia.
Qed.

Lemma set_bits_ones m : set_bits m = length (ones m).
Proof. apply popcount_in_ones. Qed.

Lemma set_bits_under_ones m i :
  (i < 64)%nat -> set_bits_under m i = length (ones_in 0 i (bits m)).
Proof.
  intros Hi. unfold set_bits_under, count_ones.
  rewrite popcount_in_ones, shiftl_one_sub_one by lia.
  replace USIZE_BITS with (i + (64 - i))%nat by (unfold USIZE_BITS; lia).
  rewrite ones_in_app, length_app.
  rewrite (ones_in_nil (0 + i)).
  2:{ intros j Hj. rewrite testbit_ones_land by lia.
      destruct (Z.ltb_spec (Z.of_nat j) (Z.of_nat i)); [lia | done]. }
  rewrite (ones_in_ext 0 i _ (bits m)); [simpl; lia|].
  intros j Hj. rewrite testbit_ones_land by lia.
  destruct (Z.ltb_spec (Z.of_nat j) (Z.of_nat i)); [done | lia].
Qed.

Lemma bm_wf_set m i : bm_wf m -> (i < 64)%nat -> bm_wf (set m i).
Proof.
  unfold bm_wf, in_width, set; simpl. intros Hm Hi. split.
  - apply Z.lor_nonneg. split; [lia|]. rewrite Z.shiftl_1_l. lia.
  - apply bound_of_testbit; [|lia|].
    + apply Z.lor_nonneg. split; [lia|]. rewrite Z.shiftl_1_l. lia.
    + intros n Hn. rewrite Z.lor_spec, Z.shiftl_1_l, Z.pow2_bits_eqb by lia.
      rewrite (testbit_above (bits m) 64) by lia.
      apply Z.eqb_neq. lia.
Qed.

Lemma bm_wf_empty : bm_wf empty.
Proof. unfold bm_wf, in_width; simpl; lia. Qed.

Lemma ones_empty_bits m : bits m = 0 -> ones m = [].
Proof.
  intros H. unfold ones. rewrite H. apply ones_in_nil.
  intros. apply Z.testbit_0_l.
Qed.

Lemma is_empty_spec m : is_empty m = true <-> bits m = 0.
Proof. unfold is_empty. apply Z.eqb_eq. Qed.

(** The rank of a set bit is its position in [ones]. *)
Lemma ones_lookup_rank m i :
  (i < 64)%nat -> is_set m i = true -> ones m !! set_bits_under m i = Some i.
Proof.
  intros Hi Hs. rewrite is_set_spec in Hs. rewrite set_bits_under_ones by done.
  unfold ones. replace USIZE_BITS with (i + S (63 - i))%nat by (unfold USIZE_BITS; lia).
  rewrite ones_in_app. simpl. rewrite Hs.
  rewrite lookup_app_r by lia. rewrite Nat.sub_diag. reflexivity.
Qed.

(** An index not set is absent from [ones]. *)
Lemma not_elem_of_ones m i : is_set m i = false -> i ∉ ones m.
Proof.
  rewrite is_set_spec. intros Hs. unfold ones. rewrite elem_of_ones_in.
  intros [_ Ht]. congruence.
Qed.

Lemma elem_of_ones m i : i ∈ ones m -> (i < 64)%nat /\ is_set m i = true.
Proof.
  unfold ones. rewrite elem_of_ones_in, is_set_spec. unfold USIZE_BITS. intros [? ?]. split; [lia | done].
Qed.

(** Setting a clear bit inserts its index into [ones] at its rank. *)
Lemma ones_set m i :
  (i < 64)%nat -> is_set m i = false ->
  ones (set m i) = insert_at (set_bits_under m i) i (ones m).
Proof.
  intros Hi Hs. rewrite is_set_spec in Hs.
  rewrite set_bits_under_ones by done. unfold ones, insert_at.
  replace USIZE_BITS with (i + (1 + (63 - i)))%nat by (unfold USIZE_BITS; lia).
  rewrite !ones_in_app, !ones_in_one, !Nat.add_0_l, Hs, testbit_set, Nat.eqb_refl. cbn [orb app].
  rewrite (ones_in_ext 0 i (bits (set m i)) (bits m)).
  2:{ intros j Hj. rewrite testbit_set. destruct (Nat.eqb_spec j i); [lia|done]. }
  rewrite (ones_in_ext (i + 1) (63 - i) (bits (set m i)) (bits m)).
  2:{ intros j Hj. rewrite testbit_set. destruct (Nat.eqb_spec j i); [lia|done]. }
  rewrite take_app_length, drop_app_length. reflexivity.
Qed.

Lemma ones_set_empty i : (i < 64)%nat -> ones (set empty i) = [i].
Proof.
  intros Hi. rewrite ones_set by (rewrite ?is_set_spec; simpl; auto using Z.testbit_0_l).
  rewrite ones_empty_bits by reflexivity. unfold insert_at. by rewrite take_nil, drop_nil.
Qed.

Lemma ones_set_set_empty i j :
  (i < 64)%nat -> (j < 64)%nat -> i <> j ->
  ones (set (set empty i) j) = if decide (i < j)%nat then [i; j] else [j; i].
Proof.
  intros Hi Hj Hij.
  assert (Hbit : forall k, Z.testbit (bits (set empty i)) (Z.of_nat k) = (k =? i)%nat).
  { intros k. rewrite testbit_set. simpl. by rewrite Z.testbit_0_l, orb_false_r. }
  rewrite ones_set, ones_set_empty by (rewrite ?is_set_spec, ?Hbit; try apply Nat.eqb_neq; lia).
  rewrite set_bits_under_ones by done.
  case_decide.
  - replace j with (i + (1 + (j - i - 1)))%nat at 1 by lia.
    rewrite !ones_in_app, ones_in_one, !Nat.add_0_l, Hbit, Nat.eqb_refl.
    rewrite (ones_in_nil 0 i), (ones_in_nil (i + 1)); [reflexivity| |];
      intros k Hk; rewrite Hbit; apply Nat.eqb_neq; lia.
  - rewrite (ones_in_nil 0 j); [reflexivity|].
    intros k Hk. rewrite Hbit. apply Nat.eqb_neq. lia.
Qed.

Lemma NoDup_ones m : NoDup (ones m).
Proof. unfold ones. rewrite ones_in_filter. apply NoDup_filter, NoDup_seq. Qed.

Lemma length_ones_in_le a len x : (length (ones_in a len x) <= len)%nat.
Proof.
  revert a. induction len as [|len IH]; intros a; simpl; [lia|].
  rewrite length_app. specialize (IH (S a)). destruct (Z.testbit _ _); simpl; lia.
Qed.

(** A [usize] with a bit set has a set position below 64. *)
Lemma ones_nil_bits m : bm_wf m -> ones m = [] -> bits m = 0.
Proof.
  unfold bm_wf, in_width. intros Hm Hnil. apply Z_bits_eq_nat. intros t.
  rewrite Z.testbit_0_l. destruct (decide (t < 64)%nat) as [Ht|Ht].
  - destruct (Z.testbit (bits m) (Z.of_nat t)) eqn:Hb; [|done].
    assert (Hin : t ∈ ones m) by (unfold ones; apply elem_of_ones_in; unfold USIZE_BITS; split; [lia | done]).
    rewrite Hnil in Hin. by apply not_elem_of_nil in Hin.
  - apply (testbit_above _ 64); lia.
Qed.

(** A bitmap with a clear bit below 64 has at most 63 set bits. *)
Lemma length_ones_lt m i : (i < 64)%nat -> is_set m i = false -> (length (ones m) < 64)%nat.
Proof.
  intros Hi Hs. rewrite is_set_spec in Hs. unfold ones.
  replace USIZE_BITS with (i + (1 + (63 - i)))%nat by (unfold USIZE_BITS; lia).
  rewrite !ones_in_app, ones_in_one, !Nat.add_0_l, Hs, !length_app.
  pose proof (length_ones_in_le 0 i (bits m)). pose proof (length_ones_in_le (i + 1) (63 - i) (bits m)).
  simpl. lia.
Qed.

Lemma set_bits_under_le m i : (i < 64)%nat -> (set_bits_under m i <= length (ones m))%nat.
Proof.
  intros Hi. rewrite set_bits_under_ones by done. unfold ones.
  replace USIZE_BITS with (i + (64 - i))%nat by (unfold USIZE_BITS; lia).
  rewrite ones_in_app, length_app. lia.
Qed.

#[export] Hint Resolve bm_wf_set bm_wf_empty : hamt.

(** ** Properties *)

(** Setting bit [i] adds one position to every window holding [i],
    unless it was set already. *)
Lemma length_ones_in_set m i a len :
  length (ones_in a len (bits (set m i))) =
  (length (ones_in a len (bits m)) +
   if decide (a <= i < a + len)%nat then (if is_set m i then 0 else 1) else 0)%nat.
Proof.
  revert a. induction len as [|len IH]; intros a; cbn [ones_in]; [by rewrite decide_False by lia|].
  rewrite !length_app, IH, testbit_set, is_set_spec.
  destruct (Nat.eqb_spec a i) as [->|Hne]; simpl.
  - destruct (Z.testbit (bits m) (Z.of_nat i)); simpl; repeat case_decide; lia.
  - destruct (Z.testbit (bits m) (Z.of_nat a)), (Z.testbit (bits m) (Z.of_nat i));
      simpl; repeat case_decide; lia.
Qed.

(** C24: [set_bits_under m i] is the number of indices [j < i] with
    [is_set m j]: the rank used to place a child in the compact array. *)
Theorem set_bits_under_rank (m : BitMap) (i : nat) :
  (i < 64)%nat ->
  set_bits_under m i = length (filter (fun j => is_set m j = true) (seq 0 i)).
Proof.
  intros Hi. rewrite set_bits_under_ones, ones_in_filter by done.
  f_equal. apply list_filter_iff. intros j. by rewrite is_set_spec.
Qed.

(** C25: [set m i] for [i < 64] sets exactly bit [i]: [is_set] changes at
    [i] only, [set_bits] grows by one unless the bit was set, and the
    rank [set_bits_under j] grows by one exactly for the indices [j]
    above [i], unless the bit was set. *)
Theorem set_spec (m : BitMap) (i : nat) :
  (i < 64)%nat ->
  (forall j, is_set (set m i) j = (j =? i)%nat || is_set m j) /\
  set_bits (set m i) = (set_bits m + if is_set m i then 0 else 1)%nat /\
  (forall j, (j < 64)%nat ->
     set_bits_under (set m i) j =
     (set_bits_under m j + if decide (i < j)%nat then (if is_set m i then 0 else 1) else 0)%nat).
Proof.
  intros Hi. split; [intros j; rewrite !is_set_spec; apply testbit_set|]. split.
  - rewrite !set_bits_ones. unfold ones, USIZE_BITS.
    by rewrite length_ones_in_set, decide_True by lia.
  - intros j Hj. rewrite !set_bits_under_ones, length_ones_in_set by done.
    f_equal. repeat case_decide; lia.
Qed.

#[export] Instance bitmap_eq_dec : EqDecision BitMap.
Proof. solve_decision. Defined.

End BitMap.

(** The rank at index 5 of the bitmap [0b101101]. *)
Lemma set_bits_under_rank_witness :
  (5 < 64)%nat /\
  BitMap.set_bits_under (BitMap.mk_bitmap 45) 5 =
  length (filter (fun j => BitMap.is_set (BitMap.mk_bitmap 45) j = true) (seq 0 5)).
Proof. split; [lia | apply BitMap.set_bits_under_rank; lia]. Defined.

(** Setting bit 4 of [0b101101], which is clear: five bits are set, and
    one more lies below 6. *)
Lemma set_spec_witness :
  (4 < 64)%nat /\ BitMap.set_bits (BitMap.set (BitMap.mk_bitmap 45) 4) = 5%nat /\
  BitMap.set_bits_under (BitMap.set (BitMap.mk_bitmap 45) 4) 6 =
    (BitMap.set_bits_under (BitMap.mk_bitmap 45) 6 + 1)%nat.
Proof.
  destruct (BitMap.set_spec (BitMap.mk_bitmap 45) 4 ltac:(lia)) as (_ & Hb & Hu).
  split; [lia|]. split; [rewrite Hb; reflexivity|]. rewrite Hu by lia. reflexivity.
Defined.
