(* ===== verification/HashStream.v ===== *)
(** * HashStream: the index stream drawn from a key's hash (src/hash_stream.rs)

    [Hasher] is the type class of the Rust [Hasher] trait as the stream
    uses it: [finish] gives the 64-bit digest (and the hasher as it is
    after the call, since the crate's mock hasher advances a [Cell] in
    [finish]), and [write_u8] feeds one byte.  [HashStream] is the record
    of the source, [new] its constructor and [next_with] the body of
    [Iterator::next], generic in the index width [bits]
    ([next] fixes it to [bits_to_represent_pointer], 6 on a 64-bit
    target).  [Iterator::nth] and [Iterator::skip] are modelled for any
    iterator state.

    The reference is [ref_index]: index [n] is the number formed by bits
    [bits*n .. bits*n+bits) of the infinite bit string made of the
    digests [digest h 0], [digest h 1], ... (the digest after [g] marker
    bytes), low bits first.  [take_stream_spec] shows that the stream
    produces exactly these indices; [stream_inv] is the invariant of the
    record (reservoir = current digest shifted by [eaten], and
    [0 <= eaten <= 64], so the u8 arithmetic never wraps). *)

From S2P Require Import Prelude.

Module HashStream.
Local Open Scope Z_scope.

(** ** Constants of hash_stream.rs *)

Definition BITS_IN_BYTE : Z := 8.

(** [size_of::<usize>() * BITS_IN_BYTE] on the modelled 64-bit target. *)
Definition BITS_IN_POINTER : Z := 8 * BITS_IN_BYTE.

(** [usize::trailing_zeros]: the number of low zero bits (64 for 0). *)
Fixpoint trailing_zeros_in (n : nat) (x : Z) : Z :=
  match n with
  | O => 0
  | S n' => if Z.testbit x 0 then 0 else 1 + trailing_zeros_in n' (Z.shiftr x 1)
  end.

Definition trailing_zeros (x : Z) : Z := trailing_zeros_in 64 x.

Definition bits_to_represent_pointer : Z := trailing_zeros BITS_IN_POINTER.

(** ** The [Hasher] capability *)

Class Hasher (H : Type) := {
  finish : H -> Z * H;
  write_u8 : Z -> H -> H;
  (** [finish] returns a [u64]. *)
  finish_range : forall h, in_width 64 (fst (finish h))
}.

Section Stream.
Context {H : Type} `{Hasher H}.

(** [pub struct HashStream<H: Hasher> { hasher, reservoy: u64, eaten: u8 }] *)
Record HashStream := mk_stream {
  hasher : H;
  reservoy : Z;
  eaten : Z
}.

(** [HashStream::new]: the reservoir is filled by [finish] first, then
    the hasher is moved into the record. *)
Definition new (h : H) : HashStream :=
  let (r, h') := finish h in
  {| hasher := h'; reservoy := r; eaten := 0 |}.

(** [Iterator::next] for [HashStream], for an index width [bits]; it
    always returns [Some]. *)
Definition next_with (bits : Z) (s : HashStream) : option Z * HashStream :=
  let limit := u8_sub 64 bits in
  if limit <? eaten s then
    let need := u8_sub (eaten s) limit in
    let left := u8_sub bits need in
    let leftovers := reservoy s in
    let h1 := write_u8 1 (hasher s) in
    let (r, h2) := finish h1 in
    let mask := u64_shl 1 need - 1 in
    let needed := Z.land r mask in
    (Some (as_u8 (Z.lor (u64_shl needed left) leftovers)),
     {| hasher := h2; reservoy := Z.shiftr r need; eaten := need |})
  else
    let mask := u64_shl 1 bits - 1 in
    let result := Z.land (reservoy s) mask in
    (Some (as_u8 result),
     {| hasher := hasher s; reservoy := Z.shiftr (reservoy s) bits;
        eaten := u8_add (eaten s) bits |}).

Definition next (s : HashStream) : option Z * HashStream :=
  next_with bits_to_represent_pointer s.

(** ** The reference: slices of the concatenated digests *)

(** The digest after [g] re-hashes, with the hasher after that call. *)
Fixpoint digest_state (g : nat) (h : H) : Z * H :=
  match g with
  | O => finish h
  | S g' => finish (write_u8 1 (snd (digest_state g' h)))
  end.

Definition digest (h : H) (g : nat) : Z := fst (digest_state g h).

Definition stream_bit (h : H) (p : nat) : bool :=
  Z.testbit (digest h (p / 64)) (Z.of_nat (p mod 64)).

(** The [len]-bit number whose bit [t] is stream bit [p + t]. *)
Fixpoint gather (h : H) (len p : nat) : Z :=
  match len with
  | O => 0
  | S l => Z.b2z (stream_bit h p) + 2 * gather h l (S p)
  end.

Definition ref_index (bits : nat) (h : H) (n : nat) : Z := gather h bits (bits * n).

(** The values of the first [n] calls of [next_with bits]. *)
Fixpoint take_stream (bits : Z) (n : nat) (s : HashStream) : list (option Z) :=
  match n with
  | O => []
  | S n' => let (x, s') := next_with bits s in x :: take_stream bits n' s'
  end.

(** ** The invariant of the record *)

(** After [p] bits were consumed: [g] digests were drawn before the
    current one, [e] bits of the current one are used up, and the
    reservoir holds the rest. *)
Definition stream_inv (h : H) (s : HashStream) (p : nat) : Prop :=
  exists g e : nat,
    hasher s = snd (digest_state g h) /\
    (e <= 64)%nat /\
    eaten s = Z.of_nat e /\
    p = (64 * g + e)%nat /\
    reservoy s = Z.shiftr (digest h g) (Z.of_nat e).

Lemma digest_range h g : in_width 64 (digest h g).
Proof. unfold digest. destruct g; simpl; apply finish_range. Qed.

Lemma digest_testbit_high h g (t : nat) : (64 <= t)%nat -> Z.testbit (digest h g) (Z.of_nat t) = false.
Proof. intros. apply (testbit_above _ 64); [apply digest_range | lia]. Qed.

Lemma gather_nonneg h len p : 0 <= gather h len p.
Proof.
  revert p. induction len as [|len IH]; intros p; simpl; [lia|].
  specialize (IH (S p)). destruct (stream_bit h p); simpl; lia.
Qed.

Lemma gather_testbit h len p (t : nat) :
  Z.testbit (gather h len p) (Z.of_nat t) = (t <? len)%nat && stream_bit h (p + t).
Proof.
  revert p t. induction len as [|len IH]; intros p t; simpl.
  - apply Z.testbit_0_l.
  - destruct t as [|t].
    + rewrite Nat.add_0_r. destruct (stream_bit h p); simpl.
      * rewrite Z.add_comm. apply Z.testbit_odd_0.
      * rewrite Z.add_0_l. apply Z.testbit_even_0.
    + replace (Z.of_nat (S t)) with (Z.succ (Z.of_nat t)) by lia.
      destruct (stream_bit h p); simpl.
      * rewrite Z.add_comm, Z.testbit_odd_succ by lia. rewrite IH. do 2 f_equal. lia.
      * rewrite Z.add_0_l, Z.testbit_even_succ by lia. rewrite IH. do 2 f_equal. lia.
Qed.

(** Stream bit [64 g + e] is bit [e] of digest [g]. *)
Lemma stream_bit_at h (p g e : nat) :
  p = (64 * g + e)%nat -> (e < 64)%nat -> stream_bit h p = Z.testbit (digest h g) (Z.of_nat e).
Proof.
  intros -> He. unfold stream_bit.
  rewrite <- (Nat.div_unique (64 * g + e) 64 g e) by lia.
  rewrite <- (Nat.mod_unique (64 * g + e) 64 g e) by lia.
  reflexivity.
Qed.

Lemma testbit_shiftr_nat (x : Z) (e t : nat) :
  Z.testbit (Z.shiftr x (Z.of_nat e)) (Z.of_nat t) = Z.testbit x (Z.of_nat (t + e)).
Proof. rewrite Z.shiftr_spec by lia. f_equal. lia. Qed.

(** The re-hash branch of [next]: the reservoir holds fewer than [bits]
    unread bits; the index splices them with the low bits of the next
    digest. *)
Lemma next_with_rehash h s (bits p : nat) :
  (0 < bits <= 8)%nat -> stream_inv h s p -> 64 - Z.of_nat bits < eaten s ->
  fst (next_with (Z.of_nat bits) s) = Some (gather h bits p) /\
  stream_inv h (snd (next_with (Z.of_nat bits) s)) (p + bits).
Proof.
  intros Hb (g & e & Hh & He & Heat & Hp & Hr) Hlt.
  unfold next_with. rewrite Heat in Hlt |- *. rewrite Hr, Hh, (u8_sub_small 64) by lia.
  rewrite (proj2 (Z.ltb_lt _ _) Hlt), !u8_sub_small by lia.
  destruct (finish (write_u8 1 (snd (digest_state g h)))) as [r h2] eqn:Ef.
  assert (Hr2 : digest h (S g) = r) by (unfold digest; simpl; by rewrite Ef).
  assert (Hh2 : snd (digest_state (S g) h) = h2) by (simpl; by rewrite Ef).
  cbn [fst snd]. split.
  - f_equal. apply Z_bits_eq_nat. intros t.
    rewrite u64_shl_one_sub_one by lia.
    unfold as_u8. rewrite testbit_ones_land, Z.lor_spec, testbit_u64_shl by lia.
    rewrite testbit_ones_land, testbit_shiftr_nat, gather_testbit by lia.
    destruct (Nat.ltb_spec t bits).
    + destruct (Nat.ltb_spec (t + e) 64).
      * rewrite (stream_bit_at h (p + t) g (t + e)) by lia.
        destruct (Z.leb_spec (Z.of_nat bits - (Z.of_nat e - (64 - Z.of_nat bits))) (Z.of_nat t)); [lia|].
        destruct (Z.ltb_spec (Z.of_nat t) 8); [|lia]. simpl. by rewrite andb_false_r.
      * rewrite (stream_bit_at h (p + t) (S g) (t + e - 64)) by lia.
        rewrite (digest_testbit_high h g (t + e)) by lia.
        destruct (Z.leb_spec (Z.of_nat bits - (Z.of_nat e - (64 - Z.of_nat bits))) (Z.of_nat t)); [|lia].
        destruct (Z.ltb_spec (Z.of_nat t) 8); [|lia].
        destruct (Z.ltb_spec (Z.of_nat t) 64); [|lia].
        destruct (Z.ltb_spec (Z.of_nat t - (Z.of_nat bits - (Z.of_nat e - (64 - Z.of_nat bits))))
                    (Z.of_nat e - (64 - Z.of_nat bits))); [|lia].
        rewrite <- Hr2, orb_false_r. simpl. f_equal. lia.
    + rewrite (digest_testbit_high h g (t + e)) by lia.
      destruct (Z.ltb_spec (Z.of_nat t - (Z.of_nat bits - (Z.of_nat e - (64 - Z.of_nat bits))))
                  (Z.of_nat e - (64 - Z.of_nat bits))); [lia|].
      rewrite !andb_false_r. reflexivity.
  - exists (S g), (e + bits - 64)%nat. cbn. rewrite <- Hh2, <- Hr2. repeat split; try lia.
    f_equal. lia.
Qed.

(** The plain branch of [next]: the next [bits] bits of the reservoir. *)
Lemma next_with_plain h s (bits p : nat) :
  (0 < bits <= 8)%nat -> stream_inv h s p -> eaten s <= 64 - Z.of_nat bits ->
  fst (next_with (Z.of_nat bits) s) = Some (gather h bits p) /\
  stream_inv h (snd (next_with (Z.of_nat bits) s)) (p + bits).
Proof.
  intros Hb (g & e & Hh & He & Heat & Hp & Hr) Hge.
  unfold next_with. rewrite Heat in Hge |- *. rewrite Hr, Hh, (u8_sub_small 64) by lia.
  rewrite (proj2 (Z.ltb_ge _ _) Hge).
  cbn [fst snd]. split.
  - f_equal. apply Z_bits_eq_nat. intros t.
    rewrite u64_shl_one_sub_one by lia.
    unfold as_u8. rewrite testbit_ones_land, testbit_ones_land by lia.
    rewrite testbit_shiftr_nat, gather_testbit.
    destruct (Nat.ltb_spec t bits).
    + rewrite (stream_bit_at h (p + t) g (t + e)) by lia.
      destruct (Z.ltb_spec (Z.of_nat t) 8); [|lia].
      destruct (Z.ltb_spec (Z.of_nat t) (Z.of_nat bits)); [|lia]. reflexivity.
    + destruct (Z.ltb_spec (Z.of_nat t) (Z.of_nat bits)); [lia|].
      rewrite !andb_false_r. reflexivity.
  - exists g, (e + bits)%nat. rewrite u8_add_small by lia. cbn.
    repeat split; try lia.
    rewrite Z.shiftr_shiftr by lia. f_equal. lia.
Qed.

(** One call of [next_with] draws the next [bits] stream bits and keeps
    the invariant. *)
Lemma next_with_step h s (bits p : nat) :
  (0 < bits <= 8)%nat -> stream_inv h s p ->
  fst (next_with (Z.of_nat bits) s) = Some (gather h bits p) /\
  stream_inv h (snd (next_with (Z.of_nat bits) s)) (p + bits).
Proof.
  intros Hb Hinv. destruct (Z.ltb_spec (64 - Z.of_nat bits) (eaten s)).
  - by apply next_with_rehash.
  - by apply next_with_plain.
Qed.

(** ** Iterator adaptors used by the trie *)

(** [Iterator::nth] (the default method: [n] calls of [next], stopping
    at a [None], then one more). *)
Fixpoint nth (n : nat) (s : HashStream) : option Z * HashStream :=
  match n with
  | O => next s
  | S n' =>
      match next s with
      | (Some _, s') => nth n' s'
      | (None, s') => (None, s')
      end
  end.

(** [Iterator::skip]: the adaptor records the count; its first [next]
    is [nth n] on the inner iterator and resets the count. *)
Record Skip := mk_skip { skip_iter : HashStream; skip_n : nat }.

Definition skip (s : HashStream) (n : nat) : Skip := mk_skip s n.

Definition skip_next (sk : Skip) : option Z * Skip :=
  match skip_n sk with
  | S _ => let (x, it) := nth (skip_n sk) (skip_iter sk) in (x, mk_skip it 0)
  | O => let (x, it) := next (skip_iter sk) in (x, mk_skip it 0)
  end.

(** The stream of a key after [n] draws. *)
Fixpoint advance (n : nat) (s : HashStream) : HashStream :=
  match n with
  | O => s
  | S n' => advance n' (snd (next s))
  end.

(** The [n]-th index of the stream started from hasher [h], at the
    width of the target ([bits_to_represent_pointer] = 6). *)
Definition index (h : H) (n : nat) : Z := ref_index 6 h n.

(** ** Lemmas *)

Lemma bits_to_represent_pointer_6 : bits_to_represent_pointer = Z.of_nat 6.
Proof. reflexivity. Qed.

Lemma new_inv h : stream_inv h (new h) 0.
Proof.
  unfold new. destruct (finish h) as [r h'] eqn:Ef.
  exists 0%nat, 0%nat. cbn. unfold digest. simpl. rewrite Ef. simpl.
  repeat split; try lia; by rewrite ?Z.shiftr_0_r.
Qed.

Lemma gather_bound h len p : gather h len p < 2 ^ Z.of_nat len.
Proof.
  apply bound_of_testbit; [apply gather_nonneg | lia |].
  intros n Hn. rewrite <- (Z2Nat.id n) by lia. rewrite gather_testbit.
  destruct (Nat.ltb_spec (Z.to_nat n) len); [lia | done].
Qed.

Lemma take_stream_inv h (bits n p : nat) s :
  (0 < bits <= 8)%nat -> stream_inv h s p ->
  take_stream (Z.of_nat bits) n s = map (fun k => Some (gather h bits (p + bits * k))) (seq 0 n).
Proof.
  intros Hb. revert s p. induction n as [|n IH]; intros s p Hs; [done|].
  simpl. destruct (next_with_step h s bits p Hb Hs) as [Hx Hs'].
  destruct (next_with (Z.of_nat bits) s) as [x s'] eqn:E. simpl in Hx, Hs'. subst x.
  rewrite Nat.mul_0_r, Nat.add_0_r. f_equal.
  rewrite (IH s' (p + bits)%nat Hs'), <- seq_shift, map_map.
  apply map_ext. intros k. do 2 f_equal. lia.
Qed.

Lemma advance_inv h n : stream_inv h (advance n (new h)) (6 * n).
Proof.
  assert (Hgen : forall s p, stream_inv h s p -> stream_inv h (advance n s) (p + 6 * n)).
  { induction n as [|n IH]; intros s p Hs; cbn [advance].
    { by rewrite Nat.mul_0_r, Nat.add_0_r. }
    replace (p + 6 * S n)%nat with (p + 6 + 6 * n)%nat by lia.
    apply IH. unfold next. rewrite bits_to_represent_pointer_6.
    apply next_with_step; [lia | done]. }
  apply (Hgen _ 0%nat), new_inv.
Qed.

(** One draw from the stream after [n] draws yields [index h n]. *)
Lemma next_advance h n :
  next (advance n (new h)) = (Some (index h n), advance (S n) (new h)).
Proof.
  assert (Hadv : forall m s, advance (S m) s = advance m (snd (next s))) by reflexivity.
  assert (Hlast : forall m s, advance (S m) s = snd (next (advance m s))).
  { induction m as [|m IH]; intros s; [done|]. rewrite Hadv, IH. done. }
  destruct (next_with_step h (advance n (new h)) 6 (6 * n) ltac:(lia) (advance_inv h n)) as [Hx _].
  unfold next in *. rewrite bits_to_represent_pointer_6, Hlast. unfold next.
  rewrite bits_to_represent_pointer_6.
  destruct (next_with (Z.of_nat 6) (advance n (new h))) as [x s'] eqn:E.
  simpl in Hx. by subst x.
Qed.

Lemma index_range h n : 0 <= index h n < 64.
Proof.
  unfold index, ref_index. split; [apply gather_nonneg|].
  apply (gather_bound h 6).
Qed.

Lemma nth_advance h d n :
  nth n (advance d (new h)) = (Some (index h (n + d)), advance (S (n + d)) (new h)).
Proof.
  revert d. induction n as [|n IH]; intros d; simpl; [apply next_advance|].
  rewrite next_advance, IH. by replace (n + S d)%nat with (S (n + d)) by lia.
Qed.

(** A [Skip] positioned at draw [d] of the stream of [h]: either the
    fresh adaptor [skip (new h) d], or one that has started. *)
Definition skip_at (h : H) (sk : Skip) (d : nat) : Prop :=
  sk = skip (new h) d \/ sk = mk_skip (advance d (new h)) 0.

Lemma skip_next_at h sk d :
  skip_at h sk d ->
  fst (skip_next sk) = Some (index h d) /\ skip_at h (snd (skip_next sk)) (S d).
Proof.
  intros [-> | ->].
  - destruct d as [|d]; unfold skip_next, skip; cbn [skip_n skip_iter].
    + pose proof (next_advance h 0) as E. cbn [advance] in E. rewrite E.
      split; [done | right; done].
    + pose proof (nth_advance h 0 (S d)) as E. cbn [advance] in E.
      rewrite Nat.add_0_r in E. rewrite E. split; [done | right; done].
  - unfold skip_next; cbn [skip_n skip_iter]. rewrite next_advance.
    split; [done | right; done].
Qed.

End Stream.

Section Properties.
Context {H : Type} `{Hasher H}.

(** C14: the [n] first values of the stream are the [n] first
    [bits]-bit slices of the concatenated digests (low bits first,
    re-hashing with a marker byte when a digest is used up), for every
    index width up to 8 bits; in particular the stream never ends. *)
Theorem take_stream_spec (h : H) (bits n : nat) :
  (0 < bits <= 8)%nat ->
  take_stream (Z.of_nat bits) n (new h) = map (fun k => Some (ref_index bits h k)) (seq 0 n).
Proof.
  intros Hb. rewrite (take_stream_inv h bits n 0 (new h) Hb (new_inv h)).
  apply map_ext. intros k. reflexivity.
Qed.

(** C22: after any number of draws the [u8] counter [eaten] stays in
    [0, 64] (so [eaten - limit] and [bits - need] never wrap) and the
    next index is below 64, a valid bit index of a [usize] bitmap. *)
Theorem stream_bounds (h : H) (n : nat) :
  0 <= eaten (advance n (new h)) <= 64 /\
  exists x, fst (next (advance n (new h))) = Some x /\ 0 <= x < 64.
Proof.
  destruct (advance_inv h n) as (g & e & _ & He & Heat & _). split; [lia|].
  exists (index h n). rewrite next_advance. split; [done | apply index_range].
Qed.

End Properties.

(** ** The crate's unit test [hash_stream] *)

(** [MockHasher(Cell<usize>, &'static [u64])]: [finish] returns the
    next value of the slice and advances the cell; [write] does nothing.
    Past the end of the slice the Rust mock panics; the model returns 0
    there, which the test never reaches (42 six-bit draws use 252 bits,
    four digests). *)
Record MockHasher := mk_mock { mock_cell : nat }.

Definition MOCK_DIGESTS : list Z :=
  [0xb289207185103081; 0x9551349140f38d30; 0x81f79d71b6996175; 0x0aa9a279a59238a1].

Lemma mock_digests_range n : in_width 64 (List.nth n MOCK_DIGESTS 0).
Proof.
  unfold in_width.
  do 4 (destruct n as [|n]; [simpl; lia|]). destruct n; simpl; lia.
Qed.

#[export] Instance mock_hasher : Hasher MockHasher := {
  finish h := (List.nth (mock_cell h) MOCK_DIGESTS 0, mk_mock (S (mock_cell h)));
  write_u8 _ h := h;
  finish_range h := mock_digests_range (mock_cell h)
}.

(** The equivalence theorem at the mock hasher, 6-bit indices. *)
Lemma take_stream_spec_witness :
  (0 < 6 <= 8)%nat /\
  take_stream (Z.of_nat 6) 12 (new (mk_mock 0)) =
  map (fun k => Some (ref_index 6 (mk_mock 0) k)) (seq 0 12).
Proof. split; [lia | apply take_stream_spec; lia]. Defined.

End HashStream.
