(* ===== verification/FreeList.v ===== *)
(** * FreeList: the size-classed pool of child arrays (src/free_list.rs)

    [FreeList<T>] is an array of 64 [Link] stacks; stack [i] holds boxed
    slices of length [i+1] whose elements were moved out.  A pooled box
    is a [Buf]: the slots of a live allocation ([None] for a slot never
    written, [Some x] for a stale or fresh value), or a box whose
    allocation was already released ([Dangling]).  The operations return
    an [outcome]: the [assert!]s and the slice index [self.0[len]] panic,
    a raw write past the end of a buffer is [OutOfBounds], a write into a
    released buffer is [UseAfterFree], and handing out a box with a slot
    never written is [UninitRead].

    [fl_wf] is the pool invariant: 64 stacks, stack [i] holds live
    buffers of length [i+1].  [singleton], [pair] and [push] keep it and
    return exactly [[x]], [[a; b]] and [s ++ [x]]; [free] does not: it
    drops the box before pooling it, and the next reuse of that size
    class writes into freed memory.

    [Pool] and [PoolLaws] are the interface the trie relies on; the
    instance for [FreeList] discharges the laws with the [*_correct]
    lemmas. *)

From S2P Require Import Prelude.

Module FreeList.

(** [enum Link<T> { Cons(T, Box<Link<T>>), Nil }] *)
Inductive Link (A : Type) :=
| Cons (c : A) (n : Link A)
| Nil.
Arguments Cons {A} c n.
Arguments Nil {A}.

Section Operations.
Context {T : Type}.

(** A pooled [Box<[ManuallyDrop<T>]>]. *)
Inductive Buf :=
| Live (slots : list (option T))
| Dangling (len : nat).

(** [pub struct FreeList<T>([Link<Box<[ManuallyDrop<T>]>>; BITS_IN_POINTER])] *)
Record FreeList := mk_free_list { stacks : list (Link Buf) }.

Definition BITS_IN_POINTER : nat := 64.

(** [FreeList::new]: every stack empty. *)
Definition new : FreeList := mk_free_list (replicate BITS_IN_POINTER Nil).

(** [b.len()] reads the length from the fat pointer, not the heap. *)
Definition buf_len (b : Buf) : nat :=
  match b with
  | Live s => length s
  | Dangling n => n
  end.

(** [mem::replace(&mut self.0[k], Nil)] and the [Cons] arm's
    [self.0[k] = *n]: pop the top of stack [k]. *)
Definition pop (fl : FreeList) (k : nat) : outcome (option Buf * FreeList) :=
  match stacks fl !! k with
  | None => Fault Panic
  | Some Nil => Done (None, fl)
  | Some (Cons c n) => Done (Some c, mk_free_list (<[k := n]> (stacks fl)))
  end.

(** [automify(c)]: the slots behind a pooled box. *)
Definition buf_slots (b : Buf) : outcome (list (option T)) :=
  match b with
  | Live s => Done s
  | Dangling _ => Fault UseAfterFree
  end.

(** [manualify(slice)]: the same allocation seen as [ManuallyDrop]
    slots, every one of them initialised. *)
Definition manualify (s : list T) : Buf := Live (map Some s).

(** [ptr::write(res.as_mut_ptr().offset(i), x)] *)
Definition write_slot (i : nat) (x : T) (slots : list (option T)) : outcome (list (option T)) :=
  if decide (i < length slots) then Done (<[i := Some x]> slots) else Fault OutOfBounds.

(** [ptr::copy_nonoverlapping(slice.as_ptr(), res.as_mut_ptr(), len)] *)
Definition copy_into (src : list T) (dst : list (option T)) : outcome (list (option T)) :=
  if decide (length src <= length dst)
  then Done (map Some src ++ drop (length src) dst)
  else Fault OutOfBounds.

(** The box handed back to the caller must have every slot written. *)
Fixpoint assume_init (slots : list (option T)) : outcome (list T) :=
  match slots with
  | [] => Done []
  | Some x :: l => let? r := assume_init l in Done (x :: r)
  | None :: _ => Fault UninitRead
  end.

(** [FreeList::free_internal] *)
Definition free_internal (fl : FreeList) (b : Buf) : outcome FreeList :=
  let? _ := assert (negb (buf_len b =? 0)) in
  let i := buf_len b - 1 in
  match stacks fl !! i with
  | None => Fault Panic
  | Some old => Done (mk_free_list (<[i := Cons b old]> (stacks fl)))
  end.

(** [FreeList::singleton] *)
Definition singleton (fl : FreeList) (uno : T) : outcome (FreeList * list T) :=
  let? (o, fl1) := pop fl 0 in
  match o with
  | Some c =>
      let? res := buf_slots c in
      let? res := write_slot 0 uno res in
      let? r := assume_init res in
      Done (fl1, r)
  | None => Done (fl1, [uno])
  end.

(** [FreeList::pair] *)
Definition pair (fl : FreeList) (fst snd : T) : outcome (FreeList * list T) :=
  let? (o, fl1) := pop fl 1 in
  match o with
  | Some c =>
      let? res := buf_slots c in
      let? res := write_slot 0 fst res in
      let? res := write_slot 1 snd res in
      let? r := assume_init res in
      Done (fl1, r)
  | None => Done (fl1, [fst; snd])
  end.

(** [FreeList::push]: the old slice is copied into a buffer one longer
    (recycled from stack [len], or a fresh [Vec] whose slots are
    uninitialised), returned to the pool, and [new] is written last. *)
Definition push (fl : FreeList) (slice : list T) (new : T) : outcome (FreeList * list T) :=
  let? _ := assert (negb (length slice =? 0)) in
  let len := length slice in
  let? (o, fl1) := pop fl len in
  let? res :=
    match o with
    | Some c => buf_slots c
    | None => Done (replicate (S len) None)
    end in
  let? res := copy_into slice res in
  let? fl2 := free_internal fl1 (manualify slice) in
  let? res := write_slot len new res in
  let? r := assume_init res in
  Done (fl2, r).

(** [FreeList::free]: [ptr::drop_in_place(&mut b as *mut _)] drops the
    [Box] itself (its elements and its allocation); the released box is
    then pooled. *)
Definition free (fl : FreeList) (b : list T) : outcome FreeList :=
  free_internal fl (Dangling (length b)).

(** ** The pool invariant *)

Fixpoint link_all (P : Buf -> Prop) (l : Link Buf) : Prop :=
  match l with
  | Nil => True
  | Cons c n => P c /\ link_all P n
  end.

Definition fl_wf (fl : FreeList) : Prop :=
  length (stacks fl) = BITS_IN_POINTER /\
  forall i l, stacks fl !! i = Some l ->
    link_all (fun b => exists s, b = Live s /\ length s = S i) l.

(** Number of buffers of each size class. *)
Fixpoint link_length {A} (l : Link A) : nat :=
  match l with
  | Nil => 0
  | Cons _ n => S (link_length n)
  end.

Definition class_count (fl : FreeList) (i : nat) : nat :=
  match stacks fl !! i with
  | Some l => link_length l
  | None => 0
  end.

(** ** Lemmas *)

Lemma new_wf : fl_wf new.
Proof.
  split; [apply length_replicate|].
  intros i l Hl. apply lookup_replicate in Hl as [-> _]. done.
Qed.

Lemma pop_wf fl k :
  fl_wf fl -> k < BITS_IN_POINTER ->
  exists o fl', pop fl k = Done (o, fl') /\ fl_wf fl' /\
    (o = None \/ exists s, o = Some (Live s) /\ length s = S k).
Proof.
  intros [Hlen Hall] Hk. unfold pop.
  destruct (stacks fl !! k) as [l|] eqn:Hl.
  2:{ apply lookup_ge_None in Hl. lia. }
  destruct l as [c n|].
  - pose proof (Hall k _ Hl) as [(s & -> & Hs) Hn].
    eexists _, _. split; [reflexivity|]. split; [|right; eauto].
    split; simpl; [by rewrite length_insert|].
    intros i l'. destruct (decide (i = k)) as [->|Hne].
    + rewrite list_lookup_insert_eq by lia. by intros [= <-].
    + rewrite list_lookup_insert_ne by done. apply Hall.
  - eexists _, _. split; [reflexivity|]. split; [split; done | left; done].
Qed.

Lemma free_internal_wf fl s :
  fl_wf fl -> 0 < length s <= BITS_IN_POINTER ->
  exists fl', free_internal fl (Live s) = Done fl' /\ fl_wf fl' /\
    stacks fl' = <[length s - 1 := Cons (Live s) (default Nil (stacks fl !! (length s - 1)))]> (stacks fl).
Proof.
  intros [Hlen Hall] Hs. unfold free_internal, assert; simpl.
  destruct (Nat.eqb_spec (length s) 0); [lia|]. simpl.
  destruct (stacks fl !! (length s - 1)) as [old|] eqn:Hl.
  2:{ apply lookup_ge_None in Hl. lia. }
  eexists. split; [reflexivity|]. split; [|done].
  split; simpl; [by rewrite length_insert|].
  intros i l. destruct (decide (i = length s - 1)) as [->|Hne].
  - rewrite list_lookup_insert_eq by lia. intros [= <-]. split.
    + exists s. split; [done | lia].
    + by apply (Hall _ _ Hl).
  - rewrite list_lookup_insert_ne by done. apply Hall.
Qed.

Lemma assume_init_map (l : list T) : assume_init (map Some l) = Done l.
Proof. induction l as [|x l IH]; simpl; [done|]. by rewrite IH. Qed.

Lemma copy_into_fits (src : list T) dst :
  length src <= length dst -> copy_into src dst = Done (map Some src ++ drop (length src) dst).
Proof. intros. unfold copy_into. by rewrite decide_True. Qed.

Lemma write_slot_last (src : list T) d x :
  length d = 1 -> write_slot (length src) x (map Some src ++ d) = Done (map Some (src ++ [x])).
Proof.
  intros Hd. unfold write_slot. rewrite length_app, length_map, Hd, decide_True by lia.
  destruct d as [|y [|]]; try discriminate. f_equal.
  rewrite insert_app_r_alt, length_map, Nat.sub_diag by (rewrite length_map; lia).
  by rewrite map_app.
Qed.

Lemma write_slot_in (slots : list (option T)) i x :
  i < length slots -> write_slot i x slots = Done (<[i := Some x]> slots).
Proof. intros. unfold write_slot. by rewrite decide_True. Qed.

(** The shape of a [push] on a well-formed pool with a slice of length
    [1 .. 63]: the result, and how the stacks change. *)
Lemma push_run fl (slice : list T) x :
  fl_wf fl -> 0 < length slice < BITS_IN_POINTER ->
  exists o fl1 fl2, pop fl (length slice) = Done (o, fl1) /\ fl_wf fl1 /\
    free_internal fl1 (manualify slice) = Done fl2 /\ fl_wf fl2 /\
    push fl slice x = Done (fl2, slice ++ [x]).
Proof.
  intros Hwf Hs.
  destruct (pop_wf fl (length slice) Hwf ltac:(lia)) as (o & fl1 & Hpop & Hwf1 & Ho).
  destruct (free_internal_wf fl1 (map Some slice) Hwf1) as (fl2 & Hfree & Hwf2 & _);
    [rewrite length_map; unfold BITS_IN_POINTER in *; lia|].
  fold (manualify slice) in Hfree.
  exists o, fl1, fl2. do 4 (split; [done|]).
  unfold push, assert. destruct (Nat.eqb_spec (length slice) 0); [lia|]. simpl.
  rewrite Hpop. simpl.
  destruct Ho as [-> | (c & -> & Hc)]; simpl;
    (rewrite copy_into_fits by (simpl; rewrite ?length_replicate; lia)); simpl; rewrite Hfree; simpl;
    (rewrite write_slot_last by (rewrite length_drop; simpl; rewrite ?length_replicate; lia)); simpl;
    by rewrite assume_init_map.
Qed.

(** How [pop] changes the class counts: stack [k] loses its top buffer
    if it has one, the others are untouched. *)
Lemma pop_counts fl k o fl' :
  pop fl k = Done (o, fl') ->
  class_count fl' k = pred (class_count fl k) /\
  forall i, i <> k -> class_count fl' i = class_count fl i.
Proof.
  unfold pop, class_count. destruct (stacks fl !! k) as [[c n|]|] eqn:Hl; try discriminate;
    intros [= <- <-]; simpl; [|by rewrite Hl].
  assert (k < length (stacks fl)) by (apply lookup_lt_is_Some; eauto).
  rewrite list_lookup_insert_eq by done. split; [done|].
  intros i Hi. by rewrite list_lookup_insert_ne by done.
Qed.

Lemma singleton_run fl (x : T) :
  fl_wf fl -> exists o fl', pop fl 0 = Done (o, fl') /\ fl_wf fl' /\ singleton fl x = Done (fl', [x]).
Proof.
  intros Hwf.
  destruct (pop_wf fl 0 Hwf ltac:(unfold BITS_IN_POINTER; lia)) as (o & fl1 & Hpop & Hwf1 & Ho).
  exists o, fl1. do 2 (split; [done|]). unfold singleton. rewrite Hpop. simpl.
  destruct Ho as [-> | (c & -> & Hc)]; [done|]. simpl.
  destruct c as [|y [|]]; try discriminate. done.
Qed.

Lemma pair_run fl (a b : T) :
  fl_wf fl -> exists o fl', pop fl 1 = Done (o, fl') /\ fl_wf fl' /\ pair fl a b = Done (fl', [a; b]).
Proof.
  intros Hwf.
  destruct (pop_wf fl 1 Hwf ltac:(unfold BITS_IN_POINTER; lia)) as (o & fl1 & Hpop & Hwf1 & Ho).
  exists o, fl1. do 2 (split; [done|]). unfold pair. rewrite Hpop. simpl.
  destruct Ho as [-> | (c & -> & Hc)]; [done|]. simpl.
  destruct c as [|y [|z [|]]]; try discriminate. done.
Qed.

Lemma singleton_correct fl (x : T) :
  fl_wf fl -> exists fl', singleton fl x = Done (fl', [x]) /\ fl_wf fl'.
Proof. intros Hwf. destruct (singleton_run fl x Hwf) as (o & fl' & _ & ? & ?). eauto. Qed.

Lemma pair_correct fl (a b : T) :
  fl_wf fl -> exists fl', pair fl a b = Done (fl', [a; b]) /\ fl_wf fl'.
Proof. intros Hwf. destruct (pair_run fl a b Hwf) as (o & fl' & _ & ? & ?). eauto. Qed.

Lemma push_correct fl (s : list T) (x : T) :
  fl_wf fl -> 0 < length s < 64 ->
  exists fl', push fl s x = Done (fl', s ++ [x]) /\ fl_wf fl'.
Proof.
  intros Hwf Hs.
  destruct (push_run fl s x Hwf Hs) as (o & fl1 & fl2 & _ & _ & _ & Hwf2 & Hpush).
  eauto.
Qed.

(** ** Properties *)

(** C21: size-class integrity of the two fixed-size constructors (spec
    section 8): on a well-formed pool, [singleton x] returns exactly
    [[x]] and [pair a b] exactly [[a; b]] in that order, whether the
    buffer is recycled or fresh (no slot of a recycled buffer survives);
    each keeps the pool well formed and takes at most one buffer,
    [singleton] from size class 1 (stack 0) and [pair] from size class 2
    (stack 1), and leaves every other class unchanged. *)
Theorem singleton_pair_recycle (fl : FreeList) (x a b : T) :
  fl_wf fl ->
  (exists fl', singleton fl x = Done (fl', [x]) /\ fl_wf fl' /\
     class_count fl' 0 = pred (class_count fl 0) /\
     forall i, i <> 0 -> class_count fl' i = class_count fl i) /\
  (exists fl', pair fl a b = Done (fl', [a; b]) /\ fl_wf fl' /\
     class_count fl' 1 = pred (class_count fl 1) /\
     forall i, i <> 1 -> class_count fl' i = class_count fl i).
Proof.
  intros Hwf. split.
  - destruct (singleton_run fl x Hwf) as (o & fl' & Hpop & Hwf' & Hs).
    exists fl'. do 2 (split; [done|]). exact (pop_counts _ _ _ _ Hpop).
  - destruct (pair_run fl a b Hwf) as (o & fl' & Hpop & Hwf' & Hs).
    exists fl'. do 2 (split; [done|]). exact (pop_counts _ _ _ _ Hpop).
Qed.

(** C27: [push] panics on an empty slice (its [assert!]) and on a slice of
    64 or more elements (the index [self.0[len]] is out of range). *)
Theorem push_panics (fl : FreeList) (s : list T) (x : T) :
  fl_wf fl -> (length s = 0 \/ 64 <= length s) -> push fl s x = Fault Panic.
Proof.
  intros [Hlen _] [Hs | Hs]; unfold push, assert.
  - by rewrite Hs.
  - destruct (Nat.eqb_spec (length s) 0); [lia|]. simpl. unfold pop.
    rewrite (proj2 (lookup_ge_None _ _)); [done|]. unfold BITS_IN_POINTER in Hlen. lia.
Qed.

(** C18: on a well-formed pool, [push s x] with [s] of length 1 to 63
    returns exactly [s ++ [x]] (the old elements in order, then [x]; no
    stale slot of a recycled buffer survives) and keeps the pool well
    formed; and the reuse loop: growing a slice of length [n] returns
    one buffer to size class [n] (stack [n-1]) and takes one, when there
    is one, from size class [n+1] (stack [n]); the other classes are
    unchanged. *)
Theorem push_recycles (fl : FreeList) (s : list T) (x : T) :
  fl_wf fl -> 0 < length s < 64 ->
  exists fl', push fl s x = Done (fl', s ++ [x]) /\ fl_wf fl' /\
    class_count fl' (length s - 1) = S (class_count fl (length s - 1)) /\
    class_count fl' (length s) = pred (class_count fl (length s)) /\
    forall i, i <> length s - 1 -> i <> length s -> class_count fl' i = class_count fl i.
Proof.
  intros Hwf Hs.
  destruct (push_run fl s x Hwf Hs) as (o & fl1 & fl2 & Hpop & Hwf1 & Hfree & Hwf2 & Hpush).
  destruct (free_internal_wf fl1 (map Some s) Hwf1) as (fl2' & Hfree' & _ & Hst);
    [rewrite length_map; unfold BITS_IN_POINTER; lia|].
  unfold manualify in Hfree. rewrite Hfree in Hfree'. injection Hfree' as <-. rewrite length_map in Hst.
  exists fl2. do 2 (split; [done|]). unfold class_count. rewrite Hst.
  unfold pop in Hpop. destruct Hwf as [Hlen _]. unfold BITS_IN_POINTER in Hlen.
  destruct (stacks fl !! length s) as [l|] eqn:Hl; [|discriminate].
  assert (Hl1 : is_Some (stacks fl !! (length s - 1))) by (apply lookup_lt_is_Some; lia).
  destruct Hl1 as [l1 Hl1].
  destruct l as [c n|]; injection Hpop as <- <-; simpl.
  - rewrite list_lookup_insert_eq by (rewrite length_insert; lia).
    rewrite list_lookup_insert_ne, Hl1 by lia. simpl.
    rewrite list_lookup_insert_ne by lia. rewrite list_lookup_insert_eq by lia.
    split; [done|]. split; [done|].
    intros i Hi1 Hi2. rewrite !list_lookup_insert_ne by lia. done.
  - rewrite list_lookup_insert_eq by lia. rewrite Hl1.
    rewrite list_lookup_insert_ne by lia. rewrite Hl.
    split; [done|]. split; [done|].
    intros i Hi1 _. by rewrite list_lookup_insert_ne by lia.
Qed.

(** C28: [free] pools a box it has already dropped: right after
    [free [a]] on a well-formed pool, the next [singleton] pops that
    box and writes into freed memory. *)
Theorem free_then_singleton_use_after_free (fl : FreeList) (a x : T) :
  fl_wf fl ->
  exists fl', free fl [a] = Done fl' /\ singleton fl' x = Fault UseAfterFree.
Proof.
  intros [Hlen _]. unfold BITS_IN_POINTER in Hlen. unfold free, free_internal, assert; simpl.
  destruct (stacks fl !! 0) as [old|] eqn:Hl.
  2:{ apply lookup_ge_None in Hl. lia. }
  eexists. split; [reflexivity|]. unfold singleton, pop; simpl.
  rewrite list_lookup_insert_eq by lia. reflexivity.
Qed.

End Operations.

(** ** The interface the trie relies on *)

(** What [Hamt] needs of its pool of child arrays: a fresh pool, the
    three ways of getting an array, and the pool's invariant. *)
Class Pool (T P : Type) := {
  pool_new : P;
  pool_singleton : P -> T -> outcome (P * list T);
  pool_pair : P -> T -> T -> outcome (P * list T);
  pool_push : P -> list T -> T -> outcome (P * list T);
  pool_wf : P -> Prop
}.

(** What the pool promises: a fresh pool is well formed, and on a
    well-formed pool each operation returns exactly the requested array
    and keeps the pool well formed ([push] for slices of 1 to 63
    elements, the lengths a branch can grow from). *)
Class PoolLaws (T P : Type) `{!Pool T P} : Type := {
  pool_new_wf : pool_wf pool_new;
  pool_singleton_ok p x :
    pool_wf p -> exists p', pool_singleton p x = Done (p', [x]) /\ pool_wf p';
  pool_pair_ok p a b :
    pool_wf p -> exists p', pool_pair p a b = Done (p', [a; b]) /\ pool_wf p';
  pool_push_ok p s x :
    pool_wf p -> 0 < length s < 64 -> exists p', pool_push p s x = Done (p', s ++ [x]) /\ pool_wf p'
}.

(** [FreeList<T>] is the pool of the crate. *)
#[export] Instance free_list_pool {T} : Pool T (@FreeList T) := {|
  pool_new := new;
  pool_singleton := singleton;
  pool_pair := pair;
  pool_push := push;
  pool_wf := fl_wf
|}.

#[export] Instance free_list_pool_laws {T} : PoolLaws T (@FreeList T).
Proof. split; [apply new_wf | apply singleton_correct | apply pair_correct | apply push_correct]. Qed.

End FreeList.

(** ** Witnesses on the empty pool of [nat] slices *)

Lemma singleton_pair_recycle_witness :
  @FreeList.fl_wf nat FreeList.new /\
  (exists fl', FreeList.singleton FreeList.new 7 = Done (fl', [7]) /\ FreeList.fl_wf fl' /\
     FreeList.class_count fl' 0 = pred (FreeList.class_count (@FreeList.new nat) 0) /\
     forall i, i <> 0 -> FreeList.class_count fl' i = FreeList.class_count (@FreeList.new nat) i) /\
  (exists fl', FreeList.pair FreeList.new 1 2 = Done (fl', [1; 2]) /\ FreeList.fl_wf fl' /\
     FreeList.class_count fl' 1 = pred (FreeList.class_count (@FreeList.new nat) 1) /\
     forall i, i <> 1 -> FreeList.class_count fl' i = FreeList.class_count (@FreeList.new nat) i).
Proof. split; [apply FreeList.new_wf | apply FreeList.singleton_pair_recycle, FreeList.new_wf]. Defined.

Lemma push_panics_witness :
  @FreeList.fl_wf nat FreeList.new /\ (length (@nil nat) = 0 \/ 64 <= length (@nil nat)) /\
  FreeList.push FreeList.new [] 3 = Fault Panic.
Proof.
  split; [apply FreeList.new_wf|]. split; [left; reflexivity|].
  apply FreeList.push_panics; [apply FreeList.new_wf | left; reflexivity].
Defined.

Lemma push_recycles_witness :
  @FreeList.fl_wf nat FreeList.new /\ 0 < length [4] < 64 /\
  exists fl', FreeList.push FreeList.new [4] 5 = Done (fl', [4] ++ [5]) /\ FreeList.fl_wf fl' /\
    FreeList.class_count fl' (length [4] - 1) = S (FreeList.class_count (@FreeList.new nat) (length [4] - 1)) /\
    FreeList.class_count fl' (length [4]) = pred (FreeList.class_count (@FreeList.new nat) (length [4])) /\
    forall i, i <> length [4] - 1 -> i <> length [4] ->
      FreeList.class_count fl' i = FreeList.class_count (@FreeList.new nat) i.
Proof.
  split; [apply FreeList.new_wf|]. split; [simpl; lia|].
  apply FreeList.push_recycles; [apply FreeList.new_wf | simpl; lia].
Defined.

Lemma free_then_singleton_use_after_free_witness :
  @FreeList.fl_wf nat FreeList.new /\
  exists fl', FreeList.free FreeList.new [1] = Done fl' /\ FreeList.singleton fl' 2 = Fault UseAfterFree.
Proof.
  split; [apply FreeList.new_wf|].
  apply FreeList.free_then_singleton_use_after_free, FreeList.new_wf.
Defined.
