(* ===== verification/Node.v ===== *)
(** * Node: the trie cell (src/node.rs)

    A [Node] is a [Leaf] owning a key and a value, or a [Branch] owning a
    bitmap and the compact array of its children (in the order of the
    set bits).  The two-word layout of the source (the bitmap or the key
    address in the first word, the value address or the tagged base
    address in the second) is represented by the two constructors; the
    empty branch [Node::empty()] has the null base, an empty array.
    [inner], [set_base], [get_map] and [set_value] are the accessors of
    node.rs with their Leaf/Branch guards, [elements] lists the leaves
    (the map a node stands for), and [drop_node] is the [Drop] impl: it
    returns the key/value pairs it releases, or the fault it hits. *)

From S2P Require Import Prelude BitMap.

Module Node.
Import BitMap.

(** [pub enum Either<L, R> { Left(L), Right(R) }] *)
Inductive Either (L R : Type) :=
| Left (l : L)
| Right (r : R).
Arguments Left {L R} l.
Arguments Right {L R} r.

Section Node.
Context {K V : Type}.

(** [pub struct Node<K, V> { map_key, base_value }] as its two cases. *)
#[warnings="-register-all"]
Inductive Node :=
| Leaf (key : K) (value : V)
| Branch (map : BitMap) (base : list Node).

(** Induction with a hypothesis for every child of a branch. *)
Lemma Node_ind' (P : Node -> Prop) :
  (forall k v, P (Leaf k v)) ->
  (forall m cs, Forall P cs -> P (Branch m cs)) ->
  forall n, P n.
Proof.
  intros HL HB. fix IH 1. intros [k v | m cs].
  - apply HL.
  - apply HB. induction cs as [|c cs IHcs]; constructor; [apply IH | apply IHcs].
Qed.

(** [Node::empty]: an empty branch with a null base. *)
Definition empty : Node := Branch BitMap.empty [].

(** [Node::key_value] *)
Definition key_value (k : K) (v : V) : Node := Leaf k v.

(** [Node::inner]: the single inspection point. *)
Definition inner (n : Node) : Either (K * V) (BitMap * list Node) :=
  match n with
  | Leaf k v => Left (k, v)
  | Branch m b => Right (m, b)
  end.

(** [Node::set_base]: on a branch, install a new base and return the
    previous one; on a leaf, do nothing and return [None]. *)
Definition set_base (n : Node) (base : list Node) : option (list Node) * Node :=
  match n with
  | Leaf _ _ => (None, n)
  | Branch m b => (Some b, Branch m base)
  end.

(** [Node::get_map] followed by [.map(f)]: update the bitmap of a
    branch in place; a leaf is left alone. *)
Definition get_map (n : Node) (f : BitMap -> BitMap) : option unit * Node :=
  match n with
  | Leaf _ _ => (None, n)
  | Branch m b => (Some tt, Branch (f m) b)
  end.

(** [Node::set_value]: on a leaf, replace the value and return the
    previous one; on a branch, [None]. *)
Definition set_value (n : Node) (v : V) : option V * Node :=
  match n with
  | Leaf k v' => (Some v', Leaf k v)
  | Branch _ _ => (None, n)
  end.

(** The key/value pairs stored under a node, in trie order. *)
Fixpoint elements (n : Node) : list (K * V) :=
  match n with
  | Leaf k v => [(k, v)]
  | Branch _ cs => flat_map elements cs
  end.

(** [impl Drop for Node]: a leaf releases its value and key boxes; a
    branch rebuilds one [Box<Node>] from its base and drops it: that is
    a null dereference for the empty branch, releases only the first
    child otherwise, and frees a child array of two or more nodes with
    the layout of a single node. *)
Fixpoint drop_node (n : Node) : outcome (list (K * V)) :=
  match n with
  | Leaf k v => Done [(k, v)]
  | Branch _ [] => Fault NullDeref
  | Branch _ (c :: rest) =>
      let? r := drop_node c in
      match rest with
      | [] => Done r
      | _ :: _ => Fault BadDealloc
      end
  end.

Lemma elements_branch m cs : elements (Branch m cs) = flat_map elements cs.
Proof. reflexivity. Qed.

(** C30: the [Drop] impl never releases more than one key/value pair:
    it follows only the first child of every branch, so a node holding
    two or more entries is never released in full. *)
Theorem drop_node_at_most_one (n : Node) (l : list (K * V)) :
  drop_node n = Done l -> length l <= 1.
Proof.
  revert l. induction n as [k v | m cs IH] using Node_ind'; intros l Hd; simpl in Hd.
  - injection Hd as <-. simpl. lia.
  - destruct cs as [|c rest]; [discriminate|]. inversion IH as [|? ? Hc _]; subst.
    obind_inv Hd. destruct rest; [|discriminate]. injection Hd as <-. by apply Hc.
Qed.

(** C29: the [Drop] impl faults on every node that does not hold exactly
    one entry: a node with no entry (the empty branch [Node::empty()],
    the root of a map in which nothing was inserted, or any trie of
    empty branches) dereferences the null base of the first empty branch
    it reaches; a node holding two or more entries faults somewhere below
    it, where a branch with two or more children frees its array with
    the layout of one node.  So dropping a map succeeds only when it
    holds exactly one key. *)
Theorem drop_node_faults (n : Node) :
  (elements n = [] -> drop_node n = Fault NullDeref) /\
  (2 <= length (elements n) -> exists f, drop_node n = Fault f).
Proof.
  induction n as [k v | m cs IH] using Node_ind'; simpl; [split; [done | lia]|].
  destruct cs as [|c rest]; [split; [done | simpl; lia]|].
  inversion IH as [|? ? [Hc0 Hc2] _]; subst. simpl. split.
  - intros [Hc _]%app_eq_nil. by rewrite Hc0.
  - intros Hlen. destruct rest as [|c' rest].
    + rewrite app_nil_r in Hlen. destruct (Hc2 Hlen) as [f ->]. simpl. eauto.
    + destruct (drop_node c) as [r|f]; simpl; eauto.
Qed.

End Node.
Arguments Node : clear implicits.

End Node.

(** A branch with two leaves: dropping it releases only the first and
    then frees the two-node array with a one-node layout. *)
Lemma drop_node_at_most_one_witness :
  Node.drop_node (Node.Branch BitMap.empty [Node.Leaf 1 10; Node.Leaf 2 20]) = Fault BadDealloc /\
  (forall l, Node.drop_node (Node.Branch BitMap.empty [Node.Leaf 1 10]) = Done l -> length l <= 1).
Proof.
  split; [reflexivity|]. intros l Hl. exact (Node.drop_node_at_most_one _ l Hl).
Defined.

(** The empty branch null-derefs; a chain of one single-child branch
    above two leaves faults. *)
Lemma drop_node_faults_witness :
  Node.elements (Node.empty (K := nat) (V := nat)) = [] /\
  Node.drop_node (Node.empty (K := nat) (V := nat)) = Fault NullDeref /\
  2 <= length (Node.elements (Node.Branch BitMap.empty
         [Node.Branch BitMap.empty [Node.Leaf 1 10; Node.Leaf 2 20]])) /\
  exists f, Node.drop_node (Node.Branch BitMap.empty
              [Node.Branch BitMap.empty [Node.Leaf 1 10; Node.Leaf 2 20]]) = Fault f.
Proof.
  split; [reflexivity|]. split; [apply (Node.drop_node_faults Node.empty); reflexivity|].
  split; [simpl; lia | apply Node.drop_node_faults; simpl; lia].
Defined.
