(* ===== verification/Hamt.v ===== *)
(** * Hamt: lookup and insertion (src/lib.rs)

    [Hamt] is the record of lib.rs: the hash-builder state, the root
    [Node] and the pool of child arrays.  The pool is any instance of the
    interface [FreeList.Pool] with its laws [FreeList.PoolLaws]: the
    definitions call only [pool_singleton], [pool_pair] and [pool_push],
    and the proofs use only the laws, which FreeList.v discharges for
    the crate's [FreeList<Node<K, V>>].  The hash capability is
    two type classes, [BuildHasher] ([state.build_hasher()]) and [Hash]
    ([key.hash(&mut hasher)]), over any [Hasher] of HashStream.v; keys
    have decidable equality ([K: Eq]).

    [get] and [insert] are the two loops of lib.rs.  The walk down the
    trie, which the source does by moving a raw pointer [cur] to
    [base.offset(n)], is structural recursion on the node; the child is
    reached with [child_at] / [update_at] (an offset past the array is
    [OutOfBounds]).  The leaf-splitting inner loop is [split]; the source
    does not bound it, so the model gives it [fuel].

    Invariant: [wf_node d n] for the node at depth [d]: a branch's bitmap
    is a [usize], its children are in the order of its set bits, and every
    key under the child of bit [i] draws index [i] at depth [d].
    Abstraction: [lookup h k], the association-list lookup of the trie's
    [elements].

    The proofs of [insert] separate partial correctness (whatever the
    walk returns satisfies [insert_post]: [insert_node_done]) from
    termination (it returns when the keys are separated below the fuel:
    [insert_node_terminates]).  Liveness of the unbounded split loop:
    when some index position tells the new key apart from each key
    present, one bound on the rounds serves them all
    ([separated_bound]), so every run with at least that many rounds
    returns ([insert_eventually_returns]).  [reachable] is the set of maps a program
    can build. *)

From S2P Require Import Prelude BitMap HashStream FreeList Node.

(** Lemmas that use the pool's laws take them as an argument. *)
Local Unset Default Proof Using.

Module Hamt.
Import (hints) BitMap.BitMap.
Import Node.

(** ** The hash capability *)

(** [S: BuildHasher]: [state.build_hasher()]. *)
Class BuildHasher (S H : Type) := build_hasher : S -> H.

(** [K: Hash]: [key.hash(&mut hasher)]. *)
Class Hash (K H : Type) := hash : K -> H -> H.

(** ** Raw child access *)

(** [unsafe { &*base.offset(n) }] then continue with [f]. *)
Fixpoint child_at {A B} (f : A -> outcome B) (l : list A) (n : nat) : outcome B :=
  match l, n with
  | [], _ => Fault OutOfBounds
  | c :: _, O => f c
  | _ :: l', S n' => child_at f l' n'
  end.

(** [cur = unsafe { &mut *base.offset(n) }]: the child is replaced in
    place by what [f] makes of it. *)
Fixpoint update_at {A B} (f : A -> outcome (A * B)) (l : list A) (n : nat)
    : outcome (list A * B) :=
  match l, n with
  | [], _ => Fault OutOfBounds
  | c :: l', O => let? (c', b) := f c in Done (c' :: l', b)
  | c :: l', S n' => let? (l'', b) := update_at f l' n' in Done (c :: l'', b)
  end.

(** [slice.swap(i, j)] (panics out of range). *)
Definition slice_swap {A} (i j : nat) (l : list A) : outcome (list A) :=
  match l !! i, l !! j with
  | Some a, Some b => Done (<[i := b]> (<[j := a]> l))
  | _, _ => Fault Panic
  end.

Fixpoint swap_each {A} (idxs : list nat) (l : list A) : outcome (list A) :=
  match idxs with
  | [] => Done l
  | i :: idxs' => let? l' := slice_swap i (S i) l in swap_each idxs' l'
  end.

(** [for i in (pos..(slice.len() - 1)).rev() { slice.swap(i, i + 1); }] *)
Definition shift_into_place {A} (pos : nat) (l : list A) : outcome (list A) :=
  swap_each (rev (seq pos (length l - 1 - pos))) l.

(** [unsafe fn slice_from_raw(ptr, len)]: [Vec::from_raw_parts(ptr, len,
    len)] is only valid when [len] is the length of the allocation. *)
Definition slice_from_raw {A} (base : list A) (len : nat) : outcome (list A) :=
  if decide (length base = len) then Done base else Fault OutOfBounds.

(** ** Lemmas on raw child access and the shifting loop *)

Lemma child_at_lookup {A B} (f : A -> outcome B) (l : list A) n c :
  l !! n = Some c -> child_at f l n = f c.
Proof.
  revert n. induction l as [|x l IH]; intros [|n] Hl; simpl in *; try discriminate.
  - by injection Hl as ->.
  - by apply IH.
Qed.

Lemma update_at_lookup {A B} (f : A -> outcome (A * B)) (l : list A) n c c' b :
  l !! n = Some c -> f c = Done (c', b) -> update_at f l n = Done (<[n := c']> l, b).
Proof.
  revert n. induction l as [|x l IH]; intros [|n] Hl Hf; simpl in *; try discriminate.
  - injection Hl as ->. by rewrite Hf.
  - by rewrite (IH n Hl Hf).
Qed.

Lemma update_at_done {A B} (f : A -> outcome (A * B)) (l : list A) n l' b :
  update_at f l n = Done (l', b) ->
  exists c c', l !! n = Some c /\ f c = Done (c', b) /\ l' = <[n := c']> l.
Proof.
  revert n l'. induction l as [|x l IH]; intros [|n] l' Hu; simpl in Hu; try discriminate.
  - obind_inv Hu. destruct a as [c' b']. injection Hu as <- <-. by exists x, c'.
  - obind_inv Hu. destruct a as [l'' b']. injection Hu as <- <-.
    destruct (IH n l'' Ha) as (c & c' & Hc & Hf & ->). by exists c, c'.
Qed.

Lemma swap_each_app {A} (idxs : list nat) (l r : list A) :
  Forall (fun i => S i < length l) idxs ->
  swap_each idxs (l ++ r) = let? l' := swap_each idxs l in Done (l' ++ r).
Proof.
  revert l. induction idxs as [|i idxs IH]; intros l Hi; simpl; [done|].
  inversion Hi as [|? ? Hlt Hrest]; subst.
  unfold slice_swap.
  destruct (l !! i) as [a|] eqn:Ha; [|apply lookup_ge_None in Ha; lia].
  destruct (l !! S i) as [b|] eqn:Hb; [|apply lookup_ge_None in Hb; lia].
  rewrite !lookup_app_l, Ha, Hb by lia. simpl.
  rewrite !insert_app_l by (rewrite ?length_insert; lia).
  apply IH. eapply Forall_impl; [exact Hrest|]. intros j Hj. by rewrite !length_insert.
Qed.

(** The shifting loop for a position inside the slice. *)
Lemma shift_into_place_correct {A} (pos : nat) (l : list A) (x : A) :
  pos <= length l -> shift_into_place pos (l ++ [x]) = Done (insert_at pos x l).
Proof.
  unfold shift_into_place. rewrite length_app. simpl.
  replace (length l + 1 - 1 - pos) with (length l - pos) by lia.
  revert pos. induction l as [|y l IH] using rev_ind; intros pos Hpos; simpl in *.
  - replace pos with 0 by lia. reflexivity.
  - rewrite length_app in *. simpl in *.
    destruct (decide (pos = length l + 1)) as [->|Hne].
    + rewrite Nat.sub_diag. simpl. unfold insert_at.
      rewrite take_ge, drop_ge by (rewrite length_app; simpl; lia). done.
    + replace (length l + 1 - pos) with (S (length l - pos)) by lia.
      rewrite seq_S, rev_app_distr. simpl.
      replace (pos + (length l - pos)) with (length l) by lia.
      unfold slice_swap.
      rewrite <- app_assoc. simpl.
      rewrite lookup_app_r, Nat.sub_diag by lia. simpl.
      rewrite lookup_app_r by lia. replace (S (length l) - length l) with 1 by lia. simpl.
      assert (E : <[length l := x]> (<[S (length l) := y]> (l ++ [y; x])) = (l ++ [x]) ++ [y]).
      { rewrite (insert_app_r_alt l [y; x] (S (length l))) by lia.
        rewrite insert_app_r_alt by lia.
        replace (S (length l) - length l) with 1 by lia. rewrite Nat.sub_diag.
        simpl. by rewrite <- app_assoc. }
      rewrite E.
      rewrite swap_each_app.
      2:{ apply Forall_rev, Forall_forall. intros j Hj%elem_of_seq. rewrite length_app. simpl. lia. }
      rewrite IH by lia. simpl. unfold insert_at.
      rewrite take_app_le, drop_app_le by lia. by rewrite <- !app_assoc.
Qed.

Lemma slice_from_raw_ok {A} (l : list A) : slice_from_raw l (length l) = Done l.
Proof. unfold slice_from_raw. by rewrite decide_True. Qed.

Section Hamt.
Context {K V St H P : Type} `{EqDecision K} `{HashStream.Hasher H}
        `{!BuildHasher St H} `{!Hash K H}
        `{pool : !FreeList.Pool (Node.Node K V) P} `{pool_laws : !FreeList.PoolLaws (Node.Node K V) P}.

#[local] Abbreviation Node := (Node.Node K V).
#[local] Abbreviation HashStream := (@HashStream.HashStream H).
#[local] Abbreviation Skip := (@HashStream.Skip H).

(** [pub struct Hamt<K, V, S> { state, root, free_list }] *)
Record Hamt := mk_hamt {
  state : St;
  root : Node;
  free_list : P
}.

(** [Hamt::new], with the hash state it creates. *)
Definition new (st : St) : Hamt := mk_hamt st Node.empty FreeList.pool_new.

(** [Hamt::key_hash] *)
Definition key_hash (st : St) (key : K) : HashStream :=
  HashStream.new (hash key (build_hasher st)).

(** [stream.next().unwrap() as usize] *)
Definition draw (s : HashStream) : outcome (nat * HashStream) :=
  let (o, s') := HashStream.next s in
  let? i := unwrap o in
  Done (Z.to_nat i, s').

Definition draw_skip (s : Skip) : outcome (nat * Skip) :=
  let (o, s') := HashStream.skip_next s in
  let? i := unwrap o in
  Done (Z.to_nat i, s').

(** ** [Hamt::get] *)

Fixpoint get_node (key : K) (stream : HashStream) (cur : Node) : outcome (option V) :=
  match cur with
  | Leaf k v => Done (if decide (k = key) then Some v else None)
  | Branch map base =>
      if BitMap.is_empty map then Done None
      else
        let? (i, stream) := draw stream in
        if BitMap.is_set map i then
          child_at (get_node key stream) base (BitMap.set_bits_under map i)
        else Done None
  end.

Definition get (h : Hamt) (key : K) : outcome (option V) :=
  get_node key (key_hash (state h) key) (root h).

(** ** [Hamt::insert] *)

(** The inner loop of the leaf case: [cur] is a fresh empty branch;
    while the two keys draw the same index, chain a single-child branch
    (its child array from [FreeList::singleton]); at the first
    difference install the two leaves, smaller index first. *)
Fixpoint split (fuel : nat) (fl : P) (cur : Node) (stream : HashStream)
    (stream_other : Skip) (key : K) (value : V) (key_other : K) (value_other : V)
    : outcome (Node * P) :=
  match fuel with
  | O => Fault OutOfFuel
  | S fuel' =>
      let? (i, stream) := draw stream in
      let? (j, stream_other) := draw_skip stream_other in
      match Node.inner cur with
      | Left _ => Fault Panic
      | Right _ =>
          if decide (i = j) then
            let (_, cur) := Node.get_map cur (fun m => BitMap.set m i) in
            let? (fl, singleton) := FreeList.pool_singleton fl Node.empty in
            let (_, cur) := Node.set_base cur singleton in
            let? child := unwrap (singleton !! 0) in
            let? (child, fl) :=
              split fuel' fl child stream stream_other key value key_other value_other in
            let (_, cur) := Node.set_base cur (<[0 := child]> singleton) in
            Done (cur, fl)
          else
            let (_, cur) := Node.get_map cur (fun m => BitMap.set (BitMap.set m i) j) in
            let '(key, value, key_other, value_other) :=
              if decide (j < i) then (key_other, value_other, key, value)
              else (key, value, key_other, value_other) in
            let? (fl, pair_slice) :=
              FreeList.pool_pair fl (Node.key_value key value) (Node.key_value key_other value_other) in
            let (_, cur) := Node.set_base cur pair_slice in
            Done (cur, fl)
      end
  end.

(** The walk of [insert] from [cur] at depth [depth]; returns the node
    that replaces [cur], the pool, and the displaced value. *)
Fixpoint insert_node (fuel : nat) (st : St) (fl : P) (cur : Node)
    (stream : HashStream) (depth : nat) (key : K) (value : V)
    : outcome (Node * P * option V) :=
  match cur with
  | Leaf k v =>
      if decide (k = key) then
        let (old, cur) := Node.set_value cur value in
        let? old := unwrap old in
        Done (cur, fl, Some old)
      else
        let stream_other := HashStream.skip (key_hash st k) depth in
        let? (cur, fl) := split fuel fl Node.empty stream stream_other key value k v in
        Done (cur, fl, None)
  | Branch map base =>
      let? (i, stream) := draw stream in
      let depth := S depth in
      if BitMap.is_empty map then Done (Node.key_value key value, fl, None)
      else if BitMap.is_set map i then
        let n := BitMap.set_bits_under map i in
        let? (base, r) :=
          update_at (fun c =>
                       let? (c, fl, old) := insert_node fuel st fl c stream depth key value in
                       Done (c, (fl, old))) base n in
        let (fl, old) := r in
        Done (Branch map base, fl, old)
      else
        let bits := BitMap.set_bits map in
        let pos := BitMap.set_bits_under map i in
        let (_, cur) := Node.get_map cur (fun m => BitMap.set m i) in
        let? slice := slice_from_raw base bits in
        let key_value := Node.key_value key value in
        let? (fl, slice) := FreeList.pool_push fl slice key_value in
        let? slice := shift_into_place pos slice in
        let (_, cur) := Node.set_base cur slice in
        Done (cur, fl, None)
  end.

Definition insert (fuel : nat) (h : Hamt) (key : K) (value : V) : outcome (Hamt * option V) :=
  let? (root, fl, old) :=
    insert_node fuel (state h) (free_list h) (root h) (key_hash (state h) key) 0 key value in
  Done (mk_hamt (state h) root fl, old).

(** ** The abstraction and the invariant *)

(** The hasher of a key, and its index at depth [d]. *)
Definition key_hasher (st : St) (key : K) : H := hash key (build_hasher st).

Definition idx (st : St) (key : K) (d : nat) : nat :=
  Z.to_nat (HashStream.index (key_hasher st key) d).

(** The map a trie stands for. *)
Definition lookup (h : Hamt) (key : K) : option V := assoc key (elements (root h)).

(** A node at depth [d]: a branch's bitmap is a [usize], its children
    follow its set bits in ascending order, and every key below the child
    of bit [i] draws index [i] at depth [d]. *)
#[warnings="-register-all"]
Inductive wf_node (st : St) : nat -> Node -> Prop :=
| wf_leaf d k v : wf_node st d (Leaf k v)
| wf_branch d m cs :
    BitMap.bm_wf m ->
    Forall2 (fun i c => wf_node st (S d) c /\ Forall (fun kv => idx st kv.1 d = i) (elements c))
      (BitMap.ones m) cs ->
    wf_node st d (Branch m cs).

Definition hamt_wf (h : Hamt) : Prop :=
  wf_node (state h) 0 (root h) /\ FreeList.pool_wf (free_list h).

(** ** Drawing indices *)

Lemma draw_advance st key d :
  draw (HashStream.advance d (key_hash st key)) =
  Done (idx st key d, HashStream.advance (S d) (key_hash st key)).
Proof. unfold draw, key_hash. rewrite HashStream.next_advance. reflexivity. Qed.

Lemma idx_lt st key d : idx st key d < 64.
Proof.
  unfold idx. pose proof (HashStream.index_range (key_hasher st key) d). lia.
Qed.
#[local] Hint Resolve idx_lt : hamt.

Lemma draw_skip_at st key sk d :
  HashStream.skip_at (key_hasher st key) sk d ->
  exists sk', draw_skip sk = Done (idx st key d, sk') /\
    HashStream.skip_at (key_hasher st key) sk' (S d).
Proof.
  intros Hsk. destruct (HashStream.skip_next_at _ _ _ Hsk) as [Hx Hsk'].
  unfold draw_skip. destruct (HashStream.skip_next sk) as [o sk'].
  simpl in Hx, Hsk'. subst o. simpl. eauto.
Qed.

(** ** Keys under a branch *)

Section Branch.
Context (f : K -> nat).

Definition keyed (i : nat) (c : Node) : Prop := Forall (fun kv => f kv.1 = i) (elements c).

Lemma keyed_not_in i c k : keyed i c -> f k <> i -> k ∉ (elements c).*1.
Proof.
  intros Hc Hne Hk. apply list_elem_of_fmap in Hk as ([k' v] & -> & Hin).
  unfold keyed in Hc. rewrite Forall_forall in Hc. apply Hc in Hin. simpl in *. congruence.
Qed.

Lemma branch_assoc_absent (R : nat -> Node -> Prop) idxs cs k :
  (forall i c, R i c -> keyed i c) -> Forall2 R idxs cs -> f k ∉ idxs ->
  assoc k (flat_map elements cs) = None.
Proof.
  intros HR HF. induction HF as [|i c idxs cs Hic _ IH]; intros Hk; simpl; [done|].
  rewrite not_elem_of_cons in Hk. destruct Hk as [Hne Hk].
  rewrite assoc_app, assoc_not_in; [by apply IH|].
  apply (keyed_not_in i); [by apply HR | done].
Qed.

Lemma branch_assoc_child (R : nat -> Node -> Prop) idxs cs k r c :
  (forall i c, R i c -> keyed i c) -> Forall2 R idxs cs -> NoDup idxs ->
  idxs !! r = Some (f k) -> cs !! r = Some c ->
  assoc k (flat_map elements cs) = assoc k (elements c).
Proof.
  intros HR HF. revert r. induction HF as [|i c0 idxs cs Hic HFt IH]; intros r Hnd Hr Hc;
    [done|].
  apply NoDup_cons in Hnd as [Hni Hnd]. simpl. rewrite assoc_app.
  destruct r as [|r]; simpl in Hr, Hc.
  - injection Hr as ->. injection Hc as ->.
    rewrite (branch_assoc_absent R idxs cs k HR HFt Hni).
    by destruct (assoc k (elements c)).
  - rewrite assoc_not_in.
    + by apply (IH r).
    + apply (keyed_not_in i); [by apply HR|].
      intros Heq. apply Hni. rewrite <- Heq. by apply list_elem_of_lookup_2 in Hr.
Qed.

Lemma branch_keys (R : nat -> Node -> Prop) idxs cs kv :
  (forall i c, R i c -> keyed i c) -> Forall2 R idxs cs ->
  kv ∈ flat_map elements cs -> f kv.1 ∈ idxs.
Proof.
  intros HR HF. induction HF as [|i c idxs cs Hic _ IH]; simpl; [set_solver|].
  rewrite elem_of_app. intros [Hin | Hin].
  - apply HR in Hic. unfold keyed in Hic. rewrite Forall_forall in Hic.
    rewrite (Hic _ Hin). set_solver.
  - set_solver.
Qed.
End Branch.

(** ** [get] *)

Lemma get_node_spec st key d n :
  wf_node st d n ->
  get_node key (HashStream.advance d (key_hash st key)) n = Done (assoc key (elements n)).
Proof.
  revert d. induction n as [k v | m cs IH] using Node_ind'; intros d Hwf; simpl.
  - by case_decide.
  - inversion Hwf as [|? ? ? Hbm HF]; subst.
    destruct (BitMap.is_empty m) eqn:He.
    + apply BitMap.is_empty_spec, BitMap.ones_empty_bits in He. rewrite He in HF.
      by inversion HF.
    + rewrite draw_advance. simpl.
      destruct (BitMap.is_set m (idx st key d)) eqn:Hs.
      * pose proof (BitMap.ones_lookup_rank m _ (idx_lt st key d) Hs) as Hr.
        destruct (Forall2_lookup_l _ _ _ _ _ HF Hr) as (c & Hc & Hwfc & Hkc).
        rewrite (child_at_lookup _ _ _ c Hc).
        rewrite Forall_forall in IH.
        pose proof (IH c (list_elem_of_lookup_2 _ _ _ Hc) (S d) Hwfc) as Ec.
        cbn [HashStream.advance] in Ec. rewrite Ec.
        f_equal. symmetry.
        exact (branch_assoc_child (fun k => idx st k d) _ _ cs key _ c (fun i c H => proj2 H)
                 HF (BitMap.NoDup_ones m) Hr Hc).
      * f_equal. symmetry.
        apply (branch_assoc_absent (fun k => idx st k d) _ _ cs key (fun i c H => proj2 H) HF).
        by apply BitMap.not_elem_of_ones.
Qed.

(** ** The split loop *)

Lemma advance_succ d (s : HashStream) :
  HashStream.advance d (HashStream.next s).2 = HashStream.advance (S d) s.
Proof. reflexivity. Qed.

Lemma idx_ne_key st k1 k2 m : idx st k1 m <> idx st k2 m -> k1 <> k2.
Proof. intros Hne ->. by apply Hne. Qed.

(** Partial correctness of the split loop: whatever it returns is a
    well-formed node holding exactly the two entries, and the pool stays
    well formed. *)
Lemma split_done st fuel fl d sk key value k0 v0 n fl' :
  FreeList.pool_wf fl ->
  HashStream.skip_at (key_hasher st k0) sk d ->
  split fuel fl Node.empty (HashStream.advance d (key_hash st key)) sk key value k0 v0
    = Done (n, fl') ->
  FreeList.pool_wf fl' /\ wf_node st d n /\
  (forall kv, kv ∈ elements n <-> kv = (key, value) \/ kv = (k0, v0)) /\
  (forall k, assoc k (elements n) = assoc k [(key, value); (k0, v0)]).
Proof.
  revert fl d sk n fl'. induction fuel as [|fuel IH]; intros fl d sk n fl' Hfl Hsk Hsp; [discriminate|].
  cbn [split] in Hsp. rewrite draw_advance in Hsp. simpl in Hsp.
  destruct (draw_skip_at st k0 sk d Hsk) as (sk' & Hd & Hsk'). rewrite Hd in Hsp. simpl in Hsp.
  pose proof (idx_lt st key d) as Hi. pose proof (idx_lt st k0 d) as Hj.
  case_decide as Hij.
  - (* same index: a single-child branch over what the next round builds *)
    destruct (FreeList.pool_singleton_ok fl Node.empty Hfl) as (fl1 & Hs1 & Hfl1).
    rewrite Hs1 in Hsp. simpl in Hsp. rewrite advance_succ in Hsp. obind_inv Hsp. destruct a as [c fl2].
    injection Hsp as <- <-.
    destruct (IH fl1 (S d) sk' c fl2 Hfl1 Hsk' Ha) as (Hfl2 & Hwf & Hel & Has).
    split; [done|]. simpl. rewrite !app_nil_r.
    split; [|split; [done | intros k; rewrite Has; reflexivity]].
    constructor; [eauto with hamt|].
    rewrite BitMap.ones_set_empty by done. constructor; [|constructor].
    split; [done|]. apply Forall_forall. intros kv [-> | ->]%Hel; simpl; congruence.
  - (* different indices: the two leaves, smaller index first *)
    assert (Hkey : key <> k0) by exact (idx_ne_key _ _ _ _ Hij).
    assert (Hones := BitMap.ones_set_set_empty _ _ Hi Hj Hij).
    assert (Hbm : BitMap.bm_wf (BitMap.set (BitMap.set BitMap.empty (idx st key d)) (idx st k0 d)))
      by eauto with hamt.
    destruct (decide (idx st k0 d < idx st key d)) as [Hlt|Hlt].
    + destruct (FreeList.pool_pair_ok fl (Node.key_value k0 v0) (Node.key_value key value) Hfl)
        as (fl1 & Hp & Hfl1).
      rewrite Hp in Hsp. simpl in Hsp. injection Hsp as <- <-. split; [done|]. split.
      { constructor; [done|]. rewrite Hones, decide_False by lia. repeat constructor. }
      split; [intros kv; simpl; rewrite !elem_of_cons, elem_of_nil; tauto|].
      intros k. simpl. repeat case_decide; congruence.
    + destruct (FreeList.pool_pair_ok fl (Node.key_value key value) (Node.key_value k0 v0) Hfl)
        as (fl1 & Hp & Hfl1).
      rewrite Hp in Hsp. simpl in Hsp. injection Hsp as <- <-. split; [done|]. split.
      { constructor; [done|]. rewrite Hones, decide_True by lia. repeat constructor. }
      split; [intros kv; simpl; rewrite !elem_of_cons, elem_of_nil; tauto|].
      intros k. reflexivity.
Qed.

(** Termination of the split loop: it returns as soon as the two
    streams differ, so fuel past the first difference is enough. *)
Lemma split_terminates st fuel fl d sk key value k0 v0 :
  FreeList.pool_wf fl ->
  HashStream.skip_at (key_hasher st k0) sk d ->
  (exists m, d <= m < d + fuel /\ idx st key m <> idx st k0 m) ->
  exists r, split fuel fl Node.empty (HashStream.advance d (key_hash st key)) sk key value k0 v0
    = Done r.
Proof.
  revert fl d sk. induction fuel as [|fuel IH]; intros fl d sk Hfl Hsk (m & Hm & Hdiff); [lia|].
  cbn [split]. rewrite draw_advance. simpl.
  destruct (draw_skip_at st k0 sk d Hsk) as (sk' & Hd & Hsk'). rewrite Hd. simpl.
  case_decide as Hij.
  - destruct (FreeList.pool_singleton_ok fl Node.empty Hfl) as (fl1 & Hs1 & Hfl1).
    rewrite Hs1. simpl. rewrite advance_succ.
    assert (Hm' : m <> d) by (intros ->; congruence).
    destruct (IH fl1 (S d) sk' Hfl1 Hsk') as ([c fl2] & ->); [exists m; split; [lia | done]|].
    simpl. eauto.
  - destruct (decide (idx st k0 d < idx st key d));
      [destruct (FreeList.pool_pair_ok fl (Node.key_value k0 v0) (Node.key_value key value) Hfl)
         as (fl1 & Hp & _)
      |destruct (FreeList.pool_pair_ok fl (Node.key_value key value) (Node.key_value k0 v0) Hfl)
         as (fl1 & Hp & _)];
      rewrite Hp; simpl; eauto.
Qed.

Lemma split_spec st fuel fl d sk key value k0 v0 :
  FreeList.pool_wf fl ->
  HashStream.skip_at (key_hasher st k0) sk d ->
  (exists m, d <= m < d + fuel /\ idx st key m <> idx st k0 m) ->
  exists n fl',
    split fuel fl Node.empty (HashStream.advance d (key_hash st key)) sk key value k0 v0
      = Done (n, fl') /\
    FreeList.pool_wf fl' /\ wf_node st d n /\
    (forall kv, kv ∈ elements n <-> kv = (key, value) \/ kv = (k0, v0)) /\
    (forall k, assoc k (elements n) = assoc k [(key, value); (k0, v0)]).
Proof.
  intros Hfl Hsk Hex. destruct (split_terminates st fuel fl d sk key value k0 v0 Hfl Hsk Hex)
    as ([n fl'] & Hsp).
  exists n, fl'. split; [done|]. exact (split_done st fuel fl d sk key value k0 v0 n fl' Hfl Hsk Hsp).
Qed.

(** The shape [split] builds for two keys whose index streams agree on
    [k] levels from depth [d]: [k] single-child branches, then the branch
    of the two leaves, the leaf of the smaller index first. *)
Definition pair_node (st : St) (d : nat) (key : K) (value : V) (k0 : K) (v0 : V) : Node :=
  let i := idx st key d in
  let j := idx st k0 d in
  Branch (BitMap.set (BitMap.set BitMap.empty i) j)
    (if decide (j < i) then [Node.key_value k0 v0; Node.key_value key value]
     else [Node.key_value key value; Node.key_value k0 v0]).

Fixpoint chain (st : St) (key : K) (d k : nat) (bottom : Node) : Node :=
  match k with
  | O => bottom
  | S k' => Branch (BitMap.set BitMap.empty (idx st key d)) [chain st key (S d) k' bottom]
  end.

Lemma split_chain st fuel fl d sk key value k0 v0 k :
  FreeList.pool_wf fl ->
  HashStream.skip_at (key_hasher st k0) sk d ->
  (forall m, m < k -> idx st key (d + m) = idx st k0 (d + m)) ->
  idx st key (d + k) <> idx st k0 (d + k) -> k < fuel ->
  exists fl',
    split fuel fl Node.empty (HashStream.advance d (key_hash st key)) sk key value k0 v0
      = Done (chain st key d k (pair_node st (d + k) key value k0 v0), fl').
Proof.
  revert fuel fl d sk. induction k as [|k IH]; intros [|fuel] fl d sk Hfl Hsk Hpre Hdiff Hk;
    try lia; cbn [split]; rewrite draw_advance; simpl;
    destruct (draw_skip_at st k0 sk d Hsk) as (sk' & Hd & Hsk'); rewrite Hd; simpl.
  - rewrite Nat.add_0_r in Hdiff |- *. rewrite decide_False by done. unfold pair_node.
    destruct (decide (idx st k0 d < idx st key d)).
    + destruct (FreeList.pool_pair_ok fl (Node.key_value k0 v0) (Node.key_value key value) Hfl)
        as (fl1 & Hp & _).
      rewrite Hp. simpl. eauto.
    + destruct (FreeList.pool_pair_ok fl (Node.key_value key value) (Node.key_value k0 v0) Hfl)
        as (fl1 & Hp & _).
      rewrite Hp. simpl. eauto.
  - rewrite decide_True by (rewrite <- (Nat.add_0_r d); apply Hpre; lia).
    destruct (FreeList.pool_singleton_ok fl Node.empty Hfl) as (fl1 & Hs1 & Hfl1).
    rewrite Hs1. simpl. rewrite advance_succ.
    destruct (IH fuel fl1 (S d) sk' Hfl1 Hsk') as (fl2 & Hsp).
    + intros m Hm. replace (S d + m) with (d + S m) by lia. apply Hpre. lia.
    + by replace (S d + k) with (d + S k) by lia.
    + lia.
    + rewrite Hsp. simpl. exists fl2. by rewrite Nat.add_succ_r.
Qed.

(** When the two keys draw the same index at every depth from [d] on,
    every round of the split loop chains another single-child branch:
    no fuel is enough. *)
Lemma split_out_of_fuel st fuel fl d sk key value k0 v0 :
  FreeList.pool_wf fl ->
  HashStream.skip_at (key_hasher st k0) sk d ->
  (forall m, d <= m -> idx st key m = idx st k0 m) ->
  split fuel fl Node.empty (HashStream.advance d (key_hash st key)) sk key value k0 v0
    = Fault OutOfFuel.
Proof.
  revert fl d sk. induction fuel as [|fuel IH]; intros fl d sk Hfl Hsk Hall; [reflexivity|].
  cbn [split]. rewrite draw_advance. simpl.
  destruct (draw_skip_at st k0 sk d Hsk) as (sk' & Hd & Hsk'). rewrite Hd. simpl.
  rewrite decide_True by (apply Hall; lia).
  destruct (FreeList.pool_singleton_ok fl Node.empty Hfl) as (fl1 & Hs1 & Hfl1).
  rewrite Hs1. simpl. rewrite advance_succ, IH; [reflexivity | done | done |].
  intros m Hm. apply Hall. lia.
Qed.

(** ** The walk of [insert] *)

(** What [insert] guarantees of the node [n'] that replaces [n] at depth
    [d]: it is well formed, maps [key] to [value] and every other key as
    [n] did, holds no entry but the new one and those of [n], and the
    pool [fl'] is well formed. *)
Definition insert_post (st : St) (d : nat) (key : K) (value : V) (n n' : Node)
    (fl' : P) : Prop :=
  wf_node st d n' /\ FreeList.pool_wf fl' /\
  (forall k, assoc k (elements n') = if decide (k = key) then Some value else assoc k (elements n)) /\
  (forall kv, kv ∈ elements n' -> kv.1 = key \/ kv ∈ elements n).

Lemma elem_of_flat_map_lookup {A B} (g : A -> list B) l r x y :
  l !! r = Some x -> y ∈ g x -> y ∈ flat_map g l.
Proof.
  intros Hx Hy. rewrite (flat_map_split_at g l r x Hx). set_solver.
Qed.

Lemma keys_not_in_branch st d m cs key :
  wf_node st d (Branch m cs) -> BitMap.is_set m (idx st key d) = false ->
  key ∉ (flat_map elements cs).*1.
Proof.
  intros Hwf Hs Hk. inversion Hwf as [|? ? ? _ HF]; subst.
  apply list_elem_of_fmap in Hk as (kv & -> & Hkv).
  pose proof (branch_keys (fun k => idx st k d) _ _ cs kv (fun i c H => proj2 H) HF Hkv) as Hin.
  by apply (BitMap.not_elem_of_ones m (idx st kv.1 d)).
Qed.

(** The grow case: the new leaf enters the branch at the rank of its
    index. *)
Lemma grow_post st d key value m cs fl' :
  wf_node st d (Branch m cs) -> BitMap.is_set m (idx st key d) = false -> FreeList.pool_wf fl' ->
  insert_post st d key value (Branch m cs)
    (Branch (BitMap.set m (idx st key d))
       (insert_at (BitMap.set_bits_under m (idx st key d)) (Leaf key value) cs)) fl'.
Proof.
  intros Hwf Hs Hfl. pose proof (keys_not_in_branch _ _ _ _ _ Hwf Hs) as Hnk.
  inversion Hwf as [|? ? ? Hbm HF]; subst. pose proof (idx_lt st key d) as Hi.
  split; [|split; [done|split]].
  - constructor; [eauto with hamt|].
    rewrite BitMap.ones_set by done. apply Forall2_insert_at; [done|].
    split; [constructor | by repeat constructor].
  - intros k. rewrite !elements_branch, flat_map_insert_at.
    rewrite (flat_map_take_drop elements (BitMap.set_bits_under m (idx st key d)) cs) in Hnk |- *.
    rewrite fmap_app, not_elem_of_app in Hnk. destruct Hnk as [Hnk1 _].
    case_decide as Hk.
    + subst k. rewrite assoc_app, (assoc_not_in key _ Hnk1). simpl. by rewrite decide_True.
    + rewrite (assoc_app_mid k _ (elements (Leaf key value))); [done|]. simpl. set_solver.
  - intros kv. rewrite !elements_branch, flat_map_insert_at.
    rewrite (flat_map_take_drop elements (BitMap.set_bits_under m (idx st key d)) cs).
    simpl. rewrite !elem_of_app, elem_of_cons. intros [? | [-> | ?]]; auto.
Qed.

(** The descend case: the child at the rank of the key's index is
    replaced by what the walk makes of it. *)
Lemma descend_post st d key value m cs r c c' fl' :
  wf_node st d (Branch m cs) -> BitMap.ones m !! r = Some (idx st key d) -> cs !! r = Some c ->
  insert_post st (S d) key value c c' fl' ->
  insert_post st d key value (Branch m cs) (Branch m (<[r := c']> cs)) fl'.
Proof.
  intros Hwf Hr Hc (Hwf' & Hfl & Has & Hel). inversion Hwf as [|? ? ? Hbm HF]; subst.
  destruct (Forall2_lookup_l _ _ _ _ _ HF Hr) as (c0 & Hc0 & Hwfc & Hkc).
  rewrite Hc in Hc0. injection Hc0 as <-.
  assert (Hkc' : Forall (fun kv => idx st kv.1 d = idx st key d) (elements c')).
  { apply Forall_forall. intros kv Hkv. destruct (Hel kv Hkv) as [-> | Hin]; [done|].
    rewrite Forall_forall in Hkc. by apply Hkc. }
  assert (HF' : Forall2 (fun i c => wf_node st (S d) c /\ Forall (fun kv => idx st kv.1 d = i) (elements c))
                  (BitMap.ones m) (<[r := c']> cs)).
  { rewrite <- (list_insert_id (BitMap.ones m) r _ Hr). by apply Forall2_insert. }
  split; [by constructor|split; [done|split]].
  - intros k. simpl.
    destruct (decide (idx st k d = idx st key d)) as [Hik|Hik].
    + assert (Hr' : BitMap.ones m !! r = Some (idx st k d)) by congruence.
      rewrite (branch_assoc_child (fun k => idx st k d) _ _ _ k r c' (fun i c H => proj2 H) HF'
                 (BitMap.NoDup_ones m) Hr') by (by rewrite list_lookup_insert_eq by (by apply lookup_lt_Some in Hc)).
      rewrite (branch_assoc_child (fun k => idx st k d) _ _ _ k r c (fun i c H => proj2 H) HF
                 (BitMap.NoDup_ones m) Hr' Hc).
      apply Has.
    + assert (Hne : k <> key) by (intros ->; done).
      rewrite decide_False by done.
      rewrite (flat_map_list_insert elements cs r c c' Hc), (flat_map_split_at elements cs r c Hc).
      rewrite !assoc_app_mid; [done | |].
      * by apply (keyed_not_in (fun k => idx st k d) (idx st key d)).
      * by apply (keyed_not_in (fun k => idx st k d) (idx st key d)).
  - intros kv. simpl. rewrite (flat_map_list_insert elements cs r c c' Hc), (flat_map_split_at elements cs r c Hc).
    rewrite !elem_of_app. intros [? | [Hin | ?]]; auto. destruct (Hel kv Hin); auto.
Qed.

Lemma descend_old st d key m cs r c :
  wf_node st d (Branch m cs) -> BitMap.ones m !! r = Some (idx st key d) -> cs !! r = Some c ->
  assoc key (elements c) = assoc key (elements (Branch m cs)).
Proof.
  intros Hwf Hr Hc. inversion Hwf as [|? ? ? _ HF]; subst. symmetry.
  exact (branch_assoc_child (fun k => idx st k d) _ _ cs key r c (fun i c H => proj2 H)
           HF (BitMap.NoDup_ones m) Hr Hc).
Qed.

(** Every key below a node at depth [d] agrees with [key] on the indices
    of the path to the node. *)
Definition on_path (st : St) (d : nat) (key : K) (n : Node) : Prop :=
  forall kv, kv ∈ elements n -> forall t, t < d -> idx st kv.1 t = idx st key t.

(** Every other key below the node draws an index different from
    [key]'s at some position below [fuel]. *)
Definition separated (st : St) (fuel : nat) (key : K) (n : Node) : Prop :=
  forall kv, kv ∈ elements n -> kv.1 <> key -> exists m, m < fuel /\ idx st key m <> idx st kv.1 m.

(** The child a key descends into, and what it inherits. *)
Lemma on_path_child st d key m cs r c :
  wf_node st d (Branch m cs) -> on_path st d key (Branch m cs) ->
  BitMap.ones m !! r = Some (idx st key d) -> cs !! r = Some c -> on_path st (S d) key c.
Proof.
  intros Hwf Hpre Hr Hc kv Hkv t Ht. inversion Hwf as [|? ? ? _ HF]; subst.
  destruct (Forall2_lookup_l _ _ _ _ _ HF Hr) as (c0 & Hc0 & _ & Hkc).
  rewrite Hc in Hc0. injection Hc0 as <-.
  destruct (decide (t = d)) as [->|].
  - rewrite Forall_forall in Hkc. by apply Hkc.
  - apply Hpre; [by apply (elem_of_flat_map_lookup elements cs r c) | lia].
Qed.

Lemma separated_child st fuel key m cs r c :
  separated st fuel key (Branch m cs) -> cs !! r = Some c -> separated st fuel key c.
Proof. intros Hsep Hc kv Hkv. by apply Hsep, (elem_of_flat_map_lookup elements cs r c). Qed.

(** A branch that grows has between 1 and 63 children, one per set bit. *)
Lemma grow_lengths st d m cs i :
  wf_node st d (Branch m cs) -> BitMap.is_empty m = false -> BitMap.is_set m i = false -> i < 64 ->
  length cs = BitMap.set_bits m /\ 0 < length cs < 64.
Proof.
  intros Hwf He Hs Hi. inversion Hwf as [|? ? ? Hbm HF]; subst.
  assert (Hlen : length cs = BitMap.set_bits m)
    by (rewrite BitMap.set_bits_ones; symmetry; by apply Forall2_length in HF).
  split; [done|]. rewrite Hlen, BitMap.set_bits_ones. split.
  - destruct (BitMap.ones m) eqn:Ho; simpl; [|lia].
    apply BitMap.ones_nil_bits in Ho; [|done]. apply BitMap.is_empty_spec in Ho. congruence.
  - by apply (BitMap.length_ones_lt m i).
Qed.

(** *** Partial correctness of [insert], case by case *)

Lemma insert_leaf_done st fuel fl d key value k v n' fl' old :
  FreeList.pool_wf fl ->
  insert_node fuel st fl (Leaf k v) (HashStream.advance d (key_hash st key)) d key value
    = Done (n', fl', old) ->
  old = assoc key [(k, v)] /\ insert_post st d key value (Leaf k v) n' fl'.
Proof.
  intros Hfl Hins. cbn [insert_node] in Hins. case_decide as Hk.
  - subst k. simpl in Hins. injection Hins as <- <- <-. simpl. rewrite decide_True by done.
    split; [done|]. split; [constructor|]. split; [done|]. split.
    + intros k. simpl. by repeat case_decide.
    + intros kv ->%list_elem_of_singleton. by left.
  - obind_inv Hins. destruct a as [n'' fl'']. injection Hins as <- <- <-.
    destruct (split_done st fuel fl d (HashStream.skip (key_hash st k) d) key value k v n'' fl'' Hfl)
      as (Hfl' & Hwf' & Hel & Has); [by left | done |].
    simpl. rewrite decide_False by done. split; [done|]. split; [done|]. split; [done|]. split.
    + intros k'. rewrite Has. simpl. by repeat case_decide.
    + intros kv Hkv. apply Hel in Hkv as [-> | ->]; [by left | right; left].
Qed.

Lemma insert_empty_done st fuel fl d key value m cs n' fl' old :
  wf_node st d (Branch m cs) -> FreeList.pool_wf fl -> BitMap.is_empty m = true ->
  insert_node fuel st fl (Branch m cs) (HashStream.advance d (key_hash st key)) d key value
    = Done (n', fl', old) ->
  old = assoc key (elements (Branch m cs)) /\ insert_post st d key value (Branch m cs) n' fl'.
Proof.
  intros Hwf Hfl He Hins. inversion Hwf as [|? ? ? Hbm HF]; subst.
  pose proof He as He'. apply BitMap.is_empty_spec, BitMap.ones_empty_bits in He'. rewrite He' in HF.
  inversion HF; subst. cbn [insert_node] in Hins. rewrite draw_advance in Hins. simpl in Hins.
  rewrite He in Hins. injection Hins as <- <- <-. split; [done|].
  split; [constructor|]. split; [done|]. split.
  - intros k. simpl. by repeat case_decide.
  - intros kv ->%list_elem_of_singleton. by left.
Qed.

Lemma insert_grow_done st fuel fl d key value m cs n' fl' old :
  wf_node st d (Branch m cs) -> FreeList.pool_wf fl ->
  BitMap.is_empty m = false -> BitMap.is_set m (idx st key d) = false ->
  insert_node fuel st fl (Branch m cs) (HashStream.advance d (key_hash st key)) d key value
    = Done (n', fl', old) ->
  old = assoc key (elements (Branch m cs)) /\ insert_post st d key value (Branch m cs) n' fl'.
Proof.
  intros Hwf Hfl He Hs Hins. pose proof (idx_lt st key d) as Hi.
  destruct (grow_lengths st d m cs _ Hwf He Hs Hi) as [Hlen Hne].
  destruct (FreeList.pool_push_ok fl cs (Node.key_value key value) Hfl Hne) as (fl1 & Hpush & Hfl1).
  cbn [insert_node] in Hins. rewrite draw_advance in Hins. simpl in Hins. rewrite He, Hs in Hins.
  rewrite <- Hlen, slice_from_raw_ok in Hins. simpl in Hins. rewrite Hpush in Hins. simpl in Hins.
  rewrite shift_into_place_correct in Hins
    by (rewrite Hlen, BitMap.set_bits_ones; by apply BitMap.set_bits_under_le).
  simpl in Hins. injection Hins as <- <- <-. split; [|by apply grow_post].
  inversion Hwf as [|? ? ? Hbm HF]; subst. symmetry.
  apply (branch_assoc_absent (fun k => idx st k d) _ _ cs key (fun i c H => proj2 H) HF).
  by apply BitMap.not_elem_of_ones.
Qed.

(** Partial correctness of the walk of [insert]: whatever it returns
    is the previous value of the key and a node satisfying
    [insert_post]. *)
Lemma insert_node_done st fuel key value n :
  forall d fl n' fl' old,
  wf_node st d n -> FreeList.pool_wf fl -> on_path st d key n ->
  insert_node fuel st fl n (HashStream.advance d (key_hash st key)) d key value
    = Done (n', fl', old) ->
  old = assoc key (elements n) /\ insert_post st d key value n n' fl'.
Proof.
  induction n as [k v | m cs IH] using Node_ind'; intros d fl n' fl' old Hwf Hfl Hpre Hins.
  - exact (insert_leaf_done st fuel fl d key value k v n' fl' old Hfl Hins).
  - destruct (BitMap.is_empty m) eqn:He; [by eapply insert_empty_done|].
    destruct (BitMap.is_set m (idx st key d)) eqn:Hs; [|by eapply insert_grow_done].
    pose proof (BitMap.ones_lookup_rank m _ (idx_lt st key d) Hs) as Hr.
    cbn [insert_node] in Hins. rewrite draw_advance in Hins. simpl in Hins. rewrite He, Hs in Hins.
    obind_inv Hins. destruct a as [base [fl'' old'']]. injection Hins as <- <- <-.
    destruct (update_at_done _ cs _ _ _ Ha) as (c & c' & Hc & Hf & ->).
    obind_inv Hf. destruct a as [[c'' fl3] old3]. injection Hf as <- <- <-.
    inversion Hwf as [|? ? ? Hbm HF]; subst.
    destruct (Forall2_lookup_l _ _ _ _ _ HF Hr) as (c0 & Hc0 & Hwfc & _).
    rewrite Hc in Hc0. injection Hc0 as <-. rewrite Forall_forall in IH.
    destruct (IH c (list_elem_of_lookup_2 _ _ _ Hc) (S d) fl c'' fl3 old3 Hwfc Hfl) as (-> & Hpost);
      [exact (on_path_child st d key m cs _ c Hwf Hpre Hr Hc) | by rewrite <- advance_succ|].
    split; [exact (descend_old st d key m cs _ c Hwf Hr Hc)|].
    exact (descend_post st d key value m cs _ c c'' fl3 Hwf Hr Hc Hpost).
Qed.

(** Termination of the walk of [insert] when every other key is
    separated from [key] below [fuel]. *)
(** The branch case of the walk returns when the descent into the
    child it selects returns: the other arms cannot fault on a well-formed
    branch and pool. *)
Lemma insert_branch_terminates st fuel fl d m cs key value :
  wf_node st d (Branch m cs) -> FreeList.pool_wf fl ->
  (forall c, BitMap.is_set m (idx st key d) = true -> cs !! BitMap.set_bits_under m (idx st key d) = Some c ->
     exists r, insert_node fuel st fl c (HashStream.advance (S d) (key_hash st key)) (S d) key value = Done r) ->
  exists r, insert_node fuel st fl (Branch m cs) (HashStream.advance d (key_hash st key)) d key value = Done r.
Proof.
  intros Hwf Hfl Hdesc. cbn [insert_node]. rewrite draw_advance. simpl.
  destruct (BitMap.is_empty m) eqn:He; [eauto|].
  destruct (BitMap.is_set m (idx st key d)) eqn:Hs.
  - pose proof (BitMap.ones_lookup_rank m _ (idx_lt st key d) Hs) as Hr.
    inversion Hwf as [|? ? ? Hbm HF]; subst.
    destruct (Forall2_lookup_l _ _ _ _ _ HF Hr) as (c & Hc & _ & _).
    destruct (Hdesc c eq_refl Hc) as ([[c' fl'] old] & Hins).
    rewrite advance_succ, (update_at_lookup _ cs _ c c' (fl', old) Hc) by (rewrite Hins; reflexivity).
    simpl. eauto.
  - pose proof (idx_lt st key d) as Hi.
    destruct (grow_lengths st d m cs _ Hwf He Hs Hi) as [Hlen Hne].
    destruct (FreeList.pool_push_ok fl cs (Node.key_value key value) Hfl Hne) as (fl' & Hpush & _).
    rewrite <- Hlen, slice_from_raw_ok. simpl. rewrite Hpush. simpl.
    rewrite shift_into_place_correct
      by (rewrite Hlen, BitMap.set_bits_ones; by apply BitMap.set_bits_under_le).
    simpl. eauto.
Qed.

Lemma insert_node_terminates st fuel key value n :
  forall d fl,
  wf_node st d n -> FreeList.pool_wf fl -> on_path st d key n -> separated st fuel key n ->
  exists r, insert_node fuel st fl n (HashStream.advance d (key_hash st key)) d key value = Done r.
Proof.
  induction n as [k v | m cs IH] using Node_ind'; intros d fl Hwf Hfl Hpre Hsep.
  - cbn [insert_node]. case_decide as Hk; [simpl; eauto|].
    destruct (split_terminates st fuel fl d (HashStream.skip (key_hash st k) d) key value k v Hfl)
      as ([n' fl'] & ->); [by left | | simpl; eauto].
    destruct (Hsep (k, v) ltac:(left) Hk) as (m & Hm & Hd). exists m.
    split; [|done]. destruct (decide (d <= m)); [lia|]. exfalso.
    apply Hd. symmetry. apply (Hpre (k, v)); [left | lia].
  - apply insert_branch_terminates; [done | done |]. intros c Hs Hc.
    pose proof (BitMap.ones_lookup_rank m _ (idx_lt st key d) Hs) as Hr.
    inversion Hwf as [|? ? ? Hbm HF]; subst.
    destruct (Forall2_lookup_l _ _ _ _ _ HF Hr) as (c0 & Hc0 & Hwfc & _).
    rewrite Hc in Hc0. injection Hc0 as <-. rewrite Forall_forall in IH.
    apply (IH c (list_elem_of_lookup_2 _ _ _ Hc) (S d) fl Hwfc Hfl);
      [exact (on_path_child st d key m cs _ c Hwf Hpre Hr Hc) | exact (separated_child _ _ _ _ _ _ c Hsep Hc)].
Qed.

Lemma insert_node_spec st fuel key value n :
  forall d fl,
  wf_node st d n -> FreeList.pool_wf fl -> on_path st d key n -> separated st fuel key n ->
  exists n' fl',
    insert_node fuel st fl n (HashStream.advance d (key_hash st key)) d key value
      = Done (n', fl', assoc key (elements n)) /\
    insert_post st d key value n n' fl'.
Proof.
  intros d fl Hwf Hfl Hpre Hsep.
  destruct (insert_node_terminates st fuel key value n d fl Hwf Hfl Hpre Hsep) as ([[n' fl'] old] & Hins).
  destruct (insert_node_done st fuel key value n d fl n' fl' old Hwf Hfl Hpre Hins) as (-> & Hpost).
  eauto.
Qed.

(** ** Sequences of insertions *)

(** [hamt.insert(k, v)] for each pair in order. *)
Fixpoint insert_all (fuel : nat) (h : Hamt) (kvs : list (K * V)) : outcome Hamt :=
  match kvs with
  | [] => Done h
  | (k, v) :: kvs' => let? (h', _) := insert fuel h k v in insert_all fuel h' kvs'
  end.

(** Any two distinct keys of [ks] draw different indices at some
    position below [fuel]. *)
Definition keys_separated (st : St) (fuel : nat) (ks : list K) : Prop :=
  forall k1 k2, k1 ∈ ks -> k2 ∈ ks -> k1 <> k2 -> exists m, m < fuel /\ idx st k1 m <> idx st k2 m.

(** The executable check of [keys_separated]. *)
Definition keys_separatedb (st : St) (fuel : nat) (ks : list K) : bool :=
  forallb (fun k1 => forallb (fun k2 =>
    bool_decide (k1 = k2) ||
    existsb (fun m => negb (Nat.eqb (idx st k1 m) (idx st k2 m))) (seq 0 fuel)) ks) ks.

Lemma keys_separatedb_sound st fuel ks :
  keys_separatedb st fuel ks = true -> keys_separated st fuel ks.
Proof.
  unfold keys_separatedb, keys_separated. intros Hb k1 k2 H1 H2 Hne.
  rewrite forallb_forall in Hb. apply list_elem_of_In in H1, H2.
  specialize (Hb k1 H1). rewrite forallb_forall in Hb. specialize (Hb k2 H2).
  apply orb_true_iff in Hb as [Hb | Hb]; [apply bool_decide_eq_true in Hb; congruence|].
  apply existsb_exists in Hb as (m & Hm & Hb). apply in_seq in Hm.
  exists m. split; [lia|]. apply negb_true_iff, Nat.eqb_neq in Hb. done.
Qed.

Lemma keys_separated_sub st fuel ks ks' :
  keys_separated st fuel ks -> (forall k, k ∈ ks' -> k ∈ ks) -> keys_separated st fuel ks'.
Proof. intros Hs Hsub k1 k2 H1 H2. apply Hs; auto. Qed.

(** The keys of a trie. *)
Definition keys (h : Hamt) : list K := (elements (root h)).*1.

Lemma separated_of_keys st fuel key h :
  keys_separated st fuel (key :: keys h) -> separated st fuel key (root h).
Proof.
  intros Hs kv Hkv Hne. apply Hs; [left | | done].
  right. apply list_elem_of_fmap. eauto.
Qed.

(** A key that some position of the index streams tells apart from each
    key of a finite list is told apart from all of them below a single
    bound, and below every larger one. *)
Lemma separated_bound st key (l : list (K * V)) :
  (forall kv, kv ∈ l -> kv.1 <> key -> exists m, idx st key m <> idx st kv.1 m) ->
  exists N, forall fuel, N <= fuel ->
    forall kv, kv ∈ l -> kv.1 <> key -> exists m, m < fuel /\ idx st key m <> idx st kv.1 m.
Proof.
  induction l as [|kv l IH]; intros Hd.
  - exists 0. intros fuel _ kv Hkv. by apply elem_of_nil in Hkv.
  - destruct IH as (N & HN); [intros kv' Hkv'; apply Hd; by right|].
    destruct (decide (kv.1 = key)) as [Heq|Hne].
    + exists N. intros fuel Hf kv' Hkv' Hne'.
      apply elem_of_cons in Hkv' as [->|Hkv']; [done | by apply (HN fuel)].
    + destruct (Hd kv ltac:(left) Hne) as (m & Hm). exists (max N (S m)). intros fuel Hf kv' Hkv' Hne'.
      apply elem_of_cons in Hkv' as [->|Hkv']; [exists m; split; [lia | done] | apply (HN fuel); [lia | done..]].
Qed.

End Hamt.

(** C17: the in-place shifting loop of the grow case ([push] puts the new
    child last, then [slice.swap(i, i+1)] for [i] from [len-2] down to
    [pos]) computes the insertion of the new child at position [pos],
    for every [pos]: from the end of the slice on the loop is empty and
    the child stays last. *)
Theorem shift_into_place_insert_at {A} (pos : nat) (l : list A) (x : A) :
  shift_into_place pos (l ++ [x]) = Done (insert_at pos x l).
Proof.
  destruct (decide (pos <= length l)); [by apply shift_into_place_correct|].
  unfold shift_into_place, insert_at. rewrite length_app. simpl.
  replace (length l + 1 - 1 - pos) with 0 by lia.
  rewrite take_ge, drop_ge by lia. reflexivity.
Qed.

Section Properties.
Context {K V St H P : Type} `{EqDecision K} `{HashStream.Hasher H}
        `{!BuildHasher St H} `{!Hash K H}
        `{pool : !FreeList.Pool (Node.Node K V) P} `{pool_laws : !FreeList.PoolLaws (Node.Node K V) P}.

(** [get] on a well-formed map is the lookup in its contents. *)
Lemma get_lookup (h : @Hamt K V St P) (key : K) :
  hamt_wf h -> get h key = Done (lookup h key).
Proof.
  intros [Hwf _]. unfold get, lookup.
  exact (get_node_spec (state h) key 0 (root h) Hwf).
Qed.

Lemma new_hamt_wf (st : St) : hamt_wf (new (K := K) (V := V) st).
Proof. split; [constructor; [eauto with hamt | constructor] | apply FreeList.pool_new_wf]. Qed.

(** C2: on a well-formed map, [get] returns the value the map's abstract
    contents (the association list of its leaves) give the key. *)
Theorem get_spec (h : @Hamt K V St P) (key : K) :
  hamt_wf h -> get h key = Done (lookup h key).
Proof. apply get_lookup. Qed.

(** Partial correctness of [insert]: whenever it returns, it returned
    the previous value of the key and a well-formed map that differs from
    the old one at that key only; no separation of keys is needed. *)
Lemma insert_done (fuel : nat) (h h' : @Hamt K V St P) (key : K) (value : V) old :
  hamt_wf h -> insert fuel h key value = Done (h', old) ->
  old = lookup h key /\ hamt_wf h' /\ state h' = state h /\
  forall k, lookup h' k = if decide (k = key) then Some value else lookup h k.
Proof.
  intros [Hwf Hfl] Hins. unfold insert in Hins. obind_inv Hins.
  destruct a as [[root' fl'] old']. injection Hins as <- <-.
  destruct (insert_node_done (state h) fuel key value (root h) 0 (free_list h) root' fl' old' Hwf Hfl)
    as (-> & Hwf' & Hfl' & Has & _); [intros kv _ t Ht; lia | exact Ha |].
  split; [done|]. split; [split; done|]. split; [done|]. intros k. apply Has.
Qed.

(** The maps a program can build: [Hamt::new], then any sequence of
    [insert]s that return (with any bound on the split loop). *)
#[warnings="-register-all"]
Inductive reachable : @Hamt K V St P -> Prop :=
| reachable_new st : reachable (new st)
| reachable_insert fuel h key value h' old :
    reachable h -> insert fuel h key value = Done (h', old) -> reachable h'.

(** C4: every map reachable from [Hamt::new] by inserts is well formed,
    its pool is well formed, and [get] on it never faults: it returns
    the lookup in the map's abstract contents, for every key. *)
Theorem reachable_wf (h : @Hamt K V St P) :
  reachable h -> hamt_wf h /\ forall key, get h key = Done (lookup h key).
Proof.
  intros Hr. assert (Hwf : hamt_wf h).
  { induction Hr as [st | fuel h key value h' old _ IH Hins]; [apply new_hamt_wf|].
    by destruct (insert_done fuel h h' key value old IH Hins) as (_ & ? & _). }
  split; [done|]. intros key. destruct Hwf as [Hwf _].
  exact (get_node_spec (state h) key 0 (root h) Hwf).
Qed.

(** The refinement of [insert] against the abstract contents, when the
    split loop's fuel separates the new key from the keys present. *)
Lemma insert_separated (fuel : nat) (h : @Hamt K V St P) (key : K) (value : V) :
  hamt_wf h -> separated (state h) fuel key (root h) ->
  exists h', insert fuel h key value = Done (h', lookup h key) /\
    hamt_wf h' /\ state h' = state h /\
    forall k, lookup h' k = if decide (k = key) then Some value else lookup h k.
Proof.
  intros [Hwf Hfl] Hsep.
  destruct (insert_node_spec (state h) fuel key value (root h) 0 (free_list h) Hwf Hfl)
    as (n' & fl' & Hins & Hwf' & Hfl' & Has & _); [intros kv _ t Ht; lia | done |].
  cbn [HashStream.advance] in Hins. unfold insert. rewrite Hins. simpl.
  eexists. split; [reflexivity|].
  split; [split; done|]. split; [done|]. intros k. apply Has.
Qed.

Lemma insert_correct (fuel : nat) (h : @Hamt K V St P) (key : K) (value : V) :
  hamt_wf h -> keys_separated (state h) fuel (key :: keys h) ->
  exists h', insert fuel h key value = Done (h', lookup h key) /\
    hamt_wf h' /\ state h' = state h /\
    forall k, lookup h' k = if decide (k = key) then Some value else lookup h k.
Proof. intros Hwf Hsep. by apply insert_separated, separated_of_keys. Qed.

(** The split loop's bound: a key that some index position tells apart
    from each key present is inserted by every run of the loop with
    enough fuel. *)
Lemma insert_eventually (h : @Hamt K V St P) (key : K) (value : V) :
  hamt_wf h ->
  (forall k, k ∈ keys h -> k <> key -> exists m, idx (state h) key m <> idx (state h) k m) ->
  exists N, forall fuel, N <= fuel ->
    exists h', insert fuel h key value = Done (h', lookup h key) /\
      hamt_wf h' /\ state h' = state h /\
      forall k, lookup h' k = if decide (k = key) then Some value else lookup h k.
Proof.
  intros Hwf Hd.
  destruct (separated_bound (state h) key (elements (root h))) as (N & HN).
  { intros kv Hkv. apply Hd, list_elem_of_fmap. eauto. }
  exists N. intros fuel Hf. apply insert_separated; [done|]. exact (HN fuel Hf).
Qed.

(** C1: on a well-formed map, [insert fuel h key value] terminates without
    fault, returns what [get h key] returned before, keeps the map and its
    pool well formed, and afterwards [get] finds [value] under [key] and
    the previous result under every other key; this holds whenever every
    key already present draws an index different from [key]'s below
    [fuel] (the split loop's bound). *)
Theorem insert_spec (fuel : nat) (h : @Hamt K V St P) (key : K) (value : V) :
  hamt_wf h -> keys_separated (state h) fuel (key :: keys h) ->
  exists h' old, insert fuel h key value = Done (h', old) /\ get h key = Done old /\
    hamt_wf h' /\ get h' key = Done (Some value) /\
    forall k, k <> key -> get h' k = get h k.
Proof.
  intros Hwf Hsep.
  destruct (insert_correct fuel h key value Hwf Hsep) as (h' & Hins & Hwf' & _ & Hl).
  exists h', (lookup h key). rewrite !get_lookup by done.
  do 3 (split; [done|]). split.
  - by rewrite Hl, decide_True.
  - intros k Hk. rewrite !get_lookup by done. by rewrite Hl, decide_False.
Qed.

(** C9: liveness of the split loop of [Hamt::insert], whose Rust
    [loop] has no bound: on a well-formed map, when every key present
    other than [key] draws an index different from [key]'s at some
    position of the hash streams, there is a number of rounds after which
    the loop has ended, so every run with at least that many rounds
    returns, with the result [insert_spec] describes: the previous value,
    [value] under [key], and every other key unchanged. *)
Theorem insert_eventually_returns (h : @Hamt K V St P) (key : K) (value : V) :
  hamt_wf h ->
  (forall k, k ∈ keys h -> k <> key -> exists m, idx (state h) key m <> idx (state h) k m) ->
  exists N, forall fuel, N <= fuel ->
    exists h' old, insert fuel h key value = Done (h', old) /\ get h key = Done old /\
      hamt_wf h' /\ get h' key = Done (Some value) /\
      forall k, k <> key -> get h' k = get h k.
Proof.
  intros Hwf Hd. destruct (insert_eventually h key value Hwf Hd) as (N & HN).
  exists N. intros fuel Hf. destruct (HN fuel Hf) as (h' & Hins & Hwf' & _ & Hl).
  exists h', (lookup h key). rewrite !get_lookup by done.
  do 3 (split; [done|]). split.
  - by rewrite Hl, decide_True.
  - intros k Hk. rewrite !get_lookup by done. by rewrite Hl, decide_False.
Qed.

(** C12: collision handling (spec section 8): in a map whose root is the
    leaf of a single key [k0], inserting a key whose index stream agrees
    with [k0]'s on the first [k] levels and differs at level [k] builds
    exactly [k] single-child branches above the branch of the two leaves
    (smaller index first), and both keys remain retrievable. *)
Theorem insert_collision_chain (fuel : nat) (h : @Hamt K V St P) (key k0 : K) (value v0 : V) (k : nat) :
  root h = Leaf k0 v0 -> FreeList.pool_wf (free_list h) ->
  (forall m, m < k -> idx (state h) key m = idx (state h) k0 m) ->
  idx (state h) key k <> idx (state h) k0 k -> k < fuel ->
  exists h', insert fuel h key value = Done (h', None) /\
    root h' = chain (state h) key 0 k (pair_node (state h) k key value k0 v0) /\
    get h' key = Done (Some value) /\ get h' k0 = Done (Some v0).
Proof.
  intros Hr Hfl Hpre Hdiff Hk.
  assert (Hne : k0 <> key) by (intros ->; done).
  set (sk := HashStream.skip (key_hash (state h) k0) 0).
  destruct (split_chain (state h) fuel (free_list h) 0 sk key value k0 v0 k Hfl)
    as (fl' & Hsp); [by left | exact Hpre | done | done |].
  destruct (split_spec (state h) fuel (free_list h) 0 sk key value k0 v0 Hfl)
    as (n & fl'' & Hsp' & _ & Hwf & _ & Has); [by left | exists k; split; [lia | done] |].
  rewrite Hsp in Hsp'. injection Hsp' as <- <-. cbn [HashStream.advance] in Hsp. unfold sk in Hsp.
  unfold insert. rewrite Hr. cbn [insert_node]. rewrite decide_False by done.
  rewrite Hsp. simpl. eexists. split; [reflexivity|]. split; [reflexivity|].
  unfold get. simpl. split.
  - pose proof (get_node_spec (state h) key 0 _ Hwf) as E. cbn [HashStream.advance] in E.
    rewrite E, Has. simpl. by rewrite decide_True.
  - pose proof (get_node_spec (state h) k0 0 _ Hwf) as E. cbn [HashStream.advance] in E.
    rewrite E, Has. simpl. rewrite decide_False by done. by rewrite decide_True.
Qed.

(** C13: the split loop of [insert] does not terminate when two distinct
    keys draw the same index at every depth (possible with a [Hash] impl
    that ignores part of what [Eq] compares): inserting such a key into
    the one-leaf map of the other runs out of every bound on the loop. *)
Theorem insert_full_collision_diverges (fuel : nat) (h : @Hamt K V St P) (key k0 : K) (value v0 : V) :
  root h = Leaf k0 v0 -> FreeList.pool_wf (free_list h) -> k0 <> key ->
  (forall m, idx (state h) key m = idx (state h) k0 m) ->
  insert fuel h key value = Fault OutOfFuel.
Proof.
  intros Hr Hfl Hne Hall. unfold insert. rewrite Hr. cbn [insert_node].
  rewrite decide_False by done.
  pose proof (split_out_of_fuel (state h) fuel (free_list h) 0
                (HashStream.skip (key_hash (state h) k0) 0) key value k0 v0 Hfl) as Hsp.
  cbn [HashStream.advance] in Hsp. rewrite Hsp; [reflexivity | by left |].
  intros m _. apply Hall.
Qed.

Lemma keys_insert (fuel : nat) (h h' : @Hamt K V St P) (key : K) (value : V) :
  (forall k, lookup h' k = if decide (k = key) then Some value else lookup h k) ->
  forall k, k ∈ keys h' -> k = key \/ k ∈ keys h.
Proof.
  intros Hl k Hk. destruct (decide (k = key)) as [|Hne]; [by left|right].
  apply assoc_is_some in Hk as [v Hv]. unfold lookup in Hl.
  rewrite Hl, decide_False in Hv by done. by apply assoc_in in Hv.
Qed.

(** The refinement of a sequence of inserts against the abstract contents. *)
Lemma insert_all_correct (fuel : nat) (h : @Hamt K V St P) (kvs : list (K * V)) :
  hamt_wf h -> keys_separated (state h) fuel (kvs.*1 ++ keys h) ->
  exists h', insert_all fuel h kvs = Done h' /\ hamt_wf h' /\
    forall k, lookup h' k = match assoc k (rev kvs) with Some v => Some v | None => lookup h k end.
Proof.
  revert h. induction kvs as [|[k0 v0] kvs IH]; intros h Hwf Hsep.
  - exists h. split; [done|]. split; [done|]. intros k. reflexivity.
  - simpl in Hsep.
    destruct (insert_correct fuel h k0 v0 Hwf) as (h' & Hins & Hwf' & Hst & Hl).
    { apply (keys_separated_sub _ _ _ _ Hsep). intros k. rewrite !elem_of_cons, elem_of_app. tauto. }
    destruct (IH h' Hwf') as (h'' & Hall & Hwf'' & Hl'').
    { rewrite Hst. apply (keys_separated_sub _ _ _ _ Hsep). intros k.
      rewrite elem_of_app, elem_of_cons, elem_of_app. intros [Hk | Hk]; [tauto|].
      destruct (keys_insert fuel h h' k0 v0 Hl k Hk); tauto. }
    exists h''. cbn [insert_all]. rewrite Hins. cbn [obind]. split; [done|]. split; [done|].
    intros k. rewrite Hl'', Hl, assoc_app_rev_cons. simpl.
    destruct (assoc k (rev kvs)); [done|]. by repeat case_decide; subst.
Qed.

(** C11: round trip (spec section 8): inserting a sequence of pairs, whose
    keys are pairwise separated below [fuel], into a well-formed map
    returns a well-formed map on which [get] returns, for every key, the
    value of its last insertion, and for every other key what [get]
    returned before. *)
Theorem insert_all_spec (fuel : nat) (h : @Hamt K V St P) (kvs : list (K * V)) :
  hamt_wf h -> keys_separated (state h) fuel (kvs.*1 ++ keys h) ->
  exists h', insert_all fuel h kvs = Done h' /\ hamt_wf h' /\
    forall k, get h' k = match assoc k (rev kvs) with Some v => Done (Some v) | None => get h k end.
Proof.
  intros Hwf Hsep. destruct (insert_all_correct fuel h kvs Hwf Hsep) as (h' & Hall & Hwf' & Hl).
  exists h'. split; [done|]. split; [done|]. intros k.
  rewrite !get_lookup, Hl by done. by destruct (assoc k (rev kvs)).
Qed.

End Properties.
End Hamt.
