(* ===== verification/NodeRepr.v ===== *)
(** * NodeRepr: the two-word layout of a node (src/node.rs)

    node.rs stores a node in two machine words.  The first, the union
    [MapKey], is the bitmap of a branch or the address of a leaf's key
    box.  The second, the union [BaseValue], is the address of a leaf's
    value box, or the address of a branch's child array with its low bit
    set: the low bit is the tag ([is_value] tests [repr & 1 == 0]).
    Node.v abstracts this into the constructors [Leaf] and [Branch];
    this file models the words themselves, [RNode], with every function
    of node.rs on them ([is_value], [new_base], [new_value], [get_value],
    [get_base], [empty], [key_value], [inner], [set_base], [get_map],
    [set_value]).  Addresses are 64-bit [Z]s.

    A [Heap] maps addresses to the key boxes, value boxes and child
    arrays.  [repr σ r n] says that the words [r] in heap [σ] stand for
    the abstract node [n].  The theorems show:
    - the accessors refine those of Node.v when every value box is at an
      even address (its alignment is at least 2), [node_ops_refine];
    - [get_repr], the loop of [Hamt::get] on words and addresses, computes
      the same answer as [Hamt.get_node] on the abstract node, with fuel
      above the trie depth, [get_repr_refines];
    - [drop_repr], the [Drop] impl on the words ([get_value],
      [get_base().unwrap()], [Box::from_raw]), releases the boxes of the
      entries [Node.drop_node] releases and faults where it faults,
      [drop_repr_refines];
    - a zero-sized value type breaks the tag: [Box::new(())] returns
      the dangling address [align_of::<()>() = 1], which is odd, so the
      leaf decodes as a branch with a null base and [get] never finds
      the key, [zst_leaf_unreachable]. *)

From stdpp Require Import gmap.
From S2P Require Import Prelude BitMap HashStream Node Hamt.

Module NodeRepr.
Local Open Scope Z_scope.

(** ** The words *)

(** [ptr::null_mut()] *)
Definition null : Z := 0.

(** [!1] on a [usize]. *)
Definition NOT_ONE : Z := Z.lxor (Z.ones 64) 1.

(** [BaseValue::is_value]: [self.repr & 1 == 0]. *)
Definition is_value (bv : Z) : bool := Z.land bv 1 =? 0.

(** [BaseValue::new_base]: the base address with [repr |= 1]. *)
Definition new_base (base : Z) : Z := Z.lor base 1.

(** [BaseValue::new_value]: the value address as it is. *)
Definition new_value (value : Z) : Z := value.

(** [BaseValue::get_value] *)
Definition get_value (bv : Z) : option Z := if is_value bv then Some bv else None.

(** [BaseValue::get_base]: [(self.repr & !1) as *mut Node]. *)
Definition get_base (bv : Z) : option Z :=
  if is_value bv then None else Some (Z.land bv NOT_ONE).

(** [pub struct Node<K, V> { map_key: MapKey<K>, base_value: BaseValue<K, V> }] *)
Record RNode := mk_rnode { map_key : Z; base_value : Z }.

(** [Node::empty]: the empty bitmap and the null base. *)
Definition empty : RNode := mk_rnode (BitMap.bits BitMap.empty) (new_base null).

(** [Node::key_value]: [kp] and [vp] are the addresses
    [Box::into_raw(Box::new(key))] and [Box::into_raw(Box::new(value))]. *)
Definition key_value (kp vp : Z) : RNode := mk_rnode kp (new_value vp).

(** [Node::inner] *)
Definition inner (n : RNode) : Node.Either (Z * Z) (BitMap.BitMap * Z) :=
  if is_value (base_value n) then Node.Left (map_key n, base_value n)
  else Node.Right (BitMap.mk_bitmap (map_key n), Z.land (base_value n) NOT_ONE).

(** [Node::set_base]: [self.base_value.base = base; self.base_value.repr |= 1]. *)
Definition set_base (n : RNode) (base : Z) : option Z * RNode :=
  if is_value (base_value n) then (None, n)
  else (Some (Z.land (base_value n) NOT_ONE), mk_rnode (map_key n) (Z.lor base 1)).

(** [Node::get_map] followed by [.map(f)]. *)
Definition get_map (n : RNode) (f : BitMap.BitMap -> BitMap.BitMap) : option unit * RNode :=
  if is_value (base_value n) then (None, n)
  else (Some tt, mk_rnode (BitMap.bits (f (BitMap.mk_bitmap (map_key n)))) (base_value n)).

(** [Node::set_value]: [ptr::replace(&mut self.base_value.value, value)]. *)
Definition set_value (n : RNode) (vp : Z) : option Z * RNode :=
  if is_value (base_value n) then (Some (base_value n), mk_rnode (map_key n) vp)
  else (None, n).

(** The address [Box::new] returns for a zero-sized type of alignment 1,
    such as [()]: [NonNull::dangling()], that is the alignment. *)
Definition ZST_ADDR : Z := 1.

(** ** Bit-level lemmas *)

Lemma is_value_even bv : is_value bv = Z.even bv.
Proof.
  unfold is_value. change 1 with (Z.ones 1) at 1. rewrite Z.land_ones by lia.
  rewrite Zmod_even. by destruct (Z.even bv).
Qed.

Lemma is_value_lor_one b : is_value (Z.lor b 1) = false.
Proof.
  rewrite is_value_even, <- Z.negb_odd, <- Z.bit0_odd, Z.lor_spec.
  change (Z.testbit 1 0) with true. by rewrite orb_true_r.
Qed.

Lemma testbit_NOT_ONE t : 0 <= t -> Z.testbit NOT_ONE t = (t <? 64) && negb (t =? 0).
Proof.
  intros Ht. unfold NOT_ONE. rewrite Z.lxor_spec, Z.testbit_ones_nonneg by lia.
  destruct (Z.eqb_spec t 0) as [->|Hne]; [reflexivity|].
  rewrite Z.bits_above_log2 with (a := 1) by (simpl; lia).
  destruct (t <? 64); reflexivity.
Qed.

(** Clearing the tag of a tagged even address gives the address back. *)
Lemma untag_tag b : in_width 64 b -> Z.even b = true -> Z.land (Z.lor b 1) NOT_ONE = b.
Proof.
  intros Hb He. apply Z.bits_inj'. intros t Ht.
  rewrite Z.land_spec, Z.lor_spec, testbit_NOT_ONE by done.
  destruct (Z.eqb_spec t 0) as [->|Hne].
  - rewrite Z.bit0_odd, <- Z.negb_even, He. reflexivity.
  - rewrite (Z.bits_above_log2 1 t) by (simpl; lia).
    destruct (Z.ltb_spec t 64); simpl; rewrite ?orb_false_r, ?andb_true_r, ?andb_false_r; [done|].
    symmetry. apply (testbit_above b 64); [exact Hb | lia].
Qed.

(** An odd address loses its low bit. *)
Lemma untag_odd b : in_width 64 b -> Z.odd b = true -> Z.land b NOT_ONE = b - 1.
Proof.
  intros Hb Ho. pose proof (Z.div2_odd b) as Hq. rewrite Ho in Hq. simpl in Hq.
  set (q := Z.div2 b) in *.
  assert (Hw : in_width 64 (b - 1)) by (unfold in_width in *; lia).
  replace (b - 1) with (2 * q) in * by lia. rewrite Hq.
  apply Z.bits_inj'. intros t Ht. rewrite Z.land_spec, testbit_NOT_ONE by done.
  destruct (Z.eqb_spec t 0) as [->|Hne].
  - rewrite andb_false_r. symmetry. apply Z.testbit_even_0.
  - destruct (Z.ltb_spec t 64); simpl; rewrite ?andb_true_r, ?andb_false_r.
    + replace t with (Z.succ (t - 1)) by lia.
      rewrite Z.testbit_odd_succ, Z.testbit_even_succ by lia. reflexivity.
    + symmetry. apply (testbit_above (2 * q) 64); [exact Hw | lia].
Qed.

(** The tag decides the constructor [inner] reports. *)
Lemma inner_key_value kp vp : Z.even vp = true -> inner (key_value kp vp) = Node.Left (kp, vp).
Proof. intros He. unfold inner, key_value, new_value. simpl. by rewrite is_value_even, He. Qed.

Lemma inner_key_value_odd kp vp :
  in_width 64 vp -> Z.odd vp = true ->
  inner (key_value kp vp) = Node.Right (BitMap.mk_bitmap kp, vp - 1).
Proof.
  intros Hw Ho. unfold inner, key_value, new_value. simpl.
  rewrite is_value_even, <- Z.negb_odd, Ho. simpl. by rewrite untag_odd.
Qed.

Lemma child_at_none {A B} (f : A -> outcome B) (l : list A) n :
  l !! n = None -> Hamt.child_at f l n = Fault OutOfBounds.
Proof.
  revert n. induction l as [|x l IH]; intros [|n] Hn; simpl in *; [done | done | discriminate | by apply IH].
Qed.

(** ** The heap and the representation relation *)

Section Repr.
Context {K V : Type}.

(** The boxes and arrays the words point to, by address. *)
Record Heap := mk_heap {
  hkeys : gmap Z K;
  hvals : gmap Z V;
  harrays : gmap Z (list RNode)
}.

(** [repr σ r n]: the words [r] stand for the node [n] in heap [σ].  A
    leaf's value address carries the value tag (an even address); a
    branch's base is tagged, null exactly when the branch is empty, and
    otherwise points to an array whose elements stand for the children
    in order. *)
#[warnings="-register-all"]
Inductive repr (σ : Heap) : RNode -> Node.Node K V -> Prop :=
| repr_leaf r k v :
    is_value (base_value r) = true ->
    hkeys σ !! map_key r = Some k -> hvals σ !! base_value r = Some v ->
    repr σ r (Node.Leaf k v)
| repr_nil r m :
    is_value (base_value r) = false -> BitMap.mk_bitmap (map_key r) = m ->
    BitMap.is_empty m = true -> Z.land (base_value r) NOT_ONE = null ->
    repr σ r (Node.Branch m [])
| repr_branch r m rs cs :
    is_value (base_value r) = false -> BitMap.mk_bitmap (map_key r) = m ->
    Z.land (base_value r) NOT_ONE <> null ->
    harrays σ !! Z.land (base_value r) NOT_ONE = Some rs ->
    Forall2 (repr σ) rs cs -> cs <> [] ->
    repr σ r (Node.Branch m cs).

(** A base address the layout can tag: even, non-null, a [usize]. *)
Definition base_ok (b : Z) : Prop := in_width 64 b /\ Z.even b = true /\ b <> null.

(** The height of the trie below a node. *)
Fixpoint depth (n : Node.Node K V) : nat :=
  match n with
  | Node.Leaf _ _ => 0
  | Node.Branch _ cs => S (max_list (depth <$> cs))
  end.

Lemma depth_child c m cs : c ∈ cs -> (depth c < depth (Node.Branch m cs))%nat.
Proof.
  intros Hc. simpl. apply Nat.lt_succ_r, max_list_elem_of_le.
  by apply list_elem_of_fmap_2.
Qed.

Lemma bitmap_eta m : BitMap.mk_bitmap (BitMap.bits m) = m.
Proof. by destruct m. Qed.

(** ** The accessors on the words refine those on the constructors *)

Lemma repr_empty σ : repr σ empty Node.empty.
Proof. by apply repr_nil. Qed.

Lemma repr_key_value σ kp vp k v :
  Z.even vp = true -> hkeys σ !! kp = Some k -> hvals σ !! vp = Some v ->
  repr σ (key_value kp vp) (Node.key_value k v).
Proof. intros He Hk Hv. apply repr_leaf; simpl; [by rewrite is_value_even | done | done]. Qed.

Lemma repr_inner σ r n :
  repr σ r n ->
  match Node.inner n with
  | Node.Left (k, v) => exists kp vp, inner r = Node.Left (kp, vp) /\
      hkeys σ !! kp = Some k /\ hvals σ !! vp = Some v
  | Node.Right (m, cs) => exists b, inner r = Node.Right (m, b) /\
      ((cs = [] /\ b = null /\ BitMap.is_empty m = true) \/
       (b <> null /\ exists rs, harrays σ !! b = Some rs /\ Forall2 (repr σ) rs cs))
  end.
Proof.
  unfold inner. intros [? k v Hv Hk Hval | ? m Hv Hm Hem Hb | ? m rs cs Hv Hm Hb Hrs HF _];
    simpl; rewrite Hv.
  - eauto.
  - exists null. rewrite Hm, Hb. eauto.
  - eexists. rewrite Hm. split; [reflexivity|]. right. eauto.
Qed.

Lemma repr_set_base σ r n b rs cs' :
  repr σ r n -> base_ok b -> harrays σ !! b = Some rs -> Forall2 (repr σ) rs cs' -> cs' <> [] ->
  repr σ (set_base r b).2 (Node.set_base n cs').2.
Proof.
  intros Hr (Hw & He & Hn) Hb HF Hne. unfold set_base.
  destruct Hr as [? k v Hv Hk Hval | ? m Hv Hm _ _ | ? m rs0 cs Hv Hm _ _ _ _]; rewrite Hv; simpl.
  - by apply repr_leaf.
  - apply (repr_branch _ _ _ rs); simpl; rewrite ?untag_tag; auto using is_value_lor_one.
  - apply (repr_branch _ _ _ rs); simpl; rewrite ?untag_tag; auto using is_value_lor_one.
Qed.

Lemma repr_get_map σ r m cs f :
  repr σ r (Node.Branch m cs) -> cs <> [] ->
  repr σ (get_map r f).2 (Node.get_map (Node.Branch m cs) f).2.
Proof.
  intros Hr Hne. inversion Hr as [| |r' m' rs cs' Hv Hm Hb Hrs HF _]; subst; [done|].
  unfold get_map. rewrite Hv. simpl.
  apply (repr_branch _ _ _ rs); simpl; rewrite ?bitmap_eta; done.
Qed.

Lemma repr_set_value σ r n vp v :
  repr σ r n -> Z.even vp = true -> hvals σ !! vp = Some v ->
  repr σ (set_value r vp).2 (Node.set_value n v).2 /\
  (Node.set_value n v).1 = ((set_value r vp).1 ≫= fun a => hvals σ !! a).
Proof.
  intros Hr He Hv'. unfold set_value.
  destruct Hr as [? k v0 Hv Hk Hval | ? m Hv Hm Hem Hb | ? m rs cs Hv Hm Hb Hrs HF Hne];
    rewrite Hv; simpl.
  - split; [apply repr_leaf; simpl; [by rewrite is_value_even | done | done] | by rewrite Hval].
  - split; [by apply repr_nil | done].
  - split; [by eapply repr_branch | done].
Qed.

(** C20: the accessors of node.rs on the two words refine those on the
    constructors, in a heap that holds the boxes they point to:
    [Node::empty] stands for the empty branch, [Node::key_value] for a
    leaf when the value box is at an even address, and [set_base] (with
    an even, non-null array address), [get_map] (on a branch with
    children) and [set_value] (with an even value address) map words
    standing for a node to words standing for the updated node, the
    displaced value included. *)
Theorem node_ops_refine (σ : Heap) :
  repr σ empty Node.empty /\
  (forall kp vp k v, Z.even vp = true -> hkeys σ !! kp = Some k -> hvals σ !! vp = Some v ->
     repr σ (key_value kp vp) (Node.key_value k v)) /\
  (forall r n b rs cs', repr σ r n -> base_ok b -> harrays σ !! b = Some rs ->
     Forall2 (repr σ) rs cs' -> cs' <> [] -> repr σ (set_base r b).2 (Node.set_base n cs').2) /\
  (forall r m cs f, repr σ r (Node.Branch m cs) -> cs <> [] ->
     repr σ (get_map r f).2 (Node.get_map (Node.Branch m cs) f).2) /\
  (forall r n vp v, repr σ r n -> Z.even vp = true -> hvals σ !! vp = Some v ->
     repr σ (set_value r vp).2 (Node.set_value n v).2 /\
     (Node.set_value n v).1 = ((set_value r vp).1 ≫= fun a => hvals σ !! a)).
Proof.
  split; [apply repr_empty|]. split; [apply repr_key_value|].
  split; [apply repr_set_base|]. split; [apply repr_get_map | apply repr_set_value].
Qed.

End Repr.

Arguments Heap : clear implicits.

(** ** [Hamt::get] on the words *)

Section Get.
Context {K V H : Type} `{EqDecision K} `{HashStream.Hasher H}.

(** [unsafe { &*k }]: the key box at [kp]. *)
Definition deref_key (σ : Heap K V) (kp : Z) : outcome K :=
  match hkeys σ !! kp with Some k => Done k | None => Fault UseAfterFree end.

(** [unsafe { &*base.offset(n) }] starts from the array at [base]. *)
Definition deref_array (σ : Heap K V) (base : Z) : outcome (list RNode) :=
  if decide (base = null) then Fault NullDeref
  else match harrays σ !! base with Some rs => Done rs | None => Fault UseAfterFree end.

(** The loop of [Hamt::get] (lib.rs) on the words, returning the value
    address: [Some(unsafe { &*v })].  The heap could be cyclic, so the
    walk takes fuel; [get_repr_refines] shows that fuel above the depth
    of the trie is enough. *)
Fixpoint get_repr (fuel : nat) (σ : Heap K V) (key : K) (stream : @HashStream.HashStream H)
    (cur : RNode) : outcome (option Z) :=
  match fuel with
  | O => Fault OutOfFuel
  | S fuel' =>
      match inner cur with
      | Node.Left (kp, vp) =>
          let? k := deref_key σ kp in
          Done (if decide (k = key) then Some vp else None)
      | Node.Right (map, base) =>
          if BitMap.is_empty map then Done None
          else
            let? (i, stream) := Hamt.draw stream in
            if BitMap.is_set map i then
              let? rs := deref_array σ base in
              Hamt.child_at (get_repr fuel' σ key stream) rs (BitMap.set_bits_under map i)
            else Done None
      end
  end.

Lemma draw_total (s : @HashStream.HashStream H) : exists i s', Hamt.draw s = Done (i, s').
Proof.
  unfold Hamt.draw. destruct (HashStream.next s) as [o s'] eqn:Hn.
  assert (Ho : is_Some o).
  { unfold HashStream.next, HashStream.next_with in Hn. repeat case_match; simplify_eq; eauto. }
  destruct Ho as [i ->]. simpl. eauto.
Qed.

(** The simulation of [Hamt.get_node] by the walk on the words. *)
Lemma get_repr_sim (σ : Heap K V) (r : RNode) (n : Node.Node K V) (key : K)
    (s : @HashStream.HashStream H) (fuel : nat) :
  repr σ r n -> (depth n < fuel)%nat ->
  Hamt.get_node key s n = let? o := get_repr fuel σ key s r in Done (o ≫= fun vp => hvals σ !! vp).
Proof.
  revert r n s. induction fuel as [|fuel IH]; intros r n s Hr Hd; [lia|].
  pose proof (repr_inner σ r n Hr) as Hi. cbn [get_repr].
  destruct n as [k v | m cs]; simpl in Hi.
  - destruct Hi as (kp & vp & -> & Hk & Hv). unfold deref_key. rewrite Hk. simpl.
    case_decide; simpl; [by rewrite Hv | done].
  - destruct Hi as (b & -> & [(-> & -> & Hem) | (Hbn & rs & Hrs & HF)]); simpl; [by rewrite Hem|].
    destruct (BitMap.is_empty m); [done|]. destruct (draw_total s) as (i & s' & ->). simpl.
    destruct (BitMap.is_set m i); [|done].
    unfold deref_array. rewrite decide_False, Hrs by done. simpl.
    destruct (cs !! BitMap.set_bits_under m i) as [c|] eqn:Hc.
    + destruct (Forall2_lookup_r _ _ _ _ _ HF Hc) as (r' & Hr' & Hrc).
      rewrite (Hamt.child_at_lookup _ cs _ c Hc), (Hamt.child_at_lookup _ rs _ r' Hr').
      apply IH; [done|]. pose proof (depth_child c m cs ltac:(by eapply list_elem_of_lookup_2)). lia.
    + rewrite !child_at_none; [done| |done]. apply lookup_ge_None. apply lookup_ge_None in Hc.
      by rewrite (Forall2_length _ _ _ HF).
Qed.

(** C15: the loop of [Hamt::get] on the words and the heap computes what
    [Hamt.get_node] computes on the abstract node the words stand for
    (the value address it returns holds the value), for every node and
    with any fuel above the depth of the trie: the tagged layout is a
    faithful implementation of the two constructors. *)
Theorem get_repr_refines (σ : Heap K V) (r : RNode) (n : Node.Node K V) (key : K)
    (s : @HashStream.HashStream H) (fuel : nat) :
  repr σ r n -> (depth n < fuel)%nat ->
  Hamt.get_node key s n = let? o := get_repr fuel σ key s r in Done (o ≫= fun vp => hvals σ !! vp).
Proof. apply get_repr_sim. Qed.

(** C26: with a zero-sized value type ([V = ()]), [Node::key_value]
    stores the dangling address 1 as the value word; the tag reads it as
    a branch with the key's address as bitmap and a null base.  The words
    stand for no leaf, and [get] on them returns [None] or dereferences
    null, while the abstract leaf maps the key to its value. *)
Theorem zst_leaf_unreachable (σ : Heap K V) (key : K) (kp : Z) (v : V)
    (s : @HashStream.HashStream H) (fuel : nat) :
  inner (key_value kp ZST_ADDR) = Node.Right (BitMap.mk_bitmap kp, null) /\
  ~ repr σ (key_value kp ZST_ADDR) (Node.key_value key v) /\
  Hamt.get_node key s (Node.key_value key v) = Done (Some v) /\
  (get_repr (S fuel) σ key s (key_value kp ZST_ADDR) = Done None \/
   get_repr (S fuel) σ key s (key_value kp ZST_ADDR) = Fault NullDeref).
Proof.
  assert (Hi : inner (key_value kp ZST_ADDR) = Node.Right (BitMap.mk_bitmap kp, null))
    by (apply inner_key_value_odd; [unfold in_width, ZST_ADDR; lia | reflexivity]).
  split; [done|]. split; [by inversion 1|]. split; [simpl; by rewrite decide_True|].
  cbn [get_repr]. rewrite Hi.
  destruct (BitMap.is_empty _); [by left|]. destruct (draw_total s) as (i & s' & ->). simpl.
  destruct (BitMap.is_set _ i); [right; reflexivity | by left].
Qed.

End Get.

(** ** [impl Drop for Node] on the words *)

Section Drop.
Context {K V : Type}.

(** [unsafe { &*v }] for a value box. *)
Definition deref_val (σ : Heap K V) (vp : Z) : outcome V :=
  match hvals σ !! vp with Some v => Done v | None => Fault UseAfterFree end.

(** [Drop::drop]: a leaf ([get_value] is [Some]) releases its value box
    and its key box, returned as the pair of addresses; a branch runs
    [Box::from_raw(self.base_value.get_base().unwrap())], a [Box<Node>]
    at the base: the node there is dropped, then the allocation is freed
    with the layout of one node, wrong for an array of two or more.  The
    heap could be cyclic, so the recursion takes fuel. *)
Fixpoint drop_repr (fuel : nat) (σ : Heap K V) (r : RNode) : outcome (list (Z * Z)) :=
  match fuel with
  | O => Fault OutOfFuel
  | S fuel' =>
      match get_value (base_value r) with
      | Some vp => Done [(map_key r, vp)]
      | None =>
          let? b := unwrap (get_base (base_value r)) in
          let? rs := deref_array σ b in
          match rs with
          | [] => Fault OutOfBounds
          | c :: rest =>
              let? freed := drop_repr fuel' σ c in
              match rest with
              | [] => Done freed
              | _ :: _ => Fault BadDealloc
              end
          end
      end
  end.

(** The key/value pairs behind the released addresses. *)
Fixpoint deref_pairs (σ : Heap K V) (ps : list (Z * Z)) : outcome (list (K * V)) :=
  match ps with
  | [] => Done []
  | (kp, vp) :: ps' =>
      let? k := deref_key σ kp in
      let? v := deref_val σ vp in
      let? r := deref_pairs σ ps' in
      Done ((k, v) :: r)
  end.

(** C16: the [Drop] impl on the words releases the boxes of exactly the
    entries [Node.drop_node] releases, and faults where it faults (a
    null base, an array freed with a one-node layout), with fuel above
    the depth of the trie: the constructor-level model of [Drop] is
    faithful to the tagged layout. *)
Theorem drop_repr_refines (σ : Heap K V) (r : RNode) (n : Node.Node K V) (fuel : nat) :
  repr σ r n -> (depth n < fuel)%nat ->
  match Node.drop_node n with
  | Done l => exists ps, drop_repr fuel σ r = Done ps /\ deref_pairs σ ps = Done l
  | Fault f => drop_repr fuel σ r = Fault f
  end.
Proof.
  revert r n. induction fuel as [|fuel IH]; intros r n Hr Hd; [lia|]. cbn [drop_repr].
  unfold get_value, get_base.
  destruct Hr as [? k v Hv Hk Hval | ? m Hv Hm Hem Hb | ? m rs cs Hv Hm Hb Hrs HF Hne];
    rewrite Hv; simpl.
  - exists [(map_key r, base_value r)]. split; [done|]. simpl.
    unfold deref_key, deref_val. by rewrite Hk, Hval.
  - rewrite Hb. reflexivity.
  - unfold deref_array. rewrite decide_False, Hrs by done. simpl.
    destruct HF as [|c' c rs' cs' Hc HF']; [done|].
    assert (Hdc : (depth c < fuel)%nat)
      by (pose proof (depth_child c m (c :: cs') ltac:(left)); lia).
    pose proof (IH c' c Hc Hdc) as IHc.
    destruct (Node.drop_node c) as [l|f]; simpl.
    + destruct IHc as (ps & -> & Hps). simpl.
      destruct HF' as [|c'' c2 rs'' cs'' _ _]; [eauto | reflexivity].
    + by rewrite IHc.
Qed.

End Drop.
End NodeRepr.

Local Open Scope Z_scope.
#[local] Existing Instance HashStream.mock_hasher.

(** The refinement at the empty heap: [Node::empty] needs no box. *)
Lemma node_ops_refine_witness :
  NodeRepr.repr (NodeRepr.mk_heap (K := Z) (V := Z) ∅ ∅ ∅) NodeRepr.empty Node.empty.
Proof. apply (NodeRepr.node_ops_refine (NodeRepr.mk_heap ∅ ∅ ∅)). Defined.

(** A branch with bit 1 set over a one-leaf array at address 32, the
    key box at 8 and the value box at 16. *)
Definition example_heap : NodeRepr.Heap Z Z :=
  NodeRepr.mk_heap (<[8 := 5]> ∅) (<[16 := 50]> ∅) (<[32 := [NodeRepr.key_value 8 16]]> ∅).

Definition example_words : NodeRepr.RNode := NodeRepr.mk_rnode 2 (NodeRepr.new_base 32).

Definition example_node : Node.Node Z Z := Node.Branch (BitMap.mk_bitmap 2) [Node.Leaf 5 50].

Lemma example_repr : NodeRepr.repr example_heap example_words example_node.
Proof. apply (NodeRepr.repr_branch _ _ _ [NodeRepr.key_value 8 16]); try done. repeat constructor. Qed.

(** The mock stream draws index 1 first, so [get] finds key 5. *)
Lemma get_repr_refines_witness :
  NodeRepr.repr example_heap example_words example_node /\ (NodeRepr.depth example_node < 2)%nat /\
  Hamt.get_node 5 (HashStream.new (HashStream.mk_mock 0)) example_node =
  let? o := NodeRepr.get_repr 2 example_heap 5 (HashStream.new (HashStream.mk_mock 0)) example_words in
  Done (o ≫= fun vp => NodeRepr.hvals example_heap !! vp).
Proof.
  split; [exact example_repr|]. split; [simpl; lia|].
  apply NodeRepr.get_repr_refines; [exact example_repr | simpl; lia].
Defined.

(** Dropping a branch of one child releases that child's two boxes. *)
Lemma drop_repr_refines_witness :
  NodeRepr.repr example_heap example_words example_node /\ (NodeRepr.depth example_node < 2)%nat /\
  match Node.drop_node example_node with
  | Done l => exists ps, NodeRepr.drop_repr 2 example_heap example_words = Done ps /\
                NodeRepr.deref_pairs example_heap ps = Done l
  | Fault f => NodeRepr.drop_repr 2 example_heap example_words = Fault f
  end.
Proof.
  split; [exact example_repr|]. split; [simpl; lia|].
  apply NodeRepr.drop_repr_refines; [exact example_repr | simpl; lia].
Defined.
