(* ===== verification/NodeDebug.v ===== *)
(** * NodeDebug: the [Debug] impl of node.rs on the words

    [impl<K: fmt::Debug, V> fmt::Debug for Node<K, V>] prints a leaf as
    [{:?}:{:?}] of the key and of the value's raw pointer (its address,
    not the value: [V] has no [Debug] bound), and a branch as its bitmap
    in binary followed by one [  i->child] entry per set bit [i], the
    child being read at [base.offset(ones)] with [ones] counting the set
    bits met so far.  The printer works on the words of NodeRepr.v.

    Rust's integer formatting ([{:b}], [{}], and [{:?}] of a pointer,
    which is [0x] and lower-case hex) is modelled by [fmt_radix]; the
    [Formatter] is a string accumulator whose writes do not fail.

    The theorems: the loop over the 64 bit positions with its running
    [ones] counter prints exactly the pairs (set bit, child at its rank)
    ([fmt_repr_branch]); on words standing for a well-formed node, with
    fuel above the depth, the printer never faults, and on the empty
    branch it never reads the null base ([fmt_repr_total]). *)

From Stdlib Require Ascii.
From stdpp Require Import gmap strings.
From S2P Require Import Prelude BitMap HashStream Node Hamt NodeRepr.

Module NodeDebug.
Import NodeRepr.NodeRepr.
Local Open Scope Z_scope.

(** ** Integer formatting *)

(** The digit [d < 16], lower case as Rust writes hex. *)
Definition digit (d : Z) : Ascii.ascii :=
  Ascii.ascii_of_nat (Z.to_nat (if d <? 10 then 48 + d else 87 + d)).

(** The digits of [x >= 0] in [radix], least significant first; 64 of
    them cover a [usize] in any radix from 2 on. *)
Fixpoint digits_rev (fuel : nat) (radix x : Z) : list Ascii.ascii :=
  match fuel with
  | O => []
  | S f => digit (x mod radix) :: (if x <? radix then [] else digits_rev f radix (x / radix))
  end.

(** [x] in [radix] without leading zeros ([0] prints as [0]). *)
Definition fmt_radix (radix x : Z) : string :=
  String.string_of_list_ascii (rev (digits_rev 64 radix x)).

(** [{:?}] of a raw pointer: [{:#x}]. *)
Definition fmt_pointer (p : Z) : string := "0x" +:+ fmt_radix 16 p.

Definition newline : string := String.String (Ascii.ascii_of_nat 10) "".

(** ** The printer *)

Section Debug.
Context {K V : Type} (debug_key : K -> string).

(** The loop [for i in 0..BITS_IN_POINTER] of the [Right] arm: at a set
    bit [i], [write!(fmt, "  {}->{:?}", i, &*base.offset(ones))] and
    [ones += 1]; [child] prints the node read there. *)
Fixpoint fmt_children (child : RNode -> outcome string) (σ : Heap K V) (map : BitMap.BitMap)
    (base : Z) (ixs : list nat) (ones : nat) : outcome string :=
  match ixs with
  | [] => Done ""
  | i :: ixs' =>
      if BitMap.is_set map i then
        let? rs := deref_array σ base in
        let? s := Hamt.child_at child rs ones in
        let? rest := fmt_children child σ map base ixs' (S ones) in
        Done ("  " +:+ fmt_radix 10 (Z.of_nat i) +:+ "->" +:+ s +:+ rest)
      else fmt_children child σ map base ixs' ones
  end.

(** [<Node as Debug>::fmt]; the recursion through [{:?}] of a child
    follows addresses, so it takes fuel. *)
Fixpoint fmt_repr (fuel : nat) (σ : Heap K V) (r : RNode) : outcome string :=
  match fuel with
  | O => Fault OutOfFuel
  | S fuel' =>
      match inner r with
      | Node.Left (kp, vp) =>
          let? k := deref_key σ kp in
          Done (debug_key k +:+ ":" +:+ fmt_pointer vp +:+ newline)
      | Node.Right (map, base) =>
          let? rest := fmt_children (fmt_repr fuel' σ) σ map base
                         (seq 0 (Z.to_nat HashStream.BITS_IN_POINTER)) 0 in
          Done (fmt_radix 2 (BitMap.get map) +:+ ":" +:+ newline +:+ rest)
      end
  end.

(** The reference: the entries of the (set bit, child) pairs in order. *)
Fixpoint fmt_list (child : RNode -> outcome string) (ps : list (nat * RNode)) : outcome string :=
  match ps with
  | [] => Done ""
  | (i, c) :: ps' =>
      let? s := child c in
      let? rest := fmt_list child ps' in
      Done ("  " +:+ fmt_radix 10 (Z.of_nat i) +:+ "->" +:+ s +:+ rest)
  end.

(** The shape the printer relies on: a branch has one child per set bit. *)
#[warnings="-register-all"]
Inductive counts_ok : Node.Node K V -> Prop :=
| counts_leaf k v : counts_ok (Node.Leaf k v)
| counts_branch m cs :
    length (BitMap.ones m) = length cs -> Forall counts_ok cs -> counts_ok (Node.Branch m cs).

(** ** Lemmas *)

Lemma fmt_children_none child σ m base ixs o :
  (forall i, i ∈ ixs -> BitMap.is_set m i = false) -> fmt_children child σ m base ixs o = Done "".
Proof.
  revert o. induction ixs as [|i ixs IH]; intros o Hn; [done|]. cbn [fmt_children].
  rewrite Hn by (left; done). apply IH. intros j Hj. apply Hn. by right.
Qed.

(** The loop with its running counter reads the children in order. *)
Lemma fmt_children_zip child σ m base rs ixs o :
  deref_array σ base = Done rs ->
  (o + length (filter (fun j => BitMap.is_set m j = true) ixs) <= length rs)%nat ->
  fmt_children child σ m base ixs o =
  fmt_list child (zip (filter (fun j => BitMap.is_set m j = true) ixs) (drop o rs)).
Proof.
  revert o. induction ixs as [|i ixs IH]; intros o Hd Hlen; [done|]. cbn [fmt_children].
  rewrite filter_cons in *. destruct (BitMap.is_set m i) eqn:Hs.
  - rewrite decide_True in * by done. simpl in Hlen. rewrite Hd. simpl.
    destruct (rs !! o) as [c|] eqn:Hc; [|apply lookup_ge_None in Hc; lia].
    rewrite (Hamt.child_at_lookup _ _ _ _ Hc), (drop_S _ _ _ Hc), IH by (done || lia). done.
  - rewrite decide_False in * by done. by apply IH.
Qed.

Lemma ones_filter_is_set m :
  BitMap.ones m = filter (fun j => BitMap.is_set m j = true) (seq 0 (Z.to_nat HashStream.BITS_IN_POINTER)).
Proof.
  unfold BitMap.ones. rewrite BitMap.ones_in_filter. apply list_filter_iff.
  intros j. by rewrite BitMap.is_set_spec.
Qed.

Lemma fmt_list_total child (l : list nat) rs :
  Forall (fun c => exists s, child c = Done s) rs -> exists s, fmt_list child (zip l rs) = Done s.
Proof.
  revert rs. induction l as [|i l IH]; intros [|c rs] Hall; [by eexists.. |].
  apply Forall_cons in Hall as [[s Hs] Hall]. destruct (IH rs Hall) as [t Ht].
  simpl. rewrite Hs, Ht. by eexists.
Qed.

(** C31: the [Right] arm of the printer on the words of a branch: the
    loop over the 64 bit positions, with its running [ones] counter,
    prints the binary bitmap and then exactly the pairs of a set bit and
    the child at its rank, in ascending order; reading the array at
    [base.offset(ones)] never goes past the children. *)
Theorem fmt_repr_branch (σ : Heap K V) (r : RNode) (m : BitMap.BitMap) (base : Z)
    (rs : list RNode) (fuel : nat) :
  inner r = Node.Right (m, base) -> deref_array σ base = Done rs ->
  (length (BitMap.ones m) <= length rs)%nat ->
  fmt_repr (S fuel) σ r =
    let? rest := fmt_list (fmt_repr fuel σ) (zip (BitMap.ones m) rs) in
    Done (fmt_radix 2 (BitMap.get m) +:+ ":" +:+ newline +:+ rest).
Proof.
  intros Hi Hd Hlen. cbn [fmt_repr]. rewrite Hi, fmt_children_zip with (rs := rs) by
    (done || (rewrite <- ones_filter_is_set; lia)).
  by rewrite <- ones_filter_is_set.
Qed.

Lemma fmt_repr_total_aux (σ : Heap K V) (fuel : nat) :
  forall r n, repr σ r n -> counts_ok n -> (depth n < fuel)%nat -> exists s, fmt_repr fuel σ r = Done s.
Proof.
  induction fuel as [|fuel IH]; intros r n Hr Hc Hd; [lia|].
  pose proof (repr_inner σ r n Hr) as Hi. destruct n as [k v | m cs]; simpl in Hi.
  - destruct Hi as (kp & vp & Hi & Hk & _). cbn [fmt_repr]. rewrite Hi.
    unfold deref_key. rewrite Hk. by eexists.
  - inversion Hc as [|? ? Hlen HF]; subst.
    destruct Hi as (b & Hi & [(-> & -> & Hem) | (Hbn & rs & Hrs & HR)]).
    + cbn [fmt_repr]. rewrite Hi, fmt_children_none; [by eexists|].
      intros i _. apply BitMap.is_empty_spec in Hem. by rewrite BitMap.is_set_spec, Hem, Z.testbit_0_l.
    + assert (Hd' : deref_array σ b = Done rs) by (unfold deref_array; by rewrite decide_False, Hrs).
      rewrite (fmt_repr_branch σ r m b rs fuel Hi Hd') by (rewrite (Forall2_length _ _ _ HR); lia).
      destruct (fmt_list_total (fmt_repr fuel σ) (BitMap.ones m) rs) as [t ->]; [|by eexists].
      apply Forall_lookup. intros j r' Hr'.
      destruct (Forall2_lookup_l _ _ _ _ _ HR Hr') as (c & Hc' & Hrc).
      apply (IH r' c Hrc); [by eapply Forall_lookup_1|].
      pose proof (depth_child c m cs ltac:(by eapply list_elem_of_lookup_2)). lia.
Qed.

(** C32: the printer never faults on words that stand for a node with
    one child per set bit, given fuel above the depth: every key box and
    child array it reads is there, and it never reads past an array.  On
    the empty branch it writes [0:] and never reads the null base (which
    [Drop] does). *)
Theorem fmt_repr_total (σ : Heap K V) (r : RNode) (n : Node.Node K V) (fuel : nat) :
  repr σ r n -> counts_ok n -> (depth n < fuel)%nat ->
  (exists s, fmt_repr fuel σ r = Done s) /\
  fmt_repr (S fuel) σ empty = Done ("0" +:+ ":" +:+ newline).
Proof. intros Hr Hc Hd. split; [by apply (fmt_repr_total_aux σ fuel r n)|]. reflexivity. Qed.

End Debug.

(** Every well-formed trie has the shape the printer needs. *)
Section Wf.
Context {K V H St : Type} `{HashStream.Hasher H} `{!Hamt.BuildHasher St H} `{!Hamt.Hash K H}.

Lemma wf_counts_ok (st : St) (d : nat) (n : Node.Node K V) : Hamt.wf_node st d n -> counts_ok n.
Proof.
  revert d. induction n as [k v | m cs IH] using Node.Node_ind'; intros d Hwf; [constructor|].
  inversion Hwf as [|? ? ? _ HF]; subst. constructor; [by apply (Forall2_length _ _ _ HF)|].
  apply Forall_lookup. intros j c Hc.
  destruct (Forall2_lookup_r _ _ _ _ _ HF Hc) as (i & _ & [Hwc _]).
  exact (proj1 (Forall_lookup _ _) IH j c Hc (S d) Hwc).
Qed.
End Wf.

End NodeDebug.

Local Open Scope Z_scope.

(** The example branch of NodeRepr.v (bit 1 set, one leaf with key 5 at
    address 8 and its value box at 16) prints as
    [10:], newline, [  1->5:0x10], newline. *)
Lemma fmt_repr_branch_witness :
  NodeRepr.inner NodeRepr.example_words = Node.Right (BitMap.mk_bitmap 2, 32) /\
  NodeRepr.deref_array NodeRepr.example_heap 32 = Done [NodeRepr.key_value 8 16] /\
  (length (BitMap.ones (BitMap.mk_bitmap 2)) <= length [NodeRepr.key_value 8 16])%nat /\
  NodeDebug.fmt_repr (NodeDebug.fmt_radix 10) 2 NodeRepr.example_heap NodeRepr.example_words =
    let? rest := NodeDebug.fmt_list (NodeDebug.fmt_repr (NodeDebug.fmt_radix 10) 1 NodeRepr.example_heap)
                   (zip (BitMap.ones (BitMap.mk_bitmap 2)) [NodeRepr.key_value 8 16]) in
    Done (NodeDebug.fmt_radix 2 (BitMap.get (BitMap.mk_bitmap 2)) +:+ ":" +:+ NodeDebug.newline +:+ rest).
Proof.
  assert (Hi : NodeRepr.inner NodeRepr.example_words = Node.Right (BitMap.mk_bitmap 2, 32)) by reflexivity.
  assert (Hd : NodeRepr.deref_array NodeRepr.example_heap 32 = Done [NodeRepr.key_value 8 16])
    by reflexivity.
  assert (Hl : (length (BitMap.ones (BitMap.mk_bitmap 2)) <= length [NodeRepr.key_value 8 16])%nat)
    by (vm_compute; lia).
  split; [done|]. split; [done|]. split; [done|].
  exact (NodeDebug.fmt_repr_branch (NodeDebug.fmt_radix 10) _ _ _ _ _ 1 Hi Hd Hl).
Defined.

Lemma fmt_repr_total_witness :
  NodeRepr.repr NodeRepr.example_heap NodeRepr.example_words NodeRepr.example_node /\
  NodeDebug.counts_ok NodeRepr.example_node /\ (NodeRepr.depth NodeRepr.example_node < 2)%nat /\
  (exists s, NodeDebug.fmt_repr (NodeDebug.fmt_radix 10) 2 NodeRepr.example_heap NodeRepr.example_words = Done s) /\
  NodeDebug.fmt_repr (NodeDebug.fmt_radix 10) 3 NodeRepr.example_heap NodeRepr.empty =
    Done ("0" +:+ ":" +:+ NodeDebug.newline).
Proof.
  assert (Hc : NodeDebug.counts_ok NodeRepr.example_node)
    by (constructor; [reflexivity | repeat constructor]).
  assert (Hd : (NodeRepr.depth NodeRepr.example_node < 2)%nat) by (simpl; lia).
  split; [exact NodeRepr.example_repr|]. split; [exact Hc|]. split; [exact Hd|].
  exact (NodeDebug.fmt_repr_total (NodeDebug.fmt_radix 10) _ _ _ 2 NodeRepr.example_repr Hc Hd).
Defined.
