(* ===== verification/WordHeap.v ===== *)
(** * WordHeap: allocation, ownership and the free list on the words

    The words of NodeRepr.v point into a heap of key boxes, value boxes
    and child arrays.  [insert] on the words (WordInsert.v) allocates in
    that heap and recycles child arrays through the free list, so this
    file gives the three pieces it needs:
    - the allocator, an interface ([Alloc] and its laws [AllocLaws]:
      the address is fresh, and on a heap of fewer than 2^62 cells it is
      even, non-null and a [usize]), with the first-fit instance
      [first_fit] showing that the laws can be met;
    - locations ([loc]) and the footprint [fp] of the words of a node:
      the boxes and arrays it owns.  The frame lemma [repr_frame] says
      that words keep standing for their node in any heap that agrees
      on their footprint;
    - the free list of free_list.rs on addresses ([WPool]): 64 stacks of
      buffer addresses, with [singleton], [pair], [push] and
      [free_internal] writing the buffers in the heap.  Uninitialised
      slots of a fresh [Vec::with_capacity] are the placeholder word
      [uninit]; the source overwrites every one of them before reading. *)

From stdpp Require Import gmap.
From S2P Require Import Prelude BitMap HashStream FreeList Node Hamt NodeRepr.

Module WordHeap.
Import NodeRepr.NodeRepr.
Local Open Scope Z_scope.

(** ** The allocator *)

(** [Box::new] and [Vec::with_capacity]: an address for a new cell. *)
Class Alloc := alloc : forall {A : Type}, gmap Z A -> Z.

Definition ALLOC_LIMIT : Z := 2 ^ 62.

Class AllocLaws `{Alloc} : Prop := {
  alloc_fresh {A} (m : gmap Z A) : m !! alloc m = None;
  alloc_base_ok {A} (m : gmap Z A) : Z.of_nat (size m) < ALLOC_LIMIT -> base_ok (alloc m)
}.

(** First fit among the even addresses [2, 4, ..., 2 (n + 1)] of a heap
    of [n] cells: one of these [n + 1] addresses is free. *)
Definition candidates (n : nat) : list Z := (fun i => 2 * Z.of_nat (S i)) <$> seq 0 (S n).

Definition first_fit {A} (m : gmap Z A) : Z :=
  default 0 (head (filter (fun a => m !! a = None) (candidates (size m)))).

#[export] Instance first_fit_alloc : Alloc := @first_fit.

Lemma candidates_NoDup n : NoDup (candidates n).
Proof.
  apply NoDup_fmap_2_strong; [|apply NoDup_seq]. intros i j _ _ Hij. lia.
Qed.

Lemma first_fit_spec {A} (m : gmap Z A) :
  m !! first_fit m = None /\ first_fit m ∈ candidates (size m).
Proof.
  unfold first_fit. destruct (filter _ _) as [|a l] eqn:Hf; simpl.
  - exfalso. assert (Hsub : list_to_set (C := gset Z) (candidates (size m)) ⊆ dom m).
    { intros a Ha%elem_of_list_to_set. apply elem_of_dom.
      destruct (m !! a) eqn:Ha'; [done|].
      assert (a ∈ filter (fun a => m !! a = None) (candidates (size m))) as Hin
        by (apply list_elem_of_filter; done).
      rewrite Hf in Hin. by apply elem_of_nil in Hin. }
    apply subseteq_size in Hsub. rewrite size_list_to_set in Hsub by apply candidates_NoDup.
    rewrite size_dom in Hsub. unfold candidates in Hsub. rewrite length_fmap, length_seq in Hsub.
    lia.
  - assert (Ha : a ∈ filter (fun a => m !! a = None) (candidates (size m))) by (rewrite Hf; left).
    by apply list_elem_of_filter in Ha.
Qed.

#[export] Instance first_fit_laws : AllocLaws (H := first_fit_alloc).
Proof.
  split; intros A m; [apply (first_fit_spec m)|]. intros Hs.
  destruct (first_fit_spec m) as [_ Hc]. unfold alloc, first_fit_alloc.
  unfold candidates in Hc. apply list_elem_of_fmap in Hc as (i & -> & Hi%elem_of_seq).
  unfold base_ok, in_width, ALLOC_LIMIT, null in *. split; [lia|]. split; [|lia].
  apply Z.even_spec. exists (Z.of_nat (S i)). lia.
Qed.

(** ** Locations and footprints *)

(** A cell of the heap: a key box, a value box or a child array. *)
Inductive loc := LKey (a : Z) | LVal (a : Z) | LArr (a : Z).

#[export] Instance loc_eq_dec : EqDecision loc.
Proof. solve_decision. Defined.

Section Footprint.
Context {K V : Type}.

(** The cell is allocated. *)
Definition loc_alloc (σ : Heap K V) (l : loc) : Prop :=
  match l with
  | LKey a => is_Some (hkeys σ !! a)
  | LVal a => is_Some (hvals σ !! a)
  | LArr a => is_Some (harrays σ !! a)
  end.

#[export] Instance loc_alloc_dec (σ : Heap K V) l : Decision (loc_alloc σ l).
Proof. destruct l; simpl; apply _. Defined.

(** The two heaps hold the same at the cell. *)
Definition loc_same (σ σ' : Heap K V) (l : loc) : Prop :=
  match l with
  | LKey a => hkeys σ !! a = hkeys σ' !! a
  | LVal a => hvals σ !! a = hvals σ' !! a
  | LArr a => harrays σ !! a = harrays σ' !! a
  end.

Fixpoint zip_fp (f : RNode -> Node.Node K V -> list loc) (rs : list RNode)
    (cs : list (Node.Node K V)) {struct cs} : list loc :=
  match rs, cs with
  | r :: rs', c :: cs' => f r c ++ zip_fp f rs' cs'
  | _, _ => []
  end.

(** The cells the words [r] of node [n] own: a leaf its two boxes, a
    branch with children its child array and what the children own. *)
Fixpoint fp (σ : Heap K V) (r : RNode) (n : Node.Node K V) {struct n} : list loc :=
  match n with
  | Node.Leaf _ _ => [LKey (map_key r); LVal (base_value r)]
  | Node.Branch _ cs =>
      match cs with
      | [] => []
      | _ :: _ =>
          let b := Z.land (base_value r) NOT_ONE in
          LArr b :: zip_fp (fp σ) (default [] (harrays σ !! b)) cs
      end
  end.

Lemma fp_branch σ r m cs :
  fp σ r (Node.Branch m cs) =
  match cs with
  | [] => []
  | _ :: _ => LArr (Z.land (base_value r) NOT_ONE) ::
              zip_fp (fp σ) (default [] (harrays σ !! Z.land (base_value r) NOT_ONE)) cs
  end.
Proof. by destruct cs. Qed.

Lemma zip_fp_ext f g rs cs :
  Forall2 (fun r c => f r c = g r c) rs cs -> zip_fp f rs cs = zip_fp g rs cs.
Proof. induction 1 as [|r c rs cs Hrc _ IH]; simpl; [done|]. by rewrite Hrc, IH. Qed.

(** The cells a node's words own are allocated. *)
Lemma fp_alloc σ r n : repr σ r n -> forall l, l ∈ fp σ r n -> loc_alloc σ l.
Proof.
  revert r. induction n as [k v | m cs IH] using Node.Node_ind'; intros r Hr l Hl.
  - inversion Hr as [? ? ? _ Hk Hv| |]; subst.
    apply elem_of_cons in Hl as [->|Hl]; [simpl; by rewrite Hk|].
    apply elem_of_cons in Hl as [->|Hl]; [simpl; by rewrite Hv | by apply elem_of_nil in Hl].
  - inversion Hr as [|? ? _ _ _ _ | ? ? rs ? _ _ _ Hrs HF _]; subst; [simpl in Hl; by apply elem_of_nil in Hl|].
    rewrite fp_branch, Hrs in Hl. destruct cs as [|c0 cs0]; [by apply elem_of_nil in Hl|]. simpl default in Hl.
    apply elem_of_cons in Hl as [->|Hl]; [simpl; by rewrite Hrs|].
    clear Hrs Hr. remember (c0 :: cs0) as cs eqn:E. clear E.
    induction HF as [|r' c rs' cs' Hrc _ IHF]; simpl in Hl; [by apply elem_of_nil in Hl|].
    apply Forall_cons in IH as [IHc IH].
    apply elem_of_app in Hl as [Hl|Hl]; [by apply (IHc r')| by apply IHF].
Qed.

Lemma zip_fp_alloc σ rs cs : Forall2 (repr σ) rs cs -> forall l, l ∈ zip_fp (fp σ) rs cs -> loc_alloc σ l.
Proof.
  induction 1 as [|r c rs cs Hrc _ IH]; intros l Hl; simpl in Hl; [by apply elem_of_nil in Hl|].
  apply elem_of_app in Hl as [Hl|Hl]; [by apply (fp_alloc σ r c) | by apply IH].
Qed.

(** Frame: words keep standing for their node, with the same footprint,
    in any heap that agrees on that footprint. *)
Lemma repr_frame σ σ' r n :
  repr σ r n -> (forall l, l ∈ fp σ r n -> loc_same σ σ' l) ->
  repr σ' r n /\ fp σ' r n = fp σ r n.
Proof.
  revert r. induction n as [k v | m cs IH] using Node.Node_ind'; intros r Hr Hs.
  - inversion Hr as [? ? ? Hv Hk Hval| |]; subst. split; [|done].
    apply repr_leaf; [done | rewrite <- Hk | rewrite <- Hval]; symmetry;
      [apply (Hs (LKey _)) | apply (Hs (LVal _))]; set_solver.
  - inversion Hr as [|? ? Hv Hm Hem Hb | ? ? rs ? Hv Hm Hb Hrs HF Hne]; subst;
      [split; [by apply repr_nil | done]|].
    rewrite fp_branch in Hs |- *. destruct cs as [|c0 cs0]; [done|].
    assert (Hrs' : harrays σ' !! Z.land (base_value r) NOT_ONE = Some rs)
      by (rewrite <- Hrs; symmetry; apply (Hs (LArr _)); set_solver).
    rewrite Hrs in Hs. rewrite Hrs'. simpl default in *.
    assert (Hall : Forall2 (repr σ') rs (c0 :: cs0) /\
                   Forall2 (fun r c => fp σ' r c = fp σ r c) rs (c0 :: cs0)).
    { clear Hr Hrs Hrs' Hne Hv Hb. remember (c0 :: cs0) as cs eqn:E. clear E.
      assert (Hs' : forall l, l ∈ zip_fp (fp σ) rs cs -> loc_same σ σ' l) by (intros; apply Hs; set_solver).
      clear Hs. induction HF as [|r' c rs' cs' Hrc _ IHF]; [done|].
      apply Forall_cons in IH as [IHc IH]. simpl in Hs'.
      destruct (IHc r' Hrc) as [Hr' Hf]; [intros; apply Hs'; set_solver|].
      destruct IHF as [H1 H2]; [done | intros; apply Hs'; set_solver|].
      split; constructor; done. }
    destruct Hall as [HF' Hfp]. split; [by eapply repr_branch|].
    rewrite fp_branch, Hrs. cbn [default]. f_equal. by apply zip_fp_ext.
Qed.

(** The same for the children of a branch. *)
Lemma zip_frame σ σ' rs cs :
  Forall2 (repr σ) rs cs -> (forall l, l ∈ zip_fp (fp σ) rs cs -> loc_same σ σ' l) ->
  Forall2 (repr σ') rs cs /\ zip_fp (fp σ') rs cs = zip_fp (fp σ) rs cs.
Proof.
  induction 1 as [|r c rs cs Hrc _ IH]; intros Hs; [done|]. simpl in Hs.
  destruct (repr_frame σ σ' r c Hrc) as [Hr' Hf]; [intros; apply Hs; set_solver|].
  destruct IH as [HF Hz]; [intros; apply Hs; set_solver|].
  split; [by constructor | simpl; by rewrite Hf, Hz].
Qed.

Lemma zip_fp_app f rs1 rs2 cs1 cs2 :
  length rs1 = length cs1 -> zip_fp f (rs1 ++ rs2) (cs1 ++ cs2) = zip_fp f rs1 cs1 ++ zip_fp f rs2 cs2.
Proof.
  revert cs1. induction rs1 as [|r rs1 IH]; intros [|c cs1] Hl; try discriminate; [done|].
  simpl. rewrite IH by (simpl in Hl; lia). by rewrite app_assoc.
Qed.

(** What the children but the [i]th own. *)
Definition siblings (f : RNode -> Node.Node K V -> list loc) (rs : list RNode)
    (cs : list (Node.Node K V)) (i : nat) : list loc :=
  zip_fp f (take i rs) (take i cs) ++ zip_fp f (drop (S i) rs) (drop (S i) cs).

Lemma zip_fp_split f rs cs i rc c :
  length rs = length cs -> rs !! i = Some rc -> cs !! i = Some c ->
  zip_fp f rs cs ≡ₚ f rc c ++ siblings f rs cs i.
Proof.
  intros Hl Hr Hc. rewrite <- (take_drop_middle rs i rc Hr), <- (take_drop_middle cs i c Hc) at 1.
  assert (i < length rs)%nat by (by apply lookup_lt_Some in Hr).
  rewrite zip_fp_app by (rewrite !length_take; lia). simpl. unfold siblings.
  apply Permutation_app_swap_app.
Qed.

(** Replacing the [i]th child: the others keep standing for their nodes
    in a heap that agrees on what they own. *)
Lemma zip_frame_insert σ σ' rs cs i rc c r' c' :
  Forall2 (repr σ) rs cs -> rs !! i = Some rc -> cs !! i = Some c -> repr σ' r' c' ->
  (forall l, l ∈ siblings (fp σ) rs cs i -> loc_same σ σ' l) ->
  Forall2 (repr σ') (<[i := r']> rs) (<[i := c']> cs) /\
  zip_fp (fp σ') (<[i := r']> rs) (<[i := c']> cs) ≡ₚ fp σ' r' c' ++ siblings (fp σ) rs cs i.
Proof.
  intros HF Hr Hc Hr' Hs. pose proof (Forall2_length _ _ _ HF) as Hl.
  assert (Hi : (i < length rs)%nat) by (by apply lookup_lt_Some in Hr).
  rewrite (insert_take_drop rs), (insert_take_drop cs) by lia.
  rewrite <- (take_drop_middle rs i rc Hr), <- (take_drop_middle cs i c Hc) in HF.
  apply Forall2_app_inv in HF as [HF1 HF2]; [|rewrite !length_take; lia].
  apply Forall2_cons_1 in HF2 as [_ HF2].
  unfold siblings in Hs.
  destruct (zip_frame σ σ' _ _ HF1) as [HF1' Hz1]; [intros; apply Hs; set_solver|].
  destruct (zip_frame σ σ' _ _ HF2) as [HF2' Hz2]; [intros; apply Hs; set_solver|].
  split; [apply Forall2_app; [done | by constructor]|].
  rewrite zip_fp_app by (rewrite !length_take; lia). simpl. rewrite Hz1, Hz2. unfold siblings.
  apply Permutation_app_swap_app.
Qed.

Lemma zip_fp_insert_at f n x y rs cs :
  length rs = length cs -> (n <= length rs)%nat ->
  zip_fp f (insert_at n x rs) (insert_at n y cs) ≡ₚ f x y ++ zip_fp f rs cs.
Proof.
  intros Hl Hn. unfold insert_at.
  rewrite zip_fp_app by (rewrite !length_take; lia). simpl.
  assert (E : zip_fp f rs cs = zip_fp f (take n rs) (take n cs) ++ zip_fp f (drop n rs) (drop n cs))
    by (rewrite <- zip_fp_app, !take_drop; [done | rewrite !length_take; lia]).
  rewrite E. apply Permutation_app_swap_app.
Qed.

End Footprint.

(** A non-null base read off a branch's words is an address the layout
    can tag again. *)
Lemma base_ok_untag x : Z.land x NOT_ONE <> null -> base_ok (Z.land x NOT_ONE).
Proof.
  intros Hn. assert (H0 : 0 <= Z.land x NOT_ONE) by (apply Z.land_nonneg; right; compute; discriminate).
  split; [split; [done|]|split; [|done]].
  - apply bound_of_testbit; [done | lia|]. intros t Ht.
    rewrite Z.land_spec, testbit_NOT_ONE by lia. destruct (Z.ltb_spec t 64); [lia|]. by rewrite andb_false_r.
  - rewrite <- Z.negb_odd, <- Z.bit0_odd, Z.land_spec, testbit_NOT_ONE by lia. by rewrite andb_false_r.
Qed.

(** ** The free list on addresses *)

(** [FreeList<Node<K, V>>]: for each length [i + 1], a stack of the
    addresses of free buffers of that length. *)
Abbreviation WPool := (list (list Z)).

(** [FreeList::new]: [array![Link::Nil; BITS_IN_POINTER]]. *)
Definition wpool_new : WPool := replicate 64 [].

Definition pool_locs (pl : WPool) : list loc := LArr <$> concat pl.

(** The slot value of a fresh [Vec::with_capacity] after [set_len]:
    never read before it is written. *)
Definition uninit : RNode := mk_rnode 0 0.

Section Pool.
Context {K V : Type} `{Alloc}.

Definition set_array (σ : Heap K V) (a : Z) (arr : list RNode) : Heap K V :=
  mk_heap (hkeys σ) (hvals σ) (<[a := arr]> (harrays σ)).

Definition read_array (σ : Heap K V) (a : Z) : outcome (list RNode) :=
  match harrays σ !! a with Some arr => Done arr | None => Fault UseAfterFree end.

(** [ptr::write(res.as_mut_ptr().offset(i), x)] *)
Definition write_slot (σ : Heap K V) (a : Z) (i : nat) (x : RNode) : outcome (Heap K V) :=
  let? arr := read_array σ a in
  if decide (i < length arr)%nat then Done (set_array σ a (<[i := x]> arr)) else Fault OutOfBounds.

(** A new array with the given slots. *)
Definition alloc_array (σ : Heap K V) (arr : list RNode) : Heap K V * Z :=
  let a := alloc (harrays σ) in (set_array σ a arr, a).

(** [mem::replace(&mut self.0[c], Nil)], and on [Cons(c, n)]
    [self.0[c] = *n]; the index panics past the 64 classes. *)
Definition pop_class (pl : WPool) (c : nat) : outcome (option Z * WPool) :=
  match pl !! c with
  | None => Fault Panic
  | Some [] => Done (None, pl)
  | Some (a :: n) => Done (Some a, <[c := n]> pl)
  end.

(** [FreeList::singleton] *)
Definition wsingleton (pl : WPool) (σ : Heap K V) (uno : RNode) : outcome (WPool * Heap K V * Z) :=
  let? (top, pl) := pop_class pl 0 in
  match top with
  | Some c => let? σ := write_slot σ c 0 uno in Done (pl, σ, c)
  | None => let (σ, a) := alloc_array σ [uno] in Done (pl, σ, a)
  end.

(** [FreeList::pair] *)
Definition wpair (pl : WPool) (σ : Heap K V) (fst snd : RNode) : outcome (WPool * Heap K V * Z) :=
  let? (top, pl) := pop_class pl 1 in
  match top with
  | Some c =>
      let? σ := write_slot σ c 0 fst in
      let? σ := write_slot σ c 1 snd in
      Done (pl, σ, c)
  | None => let (σ, a) := alloc_array σ [fst; snd] in Done (pl, σ, a)
  end.

(** [FreeList::free_internal] *)
Definition wfree_internal (pl : WPool) (b : Z) (len : nat) : outcome WPool :=
  if decide (len = 0)%nat then Fault Panic
  else match pl !! (len - 1)%nat with
       | None => Fault Panic
       | Some old => Done (<[(len - 1)%nat := b :: old]> pl)
       end.

(** [ptr::copy_nonoverlapping(src, dst, len)] *)
Definition copy_prefix (src dst : list RNode) (len : nat) : outcome (list RNode) :=
  if decide (len <= length src /\ len <= length dst)%nat then Done (take len src ++ drop len dst)
  else Fault OutOfBounds.

(** [FreeList::push], the slice being the array of [len] nodes at [base]. *)
Definition wpush (pl : WPool) (σ : Heap K V) (base : Z) (len : nat) (new : RNode)
    : outcome (WPool * Heap K V * Z) :=
  if decide (len = 0)%nat then Fault Panic
  else
    let? (top, pl) := pop_class pl len in
    let? (σ, res) := match top with
                     | Some c => Done (σ, c)
                     | None => Done (alloc_array σ (replicate (S len) uninit))
                     end in
    let? src := read_array σ base in
    let? dst := read_array σ res in
    let? dst := copy_prefix src dst len in
    let σ := set_array σ res dst in
    let? pl := wfree_internal pl base len in
    let? σ := write_slot σ res len new in
    Done (pl, σ, res).

(** Every pooled buffer of class [i] is an allocated array of [i + 1]
    slots at a taggable address. *)
Definition wpool_inv (σ : Heap K V) (pl : WPool) : Prop :=
  length pl = 64%nat /\
  forall i st a, pl !! i = Some st -> a ∈ st ->
    base_ok a /\ exists arr, harrays σ !! a = Some arr /\ length arr = S i.

(** [FreeList::new] holds no buffer. *)
Lemma wpool_new_inv σ : wpool_inv σ wpool_new.
Proof.
  split; [done|]. intros i st a (-> & _)%lookup_replicate Ha. by apply elem_of_nil in Ha.
Qed.

(** ** Lemmas on the heap operations *)

Lemma set_array_same σ a arr l : l <> LArr a -> loc_same σ (set_array σ a arr) l.
Proof. intros Hl. destruct l as [b|b|b]; simpl; [done | done |]. rewrite lookup_insert_ne; congruence. Qed.

Lemma set_array_lookup σ a arr : harrays (set_array σ a arr) !! a = Some arr.
Proof. apply lookup_insert_eq. Qed.

Lemma size_set_array σ a arr :
  (size (harrays (set_array σ a arr)) <= S (size (harrays σ)))%nat.
Proof. simpl. rewrite map_size_insert. case_match; simpl; lia. Qed.

Lemma size_set_array_alloc σ a arr :
  is_Some (harrays σ !! a) -> size (harrays (set_array σ a arr)) = size (harrays σ).
Proof. apply map_size_insert_Some. Qed.

Lemma alloc_array_spec `{!AllocLaws} σ arr :
  let '(σ', a) := alloc_array σ arr in
  harrays σ' !! a = Some arr /\ ~ loc_alloc σ (LArr a) /\
  (forall l, l <> LArr a -> loc_same σ σ' l) /\
  (Z.of_nat (size (harrays σ)) < ALLOC_LIMIT -> base_ok a) /\
  hkeys σ' = hkeys σ /\ hvals σ' = hvals σ /\ (size (harrays σ') <= S (size (harrays σ)))%nat.
Proof.
  unfold alloc_array. split; [apply set_array_lookup|]. split.
  { simpl. rewrite alloc_fresh. by intros []. }
  split; [intros; by apply set_array_same|]. split; [apply alloc_base_ok|].
  split; [done|]. split; [done|]. apply size_set_array.
Qed.

Lemma write_slot_spec σ a i x arr :
  harrays σ !! a = Some arr -> (i < length arr)%nat ->
  write_slot σ a i x = Done (set_array σ a (<[i := x]> arr)).
Proof. intros Ha Hi. unfold write_slot, read_array. rewrite Ha. simpl. by rewrite decide_True. Qed.

Lemma pool_locs_pop pl c a n :
  pl !! c = Some (a :: n) -> pool_locs pl ≡ₚ LArr a :: pool_locs (<[c := n]> pl).
Proof.
  intros Hc. unfold pool_locs.
  rewrite <- (take_drop_middle pl c _ Hc) at 1.
  rewrite insert_take_drop by (by apply lookup_lt_Some in Hc).
  rewrite !concat_app, !fmap_app. simpl. rewrite !fmap_app. simpl. solve_Permutation.
Qed.

Lemma pool_locs_push pl c old b :
  pl !! c = Some old -> pool_locs (<[c := b :: old]> pl) ≡ₚ LArr b :: pool_locs pl.
Proof.
  intros Hc. unfold pool_locs.
  rewrite <- (take_drop_middle pl c _ Hc) at 2.
  rewrite insert_take_drop by (by apply lookup_lt_Some in Hc).
  rewrite !concat_app, !fmap_app. simpl. rewrite !fmap_app. simpl. solve_Permutation.
Qed.

Lemma elem_of_pool_locs pl l :
  l ∈ pool_locs pl -> exists i st a, pl !! i = Some st /\ a ∈ st /\ l = LArr a.
Proof.
  unfold pool_locs. intros (a & -> & Ha)%list_elem_of_fmap.
  apply list_elem_of_In, in_concat in Ha as (st & Hst & Ha).
  apply list_elem_of_In, list_elem_of_lookup_1 in Hst as [i Hi].
  exists i, st, a. split; [done|]. split; [by apply list_elem_of_In | done].
Qed.

Lemma elem_of_pool_locs_2 pl i st a : pl !! i = Some st -> a ∈ st -> LArr a ∈ pool_locs pl.
Proof.
  intros Hi Ha. unfold pool_locs. apply list_elem_of_fmap_2, list_elem_of_In, in_concat.
  exists st. split; apply list_elem_of_In; [by eapply list_elem_of_lookup_2 | done].
Qed.

(** Pooled buffers are allocated. *)
Lemma pool_locs_alloc σ pl l : wpool_inv σ pl -> l ∈ pool_locs pl -> loc_alloc σ l.
Proof.
  intros [_ Hinv] (i & st & a & Hi & Ha & ->)%elem_of_pool_locs.
  destruct (Hinv i st a Hi Ha) as (_ & arr & Harr & _). simpl. by rewrite Harr.
Qed.

(** The invariant only looks at the pooled buffers. *)
Lemma wpool_inv_frame σ σ' pl :
  wpool_inv σ pl -> (forall l, l ∈ pool_locs pl -> loc_same σ σ' l) -> wpool_inv σ' pl.
Proof.
  intros [Hlen Hinv] Hs. split; [done|]. intros i st a Hi Ha.
  destruct (Hinv i st a Hi Ha) as (Hb & arr & Harr & Hl). split; [done|].
  exists arr. split; [|done]. rewrite <- Harr. symmetry.
  apply (Hs (LArr a)). by eapply elem_of_pool_locs_2.
Qed.

Lemma wpool_inv_pop σ pl c a n :
  wpool_inv σ pl -> pl !! c = Some (a :: n) ->
  wpool_inv σ (<[c := n]> pl) /\ base_ok a /\ exists arr, harrays σ !! a = Some arr /\ length arr = S c.
Proof.
  intros [Hlen Hinv] Hc. split; [split|].
  - by rewrite length_insert.
  - intros i st b Hi Hb. destruct (decide (i = c)) as [->|Hne].
    + rewrite list_lookup_insert_eq in Hi by (by apply lookup_lt_Some in Hc). injection Hi as <-.
      apply (Hinv c (a :: n)); [done | by right].
    + rewrite list_lookup_insert_ne in Hi by done. by apply (Hinv i st).
  - apply (Hinv c (a :: n)); [done | left].
Qed.

(** [free_internal] pools a buffer of [len] slots in class [len - 1]. *)
Lemma wfree_internal_spec σ pl b arr :
  wpool_inv σ pl -> base_ok b -> harrays σ !! b = Some arr -> (0 < length arr <= 64)%nat ->
  exists pl', wfree_internal pl b (length arr) = Done pl' /\ wpool_inv σ pl' /\
    pool_locs pl' ≡ₚ LArr b :: pool_locs pl.
Proof.
  intros [Hlen Hinv] Hb Harr Hl. unfold wfree_internal. rewrite decide_False by lia.
  destruct (pl !! (length arr - 1)%nat) as [old|] eqn:Hc; [|apply lookup_ge_None in Hc; lia].
  eexists. split; [done|]. split; [split|by apply pool_locs_push].
  - by rewrite length_insert.
  - intros i st a Hi Ha. destruct (decide (i = length arr - 1)%nat) as [->|Hne].
    + rewrite list_lookup_insert_eq in Hi by lia. injection Hi as <-.
      apply elem_of_cons in Ha as [->|Ha]; [|by apply (Hinv _ old)].
      split; [done|]. exists arr. split; [done | lia].
    + rewrite list_lookup_insert_ne in Hi by done. by apply (Hinv i st).
Qed.

(** What an allocation through the pool did: the buffer [a] was popped
    from the pool, or it is a fresh array. *)
Definition took (σ : Heap K V) (P P' : list loc) (a : Z) : Prop :=
  (P ≡ₚ LArr a :: P') \/ (P' = P /\ ~ loc_alloc σ (LArr a)).

(** What the pool operations leave unchanged: every cell but [a]'s array,
    the boxes, and the heap size up to one new array. *)
Definition heap_step (σ σ' : Heap K V) (a : Z) : Prop :=
  (forall l, l <> LArr a -> loc_same σ σ' l) /\ hkeys σ' = hkeys σ /\ hvals σ' = hvals σ /\
  (size (harrays σ') <= S (size (harrays σ)))%nat.

Lemma heap_step_set σ a arr : heap_step σ (set_array σ a arr) a.
Proof.
  split; [intros; by apply set_array_same|]. split; [done|]. split; [done|]. apply size_set_array.
Qed.

Lemma set_array_set_array σ a x y : set_array (set_array σ a x) a y = set_array σ a y.
Proof. unfold set_array. simpl. by rewrite insert_insert_eq. Qed.

Lemma insert_last {A} (l d : list A) (y : A) : length d = 1%nat -> <[length l := y]> (l ++ d) = l ++ [y].
Proof.
  intros Hd. destruct d as [|x [|]]; try discriminate.
  rewrite <- (Nat.add_0_r (length l)), insert_app_r. done.
Qed.

(** The pool invariant survives a write to a buffer it does not hold. *)
Lemma wpool_inv_set σ pl a arr :
  wpool_inv σ pl -> LArr a ∉ pool_locs pl -> wpool_inv (set_array σ a arr) pl.
Proof.
  intros Hinv Ha. apply (wpool_inv_frame σ); [done|]. intros l Hl. apply set_array_same. congruence.
Qed.

Lemma pop_class_lookup (σ : Heap K V) pl c :
  wpool_inv σ pl -> (c < 64)%nat -> exists st, pl !! c = Some st.
Proof. intros [Hlen _] Hc. apply lookup_lt_is_Some_2. lia. Qed.

(** [FreeList::singleton] returns a buffer holding exactly [uno]. *)
Lemma wsingleton_ok `{!AllocLaws} σ pl uno :
  wpool_inv σ pl -> NoDup (pool_locs pl) -> Z.of_nat (size (harrays σ)) < ALLOC_LIMIT ->
  exists pl' σ' a, wsingleton pl σ uno = Done (pl', σ', a) /\
    harrays σ' !! a = Some [uno] /\ base_ok a /\ took σ (pool_locs pl) (pool_locs pl') a /\ heap_step σ σ' a /\
    wpool_inv σ' pl'.
Proof.
  intros Hinv Hnd Hsz. destruct (pop_class_lookup σ pl 0 Hinv ltac:(lia)) as [[|c n] Hc];
    unfold wsingleton, pop_class; rewrite Hc; cbn [obind].
  - pose proof (alloc_array_spec σ [uno]) as Hspec. destruct (alloc_array σ [uno]) as [σ' a].
    destruct Hspec as (Ha & Hfresh & Hs & Hb & Hk & Hv & Hsize).
    exists pl, σ', a. split; [done|]. split; [done|]. split; [by apply Hb|].
    split; [right; done|]. split; [done|].
    apply (wpool_inv_frame σ); [done|]. intros l Hl. apply Hs. intros ->.
    by apply Hfresh, (pool_locs_alloc σ pl).
  - destruct (wpool_inv_pop σ pl 0 c n Hinv Hc) as (Hinv' & Hb & arr & Harr & Hlen).
    pose proof (pool_locs_pop pl 0 c n Hc) as Hperm.
    assert (Hc' : LArr c ∉ pool_locs (<[0%nat := n]> pl))
      by (rewrite Hperm in Hnd; by apply NoDup_cons in Hnd as [? _]).
    rewrite (write_slot_spec σ c 0 uno arr Harr) by lia. simpl.
    eexists _, _, c. split; [done|].
    destruct arr as [|x [|]]; try discriminate. split; [apply set_array_lookup|].
    split; [done|]. split; [by left|]. split; [apply heap_step_set|]. by apply wpool_inv_set.
Qed.

(** [FreeList::pair] returns a buffer holding exactly [fst; snd]. *)
Lemma wpair_ok `{!AllocLaws} σ pl x y :
  wpool_inv σ pl -> NoDup (pool_locs pl) -> Z.of_nat (size (harrays σ)) < ALLOC_LIMIT ->
  exists pl' σ' a, wpair pl σ x y = Done (pl', σ', a) /\
    harrays σ' !! a = Some [x; y] /\ base_ok a /\ took σ (pool_locs pl) (pool_locs pl') a /\ heap_step σ σ' a /\
    wpool_inv σ' pl'.
Proof.
  intros Hinv Hnd Hsz. destruct (pop_class_lookup σ pl 1 Hinv ltac:(lia)) as [[|c n] Hc];
    unfold wpair, pop_class; rewrite Hc; cbn [obind].
  - pose proof (alloc_array_spec σ [x; y]) as Hspec. destruct (alloc_array σ [x; y]) as [σ' a].
    destruct Hspec as (Ha & Hfresh & Hs & Hb & Hk & Hv & Hsize).
    exists pl, σ', a. split; [done|]. split; [done|]. split; [by apply Hb|].
    split; [right; done|]. split; [done|].
    apply (wpool_inv_frame σ); [done|]. intros l Hl. apply Hs. intros ->.
    by apply Hfresh, (pool_locs_alloc σ pl).
  - destruct (wpool_inv_pop σ pl 1 c n Hinv Hc) as (Hinv' & Hb & arr & Harr & Hlen).
    pose proof (pool_locs_pop pl 1 c n Hc) as Hperm.
    assert (Hc' : LArr c ∉ pool_locs (<[1%nat := n]> pl))
      by (rewrite Hperm in Hnd; by apply NoDup_cons in Hnd as [? _]).
    rewrite (write_slot_spec σ c 0 x arr Harr) by lia. simpl.
    rewrite (write_slot_spec _ c 1 y (<[0%nat := x]> arr))
      by (apply set_array_lookup || (rewrite length_insert; lia)).
    simpl. rewrite set_array_set_array.
    eexists _, _, c. split; [done|].
    destruct arr as [|? [|? [|]]]; try discriminate. split; [apply set_array_lookup|].
    split; [done|]. split; [by left|]. split; [apply heap_step_set|]. by apply wpool_inv_set.
Qed.

(** [FreeList::push] returns a buffer holding the slice and then [new],
    and pools the slice's own buffer in its class. *)
Lemma wpush_ok `{!AllocLaws} σ pl base src new :
  wpool_inv σ pl -> NoDup (pool_locs pl) -> LArr base ∉ pool_locs pl -> base_ok base ->
  harrays σ !! base = Some src -> (0 < length src < 64)%nat ->
  Z.of_nat (size (harrays σ)) < ALLOC_LIMIT ->
  exists pl' σ' a, wpush pl σ base (length src) new = Done (pl', σ', a) /\
    harrays σ' !! a = Some (src ++ [new]) /\ base_ok a /\ a <> base /\
    (exists Q, took σ (pool_locs pl) Q a /\ pool_locs pl' ≡ₚ LArr base :: Q) /\
    heap_step σ σ' a /\ wpool_inv σ' pl'.
Proof.
  intros Hinv Hnd Hbase Hbok Hsrc Hlen Hsz. unfold wpush. rewrite decide_False by lia.
  destruct (pop_class_lookup σ pl (length src) Hinv ltac:(lia)) as [[|c n] Hc];
    unfold pop_class; rewrite Hc; cbn [obind].
  - pose proof (alloc_array_spec σ (replicate (S (length src)) uninit)) as Hspec.
    destruct (alloc_array σ _) as [σ1 a]. cbn [obind].
    destruct Hspec as (Ha & Hfresh & Hs & Hb & Hk & Hv & Hsize).
    assert (Hab : a <> base) by (intros ->; apply Hfresh; simpl; by rewrite Hsrc).
    assert (Hsrc1 : harrays σ1 !! base = Some src)
      by (rewrite <- Hsrc; symmetry; apply (Hs (LArr base)); congruence).
    unfold read_array. rewrite Hsrc1, Ha. cbn [obind]. unfold copy_prefix.
    rewrite decide_True by (rewrite length_replicate; lia). cbn [obind].
    rewrite take_ge, drop_replicate, Nat.sub_succ_l, Nat.sub_diag by lia. simpl replicate.
    assert (Hinv1 : wpool_inv (set_array σ1 a (src ++ [uninit])) pl).
    { apply wpool_inv_set; [|intros Hp; by apply Hfresh, (pool_locs_alloc σ pl)].
      apply (wpool_inv_frame σ); [done|]. intros l Hl. apply Hs. intros ->.
      by apply Hfresh, (pool_locs_alloc σ pl). }
    destruct (wfree_internal_spec _ pl base src Hinv1 Hbok) as (pl' & Hfree & Hinv' & Hperm');
      [rewrite <- Hsrc1; symmetry; apply (set_array_same _ _ _ (LArr base)); congruence | lia |].
    rewrite Hfree. cbn [obind].
    rewrite (write_slot_spec _ a (length src) new (src ++ [uninit]))
      by (apply set_array_lookup || (rewrite length_app; simpl; lia)).
    cbn [obind]. rewrite set_array_set_array, insert_last by done.
    eexists _, _, a. split; [done|]. split; [apply set_array_lookup|]. split; [by apply Hb|].
    split; [done|]. split; [exists (pool_locs pl); split; [by right | done]|].
    split.
    + destruct (heap_step_set σ1 a (src ++ [new])) as (F & K1 & V1 & S1).
      split; [intros l Hl; specialize (F l Hl); specialize (Hs l Hl); destruct l; simpl in *; congruence|].
      split; [simpl; congruence|]. split; [simpl; congruence|].
      rewrite size_set_array_alloc in S1 |- * by (rewrite Ha; eauto). simpl. lia.
    + rewrite <- (set_array_set_array σ1 a (src ++ [uninit])).
      apply (wpool_inv_frame _ _ _ Hinv'). intros l Hl. apply set_array_same. intros ->.
      rewrite Hperm' in Hl. apply elem_of_cons in Hl as [[=]|Hl]; [done|].
      by apply Hfresh, (pool_locs_alloc σ pl).
  - destruct (wpool_inv_pop σ pl _ c n Hinv Hc) as (Hinv' & Hb & arr & Harr & Harrlen).
    pose proof (pool_locs_pop pl _ c n Hc) as Hperm.
    assert (Hc' : LArr c ∉ pool_locs (<[length src := n]> pl))
      by (rewrite Hperm in Hnd; by apply NoDup_cons in Hnd as [? _]).
    assert (Hcb : c <> base) by (intros ->; apply Hbase; rewrite Hperm; left).
    unfold read_array. rewrite Hsrc, Harr. cbn [obind]. unfold copy_prefix.
    rewrite decide_True by lia. cbn [obind]. rewrite take_ge by lia.
    assert (Hd : length (drop (length src) arr) = 1%nat) by (rewrite length_drop; lia).
    assert (Hinv1 : wpool_inv (set_array σ c (src ++ drop (length src) arr)) (<[length src := n]> pl))
      by by apply wpool_inv_set.
    destruct (wfree_internal_spec _ _ base src Hinv1 Hbok) as (pl' & Hfree & Hinv'' & Hperm');
      [rewrite <- Hsrc; symmetry; apply (set_array_same _ _ _ (LArr base)); congruence | lia |].
    rewrite Hfree. cbn [obind].
    rewrite (write_slot_spec _ c (length src) new (src ++ drop (length src) arr))
      by (apply set_array_lookup || (rewrite length_app; lia)).
    cbn [obind]. rewrite set_array_set_array, insert_last by done.
    eexists _, _, c. split; [done|]. split; [apply set_array_lookup|]. split; [done|].
    split; [done|]. split; [exists (pool_locs (<[length src := n]> pl)); split; [by left | done]|].
    split; [apply heap_step_set|].
    rewrite <- (set_array_set_array σ c (src ++ drop (length src) arr)).
    apply (wpool_inv_frame _ _ _ Hinv''). intros l Hl. apply set_array_same. intros ->.
    rewrite Hperm' in Hl. apply elem_of_cons in Hl as [[=]|Hl]; [done | by apply Hc'].
Qed.

End Pool.

End WordHeap.
