(* ===== verification/WordInsert.v ===== *)
(** * WordInsert: [Hamt::insert] on the words (src/lib.rs)

    Hamt.v models [insert] on the constructors of Node.v.  This file
    models it the way lib.rs writes it: on the two-word nodes of
    NodeRepr.v, through the mutable reference [cur] (a [place]: the root
    or a slot of a child array), with [Box::new] allocating key and value
    boxes ([alloc_key], [alloc_val]), the raw moves [ptr::read] and
    [ptr::write], and the free list of WordHeap.v handing out and taking
    back child arrays by address.  The walk and the split loop follow
    addresses, so both take fuel: [wfuel] for the walk (above the depth
    of the trie is enough), [fuel] for the split loop (the same fuel as
    [Hamt.insert]).

    The refinement theorem [winsert_refines] says that whenever
    [Hamt.insert] returns, the word-level [insert] returns the same old
    value and words standing for the new trie, with the ownership
    invariant kept: the cells each node owns and the pooled buffers are
    all distinct, so no write through one node reaches another.  The
    leak of a split ([ptr::read] moves the key and the value out of
    their boxes, which are never freed) is shown on a concrete run in
    Scenarios.v ([winsert_split_leaks]).

    The last sections count cells: an insert that returns adds at most
    [fuel + 4] of them ([winsert_heap_bound], no invariant needed), and
    prove the converse simulation: a word-level insert that returns has
    an abstract insert that returns with the same fuel
    ([wloop_done_insert_node], [wloop_mono], [winsert_back]). *)

From stdpp Require Import gmap.
From S2P Require Import Prelude BitMap HashStream FreeList Node Hamt NodeRepr WordHeap.
Local Unset Default Proof Using.

Module WordInsert.
Import NodeRepr.NodeRepr WordHeap.WordHeap.
Local Open Scope Z_scope.

(** [cur]: the root of the map, or slot [i] of the array at [a]. *)
Inductive place := PRoot | PSlot (a : Z) (i : nat).

Section Insert.
Context {K V H St : Type} `{EqDecision K} `{HashStream.Hasher H} `{!Hamt.BuildHasher St H}
  `{!Hamt.Hash K H} `{Alloc}.

(** [Hamt<K, V, S>] on the words: the hash state, the two words of the
    root, the heap they point into, and the free list. *)
Record WHamt := mk_whamt { wstate : St; wroot : RNode; wheap : Heap K V; wpool : WPool }.

Definition with_heap (w : WHamt) (σ : Heap K V) : WHamt :=
  mk_whamt (wstate w) (wroot w) σ (wpool w).

Definition with_pool (w : WHamt) (pl : WPool) (σ : Heap K V) : WHamt :=
  mk_whamt (wstate w) (wroot w) σ pl.

(** Reading [*cur]. *)
Definition read_place (w : WHamt) (p : place) : outcome RNode :=
  match p with
  | PRoot => Done (wroot w)
  | PSlot a i =>
      let? arr := read_array (wheap w) a in
      match arr !! i with Some r => Done r | None => Fault OutOfBounds end
  end.

(** Writing [*cur] ([ptr::write(cur, ..)], or a method on [&mut self]). *)
Definition write_place (w : WHamt) (p : place) (r : RNode) : outcome WHamt :=
  match p with
  | PRoot => Done (mk_whamt (wstate w) r (wheap w) (wpool w))
  | PSlot a i => let? σ := write_slot (wheap w) a i r in Done (with_heap w σ)
  end.

Definition modify_place (w : WHamt) (p : place) (f : RNode -> RNode) : outcome WHamt :=
  let? r := read_place w p in write_place w p (f r).

(** [Box::into_raw(Box::new(key))] *)
Definition alloc_key (σ : Heap K V) (k : K) : Heap K V * Z :=
  let a := alloc (hkeys σ) in (mk_heap (<[a := k]> (hkeys σ)) (hvals σ) (harrays σ), a).

(** [Box::into_raw(Box::new(value))] *)
Definition alloc_val (σ : Heap K V) (v : V) : Heap K V * Z :=
  let a := alloc (hvals σ) in (mk_heap (hkeys σ) (<[a := v]> (hvals σ)) (harrays σ), a).

(** [Node::key_value(key, value)]: the key box, then the value box. *)
Definition new_key_value (σ : Heap K V) (k : K) (v : V) : Heap K V * RNode :=
  let (σ, kp) := alloc_key σ k in
  let (σ, vp) := alloc_val σ v in
  (σ, key_value kp vp).

(** [*Box::from_raw(old)]: move the value out and free its box. *)
Definition take_val (σ : Heap K V) (vp : Z) : outcome (Heap K V * V) :=
  match hvals σ !! vp with
  | Some v => Done (mk_heap (hkeys σ) (delete vp (hvals σ)) (harrays σ), v)
  | None => Fault UseAfterFree
  end.

(** The [i == j] arm of the split loop: set bit [i] of [cur], take a
    singleton of [Node::empty()] from the free list, install it as the
    base, and return its address (the next [cur]). *)
Definition wchain_link (w : WHamt) (cur : place) (i : nat) : outcome (WHamt * Z) :=
  let? w := modify_place w cur (fun r => (get_map r (fun m => BitMap.set m i)).2) in
  let? (pl, σ, a) := wsingleton (wpool w) (wheap w) empty in
  let w := with_pool w pl σ in
  let? w := modify_place w cur (fun r => (set_base r a).2) in
  Done (w, a).

(** [let mut pair = self.free_list.pair(Node::key_value(key, value),
    Node::key_value(key_other, value_other)); cur.set_base(pair.as_mut_ptr())]. *)
Definition winstall_pair (w : WHamt) (cur : place) (key : K) (value : V) (key_other : K)
    (value_other : V) : outcome WHamt :=
  let (σ, kv) := new_key_value (wheap w) key value in
  let (σ, kv_other) := new_key_value σ key_other value_other in
  let? (pl, σ, a) := wpair (wpool w) σ kv kv_other in
  let w := with_pool w pl σ in
  modify_place w cur (fun r => (set_base r a).2).

(** The [i != j] arm: set both bits, swap so that the smaller index
    comes first, and install the pair of new leaves. *)
Definition wsplit_pair (w : WHamt) (cur : place) (i j : nat) (key : K) (value : V)
    (key_other : K) (value_other : V) : outcome WHamt :=
  let? w := modify_place w cur (fun r => (get_map r (fun m => BitMap.set (BitMap.set m i) j)).2) in
  let '(key, value, key_other, value_other) :=
    if decide (j < i)%nat then (key_other, value_other, key, value)
    else (key, value, key_other, value_other) in
  winstall_pair w cur key value key_other value_other.

(** The inner loop of the leaf case: [cur] holds an empty branch; draw
    from both streams; [unreachable!()] if [cur] is a leaf. *)
Fixpoint wsplit (fuel : nat) (w : WHamt) (cur : place) (stream : @HashStream.HashStream H)
    (stream_other : @HashStream.Skip H) (key : K) (value : V) (key_other : K) (value_other : V)
    : outcome WHamt :=
  match fuel with
  | O => Fault OutOfFuel
  | S fuel' =>
      let? (i, stream) := Hamt.draw stream in
      let? (j, stream_other) := Hamt.draw_skip stream_other in
      let? r := read_place w cur in
      match inner r with
      | Node.Left _ => Fault Panic
      | Node.Right _ =>
          if decide (i = j) then
            let? (w, a) := wchain_link w cur i in
            wsplit fuel' w (PSlot a 0) stream stream_other key value key_other value_other
          else wsplit_pair w cur i j key value key_other value_other
      end
  end.

(** A leaf with an equal key: a new value box, [set_value], and
    [*Box::from_raw(old)] moves the old value out and frees its box. *)
Definition woverwrite (w : WHamt) (cur : place) (value : V) : outcome (WHamt * option V) :=
  let (σ, vb) := alloc_val (wheap w) value in
  let w := with_heap w σ in
  let? r := read_place w cur in
  let (old, r) := set_value r vb in
  let? w := write_place w cur r in
  let? old := unwrap old in
  let? (σ, v) := take_val (wheap w) old in
  Done (with_heap w σ, Some v).

(** A leaf with another key: [ptr::read] the key and the value out of
    their boxes, [ptr::write] an empty branch into [cur], re-derive the
    other key's stream at this depth, and run the split loop. *)
Definition wsplit_leaf (fuel : nat) (w : WHamt) (cur : place) (stream : @HashStream.HashStream H)
    (depth : nat) (kp vp : Z) (key : K) (value : V) : outcome (WHamt * option V) :=
  let? key_other := deref_key (wheap w) kp in
  let? value_other := deref_val (wheap w) vp in
  let stream_other := HashStream.skip (Hamt.key_hash (wstate w) key_other) depth in
  let? w := write_place w cur empty in
  let? w := wsplit fuel w cur stream stream_other key value key_other value_other in
  Done (w, None).

(** An empty branch: [ptr::write(cur, Node::key_value(key, value))]. *)
Definition wfill (w : WHamt) (cur : place) (key : K) (value : V) : outcome (WHamt * option V) :=
  let (σ, kv) := new_key_value (wheap w) key value in
  let? w := write_place (with_heap w σ) cur kv in
  Done (w, None).

(** A branch without bit [i]: set it, grow the child array with
    [FreeList::push], shift the new leaf to its rank with the swap loop,
    and install the grown array. *)
Definition wgrow (w : WHamt) (cur : place) (map : BitMap.BitMap) (base : Z) (i : nat)
    (key : K) (value : V) : outcome (WHamt * option V) :=
  let bits := BitMap.set_bits map in
  let pos := BitMap.set_bits_under map i in
  let? w := modify_place w cur (fun r => (get_map r (fun m => BitMap.set m i)).2) in
  let? src := deref_array (wheap w) base in
  let? _ := Hamt.slice_from_raw src bits in
  let (σ, kv) := new_key_value (wheap w) key value in
  let? (pl, σ, a) := wpush (wpool w) σ base bits kv in
  let? arr := read_array σ a in
  let? arr := Hamt.shift_into_place pos arr in
  let w := with_pool w pl (set_array σ a arr) in
  let? w := modify_place w cur (fun r => (set_base r a).2) in
  Done (w, None).

(** The loop of [Hamt::insert] from [cur] at depth [depth]. *)
Fixpoint wloop (wfuel fuel : nat) (w : WHamt) (cur : place) (stream : @HashStream.HashStream H)
    (depth : nat) (key : K) (value : V) : outcome (WHamt * option V) :=
  match wfuel with
  | O => Fault OutOfFuel
  | S wfuel' =>
      let? r := read_place w cur in
      match inner r with
      | Node.Left (kp, vp) =>
          let? k := deref_key (wheap w) kp in
          if decide (k = key) then woverwrite w cur value
          else wsplit_leaf fuel w cur stream depth kp vp key value
      | Node.Right (map, base) =>
          let? (i, stream) := Hamt.draw stream in
          let depth := S depth in
          if BitMap.is_empty map then wfill w cur key value
          else if BitMap.is_set map i then
            wloop wfuel' fuel w (PSlot base (BitMap.set_bits_under map i)) stream depth key value
          else wgrow w cur map base i key value
      end
  end.

(** [Hamt::insert] *)
Definition winsert (wfuel fuel : nat) (w : WHamt) (key : K) (value : V) : outcome (WHamt * option V) :=
  wloop wfuel fuel w PRoot (Hamt.key_hash (wstate w) key) 0 key value.

(** ** The ownership invariant *)

(** The number of cells of the heap. *)
Definition hsize (σ : Heap K V) : nat := (size (hkeys σ) + size (hvals σ) + size (harrays σ))%nat.

(** The cell [cur] is in: none for the root, the array for a slot. *)
Definition place_loc (p : place) (l : loc) : Prop :=
  match p with PRoot => False | PSlot a _ => l = LArr a end.

(** [σ'] agrees with [σ] on every cell outside [S]. *)
Definition unchanged (σ σ' : Heap K V) (S : loc -> Prop) : Prop :=
  forall l, ~ S l -> loc_same σ σ' l.

(** The words of [w] stand for the trie [n]: the root's words stand for
    it, the cells it owns and the pooled buffers are all distinct, and
    the free list holds buffers of the right sizes. *)
Definition wrepr (w : WHamt) (n : Node.Node K V) : Prop :=
  repr (wheap w) (wroot w) n /\
  NoDup (fp (wheap w) (wroot w) n ++ pool_locs (wpool w)) /\
  wpool_inv (wheap w) (wpool w).

(** The write of [r'] into [cur] when [cur] can be read. *)
Definition place_set (w : WHamt) (p : place) (r' : RNode) : WHamt :=
  match p with
  | PRoot => mk_whamt (wstate w) r' (wheap w) (wpool w)
  | PSlot a i => with_heap w (set_array (wheap w) a (<[i := r']> (default [] (harrays (wheap w) !! a))))
  end.

End Insert.

(** ** Lemmas on cells and places *)

Section Cells.
Context {K V : Type}.

Lemma loc_same_refl (σ : Heap K V) l : loc_same σ σ l.
Proof. by destruct l. Qed.

Lemma loc_same_sym (σ σ' : Heap K V) l : loc_same σ σ' l -> loc_same σ' σ l.
Proof. destruct l; simpl; congruence. Qed.

Lemma loc_same_trans (σ1 σ2 σ3 : Heap K V) l :
  loc_same σ1 σ2 l -> loc_same σ2 σ3 l -> loc_same σ1 σ3 l.
Proof. destruct l; simpl; congruence. Qed.

Lemma loc_alloc_same (σ σ' : Heap K V) l : loc_same σ σ' l -> loc_alloc σ l -> loc_alloc σ' l.
Proof. destruct l; simpl; intros ->; done. Qed.

Lemma unchanged_trans (σ1 σ2 σ3 : Heap K V) S1 S2 S :
  unchanged σ1 σ2 S1 -> unchanged σ2 σ3 S2 -> (forall l, S1 l \/ S2 l -> S l) -> unchanged σ1 σ3 S.
Proof.
  intros H1 H2 HS l Hl. apply (loc_same_trans _ σ2); [apply H1 | apply H2]; intros ?; apply Hl, HS; auto.
Qed.

Lemma unchanged_weaken (σ σ' : Heap K V) S S' :
  unchanged σ σ' S -> (forall l, S l -> S' l) -> unchanged σ σ' S'.
Proof. intros H1 HS l Hl. apply H1. intros ?; by apply Hl, HS. Qed.

Definition grows (σ σ' : Heap K V) : Prop := forall l, loc_alloc σ l -> loc_alloc σ' l.

Lemma grows_trans σ1 σ2 σ3 : grows σ1 σ2 -> grows σ2 σ3 -> grows σ1 σ3.
Proof. intros H1 H2 l Hl. by apply H2, H1. Qed.

Lemma grows_set_array (σ : Heap K V) a arr : grows σ (set_array σ a arr).
Proof.
  intros [b|b|b] Hb; simpl in *; [done | done |].
  destruct (decide (a = b)) as [->|]; [rewrite lookup_insert_eq; by eexists | by rewrite lookup_insert_ne].
Qed.

End Cells.

Section Places.
Context {K V St : Type}.

Lemma read_place_slot (w : @WHamt K V St) a i r :
  read_place w (PSlot a i) = Done r ->
  exists arr, harrays (wheap w) !! a = Some arr /\ arr !! i = Some r.
Proof.
  simpl. unfold read_array. destruct (harrays _ !! a) as [arr|]; [|done]. simpl.
  destruct (arr !! i) eqn:Hi; [|done]. intros [= ->]. eauto.
Qed.

Lemma read_write_place (w : @WHamt K V St) p r r' :
  read_place w p = Done r -> write_place w p r' = Done (place_set w p r').
Proof.
  destruct p as [|a i]; [done|]. intros (arr & Ha & Hi)%read_place_slot. simpl.
  rewrite (write_slot_spec _ _ _ _ arr Ha) by (by apply lookup_lt_Some in Hi). simpl. by rewrite Ha.
Qed.

Lemma read_place_set (w : @WHamt K V St) p r r' :
  read_place w p = Done r -> read_place (place_set w p r') p = Done r'.
Proof.
  destruct p as [|a i]; [done|]. intros (arr & Ha & Hi)%read_place_slot. simpl.
  unfold read_array. rewrite Ha, set_array_lookup. simpl.
  rewrite list_lookup_insert_eq by (by apply lookup_lt_Some in Hi). done.
Qed.

Lemma place_set_unchanged (w : @WHamt K V St) p r r' :
  read_place w p = Done r -> unchanged (wheap w) (wheap (place_set w p r')) (place_loc p).
Proof. destruct p as [|a i]; intros _ l Hl; [apply loc_same_refl|]. apply set_array_same. done. Qed.

Lemma place_set_grows (w : @WHamt K V St) p r r' :
  read_place w p = Done r -> grows (wheap w) (wheap (place_set w p r')).
Proof. destruct p; intros _ l Hl; [done | apply grows_set_array, Hl]. Qed.

Lemma place_set_array (w : @WHamt K V St) a i r r' :
  read_place w (PSlot a i) = Done r ->
  exists arr, harrays (wheap w) !! a = Some arr /\ arr !! i = Some r /\
    harrays (wheap (place_set w (PSlot a i) r')) !! a = Some (<[i := r']> arr).
Proof.
  intros (arr & Ha & Hi)%read_place_slot. exists arr. split; [done|]. split; [done|].
  simpl. rewrite Ha. apply set_array_lookup.
Qed.

Lemma place_set_size (w : @WHamt K V St) p r r' :
  read_place w p = Done r -> hsize (wheap (place_set w p r')) = hsize (wheap w).
Proof.
  destruct p as [|a i]; [done|]. intros (arr & Ha & _)%read_place_slot.
  unfold hsize, place_set, with_heap. cbn [wheap].
  rewrite (size_set_array_alloc _ a) by (rewrite Ha; eauto). reflexivity.
Qed.

Lemma modify_place_read (w : @WHamt K V St) p f r :
  read_place w p = Done r -> modify_place w p f = Done (place_set w p (f r)).
Proof. intros Hr. unfold modify_place. rewrite Hr. by apply read_write_place with r. Qed.

(** Reading [cur] again sees the same words when its cell is unchanged. *)
Lemma read_place_frame (w w' : @WHamt K V St) p r :
  read_place w p = Done r -> (forall l, place_loc p l -> loc_same (wheap w) (wheap w') l) ->
  (p = PRoot -> wroot w' = wroot w) -> read_place w' p = Done r.
Proof.
  destruct p as [|a i]; intros Hr Hs Hroot; [simpl in *; rewrite Hroot; congruence|].
  simpl in *. unfold read_array in *. by rewrite <- (Hs (LArr a) eq_refl).
Qed.

End Places.

(** ** Boxes *)

Section Boxes.
Context {K V : Type} `{AllocLaws}.

Lemma alloc_key_spec (σ : Heap K V) k :
  let '(σ', kp) := alloc_key σ k in
  hkeys σ' !! kp = Some k /\ ~ loc_alloc σ (LKey kp) /\ unchanged σ σ' (fun l => l = LKey kp) /\
  grows σ σ' /\ harrays σ' = harrays σ /\ hvals σ' = hvals σ /\ hsize σ' = S (hsize σ).
Proof.
  unfold alloc_key. split; [apply lookup_insert_eq|]. split; [simpl; rewrite alloc_fresh; by intros []|].
  split; [intros [b|b|b] Hl; simpl; [rewrite lookup_insert_ne; congruence | done | done]|].
  split; [intros [b|b|b] Hb; simpl in *; [|done|done];
    destruct (decide (alloc (hkeys σ) = b)) as [->|]; [rewrite lookup_insert_eq; by eexists | by rewrite lookup_insert_ne]|].
  split; [done|]. split; [done|]. unfold hsize. simpl. rewrite map_size_insert_None by apply alloc_fresh. lia.
Qed.

Lemma alloc_val_spec (σ : Heap K V) v :
  let '(σ', vp) := alloc_val σ v in
  hvals σ' !! vp = Some v /\ ~ loc_alloc σ (LVal vp) /\ unchanged σ σ' (fun l => l = LVal vp) /\
  grows σ σ' /\ harrays σ' = harrays σ /\ hkeys σ' = hkeys σ /\ hsize σ' = S (hsize σ) /\
  (Z.of_nat (hsize σ) < ALLOC_LIMIT -> Z.even vp = true).
Proof.
  unfold alloc_val. split; [apply lookup_insert_eq|]. split; [simpl; rewrite alloc_fresh; by intros []|].
  split; [intros [b|b|b] Hl; simpl; [done | rewrite lookup_insert_ne; congruence | done]|].
  split; [intros [b|b|b] Hb; simpl in *; [done| |done];
    destruct (decide (alloc (hvals σ) = b)) as [->|]; [rewrite lookup_insert_eq; by eexists | by rewrite lookup_insert_ne]|].
  split; [done|]. split; [done|]. split.
  - unfold hsize. simpl. rewrite map_size_insert_None by apply alloc_fresh. lia.
  - intros Hs. apply alloc_base_ok. unfold hsize in Hs. lia.
Qed.

(** [Node::key_value(key, value)] on the words: two fresh boxes, and
    words that stand for the leaf and own exactly those boxes. *)
Lemma new_key_value_spec (σ : Heap K V) k v :
  Z.of_nat (hsize σ) + 1 < ALLOC_LIMIT ->
  let '(σ', kv) := new_key_value σ k v in
  repr σ' kv (Node.Leaf k v) /\ NoDup (fp σ' kv (Node.Leaf k v)) /\
  (forall l, l ∈ fp σ' kv (Node.Leaf k v) -> ~ loc_alloc σ l) /\
  unchanged σ σ' (fun l => l ∈ fp σ' kv (Node.Leaf k v)) /\ grows σ σ' /\
  harrays σ' = harrays σ /\ hsize σ' = (hsize σ + 2)%nat.
Proof.
  intros Hs. unfold new_key_value.
  pose proof (alloc_key_spec σ k) as Hk. destruct (alloc_key σ k) as [σ1 kp].
  destruct Hk as (Hk & Hkf & Hku & Hkg & Hka & Hkv & Hks).
  pose proof (alloc_val_spec σ1 v) as Hv. destruct (alloc_val σ1 v) as [σ2 vp].
  destruct Hv as (Hv & Hvf & Hvu & Hvg & Hva & Hvk & Hvs & Hve). cbn [fp map_key base_value key_value new_value].
  split; [apply repr_leaf; [rewrite is_value_even; apply Hve; lia | by rewrite Hvk | done]|].
  split; [constructor; [set_solver | constructor; [set_solver | constructor]]|].
  split.
  { intros l [->|[->|[]%elem_of_nil]%elem_of_cons]%elem_of_cons; [done|].
    intros Hl. by apply Hvf, Hkg. }
  split; [apply (unchanged_trans _ σ1 _ _ _ _ Hku Hvu); set_solver|].
  split; [by apply (grows_trans _ σ1)|]. split; [congruence | lia].
Qed.

End Boxes.

(** ** Steps at [cur] *)

Section Steps.
Context {K V St : Type}.

(** Before a step: [cur] can be read and holds words [r] standing for
    [n]; the cells [n] owns and the pooled buffers are distinct, and the
    array [cur] lies in is none of them. *)
Definition step_pre (w : @WHamt K V St) (p : place) (r : RNode) (n : Node.Node K V) : Prop :=
  read_place w p = Done r /\ repr (wheap w) r n /\
  NoDup (fp (wheap w) r n ++ pool_locs (wpool w)) /\
  (forall l, place_loc p l -> l ∉ fp (wheap w) r n ++ pool_locs (wpool w)) /\
  wpool_inv (wheap w) (wpool w).

(** After a step from [w] (where [cur]'s node owned [T]): [cur] holds
    [r'] standing for [n']; what [n'] owns and the pool are distinct and
    were owned by [n], pooled, or fresh; every other allocated cell
    but [cur]'s array is unchanged and stays allocated; [cur]'s array
    changed at [cur]'s slot only; the root moved only if [cur] is it. *)
Definition step_post (w : @WHamt K V St) (p : place) (T : list loc) (w' : @WHamt K V St)
    (r' : RNode) (n' : Node.Node K V) : Prop :=
  read_place w' p = Done r' /\ repr (wheap w') r' n' /\
  NoDup (fp (wheap w') r' n' ++ pool_locs (wpool w')) /\
  (forall l, l ∈ fp (wheap w') r' n' ++ pool_locs (wpool w') ->
     l ∈ T ++ pool_locs (wpool w) \/ ~ loc_alloc (wheap w) l) /\
  unchanged (wheap w) (wheap w')
    (fun l => l ∈ T ++ pool_locs (wpool w) \/ place_loc p l \/ ~ loc_alloc (wheap w) l) /\
  (forall l, loc_alloc (wheap w) l -> l ∉ T ++ pool_locs (wpool w) -> loc_alloc (wheap w') l) /\
  (forall a i, p = PSlot a i -> wroot w' = wroot w /\
     exists arr, harrays (wheap w) !! a = Some arr /\ harrays (wheap w') !! a = Some (<[i := r']> arr)) /\
  wpool_inv (wheap w') (wpool w') /\ wstate w' = wstate w.

Lemma place_loc_alloc (w : @WHamt K V St) p r l : read_place w p = Done r -> place_loc p l -> loc_alloc (wheap w) l.
Proof.
  destruct p as [|a i]; [done|]. intros (arr & Ha & _)%read_place_slot ->. simpl. by rewrite Ha.
Qed.

(** A step that ends by writing [r'] into [cur]. *)
Lemma step_finish (w w1 : @WHamt K V St) p T r r1 r' n' :
  read_place w p = Done r -> (forall l, place_loc p l -> l ∉ T ++ pool_locs (wpool w)) ->
  read_place w1 p = Done r1 ->
  unchanged (wheap w) (wheap w1)
    (fun l => l ∈ T ++ pool_locs (wpool w) \/ place_loc p l \/ ~ loc_alloc (wheap w) l) ->
  (forall l, loc_alloc (wheap w) l -> l ∉ T ++ pool_locs (wpool w) -> loc_alloc (wheap w1) l) ->
  (forall a i, p = PSlot a i -> wroot w1 = wroot w /\
     exists arr, harrays (wheap w) !! a = Some arr /\ harrays (wheap w1) !! a = Some (<[i := r1]> arr)) ->
  repr (wheap w1) r' n' -> NoDup (fp (wheap w1) r' n' ++ pool_locs (wpool w1)) ->
  (forall l, l ∈ fp (wheap w1) r' n' ++ pool_locs (wpool w1) ->
     l ∈ T ++ pool_locs (wpool w) \/ ~ loc_alloc (wheap w) l) ->
  wpool_inv (wheap w1) (wpool w1) -> wstate w1 = wstate w ->
  step_post w p T (place_set w1 p r') r' n'.
Proof.
  intros Hr Hp Hr1 Hu Ha Hpl Hrepr Hnd Hnew Hinv Hst.
  assert (KF : forall l, place_loc p l -> l ∉ fp (wheap w1) r' n' ++ pool_locs (wpool w1)).
  { intros l Hl Hin. destruct (Hnew l Hin) as [Hin'|Hna]; [by apply (Hp l Hl)|].
    by apply Hna, (place_loc_alloc w p r). }
  pose proof (place_set_unchanged w1 p r1 r' Hr1) as Hu2.
  destruct (repr_frame (wheap w1) (wheap (place_set w1 p r')) r' n' Hrepr) as [Hrepr' Hfp].
  { intros l Hl. apply Hu2. intros Hpl'. apply (KF l Hpl'). set_solver. }
  assert (Hpool : wpool (place_set w1 p r') = wpool w1) by (by destruct p).
  split; [by apply read_place_set with r1|]. split; [done|]. rewrite Hfp, Hpool.
  split; [done|]. split; [done|]. split.
  { apply (unchanged_trans _ _ _ _ _ _ Hu Hu2). intros l [?|?]; auto. }
  split; [intros l Hl HT; by apply (place_set_grows w1 p r1 r'), Ha|].
  split.
  { intros a i ->. destruct (Hpl a i eq_refl) as [Hroot (arr & Harr & Harr1)]. split; [done|].
    exists arr. split; [done|]. destruct (place_set_array w1 a i r1 r' Hr1) as (arr1 & Ha1 & _ & ->).
    rewrite Harr1 in Ha1. injection Ha1 as <-. by rewrite list_insert_insert_eq. }
  split; [|by destruct p].
  apply (wpool_inv_frame (wheap w1)); [done|]. intros l Hl. apply Hu2. intros Hpl'. apply (KF l Hpl').
  set_solver.
Qed.

(** A write into [cur] followed by a step from there is a step. *)
Lemma step_post_after_write (w : @WHamt K V St) p r r1 T w' r' n' :
  read_place w p = Done r -> step_post (place_set w p r1) p T w' r' n' -> step_post w p T w' r' n'.
Proof.
  intros Hr (Hr' & Hrepr & Hnd & Hnew & Hu & Ha & Hpl & Hinv & Hst).
  pose proof (place_set_unchanged w p r r1 Hr) as Hu1. pose proof (place_set_grows w p r r1 Hr) as Hg1.
  assert (Hpool : wpool (place_set w p r1) = wpool w) by (by destruct p).
  assert (Hstate : wstate (place_set w p r1) = wstate w) by (by destruct p).
  rewrite Hpool in Hnew, Hu, Ha. split; [done|]. split; [done|]. split; [done|]. split.
  { intros l Hl. destruct (Hnew l Hl) as [?|Hna]; [by left | right; intros ?; by apply Hna, Hg1]. }
  split.
  { apply (unchanged_trans _ _ _ _ _ _ Hu1 Hu). intros l [Hl|[Hl|[Hl|Hl]]]; auto.
    right; right. intros ?; by apply Hl, Hg1. }
  split; [intros l Hl HT; apply Ha; [by apply Hg1 | done]|]. split; [|split; [done | congruence]].
  intros a i ->. destruct (Hpl a i eq_refl) as [Hroot (arr1 & Ha1 & Ha')]. split; [done|].
  destruct (place_set_array w a i r r1 Hr) as (arr & Harr & _ & Harr1).
  rewrite Harr1 in Ha1. injection Ha1 as <-. exists arr. split; [done|]. by rewrite Ha', list_insert_insert_eq.
Qed.

Lemma elem_of_cons_app_split {A} (L B C D : list A) x l :
  L ≡ₚ x :: B ++ C -> l ∈ L ++ D <-> l = x \/ l ∈ B ++ D \/ l ∈ C.
Proof. intros HL. rewrite elem_of_app, HL, elem_of_cons, !elem_of_app. tauto. Qed.

(** What a branch owns: its array, the [n]th child's cells, and the
    other children's. *)
Lemma fp_branch_split (σ : Heap K V) r m cs src n rc c :
  harrays σ !! Z.land (base_value r) NOT_ONE = Some src -> Forall2 (repr σ) src cs ->
  src !! n = Some rc -> cs !! n = Some c ->
  fp σ r (Node.Branch m cs) ≡ₚ LArr (Z.land (base_value r) NOT_ONE) :: fp σ rc c ++ siblings (fp σ) src cs n.
Proof.
  intros Hsrc HF Hrc Hc. rewrite fp_branch. destruct cs as [|d ds]; [by rewrite lookup_nil in Hc|].
  rewrite Hsrc. cbn [default]. constructor. apply zip_fp_split; [|done|done]. by apply Forall2_length in HF.
Qed.

(** Before a step at a branch, the step below it at the [n]th child
    can start. *)
Lemma step_pre_child (w : @WHamt K V St) p r m cs n c :
  step_pre w p r (Node.Branch m cs) -> cs !! n = Some c ->
  exists src rc, harrays (wheap w) !! Z.land (base_value r) NOT_ONE = Some src /\ src !! n = Some rc /\
    step_pre w (PSlot (Z.land (base_value r) NOT_ONE) n) rc c.
Proof.
  intros (Hr & Hrepr & Hnd & Hp & Hinv) Hc.
  inversion Hrepr as [| ? ? _ _ _ _ | ? ? src ? Hv Hm Hb Hsrc HF Hne]; [subst; by rewrite lookup_nil in Hc|].
  destruct (Forall2_lookup_r _ _ _ _ _ HF Hc) as (rc & Hrc & Hrcr).
  exists src, rc. split; [done|]. split; [done|].
  pose proof (fp_branch_split _ r m cs src n rc c Hsrc HF Hrc Hc) as Hfp.
  assert (HndA : NoDup (LArr (Z.land (base_value r) NOT_ONE) :: fp (wheap w) rc c ++
                   siblings (fp (wheap w)) src cs n ++ pool_locs (wpool w)))
    by (by rewrite app_assoc, app_comm_cons, <- Hfp).
  apply NoDup_cons in HndA as [HA HndB]. apply NoDup_app in HndB as (HndX & Hdis & HndC).
  apply NoDup_app in HndC as (_ & _ & HndP).
  split; [simpl; unfold read_array; rewrite Hsrc; simpl; by rewrite Hrc|]. split; [done|]. split.
  { apply NoDup_app. split; [done|]. split; [|done]. intros l Hl Hin. apply (Hdis l Hl), elem_of_app. by right. }
  split; [|done]. intros l Hl Hin. simpl in Hl. subst l. apply HA.
  apply elem_of_app in Hin as [?|?]; apply elem_of_app; [by left | right; apply elem_of_app; by right].
Qed.

(** Two steps at the same place compose: the second starts from what
    the first left in [cur]. *)
Lemma step_post_trans (w w1 w2 : @WHamt K V St) p T r1 n1 r2 n2 :
  step_post w p T w1 r1 n1 -> step_post w1 p (fp (wheap w1) r1 n1) w2 r2 n2 -> step_post w p T w2 r2 n2.
Proof.
  intros (Hr1 & Hrepr1 & Hnd1 & Hnew1 & Hu1 & Ha1 & Hpl1 & Hinv1 & Hst1)
         (Hr2 & Hrepr2 & Hnd2 & Hnew2 & Hu2 & Ha2 & Hpl2 & Hinv2 & Hst2).
  assert (Hout : forall l, loc_alloc (wheap w) l -> l ∉ T ++ pool_locs (wpool w) ->
                 l ∉ fp (wheap w1) r1 n1 ++ pool_locs (wpool w1) /\ loc_alloc (wheap w1) l).
  { intros l Hal Hl. split; [|by apply Ha1]. intros Hin. by destruct (Hnew1 l Hin). }
  split; [done|]. split; [done|]. split; [done|]. split.
  { intros l Hl. destruct (Hnew2 l Hl) as [Hin|Hna]; [by apply Hnew1|].
    destruct (decide (l ∈ T ++ pool_locs (wpool w))) as [?|Hn]; [by left|].
    right. intros Hal. by apply Hna, (Hout l Hal Hn). }
  split.
  { intros l HS. apply (loc_same_trans _ (wheap w1)); [apply Hu1; tauto|]. apply Hu2.
    destruct (decide (loc_alloc (wheap w) l)) as [Hal|]; [|tauto].
    assert (Hn : l ∉ T ++ pool_locs (wpool w)) by tauto.
    destruct (Hout l Hal Hn) as [Hf Ha]. intros [?|[?|?]]; tauto. }
  split.
  { intros l Hal Hn. destruct (Hout l Hal Hn) as [Hf Ha]. by apply Ha2. }
  split; [|split; [done | congruence]].
  intros a i ->. destruct (Hpl1 a i eq_refl) as [Hroot1 (arr & Harr & Harr1)].
  destruct (Hpl2 a i eq_refl) as [Hroot2 (arr1 & Harr1' & Harr2)]. split; [congruence|].
  exists arr. split; [done|]. rewrite Harr2. rewrite Harr1 in Harr1'. injection Harr1' as <-.
  by rewrite list_insert_insert_eq.
Qed.

(** A step below a branch is a step at the branch: the step at the
    [i]th slot of the branch's array leaves the branch's words, and what
    the other children own, as they were. *)
Lemma step_post_descend (w w' : @WHamt K V St) p r m cs arr i rc c r' c' :
  read_place w p = Done r -> repr (wheap w) r (Node.Branch m cs) ->
  harrays (wheap w) !! Z.land (base_value r) NOT_ONE = Some arr -> arr !! i = Some rc -> cs !! i = Some c ->
  NoDup (fp (wheap w) r (Node.Branch m cs) ++ pool_locs (wpool w)) ->
  (forall l, place_loc p l -> l ∉ fp (wheap w) r (Node.Branch m cs) ++ pool_locs (wpool w)) ->
  step_post w (PSlot (Z.land (base_value r) NOT_ONE) i) (fp (wheap w) rc c) w' r' c' ->
  step_post w p (fp (wheap w) r (Node.Branch m cs)) w' r (Node.Branch m (<[i := c']> cs)).
Proof.
  set (a := Z.land (base_value r) NOT_ONE). intros Hr Hrepr Harr Hrc Hc Hnd Hp
    (Hr' & Hrepr' & Hnd' & Hnew' & Hu' & Ha' & Hpl' & Hinv' & Hst').
  inversion Hrepr as [| |? ? rs ? Hv Hm Hb Hrs HF Hne]; [by subst|].
  fold a in Hrs, Hb. rewrite Harr in Hrs. injection Hrs as <-.
  destruct (Hpl' a i eq_refl) as [Hroot (arr0 & Harr0 & Harr')]. rewrite Harr in Harr0. injection Harr0 as <-.
  pose proof (Forall2_length _ _ _ HF) as Hlen.
  set (Sib := siblings (fp (wheap w)) arr cs i).
  assert (Hfp : fp (wheap w) r (Node.Branch m cs) ≡ₚ LArr a :: fp (wheap w) rc c ++ Sib)
    by (by apply fp_branch_split).
  assert (HndA : NoDup (LArr a :: fp (wheap w) rc c ++ Sib ++ pool_locs (wpool w)))
    by (by rewrite app_assoc, app_comm_cons, <- Hfp).
  assert (HalT : forall l, l ∈ fp (wheap w) r (Node.Branch m cs) -> loc_alloc (wheap w) l)
    by (by apply fp_alloc).
  setoid_rewrite Hfp in HalT.
  assert (HT : forall l, l ∈ fp (wheap w) r (Node.Branch m cs) ++ pool_locs (wpool w) <->
                         l = LArr a \/ l ∈ fp (wheap w) rc c ++ pool_locs (wpool w) \/ l ∈ Sib)
    by (intros l; by apply elem_of_cons_app_split).
  apply NoDup_cons in HndA as [HA HndB]. apply NoDup_app in HndB as (HndX & Hdis & HndC).
  apply NoDup_app in HndC as (HndS & Hdis2 & HndP).
  assert (Hsib : forall l, l ∈ Sib -> loc_alloc (wheap w) l /\ l <> LArr a /\
                   l ∉ fp (wheap w) rc c ++ pool_locs (wpool w)).
  { intros l Hl. split; [apply HalT; set_solver|]. split; [intros ->; apply HA; set_solver|].
    intros [Hl1|Hl1]%elem_of_app; [apply (Hdis l Hl1); set_solver | by apply (Hdis2 l Hl Hl1)]. }
  destruct (zip_frame_insert (wheap w) (wheap w') arr cs i rc c r' c' HF Hrc Hc Hrepr') as [HF' Hz].
  { intros l Hl. destruct (Hsib l Hl) as (Hal & Hna & Hnin). apply Hu'. simpl. set_solver. }
  assert (Hfp' : fp (wheap w') r (Node.Branch m (<[i := c']> cs)) ≡ₚ LArr a :: fp (wheap w') r' c' ++ Sib).
  { rewrite fp_branch. destruct (<[i := c']> cs) as [|d ds] eqn:E; [destruct cs, i; simpl in E; congruence|].
    fold a. rewrite Harr'. cbn [default]. constructor. exact Hz. }
  assert (HaA : loc_alloc (wheap w) (LArr a)) by (apply HalT; set_solver).
  assert (HnA : LArr a ∉ fp (wheap w) rc c ++ pool_locs (wpool w))
    by (intros Hin; apply HA; apply elem_of_app in Hin as [Hin|Hin]; apply elem_of_app;
        [by left | right; apply elem_of_app; by right]).
  split; [apply (read_place_frame w); [done| |done]|].
  { intros l Hl. apply Hu'. intros [Hin|[Hin|Hin]]; [apply (Hp l Hl), HT; tauto | | by apply Hin, (place_loc_alloc w p r)].
    destruct p; simpl in Hl, Hin; [done|]. subst. apply (Hp _ eq_refl), HT. by left. }
  split; [apply (repr_branch _ _ _ (<[i := r']> arr)); try done; intros E'; destruct cs, i; simpl in E'; congruence|].
  assert (HT' : forall l, l ∈ fp (wheap w') r (Node.Branch m (<[i := c']> cs)) ++ pool_locs (wpool w') <->
                          l = LArr a \/ l ∈ fp (wheap w') r' c' ++ pool_locs (wpool w') \/ l ∈ Sib)
    by (intros l; by apply elem_of_cons_app_split).
  assert (Hperm : fp (wheap w') r (Node.Branch m (<[i := c']> cs)) ++ pool_locs (wpool w') ≡ₚ
                  LArr a :: Sib ++ (fp (wheap w') r' c' ++ pool_locs (wpool w')))
    by (rewrite Hfp'; solve_Permutation).
  clear Hfp Hfp' Hz. split.
  { rewrite Hperm. constructor.
    - intros [Hin|Hin]%elem_of_app; [by apply (proj1 (proj2 (Hsib _ Hin)))|].
      destruct (Hnew' _ Hin); [by apply HnA | done].
    - apply NoDup_app. split; [done|]. split; [|done]. intros l Hs Hin.
      destruct (Hsib l Hs) as (Hal & _ & Hn). by destruct (Hnew' _ Hin). }
  split.
  { intros l [->|[Hl|Hl]]%HT'; rewrite HT; [by left; left | | by left; right; right].
    destruct (Hnew' _ Hl) as [Hin|]; [left; by right; left | by right]. }
  split.
  { intros l HS. apply Hu'. intros [Hin|[Hin|Hin]]; apply HS; rewrite HT; [by left; right; left | | tauto].
    simpl in Hin. by left; left. }
  split; [intros l Hal Hn; apply Ha'; [done | rewrite HT in Hn; tauto]|].
  split; [|done].
  intros b j ->. split; [done|]. destruct (read_place_slot w b j r Hr) as (arrb & Hb' & Hj).
  exists arrb. split; [done|]. rewrite list_insert_id by done. rewrite <- Hb'. symmetry. apply (Hu' (LArr b)).
  intros [Hin|[Hin|Hin]]; [ | | by apply Hin; simpl; rewrite Hb'].
  - apply (Hp (LArr b) eq_refl). apply HT. tauto.
  - simpl in Hin. injection Hin as ->. apply (Hp (LArr a) eq_refl). apply HT. tauto.
Qed.

(** A step stays one when [cur]'s node is said to have owned more. *)
Lemma step_post_widen (w w' : @WHamt K V St) p T T' r' n' :
  (forall l, l ∈ T -> l ∈ T') -> step_post w p T w' r' n' -> step_post w p T' w' r' n'.
Proof.
  intros HT (Hr & Hrepr & Hnd & Hnew & Hu & Ha & Hpl & Hinv & Hst).
  split; [done|]. split; [done|]. split; [done|]. split.
  { intros l Hl. destruct (Hnew l Hl) as [Hin|]; [left; apply elem_of_app in Hin as [?|?]; set_solver | by right]. }
  split; [intros l HS; apply Hu; intros [Hin|Hin]; apply HS; [left; apply elem_of_app in Hin as [?|?]; set_solver | by right]|].
  split; [|done]. intros l Hal Hn. apply Ha; [done|]. intros Hin. apply Hn.
  apply elem_of_app in Hin as [?|?]; set_solver.
Qed.

End Steps.

(** ** The arms of the walk refine those of [Hamt.insert_node] *)

Section Refine.
Context {K V H St : Type} `{EqDecision K} `{HashStream.Hasher H} `{!Hamt.BuildHasher St H}
  `{!Hamt.Hash K H} `{Alloc} `{!AllocLaws}.

Lemma pool_locs_arr pl l : l ∈ pool_locs pl -> exists a, l = LArr a.
Proof. intros (i & st & a & _ & _ & ->)%elem_of_pool_locs. eauto. Qed.

(** Key and value boxes never collide with pooled buffers. *)
Lemma NoDup_boxes_pool X pl :
  NoDup X -> (forall l b, l ∈ X -> l <> LArr b) -> NoDup (pool_locs pl) -> NoDup (X ++ pool_locs pl).
Proof.
  intros HX Hb HP. apply NoDup_app. split; [done|]. split; [|done].
  intros l Hl (c & ->)%pool_locs_arr. by apply (Hb _ c Hl).
Qed.

Lemma took_NoDup_rest (σ : Heap K V) P P' a : took σ P P' a -> NoDup P -> NoDup P'.
Proof. intros [Hperm|[-> _]] HP; [rewrite Hperm in HP; by apply NoDup_cons in HP as [_ ?] | done]. Qed.

Lemma NoDup_fresh_pool (σ : Heap K V) X pl :
  NoDup X -> NoDup (pool_locs pl) -> wpool_inv σ pl -> (forall l, l ∈ X -> ~ loc_alloc σ l) ->
  NoDup (X ++ pool_locs pl).
Proof.
  intros HX HP Hinv Hf. apply NoDup_app. split; [done|]. split; [|done].
  intros l Hl Hp. by apply (Hf l Hl), (pool_locs_alloc σ pl).
Qed.

(** An empty branch: [ptr::write(cur, Node::key_value(key, value))]. *)
Lemma wfill_refines (w : @WHamt K V St) p r n key value :
  step_pre w p r n -> Z.of_nat (hsize (wheap w)) + 1 < ALLOC_LIMIT ->
  exists w' r', wfill w p key value = Done (w', None) /\
    step_post w p (fp (wheap w) r n) w' r' (Node.Leaf key value).
Proof.
  intros (Hr & Hrepr & Hnd & Hp & Hinv) Hs. unfold wfill.
  pose proof (new_key_value_spec (wheap w) key value Hs) as Hspec.
  destruct (new_key_value (wheap w) key value) as [σ1 kv].
  destruct Hspec as (Hkv & Hndkv & Hfresh & Hu & Hg & Ha & Hsz).
  assert (Hr1 : read_place (with_heap w σ1) p = Done r).
  { apply (read_place_frame w); [done | | done]. intros l Hl. apply Hu. intros Hin.
    by apply (Hfresh l Hin), (place_loc_alloc w p r). }
  rewrite (read_write_place _ p r kv Hr1). cbn [obind].
  apply NoDup_app in Hnd as (_ & _ & HndP).
  assert (Hinv1 : wpool_inv σ1 (wpool w)).
  { apply (wpool_inv_frame (wheap w)); [done|]. intros l (b & ->)%pool_locs_arr. simpl. by rewrite Ha. }
  eexists _, kv. split; [done|]. apply (step_finish w _ p _ r r); try done.
  - apply (unchanged_weaken _ _ _ _ Hu). intros l Hl. right; right. by apply Hfresh.
  - intros l Hl _. by apply Hg.
  - intros a i ->. split; [done|]. destruct (read_place_slot w a i r Hr) as (arr & Harr & Hi).
    exists arr. split; [done|]. simpl. rewrite Ha, Harr. f_equal. symmetry. by apply list_insert_id.
  - by apply (NoDup_fresh_pool (wheap w)).
  - intros l [Hl|Hl]%elem_of_app; [right; by apply Hfresh | left; set_solver].
Qed.

Lemma NoDup_leaf_pool a b pl :
  NoDup (pool_locs pl) -> NoDup ([LKey a; LVal b] ++ pool_locs pl).
Proof.
  intros HP. apply NoDup_app. split; [constructor; [set_solver | constructor; [set_solver | constructor]]|].
  split; [|done]. intros l Hl (c & ->)%pool_locs_arr. set_solver.
Qed.

(** Moving a value out of its box touches the value boxes only; it
    commutes with a write into [cur]. *)
Lemma place_set_with_vals (w : @WHamt K V St) p r' vals :
  with_heap (place_set w p r') (mk_heap (hkeys (wheap (place_set w p r'))) vals
                                        (harrays (wheap (place_set w p r')))) =
  place_set (with_heap w (mk_heap (hkeys (wheap w)) vals (harrays (wheap w)))) p r'.
Proof. by destruct p. Qed.

Lemma place_set_hvals (w : @WHamt K V St) p r' : hvals (wheap (place_set w p r')) = hvals (wheap w).
Proof. by destruct p. Qed.

Lemma read_place_arrays (w : @WHamt K V St) p σ' :
  harrays σ' = harrays (wheap w) -> read_place (with_heap w σ') p = read_place w p.
Proof. intros Ha. destruct p as [|a i]; [done|]. simpl. unfold read_array. by rewrite Ha. Qed.

(** A leaf with the key: the new value replaces the old one, which is
    returned, and its box is freed. *)
Lemma woverwrite_refines (w : @WHamt K V St) p r k v value :
  step_pre w p r (Node.Leaf k v) -> Z.of_nat (hsize (wheap w)) < ALLOC_LIMIT ->
  exists w' r', woverwrite w p value = Done (w', Some v) /\
    step_post w p (fp (wheap w) r (Node.Leaf k v)) w' r' (Node.Leaf k value).
Proof.
  intros (Hr & Hrepr & Hnd & Hp & Hinv) Hs. unfold woverwrite.
  inversion Hrepr as [? ? ? Hv Hk Hval| |]; subst.
  pose proof (alloc_val_spec (wheap w) value) as Hspec.
  destruct (alloc_val (wheap w) value) as [σ1 vb].
  destruct Hspec as (Hvb & Hfresh & Hu & Hg & Ha & Hkk & Hsz & Hev).
  assert (Hr1 : read_place (with_heap w σ1) p = Done r) by (by rewrite read_place_arrays).
  assert (Hne : vb <> base_value r) by (intros ->; apply Hfresh; simpl; by rewrite Hval).
  assert (Hval1 : hvals σ1 !! base_value r = Some v)
    by (rewrite <- Hval; symmetry; apply (Hu (LVal _)); congruence).
  rewrite Hr1. cbn [obind]. unfold set_value. rewrite Hv.
  rewrite (read_write_place _ p r _ Hr1). cbn [obind unwrap]. unfold take_val.
  rewrite place_set_hvals. cbn [wheap with_heap]. rewrite Hval1. cbn [obind].
  rewrite place_set_with_vals. eexists _, _. split; [reflexivity|].
  apply NoDup_app in Hnd as (_ & _ & HndP).
  apply (step_finish w _ p _ r r); cbn [wheap with_heap hkeys hvals harrays wpool wroot wstate]; try done.
  - intros [b|b|b] Hb; simpl; [by rewrite Hkk | |by rewrite Ha].
    destruct (decide (b = base_value r)) as [->|Hb']; [destruct Hb; left; set_solver|].
    rewrite lookup_delete_ne by done. apply (Hu (LVal b)). intros [= ->]. by apply Hb; right; right.
  - intros [b|b|b] Hb HT; simpl in *; [by rewrite Hkk | | by rewrite Ha].
    rewrite lookup_delete_ne by (intros Heq; apply HT; rewrite <- Heq; set_solver). by apply (Hg (LVal b)).
  - intros a i ->. split; [done|]. destruct (read_place_slot w a i r Hr) as (arr & Harr & Hi).
    exists arr. split; [done|]. rewrite Ha, Harr. f_equal. symmetry. by apply list_insert_id.
  - apply repr_leaf; simpl; [rewrite is_value_even; apply Hev; lia | by rewrite Hkk |].
    by rewrite lookup_delete_ne.
  - by apply NoDup_leaf_pool.
  - intros l [Hl|Hl]%elem_of_app; [|left; set_solver].
    apply elem_of_cons in Hl as [->|[->|[]%elem_of_nil]%elem_of_cons]; [left; set_solver | by right].
  - apply (wpool_inv_frame (wheap w)); [done|]. intros l (b & ->)%pool_locs_arr. simpl. by rewrite Ha.
Qed.

(** Words with a bitmap and a tagged array address stand for the branch
    whose children the array's words stand for, and own that array. *)
Lemma repr_installed (σ : Heap K V) m a rs cs :
  base_ok a -> harrays σ !! a = Some rs -> Forall2 (repr σ) rs cs -> cs <> [] ->
  repr σ (mk_rnode (BitMap.bits m) (Z.lor a 1)) (Node.Branch m cs) /\
  fp σ (mk_rnode (BitMap.bits m) (Z.lor a 1)) (Node.Branch m cs) = LArr a :: zip_fp (fp σ) rs cs.
Proof.
  intros (Hw & He & Hn) Ha HF Hne. rewrite fp_branch. cbn [base_value]. rewrite untag_tag by done.
  split; [|destruct cs; [done|]; by rewrite Ha].
  apply (repr_branch _ _ _ rs); simpl; rewrite ?untag_tag; auto using is_value_lor_one, bitmap_eta.
Qed.

Lemma get_map_empty f : get_map empty f = (Some tt, mk_rnode (BitMap.bits (f BitMap.empty)) (new_base null)).
Proof. reflexivity. Qed.

Lemma set_base_branch x b a : is_value b = false -> set_base (mk_rnode x b) a = (Some (Z.land b NOT_ONE), mk_rnode x (Z.lor a 1)).
Proof. intros Hb. unfold set_base. simpl. by rewrite Hb. Qed.

Lemma took_grows (σ σ' : Heap K V) P P' a : took σ' P P' a -> grows σ σ' -> took σ P P' a.
Proof. intros [?|[? Hn]] Hg; [by left | right; split; [done|]]. intros ?; by apply Hn, Hg. Qed.

(** What a pool operation hands out is new to what the trie owns. *)
Lemma took_NoDup_gen (σ : Heap K V) P P' a X :
  took σ P P' a -> NoDup P -> (forall l, l ∈ P -> loc_alloc σ l) -> NoDup (X ++ P') ->
  (forall l, l ∈ X -> l <> LArr a) -> (forall l, l ∈ P' -> l ∈ P) ->
  NoDup ((LArr a :: X) ++ P') /\
  (forall l, l ∈ (LArr a :: X) ++ P' -> l ∈ X \/ l ∈ P \/ ~ loc_alloc σ l).
Proof.
  intros Ht HP HPa HXP HX HP'. split.
  - simpl. constructor; [|done]. intros [Hl|Hl]%elem_of_app; [by apply (HX _ Hl)|].
    destruct Ht as [Hperm|[-> Hn]].
    + rewrite Hperm in HP. by apply NoDup_cons in HP as [? _].
    + by apply Hn, HPa.
  - intros l [->|Hl]%elem_of_cons.
    + destruct Ht as [Hperm|[_ Hn]]; [right; left; rewrite Hperm; left | by right; right].
    + apply elem_of_app in Hl as [Hl|Hl]; [by left | right; left; by apply HP'].
Qed.

(** The buffer a pool operation returned is new to the trie and the
    pool that remains. *)
Lemma took_NoDup (σ : Heap K V) P P' a X :
  took σ P P' a -> NoDup P -> (forall l, l ∈ P -> loc_alloc σ l) -> NoDup (X ++ P') ->
  (forall l, l ∈ X -> ~ loc_alloc σ l /\ l <> LArr a) -> (forall l, l ∈ P' -> l ∈ P) ->
  NoDup ((LArr a :: X) ++ P') /\
  (forall l, l ∈ (LArr a :: X) ++ P' -> l ∈ P \/ ~ loc_alloc σ l).
Proof.
  intros Ht HP HPa HXP HX HP'.
  destruct (took_NoDup_gen σ P P' a X Ht HP HPa HXP) as [Hnd Hin]; [intros l Hl; by apply HX | done |].
  split; [done|]. intros l Hl. destruct (Hin l Hl) as [Hx|[?|?]]; [right; by apply HX | by left | by right].
Qed.

Lemma took_sub (σ : Heap K V) P P' a : took σ P P' a -> forall l, l ∈ P' -> l ∈ P.
Proof. intros [Hperm|[-> _]] l Hl; [rewrite Hperm; by right | done]. Qed.

Lemma heap_step_grows (σ σ' : Heap K V) a : heap_step σ σ' a -> is_Some (harrays σ' !! a) -> grows σ σ'.
Proof.
  intros (F & _) Ha l Hl. destruct (decide (l = LArr a)) as [->|Hne]; [done|].
  exact (loc_alloc_same σ σ' l (F l Hne) Hl).
Qed.

Lemma fp_leaf (σ : Heap K V) r k v : fp σ r (Node.Leaf k v) = [LKey (map_key r); LVal (base_value r)].
Proof. reflexivity. Qed.

(** A write into [cur] keeps what a step needs of the pool. *)
Lemma place_set_pre (w : @WHamt K V St) p r r1 :
  read_place w p = Done r -> (forall l, place_loc p l -> l ∉ pool_locs (wpool w)) ->
  wpool_inv (wheap w) (wpool w) ->
  read_place (place_set w p r1) p = Done r1 /\ wpool (place_set w p r1) = wpool w /\
  wpool_inv (wheap (place_set w p r1)) (wpool w) /\ hsize (wheap (place_set w p r1)) = hsize (wheap w).
Proof.
  intros Hr Hp Hinv. split; [by apply read_place_set with r|]. split; [by destruct p|].
  split; [|by apply place_set_size with r].
  apply (wpool_inv_frame (wheap w)); [done|]. intros l Hl. apply (place_set_unchanged w p r r1 Hr).
  intros Hpl. by apply (Hp l Hpl).
Qed.

(** Installing a child array under [cur]: the boxes of the children
    were allocated first (the cells [zip_fp], new to [w]), then the pool
    handed out the array [a] holding their words, and [set_base] makes
    [cur] point to it. *)
Lemma step_install (w : @WHamt K V St) p m σ1 pl σ2 a rs cs :
  read_place w p = Done (mk_rnode (BitMap.bits m) (new_base null)) ->
  NoDup (pool_locs (wpool w)) -> (forall l, place_loc p l -> l ∉ pool_locs (wpool w)) ->
  wpool_inv (wheap w) (wpool w) ->
  unchanged (wheap w) σ1 (fun l => l ∈ zip_fp (fp σ1) rs cs) -> grows (wheap w) σ1 ->
  (forall l, l ∈ zip_fp (fp σ1) rs cs -> ~ loc_alloc (wheap w) l) ->
  Forall2 (repr σ1) rs cs -> NoDup (zip_fp (fp σ1) rs cs) -> cs <> [] ->
  took σ1 (pool_locs (wpool w)) (pool_locs pl) a -> heap_step σ1 σ2 a -> harrays σ2 !! a = Some rs ->
  base_ok a -> wpool_inv σ2 pl ->
  exists w', modify_place (with_pool w pl σ2) p (fun r => (set_base r a).2) = Done w' /\
    step_post w p [] w' (mk_rnode (BitMap.bits m) (Z.lor a 1)) (Node.Branch m cs) /\
    hsize (wheap w') = hsize σ2 /\ harrays (wheap w') !! a = Some rs.
Proof.
  set (X := zip_fp (fp σ1) rs cs).
  intros Hr HP Hp Hinv Hu1 Hg1 Hfr HF HndX Hne Ht Hstep Ha Hb Hinv2.
  pose proof (took_grows (wheap w) σ1 _ _ a Ht Hg1) as Ht0.
  assert (HalX : forall l, l ∈ X -> loc_alloc σ1 l) by (by apply zip_fp_alloc).
  assert (HPX : forall l, l ∈ pool_locs (wpool w) -> l ∉ X)
    by (intros l Hl HX; by apply (Hfr l HX), (pool_locs_alloc _ (wpool w))).
  assert (HaX : forall l, l ∈ X -> l <> LArr a).
  { intros l Hl ->. destruct Ht as [Hperm|[_ Hn]]; [|by apply Hn, HalX].
    apply (HPX _ ltac:(rewrite Hperm; left) Hl). }
  assert (Hsame : forall l, loc_alloc (wheap w) l -> l ∉ pool_locs (wpool w) -> loc_same (wheap w) σ2 l).
  { intros l Hal Hl. apply (loc_same_trans _ σ1); [apply Hu1; intros HX; by apply (Hfr l HX)|].
    apply (proj1 Hstep). intros ->. destruct Ht0 as [Hperm|[_ Hn]]; [|by apply Hn].
    apply Hl. rewrite Hperm. left. }
  assert (Hr3 : read_place (with_pool w pl σ2) p = Done (mk_rnode (BitMap.bits m) (new_base null))).
  { apply (read_place_frame w); [done| |done]. intros l Hl.
    apply Hsame; [by apply (place_loc_alloc w p _ l Hr) | by apply Hp]. }
  unfold modify_place. rewrite Hr3. cbn [obind]. rewrite set_base_branch by reflexivity. cbn [snd].
  rewrite (read_write_place _ p _ _ Hr3). eexists _. split; [reflexivity|].
  split; [|split; [by rewrite (place_set_size _ p _ _ Hr3)|]].
  2:{ rewrite <- Ha. symmetry. apply (place_set_unchanged _ p _ _ Hr3 (LArr a)). intros Hpl.
      destruct p as [|pa j]; [done|]. simpl in Hpl. injection Hpl as ->.
      destruct Ht0 as [Hperm|[_ Hn]]; [apply (Hp (LArr pa) eq_refl); rewrite Hperm; left|].
      by apply Hn, (place_loc_alloc w (PSlot pa j) _ (LArr pa) Hr). }
  destruct (zip_frame σ1 σ2 rs cs HF) as [HF2 Hz]; [intros l Hl; apply (proj1 Hstep); by apply HaX|].
  destruct (repr_installed σ2 m a _ _ Hb Ha HF2 Hne) as [Hrepr Hfp].
  assert (HX : forall l, l ∈ X -> ~ loc_alloc (wheap w) l /\ l <> LArr a) by (intros l Hl; split; auto).
  assert (HXnd : NoDup (X ++ pool_locs pl)).
  { apply NoDup_app. split; [done|]. split; [|by apply (took_NoDup_rest (wheap w) _ _ a Ht0)].
    intros l HlX Hl. apply (HPX l); [by apply (took_sub _ _ _ _ Ht0) | done]. }
  destruct (took_NoDup (wheap w) _ _ a _ Ht0 HP (fun l Hl => pool_locs_alloc (wheap w) (wpool w) l Hinv Hl)
              HXnd HX (took_sub _ _ _ _ Ht0)) as [Nd Nw].
  apply (step_finish w _ p [] (mk_rnode (BitMap.bits m) (new_base null)) (mk_rnode (BitMap.bits m) (new_base null)));
    cbn [wheap with_pool wpool wroot wstate]; try done.
  - intros l Hl. apply Hsame; [|tauto]. destruct (decide (loc_alloc (wheap w) l)); tauto.
  - intros l Hl _. apply (heap_step_grows σ1 σ2 a Hstep); [rewrite Ha; eauto|]. by apply Hg1.
  - intros pa i ->. split; [done|]. destruct (read_place_slot w pa i _ Hr) as (arr & Harr & Hi).
    exists arr. split; [done|]. rewrite list_insert_id by done. rewrite <- Harr. symmetry.
    apply (Hsame (LArr pa)); [simpl; rewrite Harr; eauto | by apply (Hp (LArr pa))].
  - by rewrite Hfp, Hz.
  - by rewrite Hfp, Hz.
Qed.

(** Two new leaves from [FreeList::pair] installed under [cur], whose
    words carry a bitmap and the null base. *)
Lemma winstall_pair_refines (w : @WHamt K V St) p m k1 v1 k2 v2 :
  read_place w p = Done (mk_rnode (BitMap.bits m) (new_base null)) ->
  NoDup (pool_locs (wpool w)) -> (forall l, place_loc p l -> l ∉ pool_locs (wpool w)) ->
  wpool_inv (wheap w) (wpool w) -> Z.of_nat (hsize (wheap w)) + 5 < ALLOC_LIMIT ->
  exists w' r', winstall_pair w p k1 v1 k2 v2 = Done w' /\
    step_post w p [] w' r' (Node.Branch m [Node.Leaf k1 v1; Node.Leaf k2 v2]) /\
    (hsize (wheap w') <= hsize (wheap w) + 5)%nat.
Proof.
  intros Hr HP Hp Hinv Hs. unfold winstall_pair.
  pose proof (new_key_value_spec (wheap w) k1 v1 ltac:(lia)) as S1.
  destruct (new_key_value (wheap w) k1 v1) as [σ1 kv1]. destruct S1 as (R1 & N1 & F1 & U1 & G1 & A1 & Z1).
  pose proof (new_key_value_spec σ1 k2 v2 ltac:(lia)) as S2.
  destruct (new_key_value σ1 k2 v2) as [σ2 kv2]. destruct S2 as (R2 & N2 & F2 & U2 & G2 & A2 & Z2).
  assert (Hinv2 : wpool_inv σ2 (wpool w)).
  { apply (wpool_inv_frame (wheap w)); [done|]. intros l (b & ->)%pool_locs_arr. simpl. congruence. }
  destruct (wpair_ok σ2 (wpool w) kv1 kv2 Hinv2 HP) as (pl3 & σ3 & a & Hpair & Ha3 & Hb & Ht & Hstep & Hinv3).
  { unfold hsize in *. rewrite A2, A1. lia. }
  rewrite Hpair. cbn [obind].
  assert (HX : zip_fp (fp σ2) [kv1; kv2] [Node.Leaf k1 v1; Node.Leaf k2 v2] =
               fp σ1 kv1 (Node.Leaf k1 v1) ++ fp σ2 kv2 (Node.Leaf k2 v2)) by (cbn [zip_fp]; by rewrite app_nil_r).
  destruct (step_install w p m σ2 pl3 σ3 a [kv1; kv2] [Node.Leaf k1 v1; Node.Leaf k2 v2])
    as (w' & Hmod & Hpost & Hsz' & _); rewrite ?HX; try done.
  - apply (unchanged_trans _ σ1 _ _ _ _ U1 U2). intros l [?|?]; set_solver.
  - by apply (grows_trans _ σ1).
  - intros l [Hl|Hl]%elem_of_app; [by apply F1 | intros Hal; by apply (F2 l Hl), G1].
  - constructor; [|constructor; [done | constructor]].
    apply (repr_frame σ1); [done|]. intros l Hl. apply U2. intros Hl2. apply (F2 l Hl2).
    by apply (fp_alloc σ1 kv1 (Node.Leaf k1 v1)).
  - apply NoDup_app. split; [done|]. split; [|done]. intros l Hl1 Hl2.
    by apply (F2 l Hl2), (fp_alloc σ1 kv1 (Node.Leaf k1 v1)).
  - eexists _, _. split; [exact Hmod|]. split; [exact Hpost|].
    destruct Hstep as (_ & Hk & Hv & Hsz). rewrite Hsz'. unfold hsize in *. rewrite Hk, Hv. lia.
Qed.

(** The [i != j] arm of the split loop on a fresh empty branch. *)
Lemma wsplit_pair_refines (w : @WHamt K V St) p i j key value ko vo :
  read_place w p = Done empty ->
  NoDup (pool_locs (wpool w)) -> (forall l, place_loc p l -> l ∉ pool_locs (wpool w)) ->
  wpool_inv (wheap w) (wpool w) -> Z.of_nat (hsize (wheap w)) + 5 < ALLOC_LIMIT ->
  exists w' r', wsplit_pair w p i j key value ko vo = Done w' /\
    step_post w p [] w' r' (Node.Branch (BitMap.set (BitMap.set BitMap.empty i) j)
      (if decide (j < i)%nat then [Node.Leaf ko vo; Node.Leaf key value]
       else [Node.Leaf key value; Node.Leaf ko vo])).
Proof.
  intros Hr HP Hp Hinv Hs. unfold wsplit_pair. rewrite (modify_place_read w p _ empty Hr). cbn [obind].
  rewrite get_map_empty. cbn [snd].
  set (r1 := mk_rnode (BitMap.bits (BitMap.set (BitMap.set BitMap.empty i) j)) (new_base null)).
  destruct (place_set_pre w p empty r1 Hr Hp Hinv) as (Hr1 & Hpl1 & Hinv1 & Hsz1).
  destruct (decide (j < i)%nat);
    [destruct (winstall_pair_refines (place_set w p r1) p _ ko vo key value Hr1) as (w' & r' & Hins & Hpost & _)
    |destruct (winstall_pair_refines (place_set w p r1) p _ key value ko vo Hr1) as (w' & r' & Hins & Hpost & _)];
    rewrite ?Hpl1, ?Hsz1; try done;
    rewrite Hins; eexists _, _; (split; [reflexivity|]); apply (step_post_after_write w p empty r1); done.
Qed.

(** The [i == j] arm: [cur] gets bit [i] and a singleton array holding
    [Node::empty()], whose slot the loop continues from. *)
Lemma wchain_link_refines (w : @WHamt K V St) p i :
  read_place w p = Done empty ->
  NoDup (pool_locs (wpool w)) -> (forall l, place_loc p l -> l ∉ pool_locs (wpool w)) ->
  wpool_inv (wheap w) (wpool w) -> Z.of_nat (hsize (wheap w)) + 1 < ALLOC_LIMIT ->
  exists w' a, wchain_link w p i = Done (w', a) /\
    step_post w p [] w' (mk_rnode (BitMap.bits (BitMap.set BitMap.empty i)) (Z.lor a 1))
      (Node.Branch (BitMap.set BitMap.empty i) [Node.empty]) /\
    harrays (wheap w') !! a = Some [empty] /\ base_ok a /\ (hsize (wheap w') <= hsize (wheap w) + 1)%nat.
Proof.
  intros Hr HP Hp Hinv Hs. unfold wchain_link. rewrite (modify_place_read w p _ empty Hr). cbn [obind].
  rewrite get_map_empty. cbn [snd].
  set (r1 := mk_rnode (BitMap.bits (BitMap.set BitMap.empty i)) (new_base null)).
  destruct (place_set_pre w p empty r1 Hr Hp Hinv) as (Hr1 & Hpl1 & Hinv1 & Hsz1).
  rewrite <- Hpl1 in Hinv1.
  destruct (wsingleton_ok (wheap (place_set w p r1)) _ empty Hinv1) as (pl & σ2 & a & Hsg & Ha2 & Hb & Ht & Hstep & Hinv2);
    [by rewrite Hpl1 | unfold hsize in *; lia |].
  rewrite Hsg. cbn [obind].
  destruct (step_install (place_set w p r1) p (BitMap.set BitMap.empty i) (wheap (place_set w p r1)) pl σ2 a
              [empty] [Node.empty]) as (w' & Hmod & Hpost & Hsz' & Ha');
    rewrite ?Hpl1; try done.
  - by rewrite <- Hpl1.
  - intros l _. apply loc_same_refl.
  - intros l Hl. exact Hl.
  - intros l Hl. by apply elem_of_nil in Hl.
  - constructor; [apply repr_empty | constructor].
  - constructor.
  - by rewrite <- Hpl1.
  - rewrite Hmod. cbn [obind]. exists w', a. split; [reflexivity|].
    split; [by apply (step_post_after_write w p empty r1)|]. split; [done|]. split; [done|].
    destruct Hstep as (_ & Hk & Hv & Hsz). rewrite Hsz'. unfold hsize in *. rewrite Hk, Hv. lia.
Qed.

End Refine.

(** ** The walk refines [Hamt.insert_node] *)

Section Walk.
Context {K V H St P : Type} `{EqDecision K} `{HashStream.Hasher H} `{!Hamt.BuildHasher St H}
  `{!Hamt.Hash K H} `{Alloc} `{!AllocLaws}
  `{pool : !FreeList.Pool (Node.Node K V) P} `{pool_laws : !FreeList.PoolLaws (Node.Node K V) P}.

Lemma base_of_tagged a x : base_ok a -> Z.land (base_value (mk_rnode x (Z.lor a 1))) NOT_ONE = a.
Proof. intros (Hw & He & _). by apply untag_tag. Qed.

(** The split loop on words builds, from a fresh empty branch, the
    nodes the split loop on the trie builds. *)
Lemma wsplit_refines key value ko vo fuel : forall (w : @WHamt K V St) p stream so (fl : P) n' fl',
  Hamt.split fuel fl Node.empty stream so key value ko vo = Done (n', fl') -> FreeList.pool_wf fl ->
  read_place w p = Done empty ->
  NoDup (pool_locs (wpool w)) -> (forall l, place_loc p l -> l ∉ pool_locs (wpool w)) ->
  wpool_inv (wheap w) (wpool w) -> Z.of_nat (hsize (wheap w) + fuel) + 5 < ALLOC_LIMIT ->
  exists w' r', wsplit fuel w p stream so key value ko vo = Done w' /\ step_post w p [] w' r' n'.
Proof.
  induction fuel as [|fuel IH]; intros w p stream so fl n' fl' Hsp Hwf Hr HP Hp Hinv Hs; [done|].
  cbn [Hamt.split] in Hsp. cbn [wsplit].
  destruct (Hamt.draw stream) as [[i s1]|e] eqn:Hd; cbn [obind] in Hsp |- *; [|done].
  destruct (Hamt.draw_skip so) as [[j so1]|e] eqn:Hds; cbn [obind] in Hsp |- *; [|done].
  rewrite Hr. cbn [obind]. destruct (inner empty) eqn:Hin; [discriminate|]. clear Hin.
  cbn [Node.inner Node.empty Node.get_map] in Hsp.
  destruct (decide (i = j)) as [<-|Hij].
  - destruct (FreeList.pool_singleton_ok fl Node.empty Hwf) as (fl1 & Hps & Hwf1). rewrite Hps in Hsp.
    cbn [obind Node.set_base] in Hsp. simpl in Hsp.
    destruct (Hamt.split fuel fl1 Node.empty s1 so1 key value ko vo) as [[c' fl2]|e] eqn:Hrec; [|done].
    simpl in Hsp. injection Hsp as <- <-.
    destruct (wchain_link_refines w p i Hr HP Hp Hinv) as (w1 & a & Hcl & Hpost1 & Ha1 & Hb & Hsz1); [lia|].
    rewrite Hcl. cbn [obind].
    pose proof Hpost1 as (Hr1 & Hrepr1 & Hnd1 & Hnew1 & _ & _ & _ & Hinv1 & _).
    assert (Hfp1 : fp (wheap w1) (mk_rnode (BitMap.bits (BitMap.set BitMap.empty i)) (Z.lor a 1))
                     (Node.Branch (BitMap.set BitMap.empty i) [Node.empty]) = [LArr a]).
    { rewrite fp_branch, base_of_tagged, Ha1 by done. reflexivity. }
    rewrite Hfp1 in Hnew1. pose proof Hnd1 as Hnd1'. rewrite Hfp1 in Hnd1'. apply NoDup_cons in Hnd1' as [Ha HndP].
    assert (Hra : read_place w1 (PSlot a 0) = Done empty) by (simpl; unfold read_array; by rewrite Ha1).
    destruct (IH w1 (PSlot a 0) s1 so1 fl1 c' fl2 Hrec Hwf1 Hra HndP) as (w2 & r2 & Hws & Hpost2);
      [intros l Hl; simpl in Hl; by subst | done | lia |].
    rewrite Hws. eexists _, _. split; [reflexivity|].
    apply (step_post_trans w w1 w2 p [] _ _ _ _ Hpost1).
    apply (step_post_descend w1 w2 p _ _ [Node.empty] [empty] 0 empty Node.empty r2 c'); try done.
    + by rewrite base_of_tagged.
    + rewrite Hfp1. intros l Hl Hin. destruct (Hnew1 l Hin) as [Hin'|Hna]; [by apply (Hp l Hl) |].
      by apply Hna, (place_loc_alloc w p empty).
    + by rewrite base_of_tagged.
  - destruct (wsplit_pair_refines w p i j key value ko vo Hr HP Hp Hinv) as (w' & r' & Hwp & Hpost); [lia|].
    rewrite Hwp. exists w', r'. split; [done|].
    destruct (decide (j < i)%nat);
      [destruct (FreeList.pool_pair_ok fl (Node.key_value ko vo) (Node.key_value key value) Hwf) as (fl1 & Hpp & _)
      |destruct (FreeList.pool_pair_ok fl (Node.key_value key value) (Node.key_value ko vo) Hwf) as (fl1 & Hpp & _)];
      rewrite Hpp in Hsp; simpl in Hsp; by injection Hsp as <- <-.
Qed.

(** A leaf with another key: its words give way to an empty branch
    and the split loop runs from there.  The leaf's two boxes, which
    [ptr::read] copied, stay allocated with their contents, and neither
    the subtrie that replaces the leaf nor the pool owns them. *)
Lemma wsplit_leaf_refines (w : @WHamt K V St) p r k v stream depth key value fuel (fl : P) n' fl' :
  step_pre w p r (Node.Leaf k v) ->
  Hamt.split fuel fl Node.empty stream (HashStream.skip (Hamt.key_hash (wstate w) k) depth) key value k v
    = Done (n', fl') ->
  FreeList.pool_wf fl -> Z.of_nat (hsize (wheap w) + fuel) + 5 < ALLOC_LIMIT ->
  exists w' r', wsplit_leaf fuel w p stream depth (map_key r) (base_value r) key value = Done (w', None) /\
    step_post w p (fp (wheap w) r (Node.Leaf k v)) w' r' n' /\
    hkeys (wheap w') !! map_key r = Some k /\ hvals (wheap w') !! base_value r = Some v /\
    LKey (map_key r) ∉ fp (wheap w') r' n' ++ pool_locs (wpool w') /\
    LVal (base_value r) ∉ fp (wheap w') r' n' ++ pool_locs (wpool w').
Proof.
  intros (Hr & Hrepr & Hnd & Hp & Hinv) Hsp Hwf Hs.
  inversion Hrepr as [? ? ? Hv Hk Hval| |]; subst.
  unfold wsplit_leaf, deref_key, deref_val. rewrite Hk, Hval. cbn [obind].
  rewrite (read_write_place w p r empty Hr). cbn [obind].
  assert (HpP : forall l, place_loc p l -> l ∉ pool_locs (wpool w)) by (intros l Hl Hin; apply (Hp l Hl); set_solver).
  destruct (place_set_pre w p r empty Hr HpP Hinv) as (Hr1 & Hpl1 & Hinv1 & Hsz1).
  apply NoDup_app in Hnd as (_ & _ & HndP).
  destruct (wsplit_refines key value k v fuel (place_set w p empty) p stream _ fl n' fl' Hsp Hwf Hr1)
    as (w' & r' & Hws & Hpost); rewrite ?Hpl1, ?Hsz1; try done.
  rewrite Hws. cbn [obind]. eexists _, _. split; [reflexivity|]. split.
  { apply (step_post_widen _ _ _ []); [intros l Hl; by apply elem_of_nil in Hl|].
    by apply (step_post_after_write w p r empty). }
  pose proof Hpost as (_ & _ & _ & Hnew & Hun & _).
  assert (Hk1 : hkeys (wheap (place_set w p empty)) = hkeys (wheap w)) by (by destruct p).
  pose proof (place_set_hvals w p empty) as Hv1.
  assert (Hbox : forall l, l = LKey (map_key r) \/ l = LVal (base_value r) ->
            l ∉ fp (wheap w') r' n' ++ pool_locs (wpool w') /\ loc_same (wheap (place_set w p empty)) (wheap w') l).
  { intros l Hl.
    assert (Ha : loc_alloc (wheap (place_set w p empty)) l)
      by (destruct Hl as [-> | ->]; simpl; [rewrite Hk1 | rewrite Hv1]; eauto).
    assert (HnP : l ∉ pool_locs (wpool (place_set w p empty)))
      by (intros (? & ? & ? & _ & _ & ->)%elem_of_pool_locs; destruct Hl; discriminate).
    split.
    - intros Hin. destruct (Hnew l Hin) as [Hin'|Hna]; [by apply HnP | done].
    - apply Hun. intros [Hin'|[Hpl|Hna]]; [by apply HnP | | done].
      destruct p; simpl in Hpl; [done|]. subst l. by destruct Hl. }
  destruct (Hbox _ (or_introl eq_refl)) as [HoK HsK]. destruct (Hbox _ (or_intror eq_refl)) as [HoV HsV].
  simpl in HsK, HsV. rewrite Hk1 in HsK. rewrite Hv1 in HsV. rewrite <- HsK, <- HsV. done.
Qed.

(** A branch without bit [i]: the grown array from [FreeList::push]
    holds the old children's words with the new leaf's at its rank, and
    the old array goes to the pool. *)
Lemma wgrow_refines (w : @WHamt K V St) p r m cs i key value :
  step_pre w p r (Node.Branch m cs) -> length cs = BitMap.set_bits m -> (0 < length cs < 64)%nat ->
  (BitMap.set_bits_under m i <= length cs)%nat -> Z.of_nat (hsize (wheap w)) + 3 < ALLOC_LIMIT ->
  exists w' r', wgrow w p m (Z.land (base_value r) NOT_ONE) i key value = Done (w', None) /\
    step_post w p (fp (wheap w) r (Node.Branch m cs)) w' r'
      (Node.Branch (BitMap.set m i) (insert_at (BitMap.set_bits_under m i) (Node.Leaf key value) cs)).
Proof.
  intros (Hr & Hrepr & Hnd & Hp & Hinv) Hlen Hlen64 Hpos Hs.
  set (b := Z.land (base_value r) NOT_ONE). set (pos := BitMap.set_bits_under m i).
  inversion Hrepr as [|? ? _ _ _ _ |? ? src ? Hv Hm Hb Hsrc HF Hne]; [subst; simpl in Hlen64; lia|].
  fold b in Hb, Hsrc. pose proof (base_ok_untag _ Hb) as Hbok. fold b in Hbok.
  pose proof (Forall2_length _ _ _ HF) as HlenS.
  assert (Hfp : fp (wheap w) r (Node.Branch m cs) = LArr b :: zip_fp (fp (wheap w)) src cs).
  { rewrite fp_branch. destruct cs; [done|]. fold b. by rewrite Hsrc. }
  assert (HalT : forall l, l ∈ fp (wheap w) r (Node.Branch m cs) -> loc_alloc (wheap w) l) by (by apply fp_alloc).
  apply NoDup_app in Hnd as (HndT & HdisTP & HndP).
  assert (HpP : forall l, place_loc p l -> l ∉ pool_locs (wpool w)) by (intros l Hl Hin; apply (Hp l Hl); set_solver).
  unfold wgrow. rewrite (modify_place_read w p _ r Hr). cbn [obind].
  set (r1 := (get_map r (fun m0 => BitMap.set m0 i)).2).
  assert (Hr1e : r1 = mk_rnode (BitMap.bits (BitMap.set m i)) (base_value r))
    by (unfold r1, get_map; rewrite Hv; cbn [snd]; by rewrite Hm).
  destruct (place_set_pre w p r r1 Hr HpP Hinv) as (Hr1 & Hpl1 & Hinv1 & Hsz1).
  pose proof (place_set_unchanged w p r r1 Hr) as Hu1. pose proof (place_set_grows w p r r1 Hr) as Hg1.
  assert (HnpT : forall l, l ∈ fp (wheap w) r (Node.Branch m cs) -> ~ place_loc p l) by (intros l Hl Hpl; apply (Hp l Hpl); set_solver).
  assert (Hsrc1 : harrays (wheap (place_set w p r1)) !! b = Some src).
  { rewrite <- Hsrc. symmetry. apply (Hu1 (LArr b)). apply HnpT. rewrite Hfp. left. }
  unfold deref_array. rewrite decide_False by done. rewrite Hsrc1. cbn [obind].
  rewrite <- Hlen, <- HlenS, Hamt.slice_from_raw_ok. cbn [obind].
  pose proof (new_key_value_spec (wheap (place_set w p r1)) key value ltac:(rewrite Hsz1; lia)) as S2.
  destruct (new_key_value (wheap (place_set w p r1)) key value) as [σ2 kv]. destruct S2 as (R2 & N2 & F2 & U2 & G2 & A2 & Z2).
  rewrite Hpl1.
  assert (Hinv2 : wpool_inv σ2 (wpool w)).
  { apply (wpool_inv_frame (wheap (place_set w p r1))); [done|]. intros l (c & ->)%pool_locs_arr. simpl. by rewrite A2. }
  assert (HbP : LArr b ∉ pool_locs (wpool w)) by (apply (HdisTP (LArr b)); rewrite Hfp; left).
  destruct (wpush_ok σ2 (wpool w) b src kv Hinv2 HndP HbP Hbok ltac:(by rewrite A2) ltac:(lia))
    as (pl & σ3 & a & Hpush & Ha3 & Haok & Hab & (Q & Ht & HplQ) & Hstep & Hinv3).
  { unfold hsize in *. rewrite A2. lia. }
  rewrite Hpush. cbn [obind]. unfold read_array. rewrite Ha3. cbn [obind].
  rewrite Hamt.shift_into_place_correct by lia. cbn [obind].
  set (arr := insert_at pos kv src). set (σ4 := set_array σ3 a arr).
  set (w1 := place_set w p r1).
  assert (Hpw1 : wpool w1 = wpool w) by exact Hpl1.
  pose proof (took_grows (wheap w1) σ2 _ _ a Ht G2) as Ht1.
  assert (HaN : forall l, loc_alloc (wheap w1) l -> l ∉ pool_locs (wpool w) -> l <> LArr a).
  { intros l Hal Hl ->. destruct Ht1 as [Hperm|[_ Hn]]; [apply Hl; rewrite Hperm; left | by apply Hn]. }
  assert (Hs24 : forall l, l <> LArr a -> loc_same σ2 σ4 l)
    by (intros l Hl; apply (loc_same_trans _ σ3); [by apply (proj1 Hstep) | by apply set_array_same]).
  assert (Hsame : forall l, loc_alloc (wheap w1) l -> l ∉ pool_locs (wpool w) -> loc_same (wheap w1) σ4 l).
  { intros l Hal Hl. apply (loc_same_trans _ σ2); [apply U2; intros Hin; by apply (F2 l Hin) | apply Hs24; by apply HaN]. }
  assert (Hr2 : read_place (with_pool w1 pl σ4) p = Done r1).
  { apply (read_place_frame w1); [done| |done]. intros l Hl.
    apply Hsame; [by apply (place_loc_alloc _ p r1) | by apply HpP]. }
  rewrite (modify_place_read _ p _ r1 Hr2). cbn [obind].
  assert (Hsb : set_base r1 a = (Some (Z.land (base_value r) NOT_ONE), mk_rnode (BitMap.bits (BitMap.set m i)) (Z.lor a 1)))
    by (rewrite Hr1e; by apply set_base_branch).
  rewrite Hsb. cbn [snd]. eexists _, _. split; [reflexivity|].
  apply (step_post_after_write w p r r1); [done|]. fold w1.
  assert (Hch : forall l, l ∈ zip_fp (fp (wheap w)) src cs -> loc_same (wheap w) σ4 l).
  { intros l Hl. assert (HlT : l ∈ fp (wheap w) r (Node.Branch m cs)) by (rewrite Hfp; by right).
    apply (loc_same_trans _ (wheap w1)); [by apply Hu1, HnpT|].
    apply Hsame; [by apply Hg1, HalT | by apply HdisTP]. }
  destruct (zip_frame (wheap w) σ4 src cs HF Hch) as [HF4 Hz4].
  assert (HR4 : repr σ4 kv (Node.Leaf key value)).
  { apply (repr_frame σ2 σ4 _ _ R2). intros l Hl. apply Hs24. rewrite fp_leaf in Hl. set_solver. }
  assert (Hne' : insert_at pos (Node.Leaf key value) cs <> []).
  { intros E. pose proof (length_insert_at pos (Node.Leaf key value) cs Hpos) as HL. rewrite E in HL. simpl in HL. lia. }
  destruct (repr_installed σ4 (BitMap.set m i) a arr (insert_at pos (Node.Leaf key value) cs) Haok
              (set_array_lookup _ _ _) (Forall2_insert_at _ _ _ _ _ _ HF4 HR4) Hne') as [Hrepr4 Hfp4].
  set (X := fp σ2 kv (Node.Leaf key value) ++ fp (wheap w) r (Node.Branch m cs)).
  assert (HP4 : fp σ4 (mk_rnode (BitMap.bits (BitMap.set m i)) (Z.lor a 1))
                  (Node.Branch (BitMap.set m i) (insert_at pos (Node.Leaf key value) cs)) ++ pool_locs pl
                ≡ₚ (LArr a :: X) ++ Q).
  { rewrite Hfp4, HplQ. unfold X, arr. rewrite Hfp.
    rewrite (zip_fp_insert_at _ _ _ _ _ _ HlenS) by lia. rewrite Hz4, !fp_leaf. solve_Permutation. }
  assert (HalP : forall l, l ∈ pool_locs (wpool w) -> loc_alloc (wheap w1) l)
    by (intros l Hl; by apply (pool_locs_alloc _ (wpool w))).
  assert (HXQ : NoDup (X ++ Q)).
  { unfold X. rewrite <- app_assoc. apply NoDup_app. split; [done|]. split.
    - intros l Hl [HlT|HlQ]%elem_of_app; apply (F2 l Hl); [by apply Hg1, HalT | by apply HalP, (took_sub _ _ _ _ Ht1)].
    - apply NoDup_app. split; [done|]. split; [|by apply (took_NoDup_rest _ _ _ a Ht1)].
      intros l HlT HlQ. by apply (HdisTP l HlT), (took_sub _ _ _ _ Ht1). }
  assert (HXa : forall l, l ∈ X -> l <> LArr a).
  { intros l [Hl|Hl]%elem_of_app; [rewrite fp_leaf in Hl; set_solver|]. apply HaN; [by apply Hg1, HalT | by apply HdisTP]. }
  destruct (took_NoDup_gen _ _ _ a X Ht1 HndP HalP HXQ HXa (took_sub _ _ _ _ Ht1)) as [Nd Nw].
  apply (step_finish w1 _ p _ r1 r1); cbn [wheap with_pool wpool wroot wstate]; try done; rewrite ?Hpw1.
  - exact Hp.
  - intros l HS. apply Hsame; [destruct (decide (loc_alloc (wheap w1) l)); tauto|].
    intros Hin. apply HS. left. apply elem_of_app. by right.
  - intros l Hal _. apply (grows_set_array σ3 a arr). apply (heap_step_grows σ2 σ3 a Hstep); [rewrite Ha3; eauto|].
    by apply G2.
  - intros pa j ->. split; [done|]. destruct (read_place_slot w1 pa j r1 Hr1) as (arrb & Hb' & Hj).
    exists arrb. split; [done|]. rewrite list_insert_id by done.
    transitivity (harrays (wheap w1) !! pa); [|exact Hb']. symmetry.
    apply (Hsame (LArr pa)); [cbn [loc_alloc]; exists arrb; exact Hb' | by apply (HpP (LArr pa))].
  - by rewrite HP4.
  - intros l Hl. rewrite HP4 in Hl. destruct (Nw l Hl) as [HX|[HP|Hna]]; [|left; apply elem_of_app; by right | by right].
    apply elem_of_app in HX as [Hk|HT]; [right; by apply F2 | left; apply elem_of_app; by left].
  - apply wpool_inv_set; [done|]. rewrite HplQ. apply NoDup_cons in Nd as [HnA _].
    intros [Hab'|HaQ]%elem_of_cons; [injection Hab' as Hab'; by apply Hab | apply HnA, elem_of_app; by right].
Qed.

(** The walk on words from [cur] follows the walk on the trie: it
    returns the same displaced value and leaves in [cur] words standing
    for the node the trie's walk builds. *)
Lemma wloop_refines st fuel key value n : forall wfuel (w : @WHamt K V St) p r d (fl : P) n' fl' old,
  Hamt.wf_node st d n -> FreeList.pool_wf fl ->
  Hamt.insert_node fuel st fl n (HashStream.advance d (Hamt.key_hash st key)) d key value = Done (n', fl', old) ->
  wstate w = st -> step_pre w p r n -> (depth n < wfuel)%nat ->
  Z.of_nat (hsize (wheap w) + fuel) + 5 < ALLOC_LIMIT ->
  exists w' r', wloop wfuel fuel w p (HashStream.advance d (Hamt.key_hash st key)) d key value = Done (w', old) /\
    step_post w p (fp (wheap w) r n) w' r' n'.
Proof.
  induction n as [k v | m cs IH] using Node.Node_ind';
    intros [|wfuel] w p r d fl n' fl' old Hwf Hfl Hins Hst Hpre Hdep Hs; try (simpl in Hdep; lia).
  - pose proof Hpre as (Hr & Hrepr & _). cbn [wloop]. rewrite Hr. cbn [obind].
    inversion Hrepr as [? ? ? Hv Hk Hval| |]; subst. unfold inner. rewrite Hv. cbv beta iota.
    unfold deref_key. rewrite Hk. cbn [obind]. cbn [Hamt.insert_node] in Hins.
    destruct (decide (k = key)) as [<-|Hne].
    + simpl in Hins. injection Hins as <- <- <-.
      destruct (woverwrite_refines w p r k v value Hpre ltac:(lia)) as (w' & r' & Hw & Hpost).
      rewrite Hw. eauto.
    + obind_inv Hins. destruct a as [c fl1]. injection Hins as <- <- <-.
      destruct (wsplit_leaf_refines w p r k v _ d key value fuel fl _ _ Hpre Ha Hfl Hs) as (w' & r' & Hw & Hpost & _).
      rewrite Hw. eauto.
  - pose proof Hpre as (Hr & Hrepr & Hnd & Hp & _). cbn [wloop]. rewrite Hr. cbn [obind].
    assert (Hin : inner r = Node.Right (m, Z.land (base_value r) NOT_ONE))
      by (inversion Hrepr as [|? ? Hv Hm _ _|? ? ? ? Hv Hm _ _ _ _]; subst; unfold inner; by rewrite Hv).
    rewrite Hin. cbv beta iota. rewrite Hamt.draw_advance. cbn [obind].
    cbn [Hamt.insert_node] in Hins. rewrite Hamt.draw_advance in Hins. cbn [obind] in Hins.
    pose proof (Hamt.idx_lt st key d) as Hi.
    destruct (BitMap.is_empty m) eqn:He.
    + injection Hins as <- <- <-.
      destruct (wfill_refines w p r _ key value Hpre ltac:(lia)) as (w' & r' & Hw & Hpost). rewrite Hw. eauto.
    + destruct (BitMap.is_set m (Hamt.idx st key d)) eqn:Hset.
      * obind_inv Hins. destruct a as [cs' [fl1 old1]]. injection Hins as <- <- <-.
        destruct (Hamt.update_at_done _ cs _ _ _ Ha) as (c & c' & Hc & Hf & ->).
        obind_inv Hf. destruct a as [[c'' fl2] old2]. injection Hf as <- <- <-.
        inversion Hwf as [|? ? ? Hbm HFw]; subst.
        destruct (Forall2_lookup_r _ _ _ _ _ HFw Hc) as (j & _ & Hwfc & _).
        destruct (step_pre_child w p r m cs _ c Hpre Hc) as (src & rc & Hsrc & Hrc & Hprec).
        destruct (proj1 (Forall_lookup _ _) IH _ _ Hc wfuel w _ rc (S d) fl c'' fl2 old2 Hwfc Hfl Ha0 eq_refl Hprec)
          as (w' & r' & Hw & Hpost); [pose proof (depth_child c m cs ltac:(by eapply list_elem_of_lookup_2)); lia | lia |].
        rewrite Hw. exists w', r. split; [done|].
        by apply (step_post_descend w w' p r m cs src _ rc c r' c'').
      * destruct (Hamt.grow_lengths st d m cs _ Hwf He Hset Hi) as [Hlen Hne].
        destruct (FreeList.pool_push_ok fl cs (Node.key_value key value) Hfl Hne) as (fl1 & Hpush & _).
        rewrite <- Hlen, Hamt.slice_from_raw_ok in Hins. simpl in Hins. rewrite Hpush in Hins. simpl in Hins.
        assert (Hpos : (BitMap.set_bits_under m (Hamt.idx st key d) <= length cs)%nat)
          by (rewrite Hlen, BitMap.set_bits_ones; by apply BitMap.set_bits_under_le).
        rewrite Hamt.shift_into_place_correct in Hins by done. simpl in Hins. injection Hins as <- <- <-.
        destruct (wgrow_refines w p r m cs _ key value Hpre Hlen Hne Hpos ltac:(lia)) as (w' & r' & Hw & Hpost).
        rewrite Hw. eauto.
Qed.

(** The simulation of [Hamt.insert] by the word-level insert. *)
Lemma winsert_sim (fuel wfuel : nat) (h h' : @Hamt.Hamt K V St P) (w : @WHamt K V St) key value old :
  Hamt.hamt_wf h -> Hamt.insert fuel h key value = Done (h', old) ->
  wrepr w (Hamt.root h) -> wstate w = Hamt.state h ->
  (depth (Hamt.root h) < wfuel)%nat -> Z.of_nat (hsize (wheap w) + fuel) + 5 < ALLOC_LIMIT ->
  exists w', winsert wfuel fuel w key value = Done (w', old) /\ wrepr w' (Hamt.root h') /\
    wstate w' = Hamt.state h'.
Proof.
  intros [Hwf Hfl] Hins (Hrepr & Hnd & Hinv) Hst Hdep Hs.
  unfold Hamt.insert in Hins. obind_inv Hins. destruct a as [[root' fl'] old']. injection Hins as <- <-.
  assert (Hpre : step_pre w PRoot (wroot w) (Hamt.root h)) by (split; [done|]; split; [done|]; split; [done|]; by split).
  destruct (wloop_refines (Hamt.state h) fuel key value (Hamt.root h) wfuel w PRoot (wroot w) 0 _ root' fl' old'
              Hwf Hfl Ha Hst Hpre Hdep Hs) as (w' & r' & Hw & Hr' & Hrepr' & Hnd' & _ & _ & _ & _ & Hinv' & Hst').
  unfold winsert. rewrite Hst. exists w'. split; [exact Hw|]. simpl in Hr'. injection Hr' as Hr'. subst r'.
  split; [by split; [|split]|]. by rewrite Hst', Hst.
Qed.

(** C3: [Hamt::insert] on the words refines [Hamt.insert] on the trie:
    whenever the trie's insert returns, the word-level insert (with
    [wfuel] above the depth of the trie and room in the heap) returns
    the same displaced value, and its words stand for the new trie with
    the ownership invariant kept: what each node owns and the pooled
    buffers are all distinct. *)
Theorem winsert_refines (fuel wfuel : nat) (h h' : @Hamt.Hamt K V St P) (w : @WHamt K V St) key value old :
  Hamt.hamt_wf h -> Hamt.insert fuel h key value = Done (h', old) ->
  wrepr w (Hamt.root h) -> wstate w = Hamt.state h ->
  (depth (Hamt.root h) < wfuel)%nat -> Z.of_nat (hsize (wheap w) + fuel) + 5 < ALLOC_LIMIT ->
  exists w', winsert wfuel fuel w key value = Done (w', old) /\ wrepr w' (Hamt.root h') /\
    wstate w' = Hamt.state h'.
Proof. apply winsert_sim. Qed.

(** C5: the word-level insert is correct: on words standing for a well
    formed map whose keys the split loop's fuel separates from the new
    key, it returns the key's previous value, and its words stand for a
    well-formed map that maps the key to the new value and every other
    key as before. *)
Theorem winsert_correct (fuel wfuel : nat) (h : @Hamt.Hamt K V St P) (w : @WHamt K V St) key value :
  Hamt.hamt_wf h -> Hamt.keys_separated (Hamt.state h) fuel (key :: Hamt.keys h) ->
  wrepr w (Hamt.root h) -> wstate w = Hamt.state h ->
  (depth (Hamt.root h) < wfuel)%nat -> Z.of_nat (hsize (wheap w) + fuel) + 5 < ALLOC_LIMIT ->
  exists w' h', winsert wfuel fuel w key value = Done (w', Hamt.lookup h key) /\
    wrepr w' (Hamt.root h') /\ Hamt.hamt_wf h' /\
    forall k, Hamt.lookup h' k = if decide (k = key) then Some value else Hamt.lookup h k.
Proof.
  intros Hwf Hsep Hr Hst Hdep Hs.
  destruct (Hamt.insert_correct fuel h key value Hwf Hsep) as (h' & Hins & Hwf' & _ & Hlk).
  destruct (winsert_sim fuel wfuel h h' w key value _ Hwf Hins Hr Hst Hdep Hs) as (w' & Hw & Hr' & _).
  by exists w', h'.
Qed.

(** C6: insert and lookup on the words, end to end: under the
    hypotheses of [winsert_correct], the word-level insert returns the
    key's previous value, and afterwards the loop of [Hamt::get] on the
    new words, with fuel above the depth of the new trie, finds the new
    value at the key and, at every other key, what the map held before;
    the value address it returns holds that value. *)
Theorem winsert_get (fuel wfuel : nat) (h : @Hamt.Hamt K V St P) (w : @WHamt K V St) key value :
  Hamt.hamt_wf h -> Hamt.keys_separated (Hamt.state h) fuel (key :: Hamt.keys h) ->
  wrepr w (Hamt.root h) -> wstate w = Hamt.state h ->
  (depth (Hamt.root h) < wfuel)%nat -> Z.of_nat (hsize (wheap w) + fuel) + 5 < ALLOC_LIMIT ->
  exists w' (n' : Node.Node K V), winsert wfuel fuel w key value = Done (w', Hamt.lookup h key) /\
    forall k gfuel, (depth n' < gfuel)%nat ->
      (let? o := get_repr gfuel (wheap w') k (Hamt.key_hash (wstate w') k) (wroot w') in
       Done (o ≫= fun vp => hvals (wheap w') !! vp)) =
      Done (if decide (k = key) then Some value else Hamt.lookup h k).
Proof.
  intros Hwf Hsep Hr Hst Hdep Hs.
  destruct (Hamt.insert_correct fuel h key value Hwf Hsep) as (h' & Hins & Hwf' & Hst' & Hlk).
  destruct (winsert_sim fuel wfuel h h' w key value _ Hwf Hins Hr Hst Hdep Hs) as (w' & Hw & (Hr' & _) & Hstw).
  exists w', (Hamt.root h'). split; [exact Hw|]. intros k gfuel Hg.
  rewrite <- (get_repr_sim (wheap w') (wroot w') (Hamt.root h') k _ gfuel Hr' Hg), <- Hlk, Hstw.
  apply (Hamt.get_lookup h' k Hwf').
Qed.

(** C19: the leak of the split (lib.rs 83-86: [ptr::read(k)] and
    [ptr::read(v)] copy the key and the value out of their boxes, which
    nothing frees).  On words standing for a well-formed map whose root
    is the leaf of a key [k], over any heap, hasher and pool, an insert
    of another key that returns yields words standing for the new trie,
    and the old leaf's key box and value box are still allocated,
    holding [k] and its value, while neither the new map's nodes nor its
    free list own them: they can never be freed.  The same holds for a
    leaf at any place of a deeper trie ([wsplit_leaf_refines]). *)
Theorem winsert_split_leaks (fuel wfuel : nat) (h h' : @Hamt.Hamt K V St P) (w : @WHamt K V St)
    k v key value old :
  Hamt.hamt_wf h -> Hamt.root h = Node.Leaf k v -> k <> key ->
  Hamt.insert fuel h key value = Done (h', old) ->
  wrepr w (Hamt.root h) -> wstate w = Hamt.state h -> (0 < wfuel)%nat ->
  Z.of_nat (hsize (wheap w) + fuel) + 5 < ALLOC_LIMIT ->
  exists w', winsert wfuel fuel w key value = Done (w', old) /\ wrepr w' (Hamt.root h') /\
    hkeys (wheap w') !! map_key (wroot w) = Some k /\ hvals (wheap w') !! base_value (wroot w) = Some v /\
    LKey (map_key (wroot w)) ∉ fp (wheap w') (wroot w') (Hamt.root h') ++ pool_locs (wpool w') /\
    LVal (base_value (wroot w)) ∉ fp (wheap w') (wroot w') (Hamt.root h') ++ pool_locs (wpool w').
Proof.
  intros [Hwf Hfl] Hroot Hne Hins (Hrepr & Hnd & Hinv) Hst Hwp Hs.
  assert (Hpre : step_pre w PRoot (wroot w) (Hamt.root h))
    by (split; [done|]; split; [done|]; split; [done|]; by split).
  rewrite Hroot in Hpre, Hrepr.
  unfold Hamt.insert in Hins. rewrite Hroot in Hins. cbn [Hamt.insert_node] in Hins.
  rewrite decide_False in Hins by done. obind_inv Hins. obind_inv Ha. destruct a0 as [c fl1].
  injection Ha as <-. injection Hins as <- <-. rewrite <- Hst in Ha0.
  destruct (wsplit_leaf_refines w PRoot (wroot w) k v _ 0 key value fuel (Hamt.free_list h) c fl1
              Hpre Ha0 Hfl Hs) as (w' & r' & Hw & (Hr' & Hrepr' & Hnd' & _ & _ & _ & _ & Hinv' & _) & Hleak).
  simpl in Hr'. injection Hr' as Hr'.
  exists w'. unfold winsert. destruct wfuel as [|wfuel]; [lia|]. cbn [wloop read_place obind].
  inversion Hrepr as [? ? ? Hv Hk Hval| |]; subst. unfold inner. rewrite Hv. cbv beta iota.
  unfold deref_key. rewrite Hk. cbn [obind]. rewrite decide_False by done.
  split; [exact Hw|]. cbn [Hamt.root]. split; [|exact Hleak]. by split; [|split].
Qed.

End Walk.

(** ** Heap growth *)

Section Growth.
Context {K V : Type} `{Alloc}.

Lemma size_insert_le {A} (m : gmap Z A) a x : (size (<[a := x]> m) <= S (size m))%nat.
Proof. rewrite map_size_insert. case_match; simpl; lia. Qed.

Lemma hsize_set_array (σ : Heap K V) a arr : (hsize (set_array σ a arr) <= S (hsize σ))%nat.
Proof. unfold hsize. pose proof (size_set_array σ a arr). simpl in *. lia. Qed.

Lemma hsize_set_array_at (σ : Heap K V) a arr arr0 :
  harrays σ !! a = Some arr0 -> hsize (set_array σ a arr) = hsize σ.
Proof. intros Ha. unfold hsize. rewrite (size_set_array_alloc σ a arr) by eauto. done. Qed.

Lemma read_array_done (σ : Heap K V) a arr : read_array σ a = Done arr -> harrays σ !! a = Some arr.
Proof. unfold read_array. case_match; congruence. Qed.

Lemma write_slot_hsize (σ σ' : Heap K V) a i x : write_slot σ a i x = Done σ' -> hsize σ' = hsize σ.
Proof.
  unfold write_slot. intros Hw. obind_inv Hw. case_decide; [|done]. injection Hw as <-.
  by apply (hsize_set_array_at _ _ _ a0), read_array_done.
Qed.

Lemma alloc_array_hsize (σ : Heap K V) arr : (hsize (alloc_array σ arr).1 <= S (hsize σ))%nat.
Proof. apply hsize_set_array. Qed.

Lemma wsingleton_hsize pl (σ : Heap K V) x pl' σ' a :
  wsingleton pl σ x = Done (pl', σ', a) -> (hsize σ' <= S (hsize σ))%nat.
Proof.
  unfold wsingleton. intros Hw. obind_inv Hw. destruct a0 as [[c|] pl1].
  - obind_inv Hw. injection Hw as <- <- <-. apply write_slot_hsize in Ha0. lia.
  - pose proof (alloc_array_hsize σ [x]). destruct (alloc_array σ [x]). by injection Hw as <- <- <-.
Qed.

Lemma wpair_hsize pl (σ : Heap K V) x y pl' σ' a :
  wpair pl σ x y = Done (pl', σ', a) -> (hsize σ' <= S (hsize σ))%nat.
Proof.
  unfold wpair. intros Hw. obind_inv Hw. destruct a0 as [[c|] pl1].
  - obind_inv Hw. obind_inv Hw. injection Hw as <- <- <-.
    apply write_slot_hsize in Ha0, Ha1. lia.
  - pose proof (alloc_array_hsize σ [x; y]). destruct (alloc_array σ [x; y]). by injection Hw as <- <- <-.
Qed.

Lemma wpush_hsize pl (σ : Heap K V) base len x pl' σ' a :
  wpush pl σ base len x = Done (pl', σ', a) -> (hsize σ' <= S (hsize σ))%nat.
Proof.
  unfold wpush. intros Hw. case_decide; [done|]. obind_inv Hw. destruct a0 as [top pl1].
  obind_inv Hw. destruct a0 as [σ1 res].
  assert (Hs1 : (hsize σ1 <= S (hsize σ))%nat).
  { destruct top; simpl in Ha0; injection Ha0 as <- <-; [lia | apply hsize_set_array]. }
  obind_inv Hw. obind_inv Hw. obind_inv Hw. obind_inv Hw. obind_inv Hw. injection Hw as <- <- <-.
  apply write_slot_hsize in Ha5. apply read_array_done in Ha2.
  rewrite Ha5, (hsize_set_array_at _ _ _ _ Ha2). lia.
Qed.

Lemma alloc_key_hsize (σ : Heap K V) k : (hsize (alloc_key σ k).1 <= S (hsize σ))%nat.
Proof. unfold alloc_key, hsize. simpl. pose proof (size_insert_le (hkeys σ) (alloc (hkeys σ)) k). lia. Qed.

Lemma alloc_val_hsize (σ : Heap K V) v : (hsize (alloc_val σ v).1 <= S (hsize σ))%nat.
Proof. unfold alloc_val, hsize. simpl. pose proof (size_insert_le (hvals σ) (alloc (hvals σ)) v). lia. Qed.

Lemma new_key_value_hsize (σ : Heap K V) k v : (hsize (new_key_value σ k v).1 <= hsize σ + 2)%nat.
Proof.
  unfold new_key_value. pose proof (alloc_key_hsize σ k). destruct (alloc_key σ k) as [σ1 kp].
  pose proof (alloc_val_hsize σ1 v). destruct (alloc_val σ1 v). simpl in *. lia.
Qed.

Lemma take_val_hsize (σ σ' : Heap K V) vp v : take_val σ vp = Done (σ', v) -> (hsize σ' <= hsize σ)%nat.
Proof.
  unfold take_val. case_match eqn:Hv; [|done]. intros [= <- _].
  unfold hsize. simpl. rewrite map_size_delete, Hv. simpl. lia.
Qed.

End Growth.

Section InsertGrowth.
Context {K V H St : Type} `{EqDecision K} `{HashStream.Hasher H} `{!Hamt.BuildHasher St H}
  `{!Hamt.Hash K H} `{Alloc}.

Lemma write_place_hsize (w w' : @WHamt K V St) p r :
  write_place w p r = Done w' -> hsize (wheap w') = hsize (wheap w).
Proof.
  destruct p as [|a i]; simpl; [by intros [= <-]|].
  intros Hw. obind_inv Hw. injection Hw as <-. by apply write_slot_hsize in Ha.
Qed.

Lemma modify_place_hsize (w w' : @WHamt K V St) p f :
  modify_place w p f = Done w' -> hsize (wheap w') = hsize (wheap w).
Proof. unfold modify_place. intros Hw. obind_inv Hw. by apply write_place_hsize in Hw. Qed.

Lemma wchain_link_hsize (w w' : @WHamt K V St) p i a :
  wchain_link w p i = Done (w', a) -> (hsize (wheap w') <= S (hsize (wheap w)))%nat.
Proof.
  unfold wchain_link. intros Hw. obind_inv Hw. obind_inv Hw. destruct a1 as [[pl σ] b].
  obind_inv Hw. injection Hw as <- _.
  apply modify_place_hsize in Ha, Ha1. apply wsingleton_hsize in Ha0. simpl in Ha1. lia.
Qed.

Lemma winstall_pair_hsize (w w' : @WHamt K V St) p k1 v1 k2 v2 :
  winstall_pair w p k1 v1 k2 v2 = Done w' -> (hsize (wheap w') <= hsize (wheap w) + 5)%nat.
Proof.
  unfold winstall_pair. pose proof (new_key_value_hsize (wheap w) k1 v1) as Hz1.
  destruct (new_key_value (wheap w) k1 v1) as [σ1 kv1].
  pose proof (new_key_value_hsize σ1 k2 v2) as Hz2. destruct (new_key_value σ1 k2 v2) as [σ2 kv2].
  intros Hw. obind_inv Hw. destruct a as [[pl σ3] b].
  apply modify_place_hsize in Hw. apply wpair_hsize in Ha. simpl in *. lia.
Qed.

Lemma wsplit_pair_hsize (w w' : @WHamt K V St) p i j key value ko vo :
  wsplit_pair w p i j key value ko vo = Done w' -> (hsize (wheap w') <= hsize (wheap w) + 5)%nat.
Proof.
  unfold wsplit_pair. intros Hw. obind_inv Hw. apply modify_place_hsize in Ha.
  case_decide; apply winstall_pair_hsize in Hw; lia.
Qed.

(** Each round of the split loop that chains a branch adds its
    singleton; the last one adds two leaves and the pair. *)
Lemma wsplit_hsize key value ko vo fuel : forall (w w' : @WHamt K V St) p stream so,
  wsplit fuel w p stream so key value ko vo = Done w' -> (hsize (wheap w') <= hsize (wheap w) + fuel + 4)%nat.
Proof.
  induction fuel as [|fuel IH]; intros w w' p stream so Hw; [done|]. cbn [wsplit] in Hw.
  obind_inv Hw. destruct a as [i s1]. obind_inv Hw. destruct a as [j so1]. obind_inv Hw.
  destruct (inner a) as [?|?]; [done|]. case_decide.
  - obind_inv Hw. destruct a0 as [w1 b]. apply wchain_link_hsize in Ha2. apply IH in Hw. lia.
  - apply wsplit_pair_hsize in Hw. lia.
Qed.

Lemma wsplit_leaf_hsize (w w' : @WHamt K V St) fuel p stream d kp vp key value old :
  wsplit_leaf fuel w p stream d kp vp key value = Done (w', old) ->
  (hsize (wheap w') <= hsize (wheap w) + fuel + 4)%nat.
Proof.
  unfold wsplit_leaf. intros Hw. do 4 obind_inv Hw. injection Hw as <- _.
  apply write_place_hsize in Ha1. apply wsplit_hsize in Ha2. lia.
Qed.

Lemma woverwrite_hsize (w w' : @WHamt K V St) p value old :
  woverwrite w p value = Done (w', old) -> (hsize (wheap w') <= S (hsize (wheap w)))%nat.
Proof.
  unfold woverwrite. pose proof (alloc_val_hsize (wheap w) value) as Hz1.
  destruct (alloc_val (wheap w) value) as [σ1 vb]. intros Hw. obind_inv Hw.
  destruct (set_value a vb) as [o r]. obind_inv Hw. obind_inv Hw. obind_inv Hw.
  destruct a2 as [σ2 v]. injection Hw as <- _.
  apply write_place_hsize in Ha0. apply take_val_hsize in Ha2. simpl in *. lia.
Qed.

Lemma wfill_hsize (w w' : @WHamt K V St) p key value old :
  wfill w p key value = Done (w', old) -> (hsize (wheap w') <= hsize (wheap w) + 2)%nat.
Proof.
  unfold wfill. pose proof (new_key_value_hsize (wheap w) key value) as Hz1.
  destruct (new_key_value (wheap w) key value) as [σ1 kv]. intros Hw. obind_inv Hw.
  injection Hw as <- _. apply write_place_hsize in Ha. simpl in *. lia.
Qed.

Lemma wgrow_hsize (w w' : @WHamt K V St) p m b i key value old :
  wgrow w p m b i key value = Done (w', old) -> (hsize (wheap w') <= hsize (wheap w) + 3)%nat.
Proof.
  unfold wgrow. intros Hw. do 3 obind_inv Hw.
  pose proof (new_key_value_hsize (wheap a) key value) as Hz1.
  destruct (new_key_value (wheap a) key value) as [σ1 kv].
  obind_inv Hw. destruct a2 as [[pl σ2] c]. do 3 obind_inv Hw. injection Hw as <- _.
  apply modify_place_hsize in Ha, Ha5. apply wpush_hsize in Ha2. apply read_array_done in Ha3.
  simpl in Ha5. rewrite (hsize_set_array_at _ _ _ _ Ha3) in Ha5. simpl in Hz1. lia.
Qed.

Lemma wloop_hsize key value fuel wfuel : forall (w w' : @WHamt K V St) p stream d old,
  wloop wfuel fuel w p stream d key value = Done (w', old) ->
  (hsize (wheap w') <= hsize (wheap w) + fuel + 4)%nat.
Proof.
  induction wfuel as [|wfuel IH]; intros w w' p stream d old Hw; [done|]. cbn [wloop] in Hw.
  obind_inv Hw. destruct (inner a) as [[kp vp]|[m b]].
  - obind_inv Hw. case_decide.
    + apply woverwrite_hsize in Hw. lia.
    + by apply wsplit_leaf_hsize in Hw.
  - obind_inv Hw. destruct a0 as [i s1].
    destruct (BitMap.is_empty m); [apply wfill_hsize in Hw; lia|].
    destruct (BitMap.is_set m i); [by apply IH in Hw|]. apply wgrow_hsize in Hw. lia.
Qed.

(** C23: the heap growth of [Hamt::insert]: on any words, an insert that
    returns adds at most [fuel + 4] cells to the heap, where [fuel]
    bounds the rounds of the split loop: one singleton array per round
    that chains a branch, then two key boxes, two value boxes and the
    pair array in the last round (the boxes the split leaks included);
    the other arms add at most three cells.  The bound needs no
    invariant of the words. *)
Theorem winsert_heap_bound (w w' : @WHamt K V St) wfuel fuel key value old :
  winsert wfuel fuel w key value = Done (w', old) -> (hsize (wheap w') <= hsize (wheap w) + fuel + 4)%nat.
Proof. apply wloop_hsize. Qed.

End InsertGrowth.

(** ** Runs on the words are runs of the trie *)

Section Back.
Context {K V H St P : Type} `{EqDecision K} `{HashStream.Hasher H} `{!Hamt.BuildHasher St H}
  `{!Hamt.Hash K H} `{Alloc}
  `{pool : !FreeList.Pool (Node.Node K V) P} `{pool_laws : !FreeList.PoolLaws (Node.Node K V) P}.

(** The walk's fuel only bounds the depth it reaches: a walk that
    returns returns the same with more fuel. *)
Lemma wloop_mono key value fuel wfuel : forall wfuel' (w : @WHamt K V St) p stream d res,
  (wfuel <= wfuel')%nat -> wloop wfuel fuel w p stream d key value = Done res ->
  wloop wfuel' fuel w p stream d key value = Done res.
Proof.
  induction wfuel as [|wfuel IH]; intros [|wfuel'] w p stream d res Hle Hw; [done | done | lia |].
  cbn [wloop] in Hw |- *. destruct (read_place w p) as [r0|]; cbn [obind] in Hw |- *; [|done].
  destruct (inner r0) as [[kp vp]|[m b]]; [done|].
  destruct (Hamt.draw stream) as [[i s1]|]; cbn [obind] in Hw |- *; [|done].
  destruct (BitMap.is_empty m); [done|]. destruct (BitMap.is_set m i); [|done].
  apply IH; [lia | done].
Qed.

(** The split loop on the words draws what the split loop on the trie
    draws: when it returns, the trie's loop returns with the same fuel. *)
Lemma wsplit_done_split key value ko vo fuel : forall (w w' : @WHamt K V St) p stream so (fl : P),
  FreeList.pool_wf fl -> wsplit fuel w p stream so key value ko vo = Done w' ->
  exists res, Hamt.split fuel fl Node.empty stream so key value ko vo = Done res.
Proof.
  induction fuel as [|fuel IH]; intros w w' p stream so fl Hfl Hw; [done|].
  cbn [wsplit] in Hw. cbn [Hamt.split].
  destruct (Hamt.draw stream) as [[i s1]|]; cbn [obind] in Hw |- *; [|done].
  destruct (Hamt.draw_skip so) as [[j so1]|]; cbn [obind] in Hw |- *; [|done].
  obind_inv Hw. destruct (inner a); [done|]. cbn [Node.inner Node.empty Node.get_map].
  destruct (decide (i = j)).
  - obind_inv Hw. destruct a0 as [w1 b].
    destruct (FreeList.pool_singleton_ok fl Node.empty Hfl) as (fl1 & Hps & Hfl1). rewrite Hps.
    cbn [obind Node.set_base]. simpl.
    destruct (IH _ _ _ _ _ fl1 Hfl1 Hw) as ([c fl2] & ->). simpl. eauto.
  - destruct (decide (j < i)%nat);
      [destruct (FreeList.pool_pair_ok fl (Node.key_value ko vo) (Node.key_value key value) Hfl) as (fl1 & Hpp & _)
      |destruct (FreeList.pool_pair_ok fl (Node.key_value key value) (Node.key_value ko vo) Hfl) as (fl1 & Hpp & _)];
      rewrite Hpp; simpl; eauto.
Qed.

(** The backward simulation of the walk: on words standing for a well
    formed node, a walk on the words that returns has a walk on the trie
    that returns, with the same fuel for the split loop. *)
Lemma wloop_done_insert_node st fuel key value n : forall wfuel (w w' : @WHamt K V St) p r d (fl : P) old,
  Hamt.wf_node st d n -> FreeList.pool_wf fl -> wstate w = st -> step_pre w p r n ->
  wloop wfuel fuel w p (HashStream.advance d (Hamt.key_hash st key)) d key value = Done (w', old) ->
  exists res, Hamt.insert_node fuel st fl n (HashStream.advance d (Hamt.key_hash st key)) d key value = Done res.
Proof.
  induction n as [k v | m cs IH] using Node.Node_ind';
    intros [|wfuel] w w' p r d fl old Hwf Hfl Hst Hpre Hw; try done; subst st.
  - pose proof Hpre as (Hr & Hrepr & _). cbn [wloop] in Hw. rewrite Hr in Hw. cbn [obind] in Hw.
    inversion Hrepr as [? ? ? Hv Hk Hval| |]; subst. unfold inner in Hw. rewrite Hv in Hw. cbv beta iota in Hw.
    unfold deref_key in Hw. rewrite Hk in Hw. cbn [obind] in Hw. cbn [Hamt.insert_node].
    destruct (decide (k = key)) as [Hkk|Hkk]; [simpl; eauto|].
    unfold wsplit_leaf, deref_key, deref_val in Hw. rewrite Hk, Hval in Hw. cbn [obind] in Hw.
    obind_inv Hw. obind_inv Hw.
    destruct (wsplit_done_split key value k v fuel _ _ _ _ _ fl Hfl Ha0) as ([c fl1] & ->). simpl. eauto.
  - pose proof Hpre as (Hr & Hrepr & _). cbn [wloop] in Hw. rewrite Hr in Hw. cbn [obind] in Hw.
    assert (Hin : inner r = Node.Right (m, Z.land (base_value r) NOT_ONE))
      by (inversion Hrepr as [|? ? Hv Hm _ _|? ? ? ? Hv Hm _ _ _ _]; subst; unfold inner; by rewrite Hv).
    rewrite Hin in Hw. cbv beta iota in Hw. rewrite Hamt.draw_advance in Hw. cbn [obind] in Hw.
    apply Hamt.insert_branch_terminates; [done | done |]. intros c Hs Hc.
    destruct (BitMap.is_empty m) eqn:He.
    { apply BitMap.is_empty_spec in He. unfold BitMap.is_set in Hs. by rewrite He, Z.shiftr_0_l in Hs. }
    rewrite Hs in Hw.
    destruct (step_pre_child w p r m cs _ c Hpre Hc) as (src & rc & _ & _ & Hprec).
    inversion Hwf as [|? ? ? Hbm HFw]; subst.
    destruct (Forall2_lookup_r _ _ _ _ _ HFw Hc) as (j & _ & Hwfc & _).
    exact (proj1 (Forall_lookup _ _) IH _ _ Hc wfuel w w' _ rc (S d) fl old Hwfc Hfl eq_refl Hprec Hw).
Qed.

End Back.

(** ** The two inserts return together *)

Section Backward.
Context {K V H St P : Type} `{EqDecision K} `{HashStream.Hasher H} `{!Hamt.BuildHasher St H}
  `{!Hamt.Hash K H} `{Alloc} `{!AllocLaws}
  `{pool : !FreeList.Pool (Node.Node K V) P} `{pool_laws : !FreeList.PoolLaws (Node.Node K V) P}.

(** The backward simulation of [insert]: a word-level insert that
    returns, on words standing for a well-formed map, is an insert of
    the trie that returns the same displaced value, with the same fuel
    for the split loop. *)
Lemma winsert_back_sim (h : @Hamt.Hamt K V St P) (w w' : @WHamt K V St) wfuel fuel key value old :
  Hamt.hamt_wf h -> wrepr w (Hamt.root h) -> wstate w = Hamt.state h ->
  Z.of_nat (hsize (wheap w) + fuel) + 5 < ALLOC_LIMIT ->
  winsert wfuel fuel w key value = Done (w', old) ->
  exists h', Hamt.insert fuel h key value = Done (h', old) /\ wrepr w' (Hamt.root h') /\
    wstate w' = Hamt.state h'.
Proof.
  intros Hwf Hr Hst Hs Hw. pose proof Hwf as [Hwfn Hfl]. pose proof Hr as (Hrepr & Hnd & Hinv).
  assert (Hpre : step_pre w PRoot (wroot w) (Hamt.root h)) by (split; [done|]; split; [done|]; split; [done|]; by split).
  unfold winsert in Hw. rewrite Hst in Hw.
  destruct (wloop_done_insert_node (Hamt.state h) fuel key value (Hamt.root h) wfuel w w' PRoot (wroot w) 0
              (Hamt.free_list h) old Hwfn Hfl Hst Hpre Hw) as ([[root' fl'] old'] & Hins).
  assert (Hins' : Hamt.insert fuel h key value = Done (Hamt.mk_hamt (Hamt.state h) root' fl', old'))
    by (cbn [HashStream.advance] in Hins; unfold Hamt.insert; rewrite Hins; reflexivity).
  destruct (winsert_sim fuel (Nat.max wfuel (S (depth (Hamt.root h)))) h _ w key value old' Hwf Hins' Hr Hst)
    as (w'' & Hw'' & Hr'' & Hst''); [lia | done |].
  unfold winsert in Hw''. rewrite Hst in Hw''.
  rewrite (wloop_mono key value fuel wfuel (Nat.max wfuel (S (depth (Hamt.root h)))) w PRoot _ 0 (w', old) ltac:(lia) Hw) in Hw''.
  injection Hw'' as <- <-. eauto.
Qed.

(** C7: the converse of [winsert_refines]: on words standing for a
    well-formed map, every word-level insert that returns, with the heap
    below the cells the allocator can address, is an insert of the trie
    that returns the same displaced value with the same fuel for the
    split loop, and the new words stand for the new trie with the
    ownership invariant kept.  With [winsert_refines], the two inserts
    return together and agree. *)
Theorem winsert_back (h : @Hamt.Hamt K V St P) (w w' : @WHamt K V St) wfuel fuel key value old :
  Hamt.hamt_wf h -> wrepr w (Hamt.root h) -> wstate w = Hamt.state h ->
  Z.of_nat (hsize (wheap w) + fuel) + 5 < ALLOC_LIMIT ->
  winsert wfuel fuel w key value = Done (w', old) ->
  exists h', Hamt.insert fuel h key value = Done (h', old) /\ wrepr w' (Hamt.root h') /\
    wstate w' = Hamt.state h'.
Proof. apply winsert_back_sim. Qed.

End Backward.

End WordInsert.
