(* ===== verification/WordMap.v ===== *)
(** * WordMap: the map's life cycle on the words (src/lib.rs)

    WordInsert.v models [Hamt::insert] on the words.  This file adds the
    other two operations of [Hamt] on the same state: [Hamt::new]
    ([wnew], an empty root and an empty free list over the allocator's
    current heap) and [Hamt::get] ([wget], the loop of [get_repr] and the
    reference [&*v] to the value box).  On them it proves:
    - [wget] on words standing for a trie is [Hamt.get_node] on it
      ([wget_sim]), and the empty map on both levels ([wnew_get]);
    - the depth an insert adds to the trie: at most the fuel of the
      split loop ([insert_depth]), which bounds the walk fuel a sequence
      of inserts needs;
    - with the two simulations of WordInsert.v ([winsert_sim] and
      [winsert_back_sim]), every run of [new], [insert] and [get] on the
      words, within the 2^62 cells the allocator can address, is a run
      of the trie of Hamt.v: [wreachable_inv], the invariant of the runs
      of [wnew] and [winsert], with [wget] returning the trie's lookup,
      proved by rule induction on [wreachable]. *)

From stdpp Require Import gmap.
From S2P Require Import Prelude BitMap HashStream FreeList Node Hamt NodeRepr WordHeap WordInsert.
Local Unset Default Proof Using.

Module WordMap.
Import NodeRepr.NodeRepr WordHeap.WordHeap WordInsert.WordInsert.
Local Open Scope Z_scope.

Section Ops.
Context {K V H St : Type} `{EqDecision K} `{HashStream.Hasher H} `{!Hamt.BuildHasher St H}
  `{!Hamt.Hash K H}.

(** [Hamt::new()]: the root [Node::empty()] and [FreeList::new()]; the
    heap is the allocator's, with whatever other cells it holds. *)
Definition wnew (st : St) (σ : Heap K V) : @WHamt K V St := mk_whamt st empty σ wpool_new.

(** [Hamt::get]: the loop from the root, then [Some(unsafe { &*v })]. *)
Definition wget (gfuel : nat) (w : @WHamt K V St) (key : K) : outcome (option V) :=
  let? o := get_repr gfuel (wheap w) key (Hamt.key_hash (wstate w) key) (wroot w) in
  match o with
  | None => Done None
  | Some vp => let? v := deref_val (wheap w) vp in Done (Some v)
  end.

End Ops.


(** ** [get] on the words *)

Section Get.
Context {K V H St : Type} `{EqDecision K} `{HashStream.Hasher H} `{!Hamt.BuildHasher St H}
  `{!Hamt.Hash K H}.

(** The value address the walk returns is an allocated value box. *)
Lemma get_repr_val (σ : Heap K V) key fuel : forall r n (s : @HashStream.HashStream H) vp,
  repr σ r n -> get_repr fuel σ key s r = Done (Some vp) -> is_Some (hvals σ !! vp).
Proof.
  induction fuel as [|fuel IH]; intros r n s vp Hr Hg; [done|].
  pose proof (repr_inner σ r n Hr) as Hi. cbn [get_repr] in Hg.
  destruct n as [k v | m cs]; simpl in Hi.
  - destruct Hi as (kp & vp' & Hin & Hk & Hv). rewrite Hin in Hg. unfold deref_key in Hg.
    rewrite Hk in Hg. simpl in Hg. case_decide; simplify_eq. eauto.
  - destruct Hi as (b & Hin & [(-> & -> & Hem) | (Hbn & rs & Hrs & HF)]); rewrite Hin in Hg; cbv beta iota in Hg;
      [by rewrite Hem in Hg|].
    destruct (BitMap.is_empty m); [done|]. destruct (draw_total s) as (i & s' & Hd). rewrite Hd in Hg.
    cbn [obind] in Hg. destruct (BitMap.is_set m i); [|done].
    unfold deref_array in Hg. rewrite decide_False, Hrs in Hg by done. cbn [obind] in Hg.
    destruct (rs !! BitMap.set_bits_under m i) as [rc|] eqn:Hrc; [|by rewrite child_at_none in Hg].
    rewrite (Hamt.child_at_lookup _ rs _ rc Hrc) in Hg.
    destruct (Forall2_lookup_l _ _ _ _ _ HF Hrc) as (c & _ & Hrepc). by apply (IH rc c s').
Qed.

(** [get] on words standing for a trie is [Hamt.get_node] on the trie. *)
Lemma wget_sim gfuel (w : @WHamt K V St) n key :
  repr (wheap w) (wroot w) n -> (depth n < gfuel)%nat ->
  wget gfuel w key = Hamt.get_node key (Hamt.key_hash (wstate w) key) n.
Proof.
  intros Hr Hd. rewrite (get_repr_sim _ _ _ key _ gfuel Hr Hd). unfold wget.
  destruct (get_repr gfuel (wheap w) key _ (wroot w)) as [[vp|]|e] eqn:Hg; try done.
  destruct (get_repr_val _ _ _ _ _ _ vp Hr Hg) as [v Hv]. unfold deref_val. simpl. by rewrite Hv.
Qed.

End Get.

(** ** The depth an insert adds *)

Section Depth.
Context {K V H St P : Type} `{EqDecision K} `{HashStream.Hasher H} `{!Hamt.BuildHasher St H}
  `{!Hamt.Hash K H}
  `{pool : !FreeList.Pool (Node.Node K V) P} `{pool_laws : !FreeList.PoolLaws (Node.Node K V) P}.

Lemma depth_branch_insert (m m' : BitMap.BitMap) (cs : list (Node.Node K V)) r c c' f :
  cs !! r = Some c -> (depth c' <= depth c + f)%nat ->
  (depth (Node.Branch m' (<[r := c']> cs)) <= depth (Node.Branch m cs) + f)%nat.
Proof.
  intros Hc Hd. simpl. rewrite list_fmap_insert.
  assert (Hle : (depth c <= max_list (depth <$> cs))%nat)
    by (apply max_list_elem_of_le, list_elem_of_fmap_2; by eapply list_elem_of_lookup_2).
  enough (max_list (<[r := depth c']> (depth <$> cs)) <= max_list (depth <$> cs) + f)%nat by lia.
  apply max_list_le. intros x [->|Hx]%elem_of_list_insert_inv; [lia|].
  pose proof (max_list_elem_of_le _ _ Hx). lia.
Qed.

Lemma depth_branch_insert_at (m m' : BitMap.BitMap) (cs : list (Node.Node K V)) pos k v :
  (depth (Node.Branch m' (insert_at pos (Node.Leaf k v) cs)) <= depth (Node.Branch m cs))%nat.
Proof.
  simpl. unfold insert_at. rewrite fmap_app, fmap_cons, fmap_take, fmap_drop.
  fold (insert_at pos (depth (Node.Leaf k v)) (depth <$> cs)).
  apply le_n_S, max_list_le. intros x [->|Hx]%elem_of_insert_at_inv; [simpl; lia | by apply max_list_elem_of_le].
Qed.

(** Each round of the split loop adds one level. *)
Lemma split_depth fuel : forall (fl : P) stream so key value ko vo (n' : Node.Node K V) fl',
  FreeList.pool_wf fl -> Hamt.split fuel fl Node.empty stream so key value ko vo = Done (n', fl') ->
  (depth n' <= fuel)%nat.
Proof.
  induction fuel as [|fuel IH]; intros fl stream so key value ko vo n' fl' Hfl Hsp; [done|].
  cbn [Hamt.split] in Hsp.
  destruct (Hamt.draw stream) as [[i s1]|?]; cbn [obind] in Hsp; [|done].
  destruct (Hamt.draw_skip so) as [[j so1]|?]; cbn [obind] in Hsp; [|done].
  cbn [Node.inner Node.empty Node.get_map] in Hsp. destruct (decide (i = j)).
  - destruct (FreeList.pool_singleton_ok fl Node.empty Hfl) as (fl1 & Hps & Hfl1). rewrite Hps in Hsp.
    cbn [obind Node.set_base] in Hsp. simpl in Hsp.
    destruct (Hamt.split fuel fl1 Node.empty s1 so1 key value ko vo) as [[c fl2]|?] eqn:Hrec; [|done].
    simpl in Hsp. injection Hsp as <- <-. apply IH in Hrec; [simpl; lia | done].
  - destruct (decide (j < i)%nat);
      [destruct (FreeList.pool_pair_ok fl (Node.key_value ko vo) (Node.key_value key value) Hfl) as (fl1 & Hpp & _)
      |destruct (FreeList.pool_pair_ok fl (Node.key_value key value) (Node.key_value ko vo) Hfl) as (fl1 & Hpp & _)];
      rewrite Hpp in Hsp; simpl in Hsp; injection Hsp as <- <-; simpl; lia.
Qed.

(** The walk of [insert] deepens the trie by at most the fuel of the
    split loop. *)
Lemma insert_node_depth st fuel key value (n : Node.Node K V) : forall d (fl : P) n' fl' old,
  Hamt.wf_node st d n -> FreeList.pool_wf fl ->
  Hamt.insert_node fuel st fl n (HashStream.advance d (Hamt.key_hash st key)) d key value = Done (n', fl', old) ->
  (depth n' <= depth n + fuel)%nat.
Proof.
  induction n as [k v | m cs IH] using Node.Node_ind'; intros d fl n' fl' old Hwf Hfl Hins;
    cbn [Hamt.insert_node] in Hins.
  - case_decide; [simpl in Hins; injection Hins as <- _ _; simpl; lia|].
    obind_inv Hins. destruct a as [c fl1]. injection Hins as <- _ _.
    apply split_depth in Ha; [simpl; lia | done].
  - rewrite Hamt.draw_advance in Hins. cbn [obind] in Hins. pose proof (Hamt.idx_lt st key d) as Hi.
    destruct (BitMap.is_empty m) eqn:He; [injection Hins as <- _ _; simpl; lia|].
    destruct (BitMap.is_set m (Hamt.idx st key d)) eqn:Hset.
    + obind_inv Hins. destruct a as [cs' [fl1 old1]]. injection Hins as <- _ _.
      destruct (Hamt.update_at_done _ cs _ _ _ Ha) as (c & c' & Hc & Hf & ->).
      obind_inv Hf. destruct a as [[c'' fl2] old2]. injection Hf as <- _ _.
      inversion Hwf as [|? ? ? Hbm HFw]; subst.
      destruct (Forall2_lookup_r _ _ _ _ _ HFw Hc) as (j & _ & Hwfc & _).
      apply (depth_branch_insert m m cs _ c); [done|].
      exact (proj1 (Forall_lookup _ _) IH _ _ Hc (S d) fl c'' fl2 old2 Hwfc Hfl Ha0).
    + destruct (Hamt.grow_lengths st d m cs _ Hwf He Hset Hi) as [Hlen Hne].
      destruct (FreeList.pool_push_ok fl cs (Node.key_value key value) Hfl Hne) as (fl1 & Hpush & _).
      rewrite <- Hlen, Hamt.slice_from_raw_ok in Hins. simpl in Hins. rewrite Hpush in Hins. simpl in Hins.
      rewrite Hamt.shift_into_place_correct in Hins
        by (rewrite Hlen, BitMap.set_bits_ones; by apply BitMap.set_bits_under_le).
      simpl in Hins. injection Hins as <- _ _.
      apply (Nat.le_trans _ (depth (Node.Branch m cs))); [apply depth_branch_insert_at | lia].
Qed.

Lemma insert_depth fuel (h h' : @Hamt.Hamt K V St P) key value old :
  Hamt.hamt_wf h -> Hamt.insert fuel h key value = Done (h', old) ->
  (depth (Hamt.root h') <= depth (Hamt.root h) + fuel)%nat.
Proof.
  intros [Hwf Hfl] Hins. unfold Hamt.insert in Hins. obind_inv Hins.
  destruct a as [[root' fl'] old']. injection Hins as <- _.
  exact (insert_node_depth _ fuel key value (Hamt.root h) 0 _ root' fl' old' Hwf Hfl Ha).
Qed.

End Depth.

(** ** Runs of the map on the words *)

Section Runs.
Context {K V H St : Type} `{EqDecision K} `{HashStream.Hasher H} `{!Hamt.BuildHasher St H}
  `{!Hamt.Hash K H} `{Alloc}.

(** The states a program reaches on the words: [Hamt::new()] over any
    heap, then any insert that returns while the heap stays below the
    cells the allocator can address. *)
Inductive wreachable : @WHamt K V St -> Prop :=
| wreachable_new st σ : wreachable (wnew st σ)
| wreachable_insert wfuel fuel w key value w' old :
    wreachable w -> Z.of_nat (hsize (wheap w) + fuel) + 5 < ALLOC_LIMIT ->
    winsert wfuel fuel w key value = Done (w', old) -> wreachable w'.

End Runs.

Section Refine.
Context {K V H St P : Type} `{EqDecision K} `{HashStream.Hasher H} `{!Hamt.BuildHasher St H}
  `{!Hamt.Hash K H} `{Alloc} `{!AllocLaws}
  `{pool : !FreeList.Pool (Node.Node K V) P} `{pool_laws : !FreeList.PoolLaws (Node.Node K V) P}.

Lemma wnew_repr (st : St) (σ : Heap K V) : wrepr (wnew st σ) (Hamt.root (Hamt.new (P := P) st)).
Proof. split; [apply repr_empty|]. split; [constructor | apply wpool_new_inv]. Qed.

(** C33: the empty map (spec section 8): [Hamt::new()] is well formed and
    [get] finds nothing in it; on the words, over any heap, the map
    [Hamt::new()] builds stands for it with the ownership invariant, is
    a state programs reach, and [Hamt::get] on it returns [None] for
    every key, with any fuel. *)
Theorem wnew_get (st : St) (σ : Heap K V) (key : K) (gfuel : nat) :
  Hamt.hamt_wf (Hamt.new (P := P) st) /\ Hamt.get (Hamt.new (P := P) st) key = Done None /\
  wrepr (wnew st σ) (Hamt.root (Hamt.new (P := P) st)) /\ wreachable (wnew st σ) /\
  wget (S gfuel) (wnew st σ) key = Done None.
Proof.
  split; [apply Hamt.new_hamt_wf|]. split; [reflexivity|].
  split; [apply wnew_repr|]. split; [constructor | reflexivity].
Qed.


(** C8: every state a program reaches on the words by [Hamt::new] and
    inserts that return (within the addressable cells) stands for a
    trie reachable by [Hamt.new] and [Hamt.insert], which is well formed;
    the ownership invariant holds, and [Hamt::get] on the words, with
    fuel above the trie's depth, returns the trie's lookup for every
    key. *)
Theorem wreachable_inv (w : @WHamt K V St) :
  wreachable w ->
  exists h : @Hamt.Hamt K V St P, Hamt.reachable h /\ Hamt.hamt_wf h /\ wrepr w (Hamt.root h) /\
    wstate w = Hamt.state h /\
    forall key gfuel, (depth (Hamt.root h) < gfuel)%nat -> wget gfuel w key = Done (Hamt.lookup h key).
Proof.
  intros Hr.
  assert (Hinv : exists h : @Hamt.Hamt K V St P,
             Hamt.reachable h /\ Hamt.hamt_wf h /\ wrepr w (Hamt.root h) /\ wstate w = Hamt.state h).
  { induction Hr as [st σ | wfuel fuel w key value w' old _ IH Hs Hw].
    - exists (Hamt.new st). split; [constructor|]. split; [apply Hamt.new_hamt_wf|]. by split; [apply wnew_repr|].
    - destruct IH as (h & Hrh & Hwf & Hrep & Hst).
      destruct (winsert_back_sim h w w' wfuel fuel key value old Hwf Hrep Hst Hs Hw) as (h' & Hins & Hrep' & Hst').
      exists h'. split; [by eapply Hamt.reachable_insert|].
      split; [by destruct (Hamt.insert_done fuel h h' key value old Hwf Hins) as (_ & ? & _)|]. done. }
  destruct Hinv as (h & Hrh & Hwf & Hrep & Hst). exists h. do 4 (split; [done|]).
  intros key gfuel Hg. rewrite (wget_sim gfuel w _ key (proj1 Hrep) Hg), Hst.
  exact (Hamt.get_lookup h key Hwf).
Qed.

End Refine.

End WordMap.
