(* ===== verification/Scenarios.v ===== *)
(** * Scenarios: the trie on a concrete hasher

    The crate hashes with [RandomState] (SipHash with a random key),
    which the development does not model.  This file instantiates the
    [Hasher], [BuildHasher] and [Hash] classes with a small deterministic
    FNV-style hasher over [i32] keys (the key type of the crate's test),
    so that the theorems of Hamt.v can be applied to concrete maps and
    the crate's [insert_get] test can be replayed at its own size.  The
    concrete maps: [map1] (one key), [map1_overwritten] (the same
    contents by another history), the keys 1 and 209 that share two
    index levels, and pair keys hashed by their first component only,
    whose index streams coincide at every depth.  The test loop is proved
    to succeed for any number of separated keys ([insert_get_loop_ok]);
    for the test's 5000 keys the separation is checked by sorting one
    code per key (the low 60 bits of its first digest, which hold its
    first ten indices) instead of comparing every pair.  The word-level
    insert of WordInsert.v is run from the empty words [wempty] with the
    first-fit allocator: the first insert refines [Hamt.insert], and the
    second one, which splits the first key's leaf, leaves that leaf's two
    boxes allocated and owned by nothing (an instance of
    [WordInsert.winsert_split_leaks]).  The
    crate's test is also stated on the words ([winsert_get_loop]) and
    proved to succeed for separated keys ([winsert_get_loop_ok]). *)

From Stdlib Require Orders Mergesort.
From S2P Require Import Prelude BitMap HashStream FreeList Node Hamt NodeRepr WordHeap WordInsert WordMap.

Module Scenarios.
Local Open Scope Z_scope.

(** The crate's pool: [FreeList<Node<K, V>>]. *)
#[export] Existing Instances FreeList.free_list_pool FreeList.free_list_pool_laws.

(** The hasher state: one 64-bit accumulator. *)
Record Fnv := mk_fnv { fnv_state : Z }.

Definition FNV_OFFSET : Z := 0xcbf29ce484222325.
Definition FNV_PRIME : Z := 0x100000001b3.

Definition fnv_finish (h : Fnv) : Z :=
  let x := fnv_state h in
  Z.land (Z.lxor x (Z.shiftr x 29) * 0x9E3779B97F4A7C15) (Z.ones 64).

Lemma fnv_finish_range h : in_width 64 (fnv_finish h).
Proof.
  unfold fnv_finish, in_width. rewrite Z.land_ones by lia.
  apply Z.mod_pos_bound. lia.
Qed.

#[export] Instance fnv_hasher : HashStream.Hasher Fnv := {
  finish h := (fnv_finish h, h);
  write_u8 b h := mk_fnv (Z.land (Z.lxor (fnv_state h) b * FNV_PRIME) (Z.ones 64));
  finish_range h := fnv_finish_range h
}.

#[export] Instance fnv_build : Hamt.BuildHasher unit Fnv := fun _ => mk_fnv FNV_OFFSET.

(** [i32::hash]: the four little-endian bytes of the key. *)
#[export] Instance i32_hash : Hamt.Hash Z Fnv := fun k h =>
  let byte n := Z.land (Z.shiftr k (8 * n)) 255 in
  HashStream.write_u8 (byte 3) (HashStream.write_u8 (byte 2)
    (HashStream.write_u8 (byte 1) (HashStream.write_u8 (byte 0) h))).

Definition M := @Hamt.Hamt Z Z unit (@FreeList.FreeList (Node.Node Z Z)).

Definition empty_map : M := Hamt.new tt.

(** The pairs [(i, i)] for [i] in [0 .. n). *)
Definition diagonal (n : nat) : list (Z * Z) := map (fun i => (Z.of_nat i, Z.of_nat i)) (seq 0 n).

(** The crate's [insert_get] test: insert [i] for [i] in [0 .. n), and
    after each insertion check [get(a) == Some(a)] for every [a <= i]. *)
Fixpoint insert_get_loop (fuel : nat) (h : M) (i : nat) (rest : nat) : outcome bool :=
  match rest with
  | O => Done true
  | S rest' =>
      let? (h', _) := Hamt.insert fuel h (Z.of_nat i) (Z.of_nat i) in
      if forallb (fun a => bool_decide (Hamt.get h' (Z.of_nat a) = Done (Some (Z.of_nat a))))
                 (seq 0 (S i))
      then insert_get_loop fuel h' (S i) rest'
      else Done false
  end.

(** The map after [insert(1, 10)] into the empty map. *)
Definition map1 : M :=
  match Hamt.insert 11 empty_map 1 10 with Done (h, _) => h | Fault _ => empty_map end.

Lemma map1_wf : Hamt.hamt_wf map1.
Proof.
  destruct (Hamt.insert_correct 11 empty_map 1 10) as (h & Hh & Hwf & _).
  - apply Hamt.new_hamt_wf.
  - apply Hamt.keys_separatedb_sound. vm_compute. reflexivity.
  - unfold map1. rewrite Hh. exact Hwf.
Qed.

(** The same contents by another history: [insert(1, 5)], then
    [insert(1, 10)] overwrites the value. *)
Definition map1_first : M :=
  match Hamt.insert 11 empty_map 1 5 with Done (h, _) => h | Fault _ => empty_map end.

Definition map1_overwritten : M :=
  match Hamt.insert 11 map1_first 1 10 with Done (h, _) => h | Fault _ => empty_map end.

Lemma map1_first_wf : Hamt.hamt_wf map1_first.
Proof.
  destruct (Hamt.insert_correct 11 empty_map 1 5) as (h & Hh & Hwf & _).
  - apply Hamt.new_hamt_wf.
  - apply Hamt.keys_separatedb_sound. vm_compute. reflexivity.
  - unfold map1_first. rewrite Hh. exact Hwf.
Qed.

Lemma map1_overwritten_wf : Hamt.hamt_wf map1_overwritten.
Proof.
  destruct (Hamt.insert_correct 11 map1_first 1 10) as (h & Hh & Hwf & _).
  - apply map1_first_wf.
  - apply Hamt.keys_separatedb_sound. vm_compute. reflexivity.
  - unfold map1_overwritten. rewrite Hh. exact Hwf.
Qed.

(** Keys whose [Hash] impl feeds only the first component while [Eq]
    compares both, which Rust allows ([k1 == k2] must imply equal hashes,
    not the converse): [(1, 0)] and [(1, 1)] collide at every depth. *)
#[export] Instance pair_hash : Hamt.Hash (Z * Z) Fnv := fun k h => i32_hash k.1 h.

Definition PM := @Hamt.Hamt (Z * Z) Z unit (@FreeList.FreeList (Node.Node (Z * Z) Z)).

(** The map after [insert((1, 0), 10)] into the empty map. *)
Definition pmap1 : PM :=
  match Hamt.insert 11 (Hamt.new tt) (1, 0) 10 with Done (h, _) => h | Fault _ => Hamt.new tt end.

Lemma pmap1_wf : Hamt.hamt_wf pmap1.
Proof.
  destruct (Hamt.insert_correct 11 (Hamt.new (K := Z * Z) (V := Z) (P := @FreeList.FreeList (Node.Node (Z * Z) Z)) tt) (1, 0) 10)
    as (h & Hh & Hwf & _).
  - apply Hamt.new_hamt_wf.
  - apply Hamt.keys_separatedb_sound. vm_compute. reflexivity.
  - unfold pmap1. rewrite Hh. exact Hwf.
Qed.

(** ** The [insert_get] test at any size *)

(** C34: the crate's [insert_get] loop succeeds from any well-formed map
    that holds exactly [a -> a] for the keys [a < i], whenever the keys
    [0 .. i + n) are separated within the fuel: every insertion returns
    and every [get] of the inner loop finds its key. *)
Lemma insert_get_loop_ok (fuel n i : nat) (h : M) :
  Hamt.hamt_wf h -> Hamt.state h = tt ->
  (forall a, (a < i)%nat -> Hamt.lookup h (Z.of_nat a) = Some (Z.of_nat a)) ->
  (forall k, k ∈ Hamt.keys h -> exists a, (a < i)%nat /\ k = Z.of_nat a) ->
  Hamt.keys_separated tt fuel (map Z.of_nat (seq 0 (i + n))) ->
  insert_get_loop fuel h i n = Done true.
Proof.
  revert i h. induction n as [|n IH]; intros i h Hwf Hst Hl Hk Hsep; [done|].
  assert (Hin : forall a, (a < i + S n)%nat -> Z.of_nat a ∈ map Z.of_nat (seq 0 (i + S n)))
    by (intros a Ha; apply list_elem_of_fmap_2, elem_of_seq; lia).
  destruct (Hamt.insert_correct fuel h (Z.of_nat i) (Z.of_nat i)) as (h' & Hins & Hwf' & Hst' & Hl');
    [done| |].
  { rewrite Hst. eapply Hamt.keys_separated_sub; [exact Hsep|].
    intros k [-> | (a & Ha & ->)%Hk]%elem_of_cons; apply Hin; lia. }
  assert (Hl2 : forall a, (a < S i)%nat -> Hamt.lookup h' (Z.of_nat a) = Some (Z.of_nat a)).
  { intros a Ha. rewrite Hl'. case_decide as Hai; [by rewrite Hai|].
    apply Hl. assert (a <> i) by (intros ->; done). lia. }
  cbn [insert_get_loop]. rewrite Hins, obind_ret.
  replace (forallb _ _) with true.
  2:{ symmetry. apply forallb_forall. intros a Ha%in_seq.
      apply bool_decide_eq_true_2. rewrite Hamt.get_lookup by done. f_equal. apply Hl2. lia. }
  apply IH; [done | congruence | done | |].
  - intros k Hk'. destruct (Hamt.keys_insert fuel h h' _ _ Hl' k Hk') as [-> | (a & Ha & ->)%Hk].
    + exists i. split; [lia | done].
    + exists a. split; [lia | done].
  - by replace (S i + n)%nat with (i + S n)%nat by lia.
Qed.

(** ** A fast separation check

    [keys_separatedb] compares every pair of keys.  For thousands of keys
    it is cheaper to code the first [fuel] indices of each key as one
    integer, sort the codes and check that they strictly increase: keys
    with different codes differ at some index below [fuel]. *)
Module ZLeb <: Orders.TotalLeBool.
Definition t := Z.
Definition leb := Z.leb.
Lemma leb_total a1 a2 : leb a1 a2 = true \/ leb a2 a1 = true.
Proof. unfold leb. destruct (Z.leb_spec a1 a2); [by left | right; apply Z.leb_le; lia]. Qed.
End ZLeb.

Module ZSort := Mergesort.Sort ZLeb.

(** The first ten indices of a key are the low 60 bits of its first
    digest, six bits each. *)
Definition prefix_code (k : Z) : Z :=
  Z.land (HashStream.digest (Hamt.key_hasher tt k) 0) (Z.ones 60).

Fixpoint strictly_increasing (l : list Z) : bool :=
  match l with
  | x :: ((y :: _) as l') => (x <? y) && strictly_increasing l'
  | _ => true
  end.

Lemma strictly_increasing_cons x l :
  strictly_increasing (x :: l) = true -> Forall (fun y => x < y) l /\ strictly_increasing l = true.
Proof.
  revert x. induction l as [|y l IH]; intros x Hs; [done|].
  apply andb_true_iff in Hs as [Hxy%Z.ltb_lt Hs].
  destruct (IH y Hs) as [Hf _]. split; [|done].
  constructor; [done|]. eapply Forall_impl; [exact Hf|]. simpl; lia.
Qed.

Lemma strictly_increasing_NoDup l : strictly_increasing l = true -> NoDup l.
Proof.
  induction l as [|x l IH]; intros Hs; [constructor|].
  destruct (strictly_increasing_cons x l Hs) as [Hf Hl].
  apply NoDup_cons. split; [|by apply IH].
  intros Hx. rewrite Forall_forall in Hf. specialize (Hf x Hx). lia.
Qed.

Lemma prefix_code_testbit k (t : nat) : (t < 60)%nat ->
  Z.testbit (prefix_code k) (Z.of_nat t) =
  Z.testbit (Z.of_nat (Hamt.idx tt k (t / 6))) (Z.of_nat (t mod 6)).
Proof.
  intros Ht. unfold prefix_code, Hamt.idx, HashStream.index, HashStream.ref_index.
  rewrite Z2Nat.id by apply HashStream.gather_nonneg.
  rewrite Z.land_spec, Z.ones_spec_low, andb_true_r, HashStream.gather_testbit by lia.
  replace (6 * (t / 6) + t mod 6)%nat with t by (pose proof (Nat.div_mod_eq t 6); lia).
  replace (t mod 6 <? 6)%nat with true by (symmetry; apply Nat.ltb_lt, Nat.mod_upper_bound; lia).
  unfold HashStream.stream_bit. by rewrite Nat.div_small, Nat.mod_small by lia.
Qed.

Lemma prefix_code_high k (t : Z) : 60 <= t -> Z.testbit (prefix_code k) t = false.
Proof. intros Ht. unfold prefix_code. by rewrite Z.land_spec, Z.ones_spec_high, andb_false_r by lia. Qed.

(** Keys with different codes differ at one of their first ten indices. *)
Lemma prefix_codes_separate ks :
  strictly_increasing (ZSort.sort (map prefix_code ks)) = true ->
  Hamt.keys_separated tt 10 ks.
Proof.
  intros Hs k1 k2 H1 H2 Hne.
  assert (Hnd : NoDup (map prefix_code ks))
    by (rewrite (ZSort.Permuted_sort (map prefix_code ks)); by apply strictly_increasing_NoDup).
  destruct (nat_fun_agree_or_differ (Hamt.idx tt k1) (Hamt.idx tt k2) 10) as [Hall|]; [|done].
  destruct Hne. apply (NoDup_fmap_inj_on prefix_code ks); [done..|].
  apply Z.bits_inj'. intros n Hn. rewrite <- (Z2Nat.id n) by done.
  destruct (decide (Z.to_nat n < 60)%nat) as [Ht|Ht].
  - rewrite !prefix_code_testbit, Hall by (try apply Nat.Div0.div_lt_upper_bound; lia). done.
  - rewrite !prefix_code_high by lia. done.
Qed.

(** ** The word-level insert on the same hasher *)

(** The allocator: first fit over even addresses. *)
#[export] Existing Instances WordHeap.WordHeap.first_fit_alloc WordHeap.WordHeap.first_fit_laws.

(** [Hamt::new()] on the words: the root [Node::empty()], an empty
    heap and an empty free list. *)
Definition wempty : @WordInsert.WordInsert.WHamt Z Z unit :=
  WordMap.WordMap.wnew tt (NodeRepr.NodeRepr.mk_heap ∅ ∅ ∅).

(** The words after inserting [(1, 10)], then [(2, 20)]. *)
Definition wmap1 : @WordInsert.WordInsert.WHamt Z Z unit :=
  match WordInsert.WordInsert.winsert 2 11 wempty 1 10 with Done (w, _) => w | Fault _ => wempty end.

Definition wmap12 : @WordInsert.WordInsert.WHamt Z Z unit :=
  match WordInsert.WordInsert.winsert 3 11 wmap1 2 20 with Done (w, _) => w | Fault _ => wempty end.

Definition map12 : M :=
  match Hamt.insert 11 map1 2 20 with Done (h, _) => h | Fault _ => empty_map end.

Lemma wempty_repr : WordInsert.WordInsert.wrepr wempty (Hamt.root empty_map).
Proof. apply WordMap.WordMap.wnew_repr. Qed.

(** The crate's [insert_get] test on the words: [hamt.insert(i, i)],
    then [get(a) == Some(a)] for every [a <= i], with walk fuels [wfuel]
    for [insert] and [gfuel] for [get]. *)
Fixpoint winsert_get_loop (wfuel gfuel fuel : nat) (w : @WordInsert.WordInsert.WHamt Z Z unit)
    (i : nat) (rest : nat) : outcome bool :=
  match rest with
  | O => Done true
  | S rest' =>
      let? (w', _) := WordInsert.WordInsert.winsert wfuel fuel w (Z.of_nat i) (Z.of_nat i) in
      if forallb (fun a => bool_decide (WordMap.WordMap.wget gfuel w' (Z.of_nat a) = Done (Some (Z.of_nat a))))
                 (seq 0 (S i))
      then winsert_get_loop wfuel gfuel fuel w' (S i) rest'
      else Done false
  end.

(** C10: the crate's [insert_get] test on the words (the prefix-growth
    property of spec section 8): from words standing for a well-formed
    map that holds exactly [a -> a] for the keys [a < i], whenever the
    keys [0 .. i + n) are separated within the split loop's fuel, the
    walks' fuel exceeds the depth [n] inserts can reach ([fuel] levels
    each) and the heap has room for their cells ([fuel + 5] each), every
    word-level insertion returns and every [get] on the words finds its
    key. *)
Lemma winsert_get_loop_ok (wfuel gfuel fuel n i : nat) (h : M) (w : @WordInsert.WordInsert.WHamt Z Z unit) :
  Hamt.hamt_wf h -> Hamt.state h = tt ->
  WordInsert.WordInsert.wrepr w (Hamt.root h) -> WordInsert.WordInsert.wstate w = tt ->
  (forall a, (a < i)%nat -> Hamt.lookup h (Z.of_nat a) = Some (Z.of_nat a)) ->
  (forall k, k ∈ Hamt.keys h -> exists a, (a < i)%nat /\ k = Z.of_nat a) ->
  Hamt.keys_separated tt fuel (map Z.of_nat (seq 0 (i + n))) ->
  (NodeRepr.NodeRepr.depth (Hamt.root h) + n * fuel < wfuel)%nat ->
  (NodeRepr.NodeRepr.depth (Hamt.root h) + n * fuel < gfuel)%nat ->
  Z.of_nat (WordInsert.WordInsert.hsize (WordInsert.WordInsert.wheap w) + n * (fuel + 5)) + 5
    < WordHeap.WordHeap.ALLOC_LIMIT ->
  winsert_get_loop wfuel gfuel fuel w i n = Done true.
Proof.
  revert i h w. induction n as [|n IH]; intros i h w Hwf Hst Hr Hwst Hl Hk Hsep Hwd Hgd Hs; [done|].
  rewrite Nat.mul_succ_l in Hwd, Hgd, Hs.
  assert (Hin : forall a, (a < i + S n)%nat -> Z.of_nat a ∈ map Z.of_nat (seq 0 (i + S n)))
    by (intros a Ha; apply list_elem_of_fmap_2, elem_of_seq; lia).
  destruct (Hamt.insert_correct fuel h (Z.of_nat i) (Z.of_nat i)) as (h' & Hins & Hwf' & Hst' & Hl');
    [done| |].
  { rewrite Hst. eapply Hamt.keys_separated_sub; [exact Hsep|].
    intros k [-> | (a & Ha & ->)%Hk]%elem_of_cons; apply Hin; lia. }
  destruct (WordInsert.WordInsert.winsert_sim fuel wfuel h h' w _ _ _ Hwf Hins Hr) as (w' & Hw & Hr' & Hwst');
    [by rewrite Hwst, Hst | lia | lia |].
  pose proof (WordMap.WordMap.insert_depth fuel h h' _ _ _ Hwf Hins) as Hd.
  pose proof (WordInsert.WordInsert.wloop_hsize (Z.of_nat i) (Z.of_nat i) fuel wfuel w w' WordInsert.WordInsert.PRoot _ 0 _ Hw)
    as Hsz.
  assert (Hl2 : forall a, (a < S i)%nat -> Hamt.lookup h' (Z.of_nat a) = Some (Z.of_nat a)).
  { intros a Ha. rewrite Hl'. case_decide as Hai; [by rewrite Hai|].
    apply Hl. assert (a <> i) by (intros ->; done). lia. }
  cbn [winsert_get_loop]. rewrite Hw, obind_ret.
  replace (forallb _ _) with true.
  2:{ symmetry. apply forallb_forall. intros a Ha%in_seq. apply bool_decide_eq_true_2.
      rewrite (WordMap.WordMap.wget_sim gfuel w' (Hamt.root h') _ (proj1 Hr')) by lia. rewrite Hwst'.
      change (Hamt.get h' (Z.of_nat a) = Done (Some (Z.of_nat a))).
      rewrite Hamt.get_lookup by done. f_equal. apply Hl2. lia. }
  apply (IH (S i) h' w'); [done | congruence | done | congruence | done | | | lia | lia | lia].
  - intros k Hk'. destruct (Hamt.keys_insert fuel h h' _ _ Hl' k Hk') as [-> | (a & Ha & ->)%Hk].
    + exists i. split; [lia | done].
    + exists a. split; [lia | done].
  - by replace (S i + n)%nat with (i + S n)%nat by lia.
Qed.

End Scenarios.

Import Scenarios.
Local Open Scope Z_scope.

(** The crate's [insert_get] test at its own size: 5000 keys, with the
    FNV-style hasher and fuel 10; the keys 0 .. 4999 are separated within
    10 index levels, which the sorted prefix codes show. *)
Lemma insert_get_loop_ok_witness :
  Hamt.hamt_wf empty_map /\ Hamt.state empty_map = tt /\
  Hamt.keys_separated tt 10 (map Z.of_nat (seq 0 (0 + 5000))) /\
  insert_get_loop 10 empty_map 0 5000 = Done true.
Proof.
  assert (Hsep : Hamt.keys_separated tt 10 (map Z.of_nat (seq 0 (0 + 5000))))
    by (apply prefix_codes_separate; vm_compute; reflexivity).
  split; [apply Hamt.new_hamt_wf|]. split; [done|]. split; [exact Hsep|].
  apply insert_get_loop_ok;
    [apply Hamt.new_hamt_wf | done | intros; lia | intros k Hk; by apply elem_of_nil in Hk | exact Hsep].
Defined.

Lemma get_spec_witness :
  Hamt.hamt_wf map1 /\ Hamt.get map1 1 = Done (Hamt.lookup map1 1).
Proof. split; [apply map1_wf | apply Hamt.get_spec, map1_wf]. Defined.

Lemma insert_spec_witness :
  Hamt.hamt_wf map1 /\ Hamt.keys_separated (Hamt.state map1) 11 (2 :: Hamt.keys map1) /\
  exists h' old, Hamt.insert 11 map1 2 20 = Done (h', old) /\ Hamt.get map1 2 = Done old /\
    Hamt.hamt_wf h' /\ Hamt.get h' 2 = Done (Some 20) /\
    forall k, k <> 2 -> Hamt.get h' k = Hamt.get map1 k.
Proof.
  assert (Hsep : Hamt.keys_separated (Hamt.state map1) 11 (2 :: Hamt.keys map1))
    by (apply Hamt.keys_separatedb_sound; vm_compute; reflexivity).
  split; [apply map1_wf|]. split; [exact Hsep|].
  apply Hamt.insert_spec; [apply map1_wf | exact Hsep].
Defined.

Lemma insert_all_spec_witness :
  Hamt.hamt_wf empty_map /\
  Hamt.keys_separated tt 11 ((diagonal 40).*1 ++ Hamt.keys empty_map) /\
  exists h', Hamt.insert_all 11 empty_map (diagonal 40) = Done h' /\ Hamt.hamt_wf h' /\
    forall k, Hamt.get h' k =
      match assoc k (rev (diagonal 40)) with Some v => Done (Some v) | None => Hamt.get empty_map k end.
Proof.
  assert (Hwf : Hamt.hamt_wf empty_map) by apply Hamt.new_hamt_wf.
  assert (Hsep : Hamt.keys_separated tt 11 ((diagonal 40).*1 ++ Hamt.keys empty_map))
    by (apply Hamt.keys_separatedb_sound; vm_compute; reflexivity).
  split; [done|]. split; [done|]. apply Hamt.insert_all_spec; done.
Defined.

(** Keys 1 and 209 draw the same index at depths 0 and 1 and different
    ones at depth 2: inserting 209 into [map1] builds two single-child
    branches above the two leaves. *)
Lemma insert_collision_chain_witness :
  Hamt.root map1 = Node.Leaf 1 10 /\ FreeList.pool_wf (Hamt.free_list map1) /\
  (forall m, (m < 2)%nat -> Hamt.idx (Hamt.state map1) 209 m = Hamt.idx (Hamt.state map1) 1 m) /\
  Hamt.idx (Hamt.state map1) 209 2 <> Hamt.idx (Hamt.state map1) 1 2 /\
  exists h', Hamt.insert 11 map1 209 2090 = Done (h', None) /\
    Hamt.root h' = Hamt.chain (Hamt.state map1) 209 0 2 (Hamt.pair_node (Hamt.state map1) 2 209 2090 1 10) /\
    Hamt.get h' 209 = Done (Some 2090) /\ Hamt.get h' 1 = Done (Some 10).
Proof.
  assert (Hr : Hamt.root map1 = Node.Leaf 1 10) by (vm_compute; reflexivity).
  assert (Hfl : FreeList.pool_wf (Hamt.free_list map1)) by (destruct map1_wf; done).
  assert (Hp : forall m, (m < 2)%nat -> Hamt.idx (Hamt.state map1) 209 m = Hamt.idx (Hamt.state map1) 1 m)
    by (intros [|[|m]] Hm; [vm_compute; reflexivity | vm_compute; reflexivity | lia]).
  assert (Hd : Hamt.idx (Hamt.state map1) 209 2 <> Hamt.idx (Hamt.state map1) 1 2)
    by (intros Heq; vm_compute in Heq; discriminate Heq).
  do 4 (split; [done|]). apply Hamt.insert_collision_chain; [done | done | done | done | lia].
Defined.

(** Key 209 is told apart from key 1 at depth 2: every run of the split
    loop with enough rounds inserts it into [map1]. *)
Lemma insert_eventually_returns_witness :
  Hamt.hamt_wf map1 /\
  (forall k, k ∈ Hamt.keys map1 -> k <> 209 -> exists m, Hamt.idx (Hamt.state map1) 209 m <> Hamt.idx (Hamt.state map1) k m) /\
  exists N, forall fuel, (N <= fuel)%nat ->
    exists h' old, Hamt.insert fuel map1 209 2090 = Done (h', old) /\ Hamt.get map1 209 = Done old /\
      Hamt.hamt_wf h' /\ Hamt.get h' 209 = Done (Some 2090) /\
      forall k, k <> 209 -> Hamt.get h' k = Hamt.get map1 k.
Proof.
  assert (Hd : forall k, k ∈ Hamt.keys map1 -> k <> 209 ->
            exists m, Hamt.idx (Hamt.state map1) 209 m <> Hamt.idx (Hamt.state map1) k m).
  { intros k Hk _. assert (Hks : Hamt.keys map1 = [1]) by (vm_compute; reflexivity).
    rewrite Hks in Hk. apply list_elem_of_singleton in Hk as ->.
    exists 2%nat. intros Heq. vm_compute in Heq. discriminate Heq. }
  split; [apply map1_wf|]. split; [exact Hd|].
  exact (Hamt.insert_eventually_returns map1 209 2090 map1_wf Hd).
Defined.

(** Inserting [(1, 1)] next to [(1, 0)]: the model runs out of any fuel,
    here 100 rounds of the split loop. *)
Lemma insert_full_collision_diverges_witness :
  Hamt.root pmap1 = Node.Leaf (1, 0) 10 /\ FreeList.pool_wf (Hamt.free_list pmap1) /\
  (1, 0) <> (1, 1) /\
  (forall m, Hamt.idx (Hamt.state pmap1) (1, 1) m = Hamt.idx (Hamt.state pmap1) (1, 0) m) /\
  Hamt.insert 100 pmap1 (1, 1) 11 = Fault OutOfFuel.
Proof.
  assert (Hr : Hamt.root pmap1 = Node.Leaf (1, 0) 10) by (vm_compute; reflexivity).
  assert (Hfl : FreeList.pool_wf (Hamt.free_list pmap1)) by (destruct pmap1_wf; done).
  assert (Hne : ((1, 0) : Z * Z) <> (1, 1)) by (intros [=]).
  assert (Hall : forall m, Hamt.idx (Hamt.state pmap1) (1, 1) m = Hamt.idx (Hamt.state pmap1) (1, 0) m)
    by (intros m; reflexivity).
  do 4 (split; [done|]). exact (Hamt.insert_full_collision_diverges 100 pmap1 (1, 1) (1, 0) 11 10 Hr Hfl Hne Hall).
Defined.

(** [map1] is reachable: it is [Hamt::new()] after one insert. *)
Lemma reachable_wf_witness :
  Hamt.reachable map1 /\ Hamt.hamt_wf map1 /\ forall key, Hamt.get map1 key = Done (Hamt.lookup map1 key).
Proof.
  assert (Hr : Hamt.reachable map1).
  { apply (Hamt.reachable_insert 11 empty_map 1 10 map1 None); [apply Hamt.reachable_new|].
    vm_compute. reflexivity. }
  split; [exact Hr|]. exact (Hamt.reachable_wf map1 Hr).
Defined.

(** The first insert on the empty words. *)
Lemma winsert_refines_witness :
  Hamt.hamt_wf empty_map /\ Hamt.insert 11 empty_map 1 10 = Done (map1, None) /\
  exists w', WordInsert.WordInsert.winsert 2 11 wempty 1 10 = Done (w', None) /\
    WordInsert.WordInsert.wrepr w' (Hamt.root map1) /\ WordInsert.WordInsert.wstate w' = Hamt.state map1.
Proof.
  assert (Hwf : Hamt.hamt_wf empty_map) by apply Hamt.new_hamt_wf.
  assert (Hins : Hamt.insert 11 empty_map 1 10 = Done (map1, None)) by (vm_compute; reflexivity).
  split; [exact Hwf|]. split; [exact Hins|].
  apply (WordInsert.WordInsert.winsert_refines 11 2 empty_map map1 wempty 1 10 None Hwf Hins wempty_repr);
    [reflexivity | simpl; lia | vm_compute; reflexivity].
Defined.

(** The first insert on the empty words, through the contents. *)
Lemma winsert_correct_witness :
  Hamt.hamt_wf empty_map /\ Hamt.keys_separated (Hamt.state empty_map) 11 (1 :: Hamt.keys empty_map) /\
  exists w' h', WordInsert.WordInsert.winsert 2 11 wempty 1 10 = Done (w', Hamt.lookup empty_map 1) /\
    WordInsert.WordInsert.wrepr w' (Hamt.root h') /\ Hamt.hamt_wf h' /\
    forall k, Hamt.lookup h' k = if decide (k = 1) then Some 10 else Hamt.lookup empty_map k.
Proof.
  assert (Hwf : Hamt.hamt_wf empty_map) by apply Hamt.new_hamt_wf.
  assert (Hsep : Hamt.keys_separated (Hamt.state empty_map) 11 (1 :: Hamt.keys empty_map))
    by (apply Hamt.keys_separatedb_sound; vm_compute; reflexivity).
  split; [exact Hwf|]. split; [exact Hsep|].
  apply (WordInsert.WordInsert.winsert_correct 11 2 empty_map wempty 1 10 Hwf Hsep wempty_repr);
    [reflexivity | simpl; lia | vm_compute; reflexivity].
Defined.

(** Insert then get on the empty words. *)
Lemma winsert_get_witness :
  Hamt.hamt_wf empty_map /\ Hamt.keys_separated (Hamt.state empty_map) 11 (1 :: Hamt.keys empty_map) /\
  exists w' (n' : Node.Node Z Z), WordInsert.WordInsert.winsert 2 11 wempty 1 10 = Done (w', Hamt.lookup empty_map 1) /\
    forall k gfuel, (NodeRepr.NodeRepr.depth n' < gfuel)%nat ->
      (let? o := NodeRepr.NodeRepr.get_repr gfuel (WordInsert.WordInsert.wheap w') k
                   (Hamt.key_hash (WordInsert.WordInsert.wstate w') k) (WordInsert.WordInsert.wroot w') in
       Done (o ≫= fun vp => NodeRepr.NodeRepr.hvals (WordInsert.WordInsert.wheap w') !! vp)) =
      Done (if decide (k = 1) then Some 10 else Hamt.lookup empty_map k).
Proof.
  assert (Hwf : Hamt.hamt_wf empty_map) by apply Hamt.new_hamt_wf.
  assert (Hsep : Hamt.keys_separated (Hamt.state empty_map) 11 (1 :: Hamt.keys empty_map))
    by (apply Hamt.keys_separatedb_sound; vm_compute; reflexivity).
  split; [exact Hwf|]. split; [exact Hsep|].
  apply (WordInsert.WordInsert.winsert_get 11 2 empty_map wempty 1 10 Hwf Hsep wempty_repr);
    [reflexivity | simpl; lia | vm_compute; reflexivity].
Defined.

(** The second insert on the words, run first: the trie's insert
    returns with it. *)
Lemma winsert_back_witness :
  Hamt.hamt_wf map1 /\ WordInsert.WordInsert.wrepr wmap1 (Hamt.root map1) /\
  WordInsert.WordInsert.wstate wmap1 = Hamt.state map1 /\
  Z.of_nat (WordInsert.WordInsert.hsize (WordInsert.WordInsert.wheap wmap1) + 11) + 5 < WordHeap.WordHeap.ALLOC_LIMIT /\
  WordInsert.WordInsert.winsert 3 11 wmap1 2 20 = Done (wmap12, None) /\
  exists h', Hamt.insert 11 map1 2 20 = Done (h', None) /\ WordInsert.WordInsert.wrepr wmap12 (Hamt.root h') /\
    WordInsert.WordInsert.wstate wmap12 = Hamt.state h'.
Proof.
  assert (Hw : WordInsert.WordInsert.winsert 2 11 wempty 1 10 = Done (wmap1, None)) by (vm_compute; reflexivity).
  assert (Hins : Hamt.insert 11 empty_map 1 10 = Done (map1, None)) by (vm_compute; reflexivity).
  destruct (WordInsert.WordInsert.winsert_back_sim empty_map wempty wmap1 2 11 1 10 None (Hamt.new_hamt_wf tt)
              wempty_repr eq_refl ltac:(vm_compute; reflexivity) Hw) as (h1 & Hh1 & Hr1 & Hs1).
  rewrite Hins in Hh1. injection Hh1 as <-.
  assert (Hs : Z.of_nat (WordInsert.WordInsert.hsize (WordInsert.WordInsert.wheap wmap1) + 11) + 5 < WordHeap.WordHeap.ALLOC_LIMIT)
    by (vm_compute; reflexivity).
  assert (Hw2 : WordInsert.WordInsert.winsert 3 11 wmap1 2 20 = Done (wmap12, None)) by (vm_compute; reflexivity).
  do 4 (split; [first [apply map1_wf | done]|]). split; [exact Hw2|].
  exact (WordInsert.WordInsert.winsert_back map1 wmap1 wmap12 3 11 2 20 None map1_wf Hr1 Hs1 Hs Hw2).
Defined.

(** [wmap1] is reached by [Hamt::new()] and one insert. *)
Lemma wreachable_inv_witness :
  WordMap.WordMap.wreachable wmap1 /\
  exists h : M, Hamt.reachable h /\ Hamt.hamt_wf h /\ WordInsert.WordInsert.wrepr wmap1 (Hamt.root h) /\
    WordInsert.WordInsert.wstate wmap1 = Hamt.state h /\
    forall key gfuel, (NodeRepr.NodeRepr.depth (Hamt.root h) < gfuel)%nat ->
      WordMap.WordMap.wget gfuel wmap1 key = Done (Hamt.lookup h key).
Proof.
  assert (Hr : WordMap.WordMap.wreachable wmap1).
  { apply (WordMap.WordMap.wreachable_insert 2 11 wempty 1 10 wmap1 None);
      [constructor | vm_compute; reflexivity | vm_compute; reflexivity]. }
  split; [exact Hr|]. exact (WordMap.WordMap.wreachable_inv (P := @FreeList.FreeList (Node.Node Z Z)) wmap1 Hr).
Defined.

(** With one round of the split loop, the second insert meets the bound:
    it adds the two leaves' four boxes and the pair array. *)
Lemma winsert_heap_bound_witness :
  exists w', WordInsert.WordInsert.winsert 3 1 wmap1 2 20 = Done (w', None) /\
    (WordInsert.WordInsert.hsize (WordInsert.WordInsert.wheap w') <=
       WordInsert.WordInsert.hsize (WordInsert.WordInsert.wheap wmap1) + 1 + 4)%nat /\
    WordInsert.WordInsert.hsize (WordInsert.WordInsert.wheap w') =
      (WordInsert.WordInsert.hsize (WordInsert.WordInsert.wheap wmap1) + 5)%nat.
Proof.
  destruct (WordInsert.WordInsert.winsert 3 1 wmap1 2 20) as [[w' o]|e] eqn:Hw; [|vm_compute in Hw; discriminate Hw].
  assert (Ho : o = None) by (vm_compute in Hw; congruence). subst o.
  exists w'. split; [done|]. split; [exact (WordInsert.WordInsert.winsert_heap_bound wmap1 w' 3 1 2 20 None Hw)|].
  vm_compute in Hw. injection Hw as <-. vm_compute. reflexivity.
Defined.

(** The crate's test on the words at its own size: 5000 keys from
    [Hamt::new()] on the empty heap, split-loop fuel 10 (the sorted
    prefix codes separate the keys), walk fuel 50002 (one level per
    insert and round). *)
Lemma winsert_get_loop_ok_witness :
  Hamt.hamt_wf empty_map /\ Hamt.state empty_map = tt /\
  WordInsert.WordInsert.wrepr wempty (Hamt.root empty_map) /\ WordInsert.WordInsert.wstate wempty = tt /\
  Hamt.keys_separated tt 10 (map Z.of_nat (seq 0 (0 + 5000))) /\
  (NodeRepr.NodeRepr.depth (Hamt.root empty_map) + 5000 * 10 < 5000 * 10 + 2)%nat /\
  Z.of_nat (WordInsert.WordInsert.hsize (WordInsert.WordInsert.wheap wempty) + 5000 * (10 + 5)) + 5
    < WordHeap.WordHeap.ALLOC_LIMIT /\
  winsert_get_loop (5000 * 10 + 2) (5000 * 10 + 2) 10 wempty 0 5000 = Done true.
Proof.
  assert (Hsep : Hamt.keys_separated tt 10 (map Z.of_nat (seq 0 (0 + 5000))))
    by (apply prefix_codes_separate; vm_compute; reflexivity).
  assert (Hd : (NodeRepr.NodeRepr.depth (Hamt.root empty_map) + 5000 * 10 < 5000 * 10 + 2)%nat)
    by (change (NodeRepr.NodeRepr.depth (Hamt.root empty_map)) with 1%nat; lia).
  assert (Hs : Z.of_nat (WordInsert.WordInsert.hsize (WordInsert.WordInsert.wheap wempty) + 5000 * (10 + 5)) + 5
                 < WordHeap.WordHeap.ALLOC_LIMIT) by (vm_compute; reflexivity).
  split; [apply Hamt.new_hamt_wf|]. split; [done|]. split; [exact wempty_repr|]. split; [done|].
  do 3 (split; [done|]).
  apply (winsert_get_loop_ok _ _ _ _ _ empty_map);
    [apply Hamt.new_hamt_wf | done | exact wempty_repr | done | intros; lia
    | intros k Hk; by apply elem_of_nil in Hk | exact Hsep | exact Hd | exact Hd | exact Hs].
Defined.

(** The second insert splits the leaf of key 1 at the root of [map1]:
    the boxes at address 2, where the first insert put key 1 and value
    10, stay allocated and owned by nothing. *)
Lemma winsert_split_leaks_witness :
  Hamt.hamt_wf map1 /\ Hamt.root map1 = Node.Leaf 1 10 /\ (1 : Z) <> 2 /\
  Hamt.insert 11 map1 2 20 = Done (map12, None) /\
  WordInsert.WordInsert.wrepr wmap1 (Hamt.root map1) /\
  WordInsert.WordInsert.wstate wmap1 = Hamt.state map1 /\ (0 < 3)%nat /\
  Z.of_nat (WordInsert.WordInsert.hsize (WordInsert.WordInsert.wheap wmap1) + 11) + 5 < WordHeap.WordHeap.ALLOC_LIMIT /\
  exists w', WordInsert.WordInsert.winsert 3 11 wmap1 2 20 = Done (w', None) /\
    WordInsert.WordInsert.wrepr w' (Hamt.root map12) /\
    NodeRepr.NodeRepr.hkeys (WordInsert.WordInsert.wheap w') !! NodeRepr.NodeRepr.map_key (WordInsert.WordInsert.wroot wmap1) = Some 1 /\
    NodeRepr.NodeRepr.hvals (WordInsert.WordInsert.wheap w') !! NodeRepr.NodeRepr.base_value (WordInsert.WordInsert.wroot wmap1) = Some 10 /\
    WordHeap.WordHeap.LKey (NodeRepr.NodeRepr.map_key (WordInsert.WordInsert.wroot wmap1))
      ∉ WordHeap.WordHeap.fp (WordInsert.WordInsert.wheap w') (WordInsert.WordInsert.wroot w') (Hamt.root map12)
        ++ WordHeap.WordHeap.pool_locs (WordInsert.WordInsert.wpool w') /\
    WordHeap.WordHeap.LVal (NodeRepr.NodeRepr.base_value (WordInsert.WordInsert.wroot wmap1))
      ∉ WordHeap.WordHeap.fp (WordInsert.WordInsert.wheap w') (WordInsert.WordInsert.wroot w') (Hamt.root map12)
        ++ WordHeap.WordHeap.pool_locs (WordInsert.WordInsert.wpool w').
Proof.
  assert (Hw : WordInsert.WordInsert.winsert 2 11 wempty 1 10 = Done (wmap1, None)) by (vm_compute; reflexivity).
  assert (Hins : Hamt.insert 11 empty_map 1 10 = Done (map1, None)) by (vm_compute; reflexivity).
  destruct (WordInsert.WordInsert.winsert_back_sim empty_map wempty wmap1 2 11 1 10 None (Hamt.new_hamt_wf tt)
              wempty_repr eq_refl ltac:(vm_compute; reflexivity) Hw) as (h1 & Hh1 & Hr1 & Hs1).
  rewrite Hins in Hh1. injection Hh1 as <-.
  assert (Hroot : Hamt.root map1 = Node.Leaf 1 10) by (vm_compute; reflexivity).
  assert (Hne : (1 : Z) <> 2) by lia.
  assert (Hi2 : Hamt.insert 11 map1 2 20 = Done (map12, None)) by (vm_compute; reflexivity).
  assert (Hs : Z.of_nat (WordInsert.WordInsert.hsize (WordInsert.WordInsert.wheap wmap1) + 11) + 5
                 < WordHeap.WordHeap.ALLOC_LIMIT) by (vm_compute; reflexivity).
  do 8 (split; [first [apply map1_wf | done | lia]|]).
  exact (WordInsert.WordInsert.winsert_split_leaks 11 3 map1 map12 wmap1 1 10 2 20 None
           map1_wf Hroot Hne Hi2 Hr1 Hs1 ltac:(lia) Hs).
Defined.
